(** * Frisbee / imagezip: the image codec core

    A shallow embedding of the relocation table ([libndz/reloc.c]), of the
    magic check of [imagedump.c] and of the hash-map delta engine
    ([hashmap/hashmap.c]), with the properties the specification states
    about them.

    Conventions.  C integers are [Z]; where the source computes in a fixed
    width the wrap-around is written with [u32] and [u64].  A pointer that
    may be [NULL] is an [option].  A call returns ([Ret]), stops at a
    failed [assert] ([AssertFail]), or leaves defined behaviour
    ([Undefined]: a read of memory the program never wrote, a division by
    zero).  Loops that follow pointers take a bound on their iterations and
    end in [NoFuel] when it does not suffice. *)

From Stdlib Require Import ZArith Lia Bool List String Sorted.
From stdpp Require Import base numbers option list gmap.

Local Open Scope Z_scope.

(* ===================================================================== *)
(** * Part I.  Definitions                                                *)
(* ===================================================================== *)

(** ** Machine integers *)

Definition u32 (x : Z) : Z := x mod 2 ^ 32.
Definition u64 (x : Z) : Z := x mod 2 ^ 64.
Definition UINT32_MAX : Z := 2 ^ 32 - 1.

(** ** Results of a call *)

Inductive outcome (A : Type) : Type :=
| Ret (a : A)
| AssertFail
| Undefined
| NoFuel.
Arguments Ret {A} a.
Arguments AssertFail {A}.
Arguments Undefined {A}.
Arguments NoFuel {A}.

#[global] Instance outcome_ret : MRet outcome := fun A a => Ret a.
#[global] Instance outcome_bind : MBind outcome := fun A B k m =>
  match m with
  | Ret a => k a
  | AssertFail => AssertFail
  | Undefined => Undefined
  | NoFuel => NoFuel
  end.

(** [assert(b)] *)
Definition assert (b : bool) : outcome unit :=
  if b then Ret tt else AssertFail.

(** ** imagehdr.h *)

Definition COMPRESSED_MAGIC_BASE : Z := 0x69696969.
Definition COMPRESSED_V1 : Z := COMPRESSED_MAGIC_BASE + 0.
Definition COMPRESSED_V2 : Z := COMPRESSED_MAGIC_BASE + 1.
Definition COMPRESSED_V3 : Z := COMPRESSED_MAGIC_BASE + 2.
Definition COMPRESSED_V4 : Z := COMPRESSED_MAGIC_BASE + 3.
Definition COMPRESSED_V5 : Z := COMPRESSED_MAGIC_BASE + 4.
Definition COMPRESSED_V6 : Z := COMPRESSED_MAGIC_BASE + 5.
Definition COMPRESSED_MAGIC_CURRENT : Z := COMPRESSED_V5.

Definition UUID_LENGTH : Z := 16.
Definition CSUM_NONE : Z := 0.
Definition CSUM_SHA1 : Z := 1.
Definition CSUM_TYPE : Z := 0xFF.
Definition DEFAULTREGIONSIZE : Z := 4096.
Definition F_BLOCKSIZE : Z := 1024.
Definition F_BLOCKSPERCHUNK : Z := 1024.
Definition CHUNKSIZE : Z := F_BLOCKSIZE * F_BLOCKSPERCHUNK.
Definition SECSIZE : Z := 512.

(** [blockhdr_t] is [struct blockhdr_V5]; the V6 fields [dumpchunk] reads
    through a cast are kept in the same record. *)
Record blockhdr : Type := {
  hdr_magic : Z;
  hdr_size : Z;
  hdr_blockindex : Z;
  hdr_blocktotal : Z;
  hdr_regionsize : Z;
  hdr_regioncount : Z;
  hdr_firstsect : Z;
  hdr_lastsect : Z;
  hdr_reloccount : Z;
  hdr_firstsect64 : Z;
  hdr_lastsect64 : Z;
  hdr_imageid : list Z;
  hdr_enc_cipher : Z;
  hdr_csum_type : Z
}.

(** [struct blockreloc_32] and [struct blockreloc_64] hold the same four
    fields in two widths; one record stands for both, the width being the
    table's [reloc32] flag. *)
Record blockreloc : Type := {
  r_type : Z;
  r_sector : Z;
  r_sectoff : Z;
  r_size : Z
}.

(** ** libndz/reloc.c *)

(** The relocation fields of [struct ndz_file].  [libndz.h] is not among
    the sources: [ndz_addr_t] and [ndz_size_t] are taken as the 64-bit
    unsigned type the debugging output prints them with, and the two
    address sentinels [NDZ_LOADDR] and [NDZ_HIADDR] are parameters. *)
Record ndz_file : Type := {
  reloc32 : bool;
  relocdata : option (list blockreloc);
  relocentries : Z;
  reloclo : Z;
  relochi : Z;
  sectsize : Z
}.

Section RelocCode.
Variables NDZ_LOADDR NDZ_HIADDR : Z.

Definition ndz_reloc_init (ndz : ndz_file) : ndz_file :=
  {| reloc32 := true;
     relocdata := None;
     relocentries := 0;
     reloclo := NDZ_HIADDR;
     relochi := NDZ_LOADDR;
     sectsize := sectsize ndz |}.

Definition ndz_reloc_free (ndz : option ndz_file) : option ndz_file :=
  match ndz with
  | Some n =>
      Some {| reloc32 := reloc32 n;
              relocdata := None;
              relocentries := 0;
              reloclo := reloclo n;
              relochi := relochi n;
              sectsize := sectsize n |}
  | None => None
  end.

(** The copy loop of [ndz_reloc_get]: [n] records are read from the chunk's
    buffer and written after the [acc] records the table already holds. *)
Fixpoint reloc_get_loop (n : nat) (chunkreloc : list blockreloc)
    (lo hi : Z) (acc : list blockreloc)
  : outcome (Z * Z * list blockreloc) :=
  match n with
  | O => Ret (lo, hi, acc)
  | S n' =>
      match chunkreloc with
      | [] => Undefined
      | r :: rest =>
          let rsector := r_sector r in
          let lo1 := if lo =? NDZ_HIADDR then rsector else lo in
          _ ← assert (lo1 <=? rsector);
          let hi1 := if hi <? rsector then rsector else hi in
          reloc_get_loop n' rest lo1 hi1 (acc ++ [r])
      end
  end.

(** [alloc_ok] tells whether the [malloc] or [realloc] of the call
    returns a block.  The size asked for is 0 when the new count [i], an
    [int], is 0.  A [realloc] of the table to the size 0 that returns
    [NULL] may have freed the block (the C library decides), which
    [ndz_reloc_free] then frees again. *)
Definition ndz_reloc_get (alloc_ok : bool) (ndz : option ndz_file)
    (hdr : option blockhdr) (buf : option (list blockreloc))
  : outcome (Z * option ndz_file) :=
  match ndz, hdr, buf with
  | Some n, Some h, Some chunkreloc =>
      if (hdr_magic h <? COMPRESSED_V2) || (hdr_reloccount h =? 0)
      then Ret (0, Some n)
      else
        let is32 := negb (COMPRESSED_V5 <=? hdr_magic h) in
        _ ← assert (match relocdata n with
                     | None => true
                     | Some _ => Bool.eqb is32 (reloc32 n)
                     end);
        let r32 := match relocdata n with
                   | None => is32
                   | Some _ => reloc32 n
                   end in
        let n1 := {| reloc32 := r32;
                     relocdata := relocdata n;
                     relocentries := relocentries n;
                     reloclo := reloclo n;
                     relochi := relochi n;
                     sectsize := sectsize n |} in
        if negb alloc_ok then
          match relocdata n with
          | Some _ =>
              if u32 (relocentries n + hdr_reloccount h) =? 0 then Undefined
              else Ret (-1, ndz_reloc_free (Some n1))
          | None => Ret (-1, ndz_reloc_free (Some n1))
          end
        else
          let old := default [] (relocdata n) in
          if (relocentries n <? 0) || (Z.of_nat (length old) <? relocentries n)
          then Undefined
          else
            '(lo, hi, data) ←
              reloc_get_loop (Z.to_nat (hdr_reloccount h)) chunkreloc
                (reloclo n) (relochi n)
                (take (Z.to_nat (relocentries n)) old);
            Ret (0, Some {| reloc32 := r32;
                            relocdata := Some data;
                            relocentries := relocentries n + hdr_reloccount h;
                            reloclo := lo;
                            relochi := hi;
                            sectsize := sectsize n |})
  | _, _, _ => Ret (-1, ndz)
  end.

(** The scan of [ndz_reloc_put]: [n] stored records are visited in order,
    and those of the chunk's sector range are written through [chunkreloc];
    [out] is what has been written so far. *)
Fixpoint reloc_put_loop (n : nat) (relocdata : list blockreloc)
    (sectsz firstsect lastsect : Z) (out : list blockreloc)
  : outcome (list blockreloc) :=
  match n with
  | O => Ret out
  | S n' =>
      match relocdata with
      | [] => Undefined
      | r :: rest =>
          let rsector := r_sector r in
          let roffset := r_sectoff r in
          let rsize := r_size r in
          _ ← assert (u64 (roffset + rsize) <=? sectsz);
          let out1 :=
            if (firstsect <=? rsector) && (rsector <? lastsect)
            then out ++ [r] else out in
          reloc_put_loop n' rest sectsz firstsect lastsect out1
      end
  end.

(** Writing [out] from the start of the buffer [buf]. *)
Definition store_relocs (out buf : list blockreloc) : list blockreloc :=
  out ++ drop (length out) buf.

(** The result is the returned [int] and the chunk buffer after the call. *)
Definition ndz_reloc_put (ndz : option ndz_file) (hdr : option blockhdr)
    (buf : option (list blockreloc))
  : outcome (Z * option (list blockreloc)) :=
  match ndz, hdr, buf with
  | Some n, Some h, Some b =>
      if (relocentries n =? 0) || (relochi n <? hdr_firstsect h)
         || (hdr_lastsect h <=? reloclo n)
      then Ret (0, buf)
      else
        match relocdata n with
        | None => Undefined
        | Some data =>
            out ← reloc_put_loop (Z.to_nat (relocentries n)) data
                     (sectsize n) (hdr_firstsect h) (hdr_lastsect h) [];
            Ret (0, Some (store_relocs out b))
        end
  | _, _, _ => Ret (-1, buf)
  end.

(** A sequence of calls of [ndz_reloc_get] on one table, each of which
    returns 0; [None] when a call does not. *)
Fixpoint ndz_reloc_get_seq (ndz : ndz_file)
    (calls : list (bool * blockhdr * list blockreloc)) : option ndz_file :=
  match calls with
  | [] => Some ndz
  | (alloc_ok, h, b) :: rest =>
      match ndz_reloc_get alloc_ok (Some ndz) (Some h) (Some b) with
      | Ret (0, Some ndz') => ndz_reloc_get_seq ndz' rest
      | _ => None
      end
  end.

End RelocCode.

(** The records a chunk header supplies to [ndz_reloc_get]. *)
Definition supplied (c : bool * blockhdr * list blockreloc) : list blockreloc :=
  let '(_, h, b) := c in
  if (hdr_magic h <? COMPRESSED_V2) || (hdr_reloccount h =? 0) then []
  else take (Z.to_nat (hdr_reloccount h)) b.

(** The records a table holds. *)
Definition stored (ndz : ndz_file) : list blockreloc :=
  match relocdata ndz with
  | Some d => take (Z.to_nat (relocentries ndz)) d
  | None => []
  end.

Definition in_chunk (h : blockhdr) (r : blockreloc) : bool :=
  (hdr_firstsect h <=? r_sector r) && (r_sector r <? hdr_lastsect h).

(** ** imagedump.c *)

(** The file-scope variables of [imagedump.c] that decide what [dumpfile]
    and [dumpchunk] return.  The statistics counters only feed the report
    and are left out. *)
Record dump_state : Type := {
  detail : Z;
  dumpmap : Z;
  ignorev1 : Z;
  checksums : Z;
  quickcheck : Z;
  magic : Z;
  chunkcount : Z;
  imageid : list Z;
  sigtype : Z;
  enctype : Z
}.

Definition set_checksums (v : Z) (s : dump_state) : dump_state :=
  {| detail := detail s; dumpmap := dumpmap s; ignorev1 := ignorev1 s;
     checksums := v; quickcheck := quickcheck s; magic := magic s;
     chunkcount := chunkcount s; imageid := imageid s;
     sigtype := sigtype s; enctype := enctype s |}.
Definition set_magic (v : Z) (s : dump_state) : dump_state :=
  {| detail := detail s; dumpmap := dumpmap s; ignorev1 := ignorev1 s;
     checksums := checksums s; quickcheck := quickcheck s; magic := v;
     chunkcount := chunkcount s; imageid := imageid s;
     sigtype := sigtype s; enctype := enctype s |}.
Definition set_chunkcount (v : Z) (s : dump_state) : dump_state :=
  {| detail := detail s; dumpmap := dumpmap s; ignorev1 := ignorev1 s;
     checksums := checksums s; quickcheck := quickcheck s; magic := magic s;
     chunkcount := v; imageid := imageid s;
     sigtype := sigtype s; enctype := enctype s |}.
Definition set_imageid (v : list Z) (s : dump_state) : dump_state :=
  {| detail := detail s; dumpmap := dumpmap s; ignorev1 := ignorev1 s;
     checksums := checksums s; quickcheck := quickcheck s; magic := magic s;
     chunkcount := chunkcount s; imageid := v;
     sigtype := sigtype s; enctype := enctype s |}.
Definition set_sigenc (sg en : Z) (s : dump_state) : dump_state :=
  {| detail := detail s; dumpmap := dumpmap s; ignorev1 := ignorev1 s;
     checksums := checksums s; quickcheck := quickcheck s; magic := magic s;
     chunkcount := chunkcount s; imageid := imageid s;
     sigtype := sg; enctype := en |}.

(** [memcmp(imageid, hdr->imageid, UUID_LENGTH) != 0] *)
Definition imageid_differs (a b : list Z) : bool :=
  negb (bool_decide (take (Z.to_nat UUID_LENGTH) a = take (Z.to_nat UUID_LENGTH) b)).

(** The value [dumpchunk] returns: 0 when the chunk is accepted, 1 when it
    is refused.  [WITH_CRYPTO] cannot be defined ([imagehdr.h] stops the
    build then), so no checksum is verified. *)
Definition dumpchunk (s : dump_state) (hdr : blockhdr) (chunkno : Z)
    (checkindex : bool) : Z :=
  let m := hdr_magic hdr in
  let header_ok :=
    if m =? COMPRESSED_V1 then true
    else if (m =? COMPRESSED_V2) || (m =? COMPRESSED_V3) then true
    else if m =? COMPRESSED_V5 then
      negb ((0 <? chunkno) && imageid_differs (imageid s) (hdr_imageid hdr))
    else if m =? COMPRESSED_V6 then
      if (0 <? chunkno) && negb (sigtype s =? hdr_csum_type hdr) then false
      else if (0 <? chunkno) && negb (enctype s =? hdr_enc_cipher hdr) then false
      else if (0 <? chunkno) && imageid_differs (imageid s) (hdr_imageid hdr)
      then false
      else if negb (checksums s =? 0) && negb (hdr_csum_type hdr =? CSUM_NONE)
              && negb (Z.land (hdr_csum_type hdr) CSUM_TYPE =? CSUM_SHA1)
      then false
      else true
    else false in
  if negb header_ok then 1
  else if checkindex && negb (hdr_blockindex hdr =? chunkno) then 1
  else if negb (chunkcount s =? 0)
          && negb (u64 (hdr_blocktotal hdr) =? chunkcount s) then 1
  else if u32 (CHUNKSIZE - hdr_regionsize hdr) <? hdr_size hdr then 1
  else 0.

(** An image file as [dumpfile] meets it: the chunk headers it reads, in
    order, and how the input ends after them. *)
Inductive input_end : Type :=
| EndOfFile
| ReadFails.

Record image_file : Type := {
  f_isstdin : bool;
  f_open_ok : bool;
  f_fstat_ok : bool;
  f_size : Z;
  f_lseek_ok : Z -> bool;
  f_chunks : list blockhdr;
  f_end : input_end
}.

(** What [dumpfile] does with chunk 0 before it hands it to [dumpchunk]:
    [inl r] when it returns [r] there, [inr] with the updated variables,
    [checkindex] and [filesize] otherwise. *)
Definition dumpfile_first (s : dump_state) (isstdin : bool) (filesize : Z)
    (hdr : blockhdr) : Z + (dump_state * bool * Z) :=
  let s := set_magic (hdr_magic hdr) s in
  if (magic s <? COMPRESSED_MAGIC_BASE) || (COMPRESSED_MAGIC_CURRENT <? magic s)
  then inl 1
  else if negb (quickcheck s =? 0) then inl 0
  else
    let s := if negb (checksums s =? 0) && (magic s <? COMPRESSED_V6)
             then set_checksums 0 s else s in
    let '(s, checkindex) :=
      if negb (ignorev1 s =? 0) then (set_chunkcount 0 s, false)
      else (set_chunkcount (u64 (hdr_blocktotal hdr)) s, true) in
    let '(filesize, checkindex) :=
      if negb (filesize / CHUNKSIZE =? chunkcount s) then
        if negb (chunkcount s =? 0) then
          (if isstdin then chunkcount s * CHUNKSIZE else filesize, checkindex)
        else if magic s =? COMPRESSED_V1 then (filesize, false)
        else (filesize, checkindex)
      else (filesize, checkindex) in
    let s := if COMPRESSED_V5 <=? magic s
             then set_imageid (hdr_imageid hdr) s else s in
    let s := if COMPRESSED_V6 <=? magic s
             then set_sigenc (hdr_csum_type hdr) (hdr_enc_cipher hdr) s else s in
    inr (s, checkindex, filesize).

(** The chunk loop of [dumpfile]; the result is the value [dumpfile]
    returns and the variables it leaves. *)
Fixpoint dumpfile_loop (f : image_file) (s : dump_state) (chunks : list blockhdr)
    (chunkno : Z) (checkindex : bool) (filesize : Z) : Z * dump_state :=
  if negb (f_isstdin f || negb (checksums s =? 0)) && negb (f_lseek_ok f chunkno)
  then (1, s)
  else
    match chunks with
    | [] => match f_end f with
            | EndOfFile => (0, s)
            | ReadFails => (1, s)
            end
    | hdr :: rest =>
        let first :=
          if chunkno =? 0 then dumpfile_first s (f_isstdin f) filesize hdr
          else if (chunkno =? 1) && (ignorev1 s =? 0) then
            inr (s, if f_isstdin f && (filesize =? 0)
                       && (hdr_blockindex hdr =? 0)
                    then false else checkindex, filesize)
          else inr (s, checkindex, filesize) in
        match first with
        | inl r => (r, set_magic (hdr_magic hdr) s)
        | inr (s1, checkindex1, filesize1) =>
            if negb (dumpchunk s1 hdr chunkno checkindex1 =? 0) then (1, s1)
            else dumpfile_loop f s1 rest (chunkno + 1) checkindex1 filesize1
        end
    end.

Definition dumpfile (s : dump_state) (f : image_file) : Z * dump_state :=
  if negb (f_isstdin f) && negb (f_fstat_ok f) then (1, s)
  else
    let filesize := if f_isstdin f then 0 else f_size f in
    dumpfile_loop f s (f_chunks f) 0 true filesize.

(** The file loop of [main]; the result is the argument of [exit]. *)
Fixpoint main_loop (s : dump_state) (files : list image_file) (errors : Z) : Z :=
  match files with
  | [] => errors
  | f :: rest =>
      if negb (f_isstdin f) && negb (f_open_ok f) then main_loop s rest (errors + 1)
      else
        let '(r, s1) := dumpfile s f in
        main_loop s1 rest (errors + r)
  end.

(** What the parent of the process gets of [exit(n)]: the low 8 bits. *)
Definition exit_status (n : Z) : Z := Z.land n 0xff.

(** [main] after the options are read: [s] holds the option counters,
    [version] the count of [-v], [files] the remaining arguments; the
    result is the exit status of the process. *)
Definition imagedump_main (s : dump_state) (version : Z) (files : list image_file)
  : Z :=
  if negb (version =? 0) then exit_status 0
  else if bool_decide (files = []) then exit_status 1
  else if negb (quickcheck s =? 0) && (1 <? Z.of_nat (length files))
  then exit_status 1
  else exit_status (main_loop s files 0).

(** ** hashmap/hashmap.c *)

(** The constants of [imagehash.h], which is not among the sources.
    [hash32_size] is [sizeof] of the [hash] field of
    [struct hashregion_32]. *)
Class imagehash_h : Type := {
  HASH_VERSION_1 : Z;
  HASH_VERSION_2 : Z;
  HASH_VERSION_3 : Z;
  HASH_VERSION : Z;
  HASH_TYPE_MD5 : Z;
  HASH_TYPE_SHA1 : Z;
  HASH_TYPE_SHA256 : Z;
  HASHBLK_SIZE : Z;
  HASH_MAXSIZE : Z;
  hash32_size : Z
}.

(** [sectobytes] and [bytestosec] (from [sliceinfo.h], not among the
    sources) convert between sectors and bytes. *)
Definition sectobytes (s : Z) : Z := s * SECSIZE.
Definition bytestosec (b : Z) : Z := b / SECSIZE.

(** [struct range]: a node of a singly linked list, held in the heap at an
    address.  [range.h] is not among the sources; [start] and [size] are
    taken as the [uint32_t] that [add_to_range] receives them in. *)
Record range : Type := {
  rg_start : Z;
  rg_size : Z;
  rg_next : option positive
}.

(** [struct hashregion] and [struct hashinfo]; the array [regions] with its
    count [nregions] is a list. *)
Record hashregion : Type := {
  hr_start : Z;
  hr_size : Z;
  hr_chunkno : Z;
  hr_hash : list Z
}.

Record hashinfo : Type := {
  hi_version : Z;
  hi_hashtype : Z;
  hi_blksize : Z;
  hi_regions : list hashregion
}.

Definition hi_nregions (hi : hashinfo) : Z := Z.of_nat (length (hi_regions hi)).

Global Instance hashregion_eq_dec : EqDecision hashregion.
Proof. solve_decision. Defined.

(** The static pointer [nhinfo]: [NULL], a block holding a [struct hashinfo]
    with 64-bit regions, a block holding the header with
    [struct hashregion_32] regions (what [hashmap_write_hashfile] leaves
    after it converts), or a block that was freed. *)
Inductive nhinfo_ptr : Type :=
| NhNull
| NhLive (hi : hashinfo)
| NhLive32 (hi : hashinfo)
| NhFreed.

Inductive hash_alg : Type := MD5 | SHA1 | SHA256.

Inductive sigpath : Type :=
| SigStdout
| SigDerived (iname : string)
| SigNamed (fname : string)
| SigTmpPid.

Inductive message : Type :=
| MsgAddToRangeMalloc
| MsgErrorHashing
| MsgOutOfMemoryHashMap
| MsgReadHashinfoFailed
| MsgNoDataBuffer
| MsgNoHashinfo
| MsgOutOfMemory
| MsgPerror
| MsgIncompatibleHashType
| MsgCannotConvert
| MsgStartTooBig
| MsgIncompleteWrite
| MsgMtimeWarning
| MsgWritten.

(** What the functions do to the world besides their state. *)
Inductive event : Type :=
| EvSavefixups
| EvRestorefixups (arg : Z)
| EvFreeNhinfo
| EvFreeranges (head : option positive)
| EvStderr (m : message)
| EvWrite (path : sigpath) (wide : bool) (hi : hashinfo).

(** The static variables of [hashmap.c], the heap of [struct range] nodes,
    the state of the fixup module, and the locals of
    [hashmap_compute_delta] that its helpers reach through pointers
    ([dummy_head], and [range_tail], which is [None] while it points to
    [dummy_head]; and [hinfo_buf], the block its local [hinfo] points to,
    which holds the original signature and which the walk reads through
    [hreg]).  [poffset] has the type [iz_lba], taken as 64-bit like
    the [ssect] it is assigned.  [hashdata] is a scratch buffer and
    [hashfile] a name; neither is kept. *)
Record hm_state (F : Type) : Type := {
  hashblksize : Z;
  nhinfo : nhinfo_ptr;
  hashlen : Z;
  hashfunc : option hash_alg;
  imagefd : Z;
  poffset : Z;
  hash_free : Z;
  fixups : F;
  heap : gmap positive range;
  nalloc : nat;
  trace : list event;
  dummy_head : range;
  range_tail : option positive;
  hinfo_buf : option hashinfo
}.
Arguments hashblksize {F} _.
Arguments nhinfo {F} _.
Arguments hashlen {F} _.
Arguments hashfunc {F} _.
Arguments imagefd {F} _.
Arguments poffset {F} _.
Arguments hash_free {F} _.
Arguments fixups {F} _.
Arguments heap {F} _.
Arguments nalloc {F} _.
Arguments trace {F} _.
Arguments dummy_head {F} _.
Arguments range_tail {F} _.
Arguments hinfo_buf {F} _.

(** The environment of the engine: which allocations succeed (by their
    number), what a positioned read of the disk returns ([None] when the
    seek or a read fails or the disk ends), the fixup module, the hash
    functions, and the contents of an uninitialised hash buffer. *)
Record delta_env (F : Type) : Type := {
  e_alloc : nat -> bool;
  e_read : Z -> Z -> option (list Z);
  e_hasfixup : F -> Z -> Z -> bool;
  e_applyfixups : F -> Z -> Z -> list Z -> F * list Z;
  e_savefixups : F -> F;
  e_restorefixups : F -> Z -> F;
  e_digest : hash_alg -> list Z -> list Z;
  e_uninit : list Z
}.
Arguments e_alloc {F} _ _.
Arguments e_read {F} _ _ _.
Arguments e_hasfixup {F} _ _ _ _.
Arguments e_applyfixups {F} _ _ _ _ _.
Arguments e_savefixups {F} _ _.
Arguments e_restorefixups {F} _ _ _.
Arguments e_digest {F} _ _ _.
Arguments e_uninit {F} _.

(** What [readhashinfo] finds when it opens and reads the signature file:
    nothing usable (the open or a read fails, or the file is too short), or
    a header, whose magic is right or not, with its regions as stored
    (starts relative to the partition), the read of the regions succeeding
    or not. *)
Inductive sig_source : Type :=
| SigUnreadable
| SigContents (magic_ok : bool) (hi : hashinfo) (regions_ok : bool).

Section HashmapCode.
Context {K : imagehash_h} {F : Type}.
Implicit Types (st : hm_state F) (E : delta_env F).

Definition set_hashblksize (v : Z) st : hm_state F :=
  {| hashblksize := v; nhinfo := nhinfo st; hashlen := hashlen st;
     hashfunc := hashfunc st; imagefd := imagefd st; poffset := poffset st;
     hash_free := hash_free st; fixups := fixups st; heap := heap st;
     nalloc := nalloc st; trace := trace st; dummy_head := dummy_head st;
     range_tail := range_tail st; hinfo_buf := hinfo_buf st |}.
Definition set_nhinfo (v : nhinfo_ptr) st : hm_state F :=
  {| hashblksize := hashblksize st; nhinfo := v; hashlen := hashlen st;
     hashfunc := hashfunc st; imagefd := imagefd st; poffset := poffset st;
     hash_free := hash_free st; fixups := fixups st; heap := heap st;
     nalloc := nalloc st; trace := trace st; dummy_head := dummy_head st;
     range_tail := range_tail st; hinfo_buf := hinfo_buf st |}.
Definition set_hashfunc (len : Z) (f : option hash_alg) st : hm_state F :=
  {| hashblksize := hashblksize st; nhinfo := nhinfo st; hashlen := len;
     hashfunc := f; imagefd := imagefd st; poffset := poffset st;
     hash_free := hash_free st; fixups := fixups st; heap := heap st;
     nalloc := nalloc st; trace := trace st; dummy_head := dummy_head st;
     range_tail := range_tail st; hinfo_buf := hinfo_buf st |}.
Definition set_imagefd_poffset (fd off : Z) st : hm_state F :=
  {| hashblksize := hashblksize st; nhinfo := nhinfo st; hashlen := hashlen st;
     hashfunc := hashfunc st; imagefd := fd; poffset := off;
     hash_free := hash_free st; fixups := fixups st; heap := heap st;
     nalloc := nalloc st; trace := trace st; dummy_head := dummy_head st;
     range_tail := range_tail st; hinfo_buf := hinfo_buf st |}.
Definition set_fixups (v : F) st : hm_state F :=
  {| hashblksize := hashblksize st; nhinfo := nhinfo st; hashlen := hashlen st;
     hashfunc := hashfunc st; imagefd := imagefd st; poffset := poffset st;
     hash_free := hash_free st; fixups := v; heap := heap st;
     nalloc := nalloc st; trace := trace st; dummy_head := dummy_head st;
     range_tail := range_tail st; hinfo_buf := hinfo_buf st |}.
Definition set_heap (v : gmap positive range) st : hm_state F :=
  {| hashblksize := hashblksize st; nhinfo := nhinfo st; hashlen := hashlen st;
     hashfunc := hashfunc st; imagefd := imagefd st; poffset := poffset st;
     hash_free := hash_free st; fixups := fixups st; heap := v;
     nalloc := nalloc st; trace := trace st; dummy_head := dummy_head st;
     range_tail := range_tail st; hinfo_buf := hinfo_buf st |}.
Definition set_nalloc (v : nat) st : hm_state F :=
  {| hashblksize := hashblksize st; nhinfo := nhinfo st; hashlen := hashlen st;
     hashfunc := hashfunc st; imagefd := imagefd st; poffset := poffset st;
     hash_free := hash_free st; fixups := fixups st; heap := heap st;
     nalloc := v; trace := trace st; dummy_head := dummy_head st;
     range_tail := range_tail st; hinfo_buf := hinfo_buf st |}.
Definition emit (e : event) st : hm_state F :=
  {| hashblksize := hashblksize st; nhinfo := nhinfo st; hashlen := hashlen st;
     hashfunc := hashfunc st; imagefd := imagefd st; poffset := poffset st;
     hash_free := hash_free st; fixups := fixups st; heap := heap st;
     nalloc := nalloc st; trace := trace st ++ [e]; dummy_head := dummy_head st;
     range_tail := range_tail st; hinfo_buf := hinfo_buf st |}.
Definition set_dummy_head (v : range) st : hm_state F :=
  {| hashblksize := hashblksize st; nhinfo := nhinfo st; hashlen := hashlen st;
     hashfunc := hashfunc st; imagefd := imagefd st; poffset := poffset st;
     hash_free := hash_free st; fixups := fixups st; heap := heap st;
     nalloc := nalloc st; trace := trace st; dummy_head := v;
     range_tail := range_tail st; hinfo_buf := hinfo_buf st |}.
Definition set_range_tail (v : option positive) st : hm_state F :=
  {| hashblksize := hashblksize st; nhinfo := nhinfo st; hashlen := hashlen st;
     hashfunc := hashfunc st; imagefd := imagefd st; poffset := poffset st;
     hash_free := hash_free st; fixups := fixups st; heap := heap st;
     nalloc := nalloc st; trace := trace st; dummy_head := dummy_head st;
     range_tail := v; hinfo_buf := hinfo_buf st |}.
Definition set_hinfo_buf (v : option hashinfo) st : hm_state F :=
  {| hashblksize := hashblksize st; nhinfo := nhinfo st; hashlen := hashlen st;
     hashfunc := hashfunc st; imagefd := imagefd st; poffset := poffset st;
     hash_free := hash_free st; fixups := fixups st; heap := heap st;
     nalloc := nalloc st; trace := trace st; dummy_head := dummy_head st;
     range_tail := range_tail st; hinfo_buf := v |}.

(** One call of [malloc], [calloc] or [realloc]: whether it succeeds. *)
Definition alloc E st : bool * hm_state F :=
  (e_alloc E (nalloc st), set_nalloc (S (nalloc st)) st).

(** A hash function writes its digest at the start of the buffer it is
    given and leaves the rest. *)
Definition hash_store (digest buf : list Z) : list Z :=
  digest ++ drop (length digest) buf.

(** [memcmp(a, b, n) != 0] *)
Definition memcmp_ne (a b : list Z) (n : Z) : bool :=
  negb (bool_decide (take (Z.to_nat n) a = take (Z.to_nat n) b)).

(** The result is the returned [int], the state, and the buffer [hash]. *)
Definition hash_range E st (start size : Z) (hash : list Z)
  : outcome (Z * hm_state F * list Z) :=
  _ ← assert (0 <=? imagefd st);
  _ ← assert (bool_decide (hashfunc st ≠ None));
  _ ← assert (negb (hashlen st =? 0));
  let byte_size := sectobytes size in
  let byte_start := sectobytes start in
  _ ← assert (size <=? hashblksize st);
  match e_read E byte_start byte_size, hashfunc st with
  | Some data, Some f =>
      let '(fx, data1) :=
        if e_hasfixup E (fixups st) start size
        then e_applyfixups E (fixups st) byte_start byte_size data
        else (fixups st, data) in
      Ret (0, set_fixups fx st, hash_store (e_digest E f data1) hash)
  | _, _ => Ret (-1, emit (EvStderr MsgPerror) st, hash)
  end.

Definition hash_and_cmp E st (hashreg : hashregion) (hash : list Z)
  : outcome (Z * hm_state F * list Z) :=
  _ ← assert (0 <=? imagefd st);
  _ ← assert (bool_decide (hashfunc st ≠ None));
  _ ← assert (negb (hashlen st =? 0));
  '(rv, st1, hash1) ← hash_range E st (hr_start hashreg) (hr_size hashreg) hash;
  if negb (rv =? 0) then Ret (-1, st1, hash1)
  else
    Ret (if memcmp_ne (hr_hash hashreg) hash1 (hashlen st1) then 1 else 0,
         st1, hash1).

(** The node [range_tail] points to, and an assignment through it. *)
Definition tail_node st : option range :=
  match range_tail st with
  | None => Some (dummy_head st)
  | Some t => heap st !! t
  end.

Definition set_tail_node (nd : range) st : hm_state F :=
  match range_tail st with
  | None => set_dummy_head nd st
  | Some t => set_heap (<[t := nd]> (heap st)) st
  end.

(** [add_to_range(&range_tail, start, size)] *)
Definition add_to_range E st (start size : Z) : outcome (Z * hm_state F) :=
  let start := u32 start in
  let size := u32 size in
  match tail_node st with
  | None => Undefined
  | Some tail =>
      if u32 (rg_start tail + rg_size tail) =? start then
        Ret (0, set_tail_node {| rg_start := rg_start tail;
                                 rg_size := u32 (rg_size tail + size);
                                 rg_next := rg_next tail |} st)
      else
        let '(ok, st1) := alloc E st in
        if negb ok then Ret (-1, emit (EvStderr MsgAddToRangeMalloc) st1)
        else
          let tmp := fresh (dom (heap st1)) in
          let st2 := set_heap (<[tmp := {| rg_start := start;
                                          rg_size := size;
                                          rg_next := None |}]> (heap st1)) st1 in
          let st3 := set_tail_node {| rg_start := rg_start tail;
                                      rg_size := rg_size tail;
                                      rg_next := Some tmp |} st2 in
          Ret (0, set_range_tail (Some tmp) st3)
  end.

Definition REGPERBLK : Z := 8192.

(** [addhash(&nhinfo, start, size, hash)] *)
Definition addhash E st (start size : Z) (hash : list Z)
  : outcome (Z * hm_state F) :=
  '(hinfo, nreg, st1) ←
    match nhinfo st with
    | NhNull =>
        let '(ok, st1) := alloc E st in
        Ret (if ok then Some {| hi_version := 0; hi_hashtype := 0;
                                hi_blksize := 0; hi_regions := [] |}
             else None, 0, st1)
    | NhLive hi => Ret (Some hi, hi_nregions hi, st)
    | NhLive32 _ | NhFreed => Undefined
    end;
  '(hinfo1, st2) ←
    (if nreg `mod` REGPERBLK =? 0 then
       let '(ok, st2) := alloc E st1 in
       if negb ok then Ret (None, st2)
       else match hinfo with
            | Some hi => Ret (Some hi, set_nhinfo (NhLive hi) st2)
            | None => Undefined
            end
     else Ret (hinfo, st1));
  match hinfo1 with
  | None => Ret (-1, st2)
  | Some hi =>
      let reg := {| hr_start := start; hr_size := size; hr_chunkno := 0;
                    hr_hash := take (Z.to_nat HASH_MAXSIZE) hash |} in
      Ret (0, set_nhinfo (NhLive {| hi_version := hi_version hi;
                                    hi_hashtype := hi_hashtype hi;
                                    hi_blksize := hi_blksize hi;
                                    hi_regions := hi_regions hi ++ [reg] |}) st2)
  end.

(** The loop of [add_to_hashmap].  Every iteration takes at least one
    sector off [rsize] when [hashblksize] is not 0, so [fuel] equal to
    [rsize] is enough. *)
Fixpoint add_to_hashmap_loop (fuel : nat) E st (rstart rsize offset : Z)
    (rhash : option (list Z)) : outcome (Z * hm_state F) :=
  if rsize <=? 0 then Ret (0, st)
  else
    match fuel with
    | O => NoFuel
    | S fuel' =>
        let hsize :=
          if negb (offset =? 0) then
            let hsize := u32 (hashblksize st - offset) in
            if rsize <? hsize then rsize else hsize
          else if hashblksize st <? rsize then hashblksize st
          else rsize in
        '(rv, st1, hash) ←
          match rhash with
          | None => hash_range E st rstart hsize (e_uninit E)
          | Some h => Ret (0, st, h)
          end;
        if negb (rv =? 0) then Ret (-1, emit (EvStderr MsgErrorHashing) st1)
        else
          '(rv, st2) ← addhash E st1 rstart hsize hash;
          if negb (rv =? 0)
          then Ret (-1, emit (EvStderr MsgOutOfMemoryHashMap) st2)
          else add_to_hashmap_loop fuel' E st2 (u64 (rstart + hsize))
                 (u32 (rsize - hsize)) 0 rhash
    end.

(** [add_to_hashmap(&nhinfo, rstart, rsize, rhash)] *)
Definition add_to_hashmap E st (rstart rsize : Z) (rhash : option (list Z))
  : outcome (Z * hm_state F) :=
  let rstart := u64 rstart in
  let rsize := u32 rsize in
  _ ← assert (negb (poffset st =? 2 ^ 64 - 1));
  if hashblksize st =? 0 then Undefined
  else
    let offset := u32 (u64 (rstart - poffset st) `mod` hashblksize st) in
    add_to_hashmap_loop (Z.to_nat rsize) E st rstart rsize offset rhash.

(** The loop of [readhashinfo] that makes the starts absolute. *)
Fixpoint add_poffset_loop (blksize off : Z) (regs : list hashregion)
  : outcome (list hashregion) :=
  match regs with
  | [] => Ret []
  | hreg :: rest =>
      _ ← assert (hr_size hreg <=? blksize);
      rest1 ← add_poffset_loop blksize off rest;
      Ret ({| hr_start := u64 (hr_start hreg + off); hr_size := hr_size hreg;
              hr_chunkno := hr_chunkno hreg; hr_hash := hr_hash hreg |} :: rest1)
  end.

(** A 32-bit region record read into the 64-bit form. *)
Definition widen (from : hashregion) : hashregion :=
  {| hr_start := hr_start from; hr_size := hr_size from;
     hr_chunkno := hr_chunkno from;
     hr_hash := take (Z.to_nat hash32_size) (hr_hash from)
                ++ replicate (Z.to_nat (HASH_MAXSIZE - hash32_size)) 0 |}.

(** The result is the returned [int], the state, and [*hinfop]; the block
    assigned to [*hinfop] is the one [hinfo_buf] stands for. *)
Definition readhashinfo E st (src : sig_source)
  : outcome (Z * hm_state F * option hashinfo) :=
  _ ← assert (negb (poffset st =? 2 ^ 64 - 1));
  match src with
  | SigUnreadable => Ret (-1, emit (EvStderr MsgPerror) st, None)
  | SigContents magic_ok hi regions_ok =>
      if negb magic_ok
         || negb ((hi_version hi =? HASH_VERSION_1)
                  || (hi_version hi =? HASH_VERSION_2)
                  || (hi_version hi =? HASH_VERSION_3))
      then Ret (-1, emit (EvStderr MsgPerror) st, None)
      else
        let old := (hi_version hi =? HASH_VERSION_1)
                   || (hi_version hi =? HASH_VERSION_2) in
        let blksize := if hi_version hi =? HASH_VERSION_1
                       then bytestosec HASHBLK_SIZE else hi_blksize hi in
        let '(cvt_ok, st1) := if old then alloc E st else (true, st) in
        if negb cvt_ok then Ret (-1, emit (EvStderr MsgPerror) st1, None)
        else
          let '(ok, st2) := alloc E st1 in
          if negb ok then Ret (-1, emit (EvStderr MsgPerror) st2, None)
          else if negb regions_ok
          then Ret (-1, emit (EvStderr MsgPerror) st2, None)
          else
            let regs := if old then widen <$> hi_regions hi else hi_regions hi in
            let version := if old then HASH_VERSION else hi_version hi in
            let st3 := set_hashblksize blksize st2 in
            regs1 ← add_poffset_loop blksize (poffset st3) regs;
            let '(ok, st4) := alloc E st3 in
            if negb ok then Ret (-1, emit (EvStderr MsgNoDataBuffer) st4, None)
            else
              let hinfo := {| hi_version := version;
                              hi_hashtype := hi_hashtype hi;
                              hi_blksize := blksize;
                              hi_regions := regs1 |} in
              Ret (0, set_hinfo_buf (Some hinfo) st4, Some hinfo)
  end.

(** [COPYRANGE(r)]: the node [r] points to is copied into the local
    [tmprange], and the result points to that copy. *)
Definition COPYRANGE st (r : option positive) : outcome (option range) :=
  match r with
  | None => Ret None
  | Some l => match heap st !! l with
              | Some nd => Ret (Some nd)
              | None => Undefined
              end
  end.

(** [assert(drange == NULL || drange->size > 0)] *)
Definition assert_size (drange : option range) : outcome unit :=
  assert (match drange with None => true | Some d => 0 <? rg_size d end).

(** [add_to_range] followed by [newhashfile && add_to_hashmap], as the walk
    does for sectors that are new; the [int] is 0 unless one of them
    fails. *)
Definition add_new E st (newhashfile : bool) (start size : Z)
  : outcome (Z * hm_state F) :=
  '(rv, st1) ← add_to_range E st start size;
  if rv <? 0 then Ret (-1, st1)
  else if newhashfile then
    '(rv, st2) ← add_to_hashmap E st1 start size None;
    Ret (if rv =? 0 then 0 else -1, st2)
  else Ret (0, st1).

(** The first [while] of the walk: allocated ranges that end at or before
    the hash region. *)
Fixpoint drain_loop (fuel : nat) E (newhashfile : bool) (hreg : hashregion)
    st (drange : option range) : outcome (Z * hm_state F * option range) :=
  match drange with
  | None => Ret (0, st, None)
  | Some d =>
      if u32 (rg_start d + rg_size d) <=? hr_start hreg then
        match fuel with
        | O => NoFuel
        | S fuel' =>
            '(rv, st1) ← add_new E st newhashfile (rg_start d) (rg_size d);
            if negb (rv =? 0) then Ret (-1, st1, drange)
            else
              drange1 ← COPYRANGE st1 (rg_next d);
              _ ← assert_size drange1;
              drain_loop fuel' E newhashfile hreg st1 drange1
        end
      else Ret (0, st, drange)
  end.

(** The [if (changed)] of the second [while]: the sectors go to the output
    list, and get hash entries of their own when the hash of the region
    was not compared; the [int] is 0 unless one of the two calls fails. *)
Definition add_covered E st (newhashfile : bool) (changed start size : Z)
  : outcome (Z * hm_state F) :=
  if negb (changed =? 0) then
    '(rv, st1) ← add_to_range E st start size;
    if rv <? 0 then Ret (-1, st1)
    else if (1 <? changed) && newhashfile then
      '(rv, st2) ← add_to_hashmap E st1 start size None;
      Ret (if rv =? 0 then 0 else -1, st2)
    else Ret (0, st1)
  else Ret (0, st).

(** The second [while]: allocated ranges that start inside the hash
    region. *)
Fixpoint covered_loop (fuel : nat) E (newhashfile : bool) (hreg : hashregion)
    (changed : Z) st (drange : option range)
  : outcome (Z * hm_state F * option range) :=
  match drange with
  | None => Ret (0, st, None)
  | Some d =>
      if rg_start d <? u64 (hr_start hreg + hr_size hreg) then
        match fuel with
        | O => NoFuel
        | S fuel' =>
            let curstart := u32 (rg_start d) in
            let curend := u32 (curstart + rg_size d) in
            let hregstart := u32 (hr_start hreg) in
            let hregend := u32 (hregstart + hr_size hreg) in
            let '(d1, curend1) :=
              if hregend <? curend then
                ({| rg_start := hregend; rg_size := u32 (curend - hregend);
                    rg_next := rg_next d |}, hregend)
              else (d, curend) in
            _ ← assert (hregstart <=? curstart);
            _ ← assert (curend1 <=? hregend);
            '(rv, st1) ← add_covered E st newhashfile changed curstart
                           (curend1 - curstart);
            if negb (rv =? 0) then Ret (-1, st1, Some d1)
            else if curstart =? rg_start d1 then
              drange1 ← COPYRANGE st1 (rg_next d1);
              _ ← assert_size drange1;
              covered_loop fuel' E newhashfile hreg changed st1 drange1
            else covered_loop fuel' E newhashfile hreg changed st1 (Some d1)
        end
      else Ret (0, st, drange)
  end.

(** How one turn of the [for] loop over the hash regions ends. *)
Inductive flow : Type := Next | Break | Error.

(** The decision of the walk for a hash region that overlaps the current
    range: 3 with a fixup, the result of [hash_and_cmp] (0 or 1; -1 when
    it fails) when the hash is compared, 2 when it is not; [None] when the
    new hash entry cannot be added. *)
Definition decide_changed E (newhashfile : bool) (hreg : hashregion) st
    (d : range) (hash : list Z)
  : outcome (option Z * hm_state F * list Z) :=
  if negb (hash_free st =? 0)
     || ((rg_start d =? hr_start hreg) && (hr_size hreg <=? rg_size d))
  then
    if e_hasfixup E (fixups st) (hr_start hreg) (hr_size hreg)
    then Ret (Some 3, st, hash)
    else
      '(changed, st1, hash1) ← hash_and_cmp E st hreg hash;
      if changed <? 0 then Ret (None, st1, hash1)
      else if newhashfile then
        '(rv, st2) ← add_to_hashmap E st1 (hr_start hreg) (hr_size hreg)
                       (Some hash1);
        Ret (if rv =? 0 then Some changed else None, st2, hash1)
      else Ret (Some changed, st1, hash1)
  else Ret (Some 2, st, hash).

(** The body of the [for] loop over the hash regions. *)
Definition delta_step (fuel : nat) E (newhashfile : bool) (hreg : hashregion)
    st (drange : option range) (hash : list Z)
  : outcome (flow * hm_state F * option range * list Z) :=
  _ ← assert (match drange with None => false | Some d => 0 <? rg_size d end);
  '(rv, st1, drange1) ← drain_loop fuel E newhashfile hreg st drange;
  if negb (rv =? 0) then Ret (Error, st1, drange1, hash)
  else
    match drange1 with
    | None => Ret (Break, st1, None, hash)
    | Some d =>
        _ ← assert (hr_start hreg <? u32 (rg_start d + rg_size d));
        if u64 (hr_start hreg + hr_size hreg) <=? rg_start d
        then Ret (Next, st1, drange1, hash)
        else
          _ ← assert (rg_start d <? u64 (hr_start hreg + hr_size hreg));
          _ ← assert (hr_start hreg <? u32 (rg_start d + rg_size d));
          '(rv, st2, d2) ←
            (if rg_start d <? hr_start hreg then
               let before := u32 (hr_start hreg - rg_start d) in
               '(rv, st2) ← add_new E st1 newhashfile (rg_start d) before;
               Ret (rv, st2,
                    if rv =? 0 then
                      {| rg_start := u32 (rg_start d + before);
                         rg_size := u32 (rg_size d - before);
                         rg_next := rg_next d |}
                    else d)
             else Ret (0, st1, d));
          if negb (rv =? 0) then Ret (Error, st2, Some d2, hash)
          else
            '(changed, st3, hash3) ← decide_changed E newhashfile hreg st2 d2 hash;
            match changed with
            | None => Ret (Error, st3, Some d2, hash3)
            | Some changed =>
                _ ← assert (rg_start d2 <? u64 (hr_start hreg + hr_size hreg));
                '(rv, st4, drange4) ←
                  covered_loop fuel E newhashfile hreg changed st3 (Some d2);
                if negb (rv =? 0) then Ret (Error, st4, drange4, hash3)
                else
                  match drange4 with
                  | None => Ret (Break, st4, None, hash3)
                  | Some d4 =>
                      _ ← assert (u64 (hr_start hreg + hr_size hreg)
                                  <=? rg_start d4);
                      Ret (Next, st4, drange4, hash3)
                  end
            end
    end.

(** The [for] loop; the [bool] tells whether it ran to [ereg]. *)
Fixpoint hreg_loop (fuel : nat) E (newhashfile : bool) (hregs : list hashregion)
    st (drange : option range) (hash : list Z)
  : outcome (Z * bool * hm_state F * option range) :=
  match hregs with
  | [] => Ret (0, true, st, drange)
  | hreg :: rest =>
      '(fl, st1, drange1, hash1) ←
        delta_step fuel E newhashfile hreg st drange hash;
      match fl with
      | Next => hreg_loop fuel E newhashfile rest st1 drange1 hash1
      | Break => Ret (0, false, st1, drange1)
      | Error => Ret (-1, false, st1, drange1)
      end
  end.

(** The last [while]: the ranges left when the hash regions are used up. *)
Fixpoint trailing_loop (fuel : nat) E (newhashfile : bool) (at_ereg : bool)
    st (drange : option range) : outcome (Z * hm_state F) :=
  match drange with
  | None => Ret (0, st)
  | Some d =>
      match fuel with
      | O => NoFuel
      | S fuel' =>
          _ ← assert at_ereg;
          '(rv, st1) ← add_new E st newhashfile (rg_start d) (rg_size d);
          if negb (rv =? 0) then Ret (-1, st1)
          else
            drange1 ← COPYRANGE st1 (rg_next d);
            _ ← assert_size drange1;
            trailing_loop fuel' E newhashfile at_ereg st1 drange1
      end
  end.

(** Modelled from the spec: [freeranges] is defined in [range.c], which is
    not among the sources; it frees the nodes of a range list, here by
    removing them from the heap. *)
Fixpoint freeranges (fuel : nat) (h : gmap positive range) (p : option positive)
  : gmap positive range :=
  match fuel, p with
  | S fuel', Some l =>
      match h !! l with
      | Some nd => freeranges fuel' (delete l h) (rg_next nd)
      | None => h
      end
  | _, _ => h
  end.

(** The code after the label [error]. *)
Definition delta_error E (newhashfile : bool) st : outcome (hm_state F) :=
  let st1 := if newhashfile
             then emit (EvRestorefixups 0)
                    (set_fixups (e_restorefixups E (fixups st) 0) st)
             else st in
  st2 ← match nhinfo st1 with
        | NhNull => Ret st1
        | NhLive _ | NhLive32 _ => Ret (emit EvFreeNhinfo (set_nhinfo NhFreed st1))
        | NhFreed => Undefined
        end;
  Ret (emit (EvFreeranges (rg_next (dummy_head st2)))
         (set_heap (freeranges (S (size (heap st2))) (heap st2)
                      (rg_next (dummy_head st2))) st2)).

(** The hash length and function for a hash type. *)
Definition select_hash (hashtype : Z) : Z * hash_alg :=
  if hashtype =? HASH_TYPE_SHA1 then (20, SHA1)
  else if hashtype =? HASH_TYPE_SHA256 then (32, SHA256)
  else (16, MD5).

(** The hash information [hashmap_compute_delta] compares against: read
    from the signature file, or made up for an empty one. *)
Definition delta_hinfo E st (hfile : option sig_source)
  : outcome (Z * hm_state F * option hashinfo) :=
  match hfile with
  | Some src =>
      '(rv, st1, hinfo) ← readhashinfo E st src;
      if rv <? 0
      then Ret (-1, emit (EvStderr MsgReadHashinfoFailed) st1, None)
      else Ret (0, st1, hinfo)
  | None =>
      let '(ok, st1) := alloc E st in
      if negb ok then Undefined
      else
        let hinfo :=
          {| hi_version := HASH_VERSION;
             hi_hashtype := if HASH_VERSION_3 <=? HASH_VERSION
                            then HASH_TYPE_SHA256 else HASH_TYPE_SHA1;
             hi_blksize := bytestosec HASHBLK_SIZE;
             hi_regions := [] |} in
        let st2 := set_hashblksize (hi_blksize hinfo)
                     (set_hinfo_buf (Some hinfo) st1) in
        let '(ok, st3) := alloc E st2 in
        if negb ok then Ret (-1, emit (EvStderr MsgNoDataBuffer) st3, None)
        else Ret (0, st3, Some hinfo)
  end.

(** The header fields the new signature gets at the end of a successful
    walk. *)
Definition finish_nhinfo E (hinfo : hashinfo) st : outcome (hm_state F) :=
  '(cur, st1) ←
    match nhinfo st with
    | NhNull =>
        let '(ok, st1) := alloc E st in
        _ ← assert ok;
        Ret ({| hi_version := 0; hi_hashtype := 0; hi_blksize := 0;
                hi_regions := [] |}, st1)
    | NhLive hi => Ret (hi, st)
    | NhLive32 _ | NhFreed => Undefined
    end;
  Ret (set_nhinfo
         (NhLive {| hi_version := HASH_VERSION;
                    hi_hashtype := hi_hashtype hinfo;
                    hi_blksize := if hi_version hinfo =? HASH_VERSION_1
                                  then HASHBLK_SIZE else hi_blksize hinfo;
                    hi_regions := hi_regions cur |}) st1).

(** The result is the returned [int], the state, and what is assigned to
    [*nranges] ([None] when nothing is). *)
Definition hashmap_compute_delta (fuel : nat) E st (curranges : option positive)
    (hfile : option sig_source) (infd ssect : Z) (newhashfile : bool)
  : outcome (Z * hm_state F * option (option positive)) :=
  _ ← assert (bool_decide (curranges ≠ None));
  let st := set_imagefd_poffset infd (u64 ssect) st in
  '(rv, st, hinfo) ← delta_hinfo E st hfile;
  match hinfo with
  | None => Ret (-1, st, None)
  | Some hinfo =>
      let '(len, f) := select_hash (hi_hashtype hinfo) in
      let st := set_hashfunc len (Some f) st in
      let st := set_range_tail None
                  (set_dummy_head {| rg_start := u32 (-1); rg_size := 0;
                                     rg_next := None |} st) in
      let st := if newhashfile
                then emit EvSavefixups
                       (set_fixups (e_savefixups E (fixups st)) st)
                else st in
      drange ← COPYRANGE st curranges;
      '(rv, at_ereg, st, drange) ←
        hreg_loop fuel E newhashfile (hi_regions hinfo) st drange (e_uninit E);
      if negb (rv =? 0)
      then st ← delta_error E newhashfile st; Ret (-1, st, None)
      else
        _ ← assert (bool_decide (drange = None) || at_ereg);
        '(rv, st) ← trailing_loop fuel E newhashfile at_ereg st drange;
        if negb (rv =? 0)
        then st ← delta_error E newhashfile st; Ret (-1, st, None)
        else
          let nranges := rg_next (dummy_head st) in
          st ← (if newhashfile then finish_nhinfo E hinfo st else Ret st);
          let st := if newhashfile
                    then emit (EvRestorefixups 1)
                           (set_fixups (e_restorefixups E (fixups st) 1) st)
                    else st in
          Ret (0, st, Some nranges)
  end.

(** What the system calls of [hashmap_write_hashfile] answer. *)
Record write_env : Type := {
  w_name_ok : bool;
  w_open_ok : sigpath -> bool;
  w_tmpname_ok : bool;
  w_cvt_ok : bool;
  w_write_ok : bool;
  w_stat_ok : bool;
  w_utimes_ok : bool
}.

(** The first loop of [hashmap_write_hashfile]: the starts become relative
    to the partition. *)
Fixpoint sub_poffset_loop (blksize off : Z) (regs : list hashregion)
  : outcome (list hashregion) :=
  match regs with
  | [] => Ret []
  | hreg :: rest =>
      _ ← assert (hr_size hreg <=? blksize);
      _ ← assert (off <=? hr_start hreg);
      rest1 ← sub_poffset_loop blksize off rest;
      Ret ({| hr_start := u64 (hr_start hreg - off); hr_size := hr_size hreg;
              hr_chunkno := hr_chunkno hreg; hr_hash := hr_hash hreg |} :: rest1)
  end.

(** The conversion loop: [None] when a start does not fit in 32 bits. *)
Fixpoint narrow_loop (regs : list hashregion) : option (list hashregion) :=
  match regs with
  | [] => Some []
  | hreg :: rest =>
      if UINT32_MAX <? hr_start hreg then None
      else
        rest1 ← narrow_loop rest;
        Some ({| hr_start := u32 (hr_start hreg); hr_size := hr_size hreg;
                 hr_chunkno := hr_chunkno hreg;
                 hr_hash := take (Z.to_nat hash32_size) (hr_hash hreg) |}
              :: rest1)
  end.

(** The name of the signature file. *)
Definition sig_name (fname iname : string) : sigpath :=
  if bool_decide (fname = EmptyString) then
    if bool_decide (iname = "-"%string) then SigStdout else SigDerived iname
  else SigNamed fname.

(** The conversion step: the signature to write, whether its records are
    the 64-bit ones, and the state. *)
Definition convert (W : write_env) (ivers : Z) (hi : hashinfo) st
  : hashinfo * bool * hm_state F :=
  if ivers <? COMPRESSED_V5 then
    if hi_hashtype hi =? HASH_TYPE_SHA256
    then (hi, true, emit (EvStderr MsgIncompatibleHashType) st)
    else if negb (w_cvt_ok W)
    then (hi, true, emit (EvStderr MsgCannotConvert) st)
    else
      match narrow_loop (hi_regions hi) with
      | None => (hi, true, emit (EvStderr MsgStartTooBig) st)
      | Some regs32 =>
          let hinfo := {| hi_version := HASH_VERSION_2;
                          hi_hashtype := hi_hashtype hi;
                          hi_blksize := hashblksize st;
                          hi_regions := regs32 |} in
          (hinfo, false, set_nhinfo (NhLive32 hinfo) (emit EvFreeNhinfo st))
      end
  else (hi, true, st).

Definition hashmap_write_hashfile (W : write_env) st (fname iname : string)
    (ivers : Z) : outcome (Z * hm_state F) :=
  _ ← assert (negb (poffset st =? 2 ^ 64 - 1));
  match nhinfo st with
  | NhNull => Ret (-1, emit (EvStderr MsgNoHashinfo) st)
  | NhLive32 _ | NhFreed => Undefined
  | NhLive hi0 =>
      regs ← sub_poffset_loop (hi_blksize hi0) (poffset st) (hi_regions hi0);
      let hi := {| hi_version := hi_version hi0; hi_hashtype := hi_hashtype hi0;
                   hi_blksize := hi_blksize hi0; hi_regions := regs |} in
      let st := set_nhinfo (NhLive hi) st in
      if negb (w_name_ok W) then Ret (-1, emit (EvStderr MsgOutOfMemory) st)
      else
        let hfile := sig_name fname iname in
        let '(opened, st) :=
          if w_open_ok W hfile then (Some hfile, st)
          else
            let st := emit (EvStderr MsgPerror) st in
            if negb (w_tmpname_ok W) then (None, st)
            else if w_open_ok W SigTmpPid then (Some SigTmpPid, st)
            else (None, emit (EvStderr MsgPerror) st) in
        match opened with
        | None => Ret (-1, st)
        | Some hfile =>
            let '(out, wide, st) := convert W ivers hi st in
            let st := emit (EvWrite hfile wide out) st in
            if negb (w_write_ok W)
            then Ret (-1, emit (EvStderr MsgIncompleteWrite) st)
            else
              let st :=
                if negb (bool_decide (iname = "-"%string))
                   && negb (w_stat_ok W && w_utimes_ok W)
                then emit (EvStderr MsgMtimeWarning) st else st in
              Ret (0, emit (EvStderr MsgWritten) st)
        end
  end.

End HashmapCode.


(** The signatures written to a file, in order. *)
Definition writes (tr : list event) : list (bool * hashinfo) :=
  omap (fun e => match e with
                 | EvWrite _ wide hi => Some (wide, hi)
                 | _ => None
                 end) tr.

(** The warnings that tell of a conversion given up. *)
Definition is_convert_warning (e : event) : bool :=
  match e with
  | EvStderr MsgIncompatibleHashType
  | EvStderr MsgCannotConvert
  | EvStderr MsgStartTooBig => true
  | _ => false
  end.

(** What the specification says [ndz_reloc_put] does: it returns the number
    of records it copied. *)
Definition reloc_put_returns_count (ndz : ndz_file) (hdr : blockhdr)
    (buf : list blockreloc) : Prop :=
  let sel := filter (fun r => in_chunk hdr r = true) (stored ndz) in
  ndz_reloc_put (Some ndz) (Some hdr) (Some buf)
  = Ret (Z.of_nat (length sel), Some (store_relocs sel buf)).

(** A table is well formed when its count is the number of records its
    buffer holds. *)
Definition table_ok (ndz : ndz_file) : Prop :=
  match relocdata ndz with
  | Some d => relocentries ndz = Z.of_nat (length d)
  | None => relocentries ndz = 0
  end.

Definition is_min_sector (m : Z) (l : list blockreloc) : Prop :=
  m ∈ (r_sector <$> l) ∧ ∀ r, r ∈ l → m <= r_sector r.
Definition is_max_sector (m : Z) (l : list blockreloc) : Prop :=
  m ∈ (r_sector <$> l) ∧ ∀ r, r ∈ l → r_sector r <= m.

(** ** Definitions for the statements *)

Section RelocDefs.
Variables NDZ_LOADDR NDZ_HIADDR : Z.

(** The bounds a table keeps for the records [acc] it holds. *)
Definition bounds_ok (lo hi : Z) (acc : list blockreloc) : Prop :=
  (acc = [] -> lo = NDZ_HIADDR /\ hi = NDZ_LOADDR)
  /\ (acc <> [] -> is_min_sector lo acc /\ is_max_sector hi acc).

(** What a table that holds the records [acc] looks like. *)
Definition table_inv (ndz : ndz_file) (acc : list blockreloc) : Prop :=
  stored ndz = acc /\ table_ok ndz
  /\ bounds_ok (reloclo ndz) (relochi ndz) acc.

End RelocDefs.

(** A table with one record for sector 5, and a chunk of sectors 0 to 9. *)
Definition reloc5 : blockreloc :=
  {| r_type := 1; r_sector := 5; r_sectoff := 0; r_size := 16 |}.
Definition table5 : ndz_file :=
  {| reloc32 := true; relocdata := Some [reloc5]; relocentries := 1;
     reloclo := 5; relochi := 5; sectsize := 512 |}.
Definition chunk_0_10 (count : Z) : blockhdr :=
  {| hdr_magic := COMPRESSED_V2; hdr_size := 0; hdr_blockindex := 0;
     hdr_blocktotal := 0; hdr_regionsize := DEFAULTREGIONSIZE;
     hdr_regioncount := 0; hdr_firstsect := 0; hdr_lastsect := 10;
     hdr_reloccount := count; hdr_firstsect64 := 0; hdr_lastsect64 := 0;
     hdr_imageid := []; hdr_enc_cipher := 0; hdr_csum_type := 0 |}.

(** The versions the specification has a chunk accepted for. *)
Definition accepted_version (m : Z) : bool :=
  let v := m - COMPRESSED_MAGIC_BASE + 1 in
  (v =? 1) || (v =? 2) || (v =? 3) || (v =? 5) || (v =? 6).

(** [imagedump] gets to the header of the first chunk of [f]: the file is
    opened and positioned, and the first read fills the header [hdr]. *)
Definition first_chunk_read (s : dump_state) (f : image_file) (hdr : blockhdr)
  : Prop :=
  (f_isstdin f = true
   \/ (f_open_ok f = true /\ f_fstat_ok f = true
       /\ (checksums s <> 0 \/ f_lseek_ok f 0 = true)))
  /\ exists rest, f_chunks f = hdr :: rest.

(** What the specification says of the quick check: the exit status is 0
    exactly when the first chunk has an accepted version. *)
Definition quickcheck_as_specified (s : dump_state) (f : image_file)
    (hdr : blockhdr) : Prop :=
  imagedump_main s 0 [f] = 0 <-> accepted_version (hdr_magic hdr) = true.

Definition quick_state : dump_state :=
  {| detail := 0; dumpmap := 0; ignorev1 := 0; checksums := 0;
     quickcheck := 1; magic := 0; chunkcount := 0; imageid := [];
     sigtype := 0; enctype := 0 |}.

Definition header_of_magic (m : Z) : blockhdr :=
  {| hdr_magic := m; hdr_size := 0; hdr_blockindex := 0;
     hdr_blocktotal := 0; hdr_regionsize := DEFAULTREGIONSIZE;
     hdr_regioncount := 0; hdr_firstsect := 0; hdr_lastsect := 0;
     hdr_reloccount := 0; hdr_firstsect64 := 0; hdr_lastsect64 := 0;
     hdr_imageid := []; hdr_enc_cipher := 0; hdr_csum_type := 0 |}.

Definition file_of_magic (m : Z) : image_file :=
  {| f_isstdin := false; f_open_ok := true; f_fstat_ok := true;
     f_size := CHUNKSIZE; f_lseek_ok := fun _ => true;
     f_chunks := [header_of_magic m]; f_end := EndOfFile |}.

Section WriteDefs.
Context {K : imagehash_h} {F : Type}.
Implicit Types (st : hm_state F) (W : write_env).

(** A region with its start made relative to the partition. *)
Definition relative (off : Z) (hreg : hashregion) : hashregion :=
  {| hr_start := u64 (hr_start hreg - off); hr_size := hr_size hreg;
     hr_chunkno := hr_chunkno hreg; hr_hash := hr_hash hreg |}.

(** The name is allocated and one of the two files is opened. *)
Definition sig_opened W (fname iname : string) : Prop :=
  w_name_ok W = true
  /\ (w_open_ok W (sig_name fname iname) = true
      \/ (w_tmpname_ok W = true /\ w_open_ok W SigTmpPid = true)).

(** The conversion to 32-bit records goes through. *)
Definition narrows W st (ivers : Z) (hi : hashinfo) : bool :=
  (ivers <? COMPRESSED_V5)
  && negb (hi_hashtype hi =? HASH_TYPE_SHA256)
  && w_cvt_ok W
  && forallb (fun r => u64 (hr_start r - poffset st) <=? UINT32_MAX)
       (hi_regions hi).


(** What the asserts of [hashmap_write_hashfile] ask of the state. *)
Definition write_pre st (hi0 : hashinfo) : Prop :=
  poffset st <> 2 ^ 64 - 1
  /\ Forall (fun r => hr_size r <= hi_blksize hi0 /\ poffset st <= hr_start r)
       (hi_regions hi0).

End WriteDefs.

(** Sample values for the constants of [imagehash.h]. *)
Definition sample_imagehash : imagehash_h :=
  {| HASH_VERSION_1 := 1; HASH_VERSION_2 := 2; HASH_VERSION_3 := 3;
     HASH_VERSION := 3;
     HASH_TYPE_MD5 := 1; HASH_TYPE_SHA1 := 2; HASH_TYPE_SHA256 := 3;
     HASHBLK_SIZE := 65536; HASH_MAXSIZE := 32; hash32_size := 20 |}.

(** A state of [hashmap.c] with the partition at [off], hash blocks of
    [blk] sectors, the new signature [nh] and the heap [h]. *)
Definition sample_state (off blk : Z) (nh : nhinfo_ptr) (h : gmap positive range)
  : hm_state unit :=
  {| hashblksize := blk; nhinfo := nh; hashlen := 20; hashfunc := Some SHA1;
     imagefd := 3; poffset := off; hash_free := 1; fixups := tt; heap := h;
     nalloc := 0; trace := [];
     dummy_head := {| rg_start := u32 (-1); rg_size := 0; rg_next := None |};
     range_tail := None; hinfo_buf := None |}.

Definition sample_region (start size : Z) (hash : list Z) : hashregion :=
  {| hr_start := start; hr_size := size; hr_chunkno := 0; hr_hash := hash |}.

Definition sample_hashinfo (hashtype : Z) (regs : list hashregion) : hashinfo :=
  {| hi_version := 3; hi_hashtype := hashtype; hi_blksize := 128;
     hi_regions := regs |}.

(** Every system call succeeds. *)
Definition write_all_ok : write_env :=
  {| w_name_ok := true; w_open_ok := fun _ => true; w_tmpname_ok := true;
     w_cvt_ok := true; w_write_ok := true; w_stat_ok := true;
     w_utimes_ok := true |}.

(** One region at sector 15 of a partition that starts at sector 10. *)
Definition state_15 : hm_state unit :=
  sample_state 10 128
    (NhLive (sample_hashinfo 2 [sample_region 15 8 (replicate 32 7)])) ∅.

(** The pieces the specification cuts a range into: the first one ends at
    the next multiple of [blk] past [offset], the following ones are [blk]
    long, and the last one is what remains. *)
Fixpoint pieces_from (n : nat) (blk start size offset : Z) : list (Z * Z) :=
  if size <=? 0 then []
  else
    match n with
    | O => []
    | S n' =>
        let h := Z.min (blk - offset) size in
        (start, h) :: pieces_from n' blk (start + h) (size - h) 0
    end.

Definition hash_pieces (blk ssect rstart rsize : Z) : list (Z * Z) :=
  pieces_from (Z.to_nat rsize) blk rstart rsize ((rstart - ssect) `mod` blk).

(** [tiles a ps b]: the pieces [ps], each at least one sector long, follow
    one another from [a] to [b]. *)
Fixpoint tiles (a : Z) (ps : list (Z * Z)) (b : Z) : Prop :=
  match ps with
  | [] => a = b
  | (s, n) :: rest => s = a /\ 0 < n /\ tiles (a + n) rest b
  end.

(** The regions of the signature [nhinfo] points to. *)
Definition regions_of (p : nhinfo_ptr) : list hashregion :=
  match p with
  | NhLive hi => hi_regions hi
  | _ => []
  end.

Definition piece_of (r : hashregion) : Z * Z := (hr_start r, hr_size r).

Section HashmapDefs.
Context {K : imagehash_h} {F : Type}.
Implicit Types (st : hm_state F) (E : delta_env F).

(** The fields that only [hashmap_compute_delta] itself and
    [add_to_range] assign. *)
Definition same_walk st st' : Prop :=
  hashblksize st' = hashblksize st /\ hashlen st' = hashlen st
  /\ hashfunc st' = hashfunc st /\ imagefd st' = imagefd st
  /\ poffset st' = poffset st /\ hash_free st' = hash_free st
  /\ heap st' = heap st /\ dummy_head st' = dummy_head st
  /\ range_tail st' = range_tail st.

End HashmapDefs.

(** A list of nodes: address, start and size of each. *)
Abbreviation nodes := (list (positive * Z * Z)).

Definition addrs (O : nodes) : list positive := (fun e => e.1.1) <$> O.
Definition vals (O : nodes) : list (Z * Z) := (fun e => (e.1.2, e.2)) <$> O.

(** [rseg h p O q]: in the heap [h] the pointer [p] leads through the nodes
    [O], in order, to the pointer [q]. *)
Fixpoint rseg (h : gmap positive range) (p : option positive) (O : nodes)
    (q : option positive) : Prop :=
  match O with
  | [] => p = q
  | (a, s, n) :: O' =>
      p = Some a
      /\ exists nx, h !! a = Some {| rg_start := s; rg_size := n; rg_next := nx |}
                    /\ rseg h nx O' q
  end.

(** [rlist h p O]: [p] is the head of the list of the nodes [O]. *)
Definition rlist (h : gmap positive range) (p : option positive) (O : nodes)
  : Prop := rseg h p O None.

(** The sectors a list of ranges covers. *)
Definition cov (l : list (Z * Z)) (x : Z) : Prop :=
  exists p, p ∈ l /\ p.1 <= x < p.1 + p.2.

(** Ranges that are not empty and end below 2^32. *)
Definition wf32 (l : list (Z * Z)) : Prop :=
  Forall (fun p => 0 <= p.1 /\ 0 < p.2 /\ p.1 + p.2 < 2 ^ 32) l.

Section WalkDefs.
Context {K : imagehash_h} {F : Type}.
Implicit Types (st : hm_state F) (E : delta_env F).
Variable h0 : gmap positive range.

(** The output list of the walk: its nodes [O] hang off [dummy_head],
    [range_tail] points to the last of them, they were all allocated by
    the walk, and the heap is the caller's heap [h0] with these nodes
    added. *)
Definition out_inv st (O : nodes) : Prop :=
  rlist (heap st) (rg_next (dummy_head st)) O
  /\ range_tail st = last (addrs O)
  /\ NoDup (addrs O)
  /\ (forall a, a ∈ addrs O -> h0 !! a = None)
  /\ (forall l nd, h0 !! l = Some nd -> heap st !! l = Some nd)
  /\ (forall l, is_Some (heap st !! l) -> is_Some (h0 !! l) \/ l ∈ addrs O).

(** [dummy_head] is as the walk initialises it. *)
Definition dummy_ok st : Prop :=
  rg_start (dummy_head st) = 2 ^ 32 - 1 /\ rg_size (dummy_head st) = 0.

(** The fields the helpers of the walk leave alone. *)
Definition same_cfg st st' : Prop :=
  hashblksize st' = hashblksize st /\ hashlen st' = hashlen st
  /\ hashfunc st' = hashfunc st /\ imagefd st' = imagefd st
  /\ poffset st' = poffset st /\ hash_free st' = hash_free st.

(** What a successful [add_to_range] does to the sectors of the output
    list, when the numbers stay below 2^32. *)
Definition emitted st (O : nodes) st' (O' : nodes) (start size : Z) : Prop :=
  dummy_ok st -> wf32 (vals O) ->
  0 <= start -> 0 < size -> start + size < 2 ^ 32 ->
  dummy_ok st' /\ wf32 (vals O')
  /\ forall x, cov (vals O') x <-> cov (vals O) x \/ start <= x < start + size.

(** The cursor of the walk: [drange] points to a copy of a node whose
    [next] leads to nodes of the caller's list; [R] lists the ranges that
    are still to be treated. *)
Definition cur_inv (drange : option range) (R : list (Z * Z)) : Prop :=
  match drange with
  | None => R = []
  | Some d => exists Lr, R = (rg_start d, rg_size d) :: vals Lr
                         /\ rlist h0 (rg_next d) Lr
  end.

Definition walk_ok st (O : nodes) (drange : option range) (R : list (Z * Z))
  : Prop :=
  dummy_ok st /\ wf32 (vals O) /\ wf32 R /\ cur_inv drange R.

(** One or more steps of the walk over the sectors: from the output [O]
    and the remaining ranges [R] to [O'] and [R'].  Nothing leaves the
    output, a remaining sector goes to the output, is matched, or remains,
    nothing else appears, and the remaining ranges get no more. *)
Definition adv (m : Z -> Prop) (O R O' R' : list (Z * Z)) : Prop :=
  (forall x, cov O x -> cov O' x)
  /\ (forall x, cov R x -> cov O' x \/ m x \/ cov R' x)
  /\ (forall x, cov O' x -> cov O x \/ cov R x)
  /\ (forall x, cov R' x -> cov R x)
  /\ (length R' <= length R)%nat.

(** The hash of the sectors of a hash region, computed from the disk as it
    is, compares equal to the hash the signature stores. *)
Definition hash_matches E (f : hash_alg) (len : Z) (hreg : hashregion) : Prop :=
  exists data buf,
    e_read E (sectobytes (hr_start hreg)) (sectobytes (hr_size hreg)) = Some data
    /\ memcmp_ne (hr_hash hreg) (hash_store (e_digest E f data) buf) len = false.

(** A hash region that lies below 2^32. *)
Definition hreg_ok (hreg : hashregion) : Prop :=
  0 <= hr_start hreg /\ 0 <= hr_size hreg
  /\ hr_start hreg + hr_size hreg < 2 ^ 32.

(** [m] holds of the sectors of [hreg] when its hash matches. *)
Definition covers_matches E st (m : Z -> Prop) (hreg : hashregion) : Prop :=
  forall f, hashfunc st = Some f ->
            hash_matches E f (hashlen st) hreg ->
            forall x, hr_start hreg <= x < hr_start hreg + hr_size hreg -> m x.

(** [hashblksize] is an [unsigned int]. *)
Definition blk_ok st : Prop := 0 <= hashblksize st < 2 ^ 32.

End WalkDefs.

Section DeltaDefs.
Context {K : imagehash_h} {F : Type}.
Implicit Types (st : hm_state F) (E : delta_env F).

(** The state in which the walk starts. *)
Definition walk_start E st (f : hash_alg) (len : Z) (newhashfile : bool)
  : hm_state F :=
  let st := set_hashfunc len (Some f) st in
  let st := set_range_tail None
              (set_dummy_head {| rg_start := u32 (-1); rg_size := 0;
                                 rg_next := None |} st) in
  if newhashfile
  then emit EvSavefixups (set_fixups (e_savefixups E (fixups st)) st)
  else st.

(** The sectors of the hash regions of [hinfo] whose hash matches. *)
Definition matched_sector E (hinfo : hashinfo) (x : Z) : Prop :=
  exists hreg,
    hreg ∈ hi_regions hinfo
    /\ hash_matches E (select_hash (hi_hashtype hinfo)).2
         (select_hash (hi_hashtype hinfo)).1 hreg
    /\ hr_start hreg <= x < hr_start hreg + hr_size hreg.

(** What the specification says of the delta: the output and the matching
    hash regions together cover the sectors of the input, and no others. *)
Definition delta_covers_exactly E (hinfo : hashinfo) (L N : nodes) : Prop :=
  forall x, cov (vals L) x <-> cov (vals N) x \/ matched_sector E hinfo x.

(** The events the code after the label [error] leaves, from the state
    [st] it starts in. *)
Definition cleanup_events (newhashfile : bool) st : list event :=
  (if newhashfile then [EvRestorefixups 0] else [])
  ++ match nhinfo st with NhNull => [] | _ => [EvFreeNhinfo] end
  ++ [EvFreeranges (rg_next (dummy_head st))].

(** [quiet st st']: from [st] to [st'] the block of the original signature
    was not written, and nothing but messages to [stderr] was added to the
    trace. *)
Definition quiet st st' : Prop :=
  hinfo_buf st' = hinfo_buf st
  /\ exists msgs, trace st' = trace st ++ (EvStderr <$> msgs).

(** Whether [nhinfo] points to a freed block. *)
Definition nh_freed (p : nhinfo_ptr) : bool :=
  match p with NhFreed => true | _ => false end.

(** The events of a walk that fails: the fixups are saved when a new
    signature was requested, the messages [msgs] go to [stderr], and the
    code after the label [error] restores the fixups when a new signature
    was requested, frees [nhinfo] when [freed], and frees the output list
    [out]. *)
Definition failure_events (newhashfile : bool) (msgs : list message)
    (freed : bool) (out : option positive) : list event :=
  (if newhashfile then [EvSavefixups] else [])
  ++ (EvStderr <$> msgs)
  ++ (if newhashfile then [EvRestorefixups 0] else [])
  ++ (if freed then [EvFreeNhinfo] else [])
  ++ [EvFreeranges out].

End DeltaDefs.

(** A digest of the right length: every byte is the sum of the data
    modulo 251. *)
Definition sample_digest (f : hash_alg) (data : list Z) : list Z :=
  replicate (match f with MD5 => 16 | SHA1 => 20 | SHA256 => 32 end)
            (foldr Z.add 0 data mod 251).

(** A disk of ones without fixups, on which the first [limit] allocations
    succeed. *)
Definition sample_env (limit : nat) : delta_env unit :=
  {| e_alloc := fun n => bool_decide (n < limit)%nat;
     e_read := fun _ n => Some (replicate (Z.to_nat n) 1);
     e_hasfixup := fun _ _ _ => false;
     e_applyfixups := fun f _ _ d => (f, d);
     e_savefixups := fun f => f;
     e_restorefixups := fun f _ => f;
     e_digest := sample_digest;
     e_uninit := replicate 32 0 |}.

(** The static variables as the program starts with them, over the heap
    [h]. *)
Definition initial_state (h : gmap positive range) : hm_state unit :=
  {| hashblksize := 0; nhinfo := NhNull; hashlen := 0; hashfunc := None;
     imagefd := 0; poffset := 2 ^ 64 - 1; hash_free := 1; fixups := tt;
     heap := h; nalloc := 0; trace := [];
     dummy_head := {| rg_start := 0; rg_size := 0; rg_next := None |};
     range_tail := None; hinfo_buf := None |}.

Definition range_node (start size : Z) (next : option positive) : range :=
  {| rg_start := start; rg_size := size; rg_next := next |}.

(** The ranges [0,3) and [6,10). *)
Definition heap_0_3_6_4 : gmap positive range :=
  <[1%positive := range_node 0 3 (Some 2%positive)]>
    (<[2%positive := range_node 6 4 None]> ∅).

(** A signature with the one region [start, start + size), whose hash is
    the digest of the disk of ones. *)
Definition one_region (start size : Z) : hashinfo :=
  sample_hashinfo 3
    [sample_region start size (replicate 32 (size * 512 mod 251))].

Definition ranges_0_3_6_4 : nodes := [(1%positive, 0, 3); (2%positive, 6, 4)].

(** C1 as the specification states it: the sectors of [curranges] are
    exactly those of [nranges] together with those of the hash regions
    whose hash matched. *)
Definition delta_union_as_specified {K : imagehash_h} {F : Type} (fuel : nat)
    (E : delta_env F) (st : hm_state F) (curranges : option positive)
    (L : nodes) (hfile : option sig_source) (infd ssect : Z)
    (newhashfile : bool) : Prop :=
  forall rv1 st1 hinfo st' nranges N,
    delta_hinfo E (set_imagefd_poffset infd (u64 ssect) st) hfile
    = Ret (rv1, st1, Some hinfo) ->
    hashmap_compute_delta fuel E st curranges hfile infd ssect newhashfile
    = Ret (0, st', Some nranges) ->
    rlist (heap st') nranges N ->
    delta_covers_exactly E hinfo L N.

(** A signature of two regions: [0,5), whose hash is that of the disk, and
    [5,10), whose hash is not. *)
Definition two_regions : hashinfo :=
  sample_hashinfo 3
    [sample_region 0 5 (replicate 32 (5 * 512 mod 251));
     sample_region 5 5 (replicate 32 1)].

(** The range [100,200). *)
Definition heap_100_100 : gmap positive range :=
  <[1%positive := range_node 100 100 None]> ∅.

(** C4 as the specification states it: a call that fails in the walk has
    run the error-path fixup restore. *)
Definition error_restores_fixups {K : imagehash_h} {F : Type} (fuel : nat)
    (E : delta_env F) (st : hm_state F) (curranges : option positive)
    (hfile : option sig_source) (infd ssect : Z) (newhashfile : bool) : Prop :=
  forall rv1 st1 hinfo st' nr,
    delta_hinfo E (set_imagefd_poffset infd (u64 ssect) st) hfile
    = Ret (rv1, st1, Some hinfo) ->
    hashmap_compute_delta fuel E st curranges hfile infd ssect newhashfile
    = Ret (-1, st', nr) ->
    EvRestorefixups 0 ∈ trace st'.

(** ** More of libndz/reloc.c *)

(** The scan of [ndz_reloc_inrange]: [n] stored records are visited in
    order, until one lies past [eaddr]; [nreloc] counts those between
    [addr] and [eaddr]. *)
Fixpoint reloc_inrange_loop (n : nat) (relocdata : list blockreloc)
    (sectsz addr eaddr nreloc : Z) : outcome Z :=
  match n with
  | O => Ret nreloc
  | S n' =>
      match relocdata with
      | [] => Undefined
      | r :: rest =>
          let rsector := r_sector r in
          let roffset := r_sectoff r in
          let rsize := r_size r in
          _ ← assert (u64 (roffset + rsize) <=? sectsz);
          if eaddr <? rsector then Ret nreloc
          else
            reloc_inrange_loop n' rest sectsz addr eaddr
              (if (addr <=? rsector) && (rsector <=? eaddr)
               then nreloc + 1 else nreloc)
      end
  end.

(** [ndz_reloc_inrange(ndz, addr, size)] *)
Definition ndz_reloc_inrange (ndz : option ndz_file) (addr size : Z)
  : outcome Z :=
  match ndz with
  | None => AssertFail
  | Some n =>
      let eaddr :=
        if size =? 0 then (if addr <? relochi n then relochi n else addr)
        else u64 (addr + size - 1) in
      if (relocentries n =? 0) || (relochi n <? addr) || (eaddr <? reloclo n)
      then Ret 0
      else
        match relocdata n with
        | None => Undefined
        | Some data =>
            reloc_inrange_loop (Z.to_nat (relocentries n)) data (sectsize n)
              addr eaddr 0
        end
  end.

Section RelocCopy.

(** [memcpy] copies the records as bytes; when the two tables differ in
    [reloc32] the destination reads them in the other width, which
    [recast from32 to32] stands for. *)
Variable recast : bool -> bool -> list blockreloc -> list blockreloc.

(** [alloc_ok] tells whether the [malloc] of the call succeeds; the result
    is the returned [int] and the destination table. *)
Definition ndz_reloc_copy (alloc_ok : bool) (ndzfrom ndzto : option ndz_file)
  : outcome (Z * option ndz_file) :=
  match ndzfrom, ndzto with
  | Some f, Some t =>
      if 0 <? relocentries t then Ret (-1, ndzto)
      else if relocentries f =? 0 then Ret (0, ndzto)
      else if negb alloc_ok then
        Ret (-1, Some {| reloc32 := reloc32 t; relocdata := None;
                         relocentries := relocentries t;
                         reloclo := reloclo t; relochi := relochi t;
                         sectsize := sectsize t |})
      else
        match relocdata f with
        | None => Undefined
        | Some data =>
            if (relocentries f <? 0)
               || (Z.of_nat (length data) <? relocentries f)
            then Undefined
            else
              let copied := take (Z.to_nat (relocentries f)) data in
              Ret (0, Some {| reloc32 := reloc32 t;
                              relocdata :=
                                Some (if Bool.eqb (reloc32 f) (reloc32 t)
                                      then copied
                                      else recast (reloc32 f) (reloc32 t)
                                             copied);
                              relocentries := relocentries f;
                              reloclo := reloclo f; relochi := relochi f;
                              sectsize := sectsize t |})
        end
  | _, _ => Ret (-1, ndzto)
  end.

End RelocCopy.

(** The stored records whose sector is between [addr] and [eaddr]. *)
Definition in_range (addr eaddr : Z) (r : blockreloc) : bool :=
  (addr <=? r_sector r) && (r_sector r <=? eaddr).

(** A 32-bit table with records for the sectors 5, 7 and 20. *)
Definition reloc_at (sector : Z) : blockreloc :=
  {| r_type := 1; r_sector := sector; r_sectoff := 0; r_size := 16 |}.
Definition table_5_7_20 : ndz_file :=
  {| reloc32 := true;
     relocdata := Some [reloc_at 5; reloc_at 7; reloc_at 20];
     relocentries := 3; reloclo := 5; relochi := 20; sectsize := 512 |}.

(** A table as [ndz_reloc_init] leaves it, with the sentinels 0 and
    2^64 - 1. *)
Definition empty_table : ndz_file :=
  {| reloc32 := true; relocdata := None; relocentries := 0;
     reloclo := 2 ^ 64 - 1; relochi := 0; sectsize := 512 |}.

(** The header of a V2 chunk of the sectors [first] to [last - 1] with
    [count] relocations. *)
Definition chunk_of (first last count : Z) : blockhdr :=
  {| hdr_magic := COMPRESSED_V2; hdr_size := 0; hdr_blockindex := 0;
     hdr_blocktotal := 0; hdr_regionsize := DEFAULTREGIONSIZE;
     hdr_regioncount := 0; hdr_firstsect := first; hdr_lastsect := last;
     hdr_reloccount := count; hdr_firstsect64 := 0; hdr_lastsect64 := 0;
     hdr_imageid := []; hdr_enc_cipher := 0; hdr_csum_type := 0 |}.

(** ** More of imagedump.c: the statistics *)

(** A region descriptor ([struct region_32] or [struct region_64]). *)
Record region : Type := {
  g_start : Z;
  g_size : Z
}.

(** [REG_START] and [REG_SIZE] read the descriptor in its width and give a
    [uint64_t]. *)
Definition REG_START (is32 : bool) (reg : region) : Z :=
  if is32 then u32 (g_start reg) else u64 (g_start reg).
Definition REG_SIZE (is32 : bool) (reg : region) : Z :=
  if is32 then u32 (g_size reg) else u64 (g_size reg).

(** The counters [dumpfile] resets and [dumpchunk] updates.  [adist] is the
    array of eight buckets of the size distribution. *)
Record dump_stats : Type := {
  wasted : Z;
  sectinuse : Z;
  sectfree : Z;
  relocs : Z;
  relocbytes : Z;
  nextsector : Z;
  nextcovered : Z;
  fmax : Z;
  fmin : Z;
  franges : Z;
  amax : Z;
  amin : Z;
  aranges : Z;
  adist : list Z;
  regmax : Z;
  regmin : Z;
  losect : Z;
  hisect : Z
}.

(** The counters as [dumpfile] sets them before the first chunk. *)
Definition initial_stats : dump_stats :=
  {| wasted := 0; sectinuse := 0; sectfree := 0; relocs := 0;
     relocbytes := 0; nextsector := 0; nextcovered := 0;
     fmax := 0; fmin := u32 (-1); franges := 0;
     amax := 0; amin := u32 (-1); aranges := 0;
     adist := replicate 8 0; regmax := 0; regmin := 0;
     losect := u64 (-1); hisect := 0 |}.

(** [sectfree += count], with the bounds and the count of free ranges. *)
Definition add_free (count : Z) (st : dump_stats) : dump_stats :=
  {| wasted := wasted st; sectinuse := sectinuse st;
     sectfree := u32 (sectfree st + count);
     relocs := relocs st; relocbytes := relocbytes st;
     nextsector := nextsector st; nextcovered := nextcovered st;
     fmax := if fmax st <? count then count else fmax st;
     fmin := if count <? fmin st then count else fmin st;
     franges := u32 (franges st + 1);
     amax := amax st; amin := amin st; aranges := aranges st;
     adist := adist st; regmax := regmax st; regmin := regmin st;
     losect := losect st; hisect := hisect st |}.

(** The bucket of the size distribution for a range of [count] sectors. *)
Definition adist_index (count : Z) : nat :=
  if count <? 8 then 0
  else if count <? 16 then 1
  else if count <? 32 then 2
  else if count <? 64 then 3
  else if count <? 128 then 4
  else if count <? 256 then 5
  else if count <? 512 then 6
  else 7.

(** [sectinuse += count], with the bounds, the bucket and the count of
    allocated ranges. *)
Definition add_alloc (count : Z) (st : dump_stats) : dump_stats :=
  {| wasted := wasted st;
     sectinuse := u32 (sectinuse st + count);
     sectfree := sectfree st;
     relocs := relocs st; relocbytes := relocbytes st;
     nextsector := nextsector st; nextcovered := nextcovered st;
     fmax := fmax st; fmin := fmin st; franges := franges st;
     amax := if amax st <? count then count else amax st;
     amin := if count <? amin st then count else amin st;
     aranges := u32 (aranges st + 1);
     adist := alter (fun v => u32 (v + 1)) (adist_index count) (adist st);
     regmax := regmax st; regmin := regmin st;
     losect := losect st; hisect := hisect st |}.

Definition set_sectors (next lo hi : Z) (st : dump_stats) : dump_stats :=
  {| wasted := wasted st; sectinuse := sectinuse st;
     sectfree := sectfree st;
     relocs := relocs st; relocbytes := relocbytes st;
     nextsector := next; nextcovered := nextcovered st;
     fmax := fmax st; fmin := fmin st; franges := franges st;
     amax := amax st; amin := amin st; aranges := aranges st;
     adist := adist st; regmax := regmax st; regmin := regmin st;
     losect := lo; hisect := hi |}.

(** One turn of the loop of [dumpchunk] over the regions: region [i] of
    a chunk of [regioncount] regions that describes the sectors [first]
    to [last - 1]. *)
Definition region_step (magic0 : Z) (is32 : bool) (first last regioncount : Z)
    (i : Z) (reg : region) (st : dump_stats) : dump_stats :=
  let rstart := REG_START is32 reg in
  let rsize := REG_SIZE is32 reg in
  let '(count, st) :=
    if COMPRESSED_V1 <? magic0 then
      let count :=
        if i =? 0 then
          (if rstart <? first then 0 else u32 (rstart - first))
        else u32 (rstart - nextsector st) in
      let '(count, st) :=
        if i =? regioncount - 1 then
          if last <? u64 (rstart + rsize) then (count, st)
          else
            (u32 (last - u64 (rstart + rsize)),
             if 0 <? count then add_free count st else st)
        else (count, st) in
      (count,
       set_sectors (nextsector st)
         (if first <? losect st then first else losect st)
         (if hisect st <? u64 (last - 1) then u64 (last - 1) else hisect st)
         st)
    else
      (u32 (rstart - nextsector st),
       set_sectors (nextsector st)
         (if rstart <? losect st then rstart else losect st)
         (if hisect st <? u64 (rstart + rsize - 1)
          then u64 (rstart + rsize - 1) else hisect st)
         st) in
  let st := if 0 <? count then add_free count st else st in
  let st := add_alloc (u32 rsize) st in
  set_sectors (u64 (rstart + rsize)) (losect st) (hisect st) st.

(** The loop over the regions; a descriptor the chunk does not hold is
    read past its buffer. *)
Fixpoint region_loop (n : nat) (magic0 : Z) (is32 : bool)
    (first last regioncount : Z) (regs : list region) (i : Z)
    (st : dump_stats) : outcome dump_stats :=
  match n with
  | O => Ret st
  | S n' =>
      match regs with
      | [] => Undefined
      | reg :: rest =>
          region_loop n' magic0 is32 first last regioncount rest (i + 1)
            (region_step magic0 is32 first last regioncount i reg st)
      end
  end.

(** The loop over the relocations. *)
Fixpoint reloc_stats_loop (n : nat) (is32 : bool) (rs : list blockreloc)
    (st : dump_stats) : outcome dump_stats :=
  match n with
  | O => Ret st
  | S n' =>
      match rs with
      | [] => Undefined
      | r :: rest =>
          let rsize := if is32 then u32 (r_size r) else u64 (r_size r) in
          reloc_stats_loop n' is32 rest
            {| wasted := wasted st; sectinuse := sectinuse st;
               sectfree := sectfree st;
               relocs := u32 (relocs st + 1);
               relocbytes := u64 (relocbytes st + rsize);
               nextsector := nextsector st; nextcovered := nextcovered st;
               fmax := fmax st; fmin := fmin st; franges := franges st;
               amax := amax st; amin := amin st; aranges := aranges st;
               adist := adist st; regmax := regmax st; regmin := regmin st;
               losect := losect st; hisect := hisect st |}
      end
  end.

(** What [dumpchunk] does to the counters for a chunk it accepts: [regs]
    are the region descriptors that follow the header and [rs] the
    relocations that follow those.  Only the case [COMPRESSED_V5] of the
    [switch] clears [is32]. *)
Definition dumpchunk_stats (s : dump_state) (hdr : blockhdr)
    (regs : list region) (rs : list blockreloc) (st : dump_stats)
  : outcome dump_stats :=
  let m := hdr_magic hdr in
  let is32 := negb (m =? COMPRESSED_V5) in
  let '(first, last) :=
    if (m =? COMPRESSED_V2) || (m =? COMPRESSED_V3)
    then (hdr_firstsect hdr, hdr_lastsect hdr)
    else if (m =? COMPRESSED_V5) || (m =? COMPRESSED_V6)
    then (hdr_firstsect64 hdr, hdr_lastsect64 hdr)
    else (0, 0) in
  let st :=
    {| wasted := u64 (wasted st + u32 (CHUNKSIZE - hdr_size hdr));
       sectinuse := sectinuse st; sectfree := sectfree st;
       relocs := relocs st; relocbytes := relocbytes st;
       nextsector := nextsector st;
       nextcovered := if (0 <? detail s) && (COMPRESSED_V1 <? m)
                      then last else nextcovered st;
       fmax := fmax st; fmin := fmin st; franges := franges st;
       amax := amax st; amin := amin st; aranges := aranges st;
       adist := adist st;
       regmax := if (regmax st =? 0) || (regmax st <? hdr_regioncount hdr)
                 then hdr_regioncount hdr else regmax st;
       regmin := if (regmin st =? 0) || (hdr_regioncount hdr <? regmin st)
                 then hdr_regioncount hdr else regmin st;
       losect := losect st; hisect := hisect st |} in
  st ← region_loop (Z.to_nat (hdr_regioncount hdr)) m is32 first last
         (hdr_regioncount hdr) regs 0 st;
  if m =? COMPRESSED_V1 then Ret st
  else reloc_stats_loop (Z.to_nat (hdr_reloccount hdr)) is32 rs st.

(** The allocated ranges of a chunk as [dumpchunk] counts them. *)
Definition region_sizes (is32 : bool) (regs : list region) : list Z :=
  (fun reg => u32 (REG_SIZE is32 reg)) <$> regs.

(** The sum of a list of numbers. *)
Definition sum_list (l : list Z) : Z := foldr Z.add 0 l.

(** A chunk as [dumpchunk] reads it: the header, the region descriptors
    and the relocations. *)
Record chunk : Type := {
  c_hdr : blockhdr;
  c_regions : list region;
  c_relocs : list blockreloc
}.

(** The calls of [dumpchunk] that [dumpfile] makes for chunks that are all
    accepted, as far as the counters go. *)
Fixpoint dumpchunks_stats (s : dump_state) (chunks : list chunk)
    (st : dump_stats) : outcome dump_stats :=
  match chunks with
  | [] => Ret st
  | c :: rest =>
      st1 ← dumpchunk_stats s (c_hdr c) (c_regions c) (c_relocs c) st;
      dumpchunks_stats s rest st1
  end.

(** The width [dumpchunk] reads the descriptors of a chunk in. *)
Definition chunk_is32 (c : chunk) : bool :=
  negb (hdr_magic (c_hdr c) =? COMPRESSED_V5).

(** The region descriptors [dumpchunk] visits in a chunk. *)
Definition visited (c : chunk) : list region :=
  take (Z.to_nat (hdr_regioncount (c_hdr c))) (c_regions c).

(** The buckets of the size distribution add up to the count of allocated
    ranges. *)
Definition hist_ok (st : dump_stats) : Prop :=
  length (adist st) = 8%nat /\ u32 (sum_list (adist st)) = aranges st.

(** The regions [regs] follow one another between [prev] and [last]
    without overlap. *)
Fixpoint ascending (is32 : bool) (prev : Z) (regs : list region) (last : Z)
  : Prop :=
  match regs with
  | [] => prev <= last
  | reg :: rest =>
      prev <= REG_START is32 reg
      /\ ascending is32 (REG_START is32 reg + REG_SIZE is32 reg) rest last
  end.

(** A V2 chunk of the sectors 100 to 199 with the regions [100,110) and
    [150,180). *)
Definition sample_chunk : chunk :=
  {| c_hdr :=
       {| hdr_magic := COMPRESSED_V2; hdr_size := 1000; hdr_blockindex := 0;
          hdr_blocktotal := 1; hdr_regionsize := DEFAULTREGIONSIZE;
          hdr_regioncount := 2; hdr_firstsect := 100; hdr_lastsect := 200;
          hdr_reloccount := 0; hdr_firstsect64 := 0; hdr_lastsect64 := 0;
          hdr_imageid := []; hdr_enc_cipher := 0; hdr_csum_type := 0 |};
     c_regions := [{| g_start := 100; g_size := 10 |};
                   {| g_start := 150; g_size := 30 |}];
     c_relocs := [] |}.

(** The option counters all 0. *)
Definition plain_state : dump_state :=
  {| detail := 0; dumpmap := 0; ignorev1 := 0; checksums := 0;
     quickcheck := 0; magic := 0; chunkcount := 0; imageid := [];
     sigtype := 0; enctype := 0 |}.

(** The number of regions [dumpchunk] visits in the chunks, and the
    sectors they hold as it counts them. *)
Definition regions_visited (chunks : list chunk) : Z :=
  sum_list ((fun c => Z.of_nat (length (visited c))) <$> chunks).
Definition sectors_visited (chunks : list chunk) : Z :=
  sum_list ((fun c => sum_list (region_sizes (chunk_is32 c) (visited c)))
              <$> chunks).

(** The sectors a chunk describes, as [dumpchunk] takes them from the
    header. *)
Definition chunk_range (hdr : blockhdr) : Z * Z :=
  let m := hdr_magic hdr in
  if (m =? COMPRESSED_V2) || (m =? COMPRESSED_V3)
  then (hdr_firstsect hdr, hdr_lastsect hdr)
  else if (m =? COMPRESSED_V5) || (m =? COMPRESSED_V6)
  then (hdr_firstsect64 hdr, hdr_lastsect64 hdr)
  else (0, 0).

(** A regular file of two V2 chunks that [dumpfile] accepts. *)
Definition sample_header (index : Z) : blockhdr :=
  {| hdr_magic := COMPRESSED_V2; hdr_size := 1000; hdr_blockindex := index;
     hdr_blocktotal := 2; hdr_regionsize := DEFAULTREGIONSIZE;
     hdr_regioncount := 0; hdr_firstsect := 0; hdr_lastsect := 0;
     hdr_reloccount := 0; hdr_firstsect64 := 0; hdr_lastsect64 := 0;
     hdr_imageid := []; hdr_enc_cipher := 0; hdr_csum_type := 0 |}.
Definition sample_file : image_file :=
  {| f_isstdin := false; f_open_ok := true; f_fstat_ok := true;
     f_size := 2 * CHUNKSIZE; f_lseek_ok := fun _ => true;
     f_chunks := [sample_header 0; sample_header 1]; f_end := EndOfFile |}.
(** A file that cannot be opened. *)
Definition missing_file : image_file :=
  {| f_isstdin := false; f_open_ok := false; f_fstat_ok := false;
     f_size := 0; f_lseek_ok := fun _ => false;
     f_chunks := []; f_end := ReadFails |}.

(** ** [hashmap_update_chunk] *)

Section UpdateChunk.
Context {F : Type}.
Implicit Types (st : hm_state F).

(** [HASH_CHUNKDOESSPAN] and [HASH_CHUNKSETSPAN] are macros of
    [imagehash.h], which is not among the sources. *)
Variable HASH_CHUNKDOESSPAN : Z -> bool.
Variable HASH_CHUNKSETSPAN : Z -> Z.

(** [hreg->chunkno = c] *)
Definition set_chunkno (c : Z) (hreg : hashregion) : hashregion :=
  {| hr_start := hr_start hreg; hr_size := hr_size hreg; hr_chunkno := c;
     hr_hash := hr_hash hreg |}.

(** The loop of [hashmap_update_chunk], with [lsect] already decremented.
    [hrssect] and [hrlsect] are [uint32_t]. *)
Fixpoint update_chunk_loop (ssect lsect chunkno : Z) (regs : list hashregion)
  : outcome (list hashregion) :=
  match regs with
  | [] => Ret []
  | hreg :: rest =>
      let hrssect := u32 (hr_start hreg) in
      let hrlsect := u32 (hrssect + hr_size hreg - 1) in
      if hrlsect <? ssect then
        rest1 ← update_chunk_loop ssect lsect chunkno rest;
        Ret (hreg :: rest1)
      else if lsect <? hrssect then Ret (hreg :: rest)
      else if hrssect <? ssect then
        _ ← assert (HASH_CHUNKDOESSPAN (hr_chunkno hreg));
        rest1 ← update_chunk_loop ssect lsect chunkno rest;
        Ret (hreg :: rest1)
      else
        let hreg1 :=
          if hrlsect <=? lsect then set_chunkno chunkno hreg
          else set_chunkno (HASH_CHUNKSETSPAN chunkno) hreg in
        rest1 ← update_chunk_loop ssect lsect chunkno rest;
        Ret (hreg1 :: rest1)
  end.

(** [hashmap_update_chunk(ssect, lsect, chunkno)]; [chunkno] is an [int]. *)
Definition hashmap_update_chunk st (ssect lsect chunkno : Z)
  : outcome (hm_state F) :=
  let ssect := u64 ssect in
  let lsect := u64 lsect in
  _ ← assert (0 <=? chunkno);
  match nhinfo st with
  | NhNull => Ret st
  | NhLive32 _ | NhFreed => Undefined
  | NhLive hi =>
      let lsect := u64 (lsect - 1) in
      regs ← update_chunk_loop ssect lsect chunkno (hi_regions hi);
      Ret (set_nhinfo (NhLive {| hi_version := hi_version hi;
                                 hi_hashtype := hi_hashtype hi;
                                 hi_blksize := hi_blksize hi;
                                 hi_regions := regs |}) st)
  end.

(** What the call is meant to do to one region: a region that starts in
    [ssect, lsect) gets the chunk number, marked when the region runs
    past [lsect]. *)
Definition mark_chunk (ssect lsect chunkno : Z) (hreg : hashregion)
  : hashregion :=
  if (ssect <=? hr_start hreg) && (hr_start hreg <? lsect)
  then set_chunkno (if hr_start hreg + hr_size hreg <=? lsect then chunkno
                    else HASH_CHUNKSETSPAN chunkno) hreg
  else hreg.

(** A region that starts before [ssect] and runs into [ssect, lsect) has
    been marked as spanning. *)
Definition straddler_marked (ssect lsect : Z) (hreg : hashregion) : Prop :=
  hr_start hreg < ssect -> ssect < hr_start hreg + hr_size hreg ->
  hr_start hreg < lsect ->
  HASH_CHUNKDOESSPAN (hr_chunkno hreg) = true.

(** The regions are not empty and their sectors fit in 32 bits. *)
Definition region32 (hreg : hashregion) : Prop :=
  0 <= hr_start hreg /\ 0 < hr_size hreg
  /\ hr_start hreg + hr_size hreg <= 2 ^ 32.

End UpdateChunk.

(** Sample macros: the top bit of the chunk number marks a spanning
    region. *)
Definition sample_doesspan (c : Z) : bool := Z.testbit c 31.
Definition sample_setspan (c : Z) : Z := Z.lor c (2 ^ 31).

(** Regions [10, 14), [14, 18), [18, 34) and [40, 48), the first one
    marked as spanning chunk 4. *)
Definition regions_10_14_40 : list hashregion :=
  [ set_chunkno (sample_setspan 4) (sample_region 10 4 []);
    sample_region 14 4 []; sample_region 18 16 []; sample_region 40 8 [] ].

(** The three versions of the signature format are different numbers. *)
Definition versions_distinct {K : imagehash_h} : Prop :=
  HASH_VERSION_1 <> HASH_VERSION_2 /\ HASH_VERSION_1 <> HASH_VERSION_3
  /\ HASH_VERSION_2 <> HASH_VERSION_3.

(** The state [hashmap_write_hashfile] leaves when it writes the signature
    of [state_15] for an image of version 2. *)
Definition written_15 : hm_state unit :=
  match hashmap_write_hashfile (K := sample_imagehash) write_all_ok state_15
          "" "image.ndz" COMPRESSED_V2 with
  | Ret (_, st') => st'
  | _ => state_15
  end.

(** The pieces of all the ranges [R], cut at the multiples of [blk] counted
    from [ssect]. *)
Definition signature_pieces (blk ssect : Z) (R : list (Z * Z)) : list (Z * Z) :=
  concat ((fun p => hash_pieces blk ssect p.1 p.2) <$> R).

(** The ranges [100,200) and [300,320). *)
Definition heap_100_300 : gmap positive range :=
  <[1%positive := range_node 100 100 (Some 2%positive)]>
    (<[2%positive := range_node 300 20 None]> ∅).

Definition ranges_100_300 : nodes :=
  [(1%positive, 100, 100); (2%positive, 300, 20)].

(** The state and the list [hashmap_compute_delta] returns for the ranges
    [100,200) and [300,320) of a partition at sector 10, with no signature
    file. *)
Definition first_signature_run : hm_state unit * option positive :=
  match hashmap_compute_delta (K := sample_imagehash) 10 (sample_env 100)
          (initial_state heap_100_300) (Some 1%positive) None 3 10 true with
  | Ret (_, st', Some nranges) => (st', nranges)
  | _ => (initial_state heap_100_300, None)
  end.

(** The state in which [hashmap_compute_delta] calls its helpers: the
    image is open, the hash function is chosen, and [nhinfo] is [NULL] or
    points to a signature with 64-bit regions. *)
Definition hashing_ready {F : Type} (st : hm_state F) : Prop :=
  0 < hashblksize st < 2 ^ 32 /\ poffset st <> 2 ^ 64 - 1
  /\ 0 <= imagefd st /\ hashfunc st <> None /\ hashlen st <> 0
  /\ (nhinfo st = NhNull \/ exists hi, nhinfo st = NhLive hi).

(** As [sample_env], with every allocation succeeding. *)
Definition sample_env_mem : delta_env unit :=
  {| e_alloc := fun _ => true;
     e_read := fun _ n => Some (replicate (Z.to_nat n) 1);
     e_hasfixup := fun _ _ _ => false;
     e_applyfixups := fun f _ _ d => (f, d);
     e_savefixups := fun f => f;
     e_restorefixups := fun f _ => f;
     e_digest := sample_digest;
     e_uninit := replicate 32 0 |}.

(** ** frisbee.redux/event.c *)

(** The warnings of [event.c]. *)
Inductive ev_warning : Type :=
| WarnNoServer
| WarnRegister (server : string)
| WarnTupleAlloc
| WarnNotificationAlloc.

(** The fields of an address tuple that [event.c] assigns; a [char *] is
    [None] when it is [NULL] or was never assigned. *)
Record address_tuple : Type := {
  t_host : option string;
  t_objtype : option string;
  t_objname : option string;
  t_eventtype : option string
}.

(** [ClientSummary_t], as far as [event.c] reads it. *)
Record ClientSummary : Type := {
  chunks_in : Z;
  chunks_out : Z;
  bytes_out : Z
}.

(** The calls into the event library and the log, with the handle they
    are made on and whether they succeed.  The numbers are the values of
    the argument expressions. *)
Inductive ev_call : Type :=
| LibRegister (server : string) (ok : bool)
| LibUnregister (h : nat)
| LibTupleAlloc (ok : bool)
| LibTupleFree
| LibNotificationAlloc (h : nat) (t : address_tuple) (ok : bool)
| LibPutInt32 (key : string) (v : Z)
| LibPutInt64 (key : string) (v : Z)
| LibNotify (h : nat) (ok : bool)
| LibNotificationFree
| LibWarning (w : ev_warning).

(** The static variables of [event.c], the number of library calls that
    can fail made so far, and the calls made.  A handle is named by the
    number of the call that returned it. *)
Record ev_state : Type := {
  ehandle : option nat;
  tuple : option address_tuple;
  eserver : option string;
  ncall : nat;
  calls : list ev_call
}.

Definition ev_initial : ev_state :=
  {| ehandle := None; tuple := None; eserver := None; ncall := 0;
     calls := [] |}.

Section EventCode.

(** Which of the calls that can fail succeed, by their number; [BUFSIZ]
    and [BOSSNODE] come from headers that are not among the sources. *)
Variable lib_ok : nat -> bool.
Variable BUFSIZ : nat.
Variable BOSSNODE : string.

Definition set_ehandle (v : option nat) (st : ev_state) : ev_state :=
  {| ehandle := v; tuple := tuple st; eserver := eserver st;
     ncall := ncall st; calls := calls st |}.
Definition set_tuple (v : option address_tuple) (st : ev_state) : ev_state :=
  {| ehandle := ehandle st; tuple := v; eserver := eserver st;
     ncall := ncall st; calls := calls st |}.
Definition set_eserver (v : option string) (st : ev_state) : ev_state :=
  {| ehandle := ehandle st; tuple := tuple st; eserver := v;
     ncall := ncall st; calls := calls st |}.
Definition ev_log (c : ev_call) (st : ev_state) : ev_state :=
  {| ehandle := ehandle st; tuple := tuple st; eserver := eserver st;
     ncall := ncall st; calls := calls st ++ [c] |}.

(** One call that can fail: whether it succeeds, and its number. *)
Definition ev_try (st : ev_state) : bool * nat * ev_state :=
  (lib_ok (ncall st), ncall st,
   {| ehandle := ehandle st; tuple := tuple st; eserver := eserver st;
      ncall := S (ncall st); calls := calls st |}).

(** [EventDeinit()] *)
Definition EventDeinit (st : ev_state) : ev_state :=
  match ehandle st with
  | Some h =>
      let st := match tuple st with
                | Some _ => set_tuple None (ev_log LibTupleFree st)
                | None => st
                end in
      set_ehandle None (ev_log (LibUnregister h) st)
  | None => st
  end.

(** [EventReinit()] *)
Definition EventReinit (st : ev_state) : Z * ev_state :=
  match ehandle st with
  | Some _ => (0, st)
  | None =>
      match eserver st with
      | None => (1, st)
      | Some server =>
          let '(ok, h, st) := ev_try st in
          let st := ev_log (LibRegister server ok) st in
          if negb ok
          then (1, ev_log (LibWarning (WarnRegister server)) st)
          else
            let st := set_ehandle (Some h) st in
            let '(ok, _, st) := ev_try st in
            let st := ev_log (LibTupleAlloc ok) st in
            if negb ok
            then (1, EventDeinit
                       (ev_log (LibWarning WarnTupleAlloc) (set_tuple None st)))
            else (0, set_tuple (Some {| t_host := None; t_objtype := None;
                                        t_objname := None;
                                        t_eventtype := None |}) st)
      end
  end.

(** [EventInit(server)]: [snprintf] cuts the name at [BUFSIZ - 1]
    characters, and [strdup] can fail. *)
Definition EventInit (server : option string) (st : ev_state)
  : Z * ev_state :=
  match server with
  | None => (1, ev_log (LibWarning WarnNoServer) st)
  | Some server =>
      let buf := substring 0 (BUFSIZ - 1) ("elvin://" ++ server)%string in
      let '(ok, _, st) := ev_try st in
      let st := set_eserver (if ok then Some buf else None) st in
      EventReinit st
  end.

(** [EventSendClientReport(node, image, tstamp, seq, summary, stats)];
    [stats] is not used. *)
Definition EventSendClientReport (node image : option string)
    (tstamp seq : Z) (summary : option ClientSummary) (st : ev_state)
  : outcome (Z * ev_state) :=
  let '(rv, st) :=
    match ehandle st with
    | None => EventReinit st
    | Some _ => (0, st)
    end in
  if negb (rv =? 0) then Ret (1, st)
  else
    match tuple st, ehandle st with
    | Some _, Some h =>
        let t := {| t_host := Some BOSSNODE;
                    t_objtype := Some "FRISBEESTATUS"%string;
                    t_objname := node; t_eventtype := image |} in
        let st := set_tuple (Some t) st in
        let '(ok, _, st) := ev_try st in
        let st := ev_log (LibNotificationAlloc h t ok) st in
        if negb ok
        then Ret (1, ev_log (LibWarning WarnNotificationAlloc) st)
        else
          let st := ev_log (LibPutInt32 "TSTAMP" tstamp) st in
          let st := ev_log (LibPutInt32 "SEQUENCE" seq) st in
          let st :=
            match summary with
            | Some s =>
                ev_log (LibPutInt64 "BYTES_WRITTEN" (bytes_out s))
                  (ev_log (LibPutInt32 "CHUNKS_DECOMP" (chunks_out s))
                     (ev_log (LibPutInt32 "CHUNKS_RECV" (chunks_in s)) st))
            | None => st
            end in
          let '(ok, _, st) := ev_try st in
          let st := ev_log (LibNotify h ok) st in
          if negb ok
          then Ret (1, EventDeinit (ev_log LibNotificationFree st))
          else Ret (0, ev_log LibNotificationFree st)
    | _, _ => Undefined
    end.

(** The calls a program can make. *)
Inductive ev_api : Type :=
| CallInit (server : option string)
| CallDeinit
| CallSend (node image : option string) (tstamp seq : Z)
    (summary : option ClientSummary).

Definition ev_step (c : ev_api) (st : ev_state) : outcome ev_state :=
  match c with
  | CallInit server => Ret (EventInit server st).2
  | CallDeinit => Ret (EventDeinit st)
  | CallSend node image tstamp seq summary =>
      '(_, st1) ← EventSendClientReport node image tstamp seq summary st;
      Ret st1
  end.

Fixpoint ev_run (cs : list ev_api) (st : ev_state) : outcome ev_state :=
  match cs with
  | [] => Ret st
  | c :: rest => st1 ← ev_step c st; ev_run rest st1
  end.

End EventCode.

(** How many of the calls [cs] satisfy [f]. *)
Definition count_calls (f : ev_call -> bool) (cs : list ev_call) : nat :=
  length (filter (fun c => f c = true) cs).

Definition is_register_ok (c : ev_call) : bool :=
  match c with LibRegister _ true => true | _ => false end.
Definition is_unregister (c : ev_call) : bool :=
  match c with LibUnregister _ => true | _ => false end.
Definition is_tuple_alloc_ok (c : ev_call) : bool :=
  match c with LibTupleAlloc true => true | _ => false end.
Definition is_tuple_free (c : ev_call) : bool :=
  match c with LibTupleFree => true | _ => false end.
Definition is_notification_alloc_ok (c : ev_call) : bool :=
  match c with LibNotificationAlloc _ _ true => true | _ => false end.
Definition is_notification_free (c : ev_call) : bool :=
  match c with LibNotificationFree => true | _ => false end.

(** 1 when the pointer is set. *)
Definition held {A} (p : option A) : nat :=
  match p with Some _ => 1 | None => 0 end.

(** What the library holds for the program is what the static variables
    point to: one handle and one tuple when registered, none otherwise,
    and no notification between calls. *)
Definition ev_balanced (st : ev_state) : Prop :=
  held (tuple st) = held (ehandle st)
  /\ count_calls is_register_ok (calls st)
     = (count_calls is_unregister (calls st) + held (ehandle st))%nat
  /\ count_calls is_tuple_alloc_ok (calls st)
     = (count_calls is_tuple_free (calls st) + held (tuple st))%nat
  /\ count_calls is_notification_alloc_ok (calls st)
     = count_calls is_notification_free (calls st).

(** Every second call that can fail does. *)
Definition lib_flaky (n : nat) : bool := Nat.even n.

Definition sample_calls : list ev_api :=
  [ CallInit (Some "boss:16505"%string);
    CallSend (Some "pc1"%string) (Some "img"%string) 1 1 None;
    CallSend (Some "pc1"%string) (Some "img"%string) 2 2
      (Some {| chunks_in := 4; chunks_out := 3; bytes_out := 3145728 |});
    CallSend (Some "pc1"%string) (Some "img"%string) 3 3 None;
    CallDeinit;
    CallSend (Some "pc1"%string) (Some "img"%string) 4 4 None ].

Section UpdateChunks.
Context {F : Type}.
Implicit Types (st : hm_state F).
Variable HASH_CHUNKDOESSPAN : Z -> bool.
Variable HASH_CHUNKSETSPAN : Z -> Z.

(** Calls of [hashmap_update_chunk] for sector ranges that follow one
    another: the first range starts at [ssect], and each call, given by
    its [lsect] and [chunkno], ends where the next one starts. *)
Fixpoint update_chunks st (ssect : Z) (calls : list (Z * Z))
  : outcome (hm_state F) :=
  match calls with
  | [] => Ret st
  | (lsect, chunkno) :: rest =>
      st1 ← hashmap_update_chunk HASH_CHUNKDOESSPAN HASH_CHUNKSETSPAN st
              ssect lsect chunkno;
      update_chunks st1 lsect rest
  end.

(** What these calls are meant to do to one region. *)
Fixpoint mark_chunks (ssect : Z) (calls : list (Z * Z)) (hreg : hashregion)
  : hashregion :=
  match calls with
  | [] => hreg
  | (lsect, chunkno) :: rest =>
      mark_chunks lsect rest
        (mark_chunk HASH_CHUNKSETSPAN ssect lsect chunkno hreg)
  end.

(** The ranges are not empty and end below 2^64, and the chunk numbers
    are not negative. *)
Fixpoint calls_ok (ssect : Z) (calls : list (Z * Z)) : Prop :=
  match calls with
  | [] => True
  | (lsect, chunkno) :: rest =>
      ssect < lsect < 2 ^ 64 /\ 0 <= chunkno /\ calls_ok lsect rest
  end.

(** A region that starts before [bound] and runs past it is marked as
    spanning. *)
Definition span_marked (bound : Z) (hreg : hashregion) : Prop :=
  hr_start hreg < bound -> bound < hr_start hreg + hr_size hreg ->
  HASH_CHUNKDOESSPAN (hr_chunkno hreg) = true.

End UpdateChunks.

(** Regions [10, 14), [14, 18), [18, 34) and [40, 48), as [addhash]
    leaves them. *)
Definition regions_fresh : list hashregion :=
  [ sample_region 10 4 []; sample_region 14 4 []; sample_region 18 16 [];
    sample_region 40 8 [] ].

(** ** imagedump.c: [spewhash] *)

(** [static const char hex[] = "0123456789abcdef"] *)
Definition hex : list Ascii.ascii := list_ascii_of_string "0123456789abcdef".

(** [hex[n]], for an index inside the array. *)
Definition hex_at (n : Z) : outcome Ascii.ascii :=
  match hex !! Z.to_nat n with
  | Some c => if 0 <=? n then Ret c else Undefined
  | None => Undefined
  end.

(** The loop of [spewhash], at index [i] with [n] turns to go; [h] is
    what is left of the array of [unsigned char], and [hbuf] holds
    [16*2+1] characters. *)
Fixpoint spewhash_loop (n : nat) (i : Z) (h : list Z) : outcome (list Ascii.ascii) :=
  match n with
  | O => if 16 <? i then Undefined else Ret []
  | S n' =>
      match h with
      | [] => Undefined
      | b :: rest =>
          if 16 <=? i then Undefined
          else
            hi ← hex_at (Z.shiftr b 4);
            lo ← hex_at (Z.land b 0xf);
            s ← spewhash_loop n' (i + 1) rest;
            Ret (hi :: lo :: s)
      end
  end.

(** [spewhash(h, hlen)]: the string in [hbuf] up to the terminator. *)
Definition spewhash (h : list Z) (hlen : Z) : outcome (list Ascii.ascii) :=
  spewhash_loop (Z.to_nat hlen) 0 h.

(** The values of an [unsigned char]. *)
Definition is_byte (b : Z) : Prop := 0 <= b < 256.

Definition sample_md5 : list Z :=
  [0; 1; 2; 3; 16; 32; 48; 64; 127; 128; 160; 200; 240; 250; 254; 255].

(* ===================================================================== *)
(** * Part II.  Properties                                                *)
(* ===================================================================== *)

Lemma bind_Ret {A B} (m : outcome A) (k : A -> outcome B) (b : B) :
  m ≫= k = Ret b -> exists a, m = Ret a /\ k a = Ret b.
Proof. destruct m; simpl; intros H; try discriminate. eauto. Qed.

Lemma assert_Ret (b : bool) (u : unit) : assert b = Ret u -> b = true.
Proof. destruct b; simpl; [reflexivity | discriminate]. Qed.

Lemma assert_true : assert true = Ret tt.
Proof. reflexivity. Qed.

Lemma bind_NoFuel {A B} (m : outcome A) (k : A -> outcome B) :
  m ≫= k = NoFuel -> m = NoFuel \/ exists a, m = Ret a /\ k a = NoFuel.
Proof. destruct m; simpl; intros H; try discriminate; eauto. Qed.

Lemma assert_NoFuel (b : bool) : assert b <> NoFuel.
Proof. destruct b; discriminate. Qed.

(** Strips the leading [assert]s of a call that is supposed to end in
    [NoFuel]. *)
Ltac skip_asserts H :=
  repeat (apply bind_NoFuel in H as [H|[[] [_ H]]];
          [exfalso; exact (assert_NoFuel _ H)|]).

Lemma filter_none {A} (P : A -> Prop) `{forall x, Decision (P x)} (l : list A) :
  (forall x, x ∈ l -> ~ P x) -> filter P l = [].
Proof.
  induction l as [|a l IH]; intros Hl; [reflexivity|].
  rewrite filter_cons, decide_False by (apply Hl; set_solver).
  apply IH. intros x Hx. apply Hl. set_solver.
Qed.

(** ** The relocation table *)

Section RelocFacts.
Variables NDZ_LOADDR NDZ_HIADDR : Z.

Local Abbreviation init := (ndz_reloc_init NDZ_LOADDR NDZ_HIADDR).
Local Abbreviation get := (ndz_reloc_get NDZ_HIADDR).
Local Abbreviation get_loop := (reloc_get_loop NDZ_HIADDR).
Local Abbreviation get_seq := (ndz_reloc_get_seq NDZ_HIADDR).

Lemma bounds_ok_snoc lo hi acc r :
  bounds_ok NDZ_LOADDR NDZ_HIADDR lo hi acc ->
  (forall x, x ∈ acc -> NDZ_LOADDR <= r_sector x <= NDZ_HIADDR) ->
  NDZ_LOADDR <= r_sector r <= NDZ_HIADDR ->
  (if lo =? NDZ_HIADDR then r_sector r else lo) <= r_sector r ->
  bounds_ok NDZ_LOADDR NDZ_HIADDR (if lo =? NDZ_HIADDR then r_sector r else lo)
            (if hi <? r_sector r then r_sector r else hi) (acc ++ [r]).
Proof.
  intros [Hnil Hne] Hacc Hr Hassert. split.
  { intros H. destruct acc; discriminate. }
  intros _. destruct acc as [|a acc].
  - destruct (Hnil eq_refl) as [-> ->]. rewrite Z.eqb_refl. simpl.
    assert (Hhi : (if NDZ_LOADDR <? r_sector r then r_sector r else NDZ_LOADDR)
                  = r_sector r).
    { destruct (Z.ltb_spec NDZ_LOADDR (r_sector r)); lia. }
    rewrite Hhi. split; (split; [set_solver|]).
    + intros x Hx. apply list_elem_of_singleton in Hx. subst. lia.
    + intros x Hx. apply list_elem_of_singleton in Hx. subst. lia.
  - destruct (Hne ltac:(discriminate)) as [[Hlo1 Hlo2] [Hhi1 Hhi2]].
    split.
    + destruct (Z.eqb_spec lo NDZ_HIADDR) as [Heq|Hneq].
      * split; [rewrite fmap_app; set_solver|].
        intros x Hx. apply elem_of_app in Hx as [Hx|Hx].
        -- specialize (Hlo2 x Hx). specialize (Hacc x Hx). lia.
        -- apply list_elem_of_singleton in Hx. subst. lia.
      * split; [rewrite fmap_app; set_solver|].
        intros x Hx. apply elem_of_app in Hx as [Hx|Hx]; [auto|].
        apply list_elem_of_singleton in Hx. subst. exact Hassert.
    + destruct (Z.ltb_spec hi (r_sector r)) as [Hlt|Hge].
      * split; [rewrite fmap_app; set_solver|].
        intros x Hx. apply elem_of_app in Hx as [Hx|Hx].
        -- specialize (Hhi2 x Hx). lia.
        -- apply list_elem_of_singleton in Hx. subst. lia.
      * split; [rewrite fmap_app; set_solver|].
        intros x Hx. apply elem_of_app in Hx as [Hx|Hx]; [auto|].
        apply list_elem_of_singleton in Hx. subst. lia.
Qed.

Lemma reloc_get_loop_Ret n : forall chunk lo hi acc lo' hi' data,
  get_loop n chunk lo hi acc = Ret (lo', hi', data) ->
  (n <= length chunk)%nat /\ data = acc ++ take n chunk
  /\ (bounds_ok NDZ_LOADDR NDZ_HIADDR lo hi acc ->
      (forall x, x ∈ acc ++ take n chunk ->
                 NDZ_LOADDR <= r_sector x <= NDZ_HIADDR) ->
      bounds_ok NDZ_LOADDR NDZ_HIADDR lo' hi' data).
Proof.
  induction n as [|n IH]; intros chunk lo hi acc lo' hi' data H; simpl in H.
  - inversion H; subst. rewrite take_0, app_nil_r. split; [lia|]. auto.
  - destruct chunk as [|r rest]; [discriminate|].
    apply bind_Ret in H as [[] [Ha H]]. apply assert_Ret in Ha.
    apply IH in H as (Hlen & -> & Hb). simpl.
    split; [lia|]. split; [by rewrite <- app_assoc|].
    intros Hbo Hin. apply Hb.
    + apply bounds_ok_snoc; auto.
      * intros x Hx. apply Hin. set_solver.
      * apply Hin. set_solver.
      * by apply Z.leb_le.
    + intros x Hx. apply Hin. rewrite <- app_assoc in Hx. exact Hx.
Qed.

Lemma reloc_put_loop_Ret n : forall data sectsz fs ls out,
  (n <= length data)%nat ->
  (forall r, r ∈ take n data -> u64 (r_sectoff r + r_size r) <= sectsz) ->
  reloc_put_loop n data sectsz fs ls out
  = Ret (out ++ filter (fun r => (fs <=? r_sector r) && (r_sector r <? ls) = true)
                  (take n data)).
Proof.
  induction n as [|n IH]; intros data sectsz fs ls out Hlen Hok; simpl.
  - by rewrite take_0, app_nil_r.
  - destruct data as [|r rest]; [simpl in Hlen; lia|].
    simpl in Hlen. rewrite firstn_cons in *.
    assert (Hr : (u64 (r_sectoff r + r_size r) <=? sectsz) = true).
    { apply Z.leb_le, Hok. set_solver. }
    rewrite Hr. simpl. rewrite IH; [|lia|intros; apply Hok; set_solver].
    rewrite filter_cons.
    destruct (fs <=? r_sector r) eqn:E1, (r_sector r <? ls) eqn:E2; simpl;
      try reflexivity.
    by rewrite <- app_assoc.
Qed.

(** C8, as amended: on a well-formed table whose bounds bracket its
    records, [ndz_reloc_put] visits every stored record, copies to the
    start of the chunk's buffer exactly those whose sector is in
    [[firstsect, lastsect)], in stored order, and returns 0. *)
Theorem ndz_reloc_put_selects (ndz : ndz_file) (hdr : blockhdr)
    (buf : list blockreloc) :
  table_ok ndz ->
  (forall r, r ∈ stored ndz -> reloclo ndz <= r_sector r <= relochi ndz) ->
  (forall r, r ∈ stored ndz -> u64 (r_sectoff r + r_size r) <= sectsize ndz) ->
  ndz_reloc_put (Some ndz) (Some hdr) (Some buf)
  = Ret (0, Some (store_relocs
                    (filter (fun r => in_chunk hdr r = true) (stored ndz)) buf)).
Proof.
  intros Hok Hbr Hsz. unfold ndz_reloc_put.
  destruct ((relocentries ndz =? 0) || (relochi ndz <? hdr_firstsect hdr)
            || (hdr_lastsect hdr <=? reloclo ndz)) eqn:Hq.
  - assert (Hnil : filter (fun r => in_chunk hdr r = true) (stored ndz) = []).
    { apply filter_none. intros r Hr Hin.
      specialize (Hbr r Hr). unfold in_chunk in Hin.
      apply andb_true_iff in Hin as [H1 H2].
      apply Z.leb_le in H1. apply Z.ltb_lt in H2.
      apply orb_true_iff in Hq as [Hq|Hq];
        [apply orb_true_iff in Hq as [Hq|Hq]|].
      + apply Z.eqb_eq in Hq. unfold stored, table_ok in *.
        destruct (relocdata ndz); [|set_solver].
        rewrite Hq in Hr. simpl in Hr. set_solver.
      + apply Z.ltb_lt in Hq. lia.
      + apply Z.leb_le in Hq. lia. }
    rewrite Hnil. unfold store_relocs. simpl. by rewrite drop_0.
  - unfold table_ok, stored in *. destruct (relocdata ndz) as [d|].
    + rewrite reloc_put_loop_Ret.
      * simpl. reflexivity.
      * rewrite Hok. lia.
      * exact Hsz.
    + rewrite Hok in Hq. simpl in Hq. discriminate.
Qed.

Lemma table_inv_init ndz0 : table_inv NDZ_LOADDR NDZ_HIADDR (init ndz0) [].
Proof.
  unfold table_inv, stored, table_ok, bounds_ok. simpl.
  split; [reflexivity|]. split; [reflexivity|]. split; [done|].
  intros Hne. by destruct Hne.
Qed.

Lemma stored_take_old ndz :
  table_ok ndz ->
  take (Z.to_nat (relocentries ndz)) (default [] (relocdata ndz)) = stored ndz.
Proof.
  unfold table_ok, stored. destruct (relocdata ndz); simpl; [done|].
  intros ->. reflexivity.
Qed.

Lemma ndz_reloc_get_step alloc_ok ndz h b ndz' acc :
  table_inv NDZ_LOADDR NDZ_HIADDR ndz acc ->
  0 <= hdr_reloccount h ->
  (forall r, r ∈ acc ++ supplied (alloc_ok, h, b) ->
             NDZ_LOADDR <= r_sector r <= NDZ_HIADDR) ->
  get alloc_ok (Some ndz) (Some h) (Some b) = Ret (0, Some ndz') ->
  table_inv NDZ_LOADDR NDZ_HIADDR ndz' (acc ++ supplied (alloc_ok, h, b)).
Proof.
  intros (Hst & Hok & Hbo) Hcnt Hin H. unfold ndz_reloc_get in H.
  unfold supplied in *.
  destruct ((hdr_magic h <? COMPRESSED_V2) || (hdr_reloccount h =? 0)).
  { inversion H; subst ndz'. rewrite app_nil_r. unfold table_inv. auto. }
  apply bind_Ret in H as [[] [_ H]].
  destruct alloc_ok; simpl in H.
  2:{ destruct (relocdata ndz); [|discriminate].
      destruct (_ =? 0); discriminate. }
  destruct ((relocentries ndz <? 0)
            || (Z.of_nat (length (default [] (relocdata ndz)))
                <? relocentries ndz)); [discriminate|].
  apply bind_Ret in H as [[[lo hi] data] [Hloop H]].
  inversion H; subst; clear H.
  rewrite (stored_take_old _ Hok) in Hloop.
  apply reloc_get_loop_Ret in Hloop as (Hlen & -> & Hb).
  assert (Hlen2 : length (take (Z.to_nat (hdr_reloccount h)) b)
                  = Z.to_nat (hdr_reloccount h)).
  { rewrite length_take. lia. }
  assert (Hn : relocentries ndz = Z.of_nat (length (stored ndz))).
  { unfold stored, table_ok in *. destruct (relocdata ndz); [|by rewrite Hok].
    rewrite Hok, Nat2Z.id, firstn_all. reflexivity. }
  set (S := stored ndz) in *. clearbody S.
  unfold table_inv, stored, table_ok. simpl.
  assert (Hlen3 : Z.of_nat (length (S ++ take (Z.to_nat (hdr_reloccount h)) b))
                  = relocentries ndz + hdr_reloccount h).
  { rewrite length_app, Hlen2, Hn. lia. }
  split; [|split].
  - apply take_ge. lia.
  - lia.
  - apply Hb; [exact Hbo|exact Hin].
Qed.

#[local] Arguments ndz_reloc_get : simpl never.
#[local] Arguments supplied : simpl never.

Lemma ndz_reloc_get_seq_inv calls : forall ndz acc ndz',
  table_inv NDZ_LOADDR NDZ_HIADDR ndz acc ->
  Forall (fun c => 0 <= hdr_reloccount (c.1.2)) calls ->
  (forall r, r ∈ acc ++ concat (supplied <$> calls) ->
             NDZ_LOADDR <= r_sector r <= NDZ_HIADDR) ->
  get_seq ndz calls = Some ndz' ->
  table_inv NDZ_LOADDR NDZ_HIADDR ndz' (acc ++ concat (supplied <$> calls)).
Proof.
  induction calls as [|[[ok h] b] calls IH]; intros ndz acc ndz' Hinv Hcnt Hin H;
    simpl in *.
  - inversion H; subst. by rewrite app_nil_r.
  - apply Forall_cons in Hcnt as [Hc Hcnt]. simpl in Hc.
    destruct (get ok (Some ndz) (Some h) (Some b)) as [[rv [n1|]]| | |] eqn:Hg;
      try discriminate; destruct rv; try discriminate.
    rewrite app_assoc. eapply IH; [|exact Hcnt| |exact H].
    + eapply ndz_reloc_get_step; [exact Hinv|exact Hc| |exact Hg].
      intros r Hr. apply Hin. set_solver.
    + intros r Hr. apply Hin. rewrite <- app_assoc in Hr. exact Hr.
Qed.

(** C9: after any sequence of successful calls of [ndz_reloc_get] on an
    initialised table, whose headers carry a count that is not negative and
    supply records in ascending sector order (sectors between the two
    address sentinels), the table holds exactly the supplied records, in
    ascending sector order, [reloclo] is the least stored sector and
    [relochi] the greatest. *)
Theorem ndz_reloc_get_keeps_order (ndz0 ndz : ndz_file)
    (calls : list (bool * blockhdr * list blockreloc)) :
  Forall (fun c => 0 <= hdr_reloccount (c.1.2)) calls ->
  (forall r, r ∈ concat (supplied <$> calls) ->
             NDZ_LOADDR <= r_sector r <= NDZ_HIADDR) ->
  StronglySorted Z.le (r_sector <$> concat (supplied <$> calls)) ->
  get_seq (init ndz0) calls = Some ndz ->
  stored ndz = concat (supplied <$> calls)
  /\ StronglySorted Z.le (r_sector <$> stored ndz)
  /\ (stored ndz <> [] ->
      is_min_sector (reloclo ndz) (stored ndz)
      /\ is_max_sector (relochi ndz) (stored ndz)).
Proof.
  intros Hcnt Hin Hsorted H.
  destruct (ndz_reloc_get_seq_inv calls (init ndz0) [] ndz
              (table_inv_init ndz0) Hcnt Hin H) as (Hst & _ & _ & Hb).
  simpl in *. rewrite Hst. split; [reflexivity|]. split; [exact Hsorted|].
  intros Hne. apply Hb. exact Hne.
Qed.

(** C10: when the [malloc] or [realloc] of [ndz_reloc_get] fails, the call
    returns -1 and leaves the table empty ([relocdata] is [NULL],
    [relocentries] is 0), whatever it held before; the bounds are left as
    they were.  The size asked for is not zero: the count of the table and
    the count of the chunk do not add up to 0 in the 32 bits of [i], as is
    the case for a chunk that supplies records to a table of fewer than
    2^32 of them.  (A [realloc] to the size 0 may free the table and return
    [NULL]; the table would then be freed twice.) *)
Theorem ndz_reloc_get_alloc_failure (ndz : ndz_file) (hdr : blockhdr)
    (buf : list blockreloc) :
  (hdr_magic hdr <? COMPRESSED_V2) || (hdr_reloccount hdr =? 0) = false ->
  (relocdata ndz = None
   \/ reloc32 ndz = negb (COMPRESSED_V5 <=? hdr_magic hdr)) ->
  u32 (relocentries ndz + hdr_reloccount hdr) <> 0 ->
  exists ndz',
    get false (Some ndz) (Some hdr) (Some buf) = Ret (-1, Some ndz')
    /\ relocdata ndz' = None /\ relocentries ndz' = 0 /\ stored ndz' = []
    /\ reloclo ndz' = reloclo ndz /\ relochi ndz' = relochi ndz.
Proof.
  intros Heff Hw Hsz. unfold ndz_reloc_get. rewrite Heff.
  assert (Ha : match relocdata ndz with
               | Some _ => Bool.eqb (negb (COMPRESSED_V5 <=? hdr_magic hdr))
                             (reloc32 ndz)
               | None => true
               end = true).
  { destruct (relocdata ndz); [|reflexivity].
    destruct Hw as [Hw|Hw]; [discriminate|]. rewrite Hw. apply eqb_reflx. }
  rewrite Ha. simpl. apply Z.eqb_neq in Hsz. rewrite Hsz.
  destruct (relocdata ndz); eexists; (split; [reflexivity|]);
    by repeat split.
Qed.

End RelocFacts.

(** C8, as stated, fails: one record is copied and 0 is returned. *)
Lemma ndz_reloc_put_count_counterexample :
  ~ reloc_put_returns_count table5 (chunk_0_10 0) [].
Proof. unfold reloc_put_returns_count. vm_compute. discriminate. Qed.

Lemma ndz_reloc_put_selects_witness :
  ndz_reloc_put (Some table5) (Some (chunk_0_10 0)) (Some [])
  = Ret (0, Some [reloc5]).
Proof.
  apply (ndz_reloc_put_selects table5 (chunk_0_10 0) []).
  - reflexivity.
  - intros r Hr. apply list_elem_of_singleton in Hr. subst. simpl. lia.
  - intros r Hr. apply list_elem_of_singleton in Hr. subst. vm_compute.
    discriminate.
Defined.

(** The scan does not stop at a record past the chunk: a later record of
    the chunk is still copied. *)
Example ndz_reloc_put_scans_all :
  let far := {| r_type := 1; r_sector := 20; r_sectoff := 0; r_size := 16 |} in
  let near := {| r_type := 1; r_sector := 7; r_sectoff := 0; r_size := 16 |} in
  ndz_reloc_put
    (Some {| reloc32 := true; relocdata := Some [reloc5; far; near];
             relocentries := 3; reloclo := 5; relochi := 20; sectsize := 512 |})
    (Some (chunk_0_10 0)) (Some [])
  = Ret (0, Some [reloc5; near]).
Proof. reflexivity. Qed.

Lemma ndz_reloc_get_keeps_order_witness :
  let r7 := {| r_type := 1; r_sector := 7; r_sectoff := 0; r_size := 16 |} in
  let calls := [(true, chunk_0_10 1, [reloc5]); (true, chunk_0_10 1, [r7])] in
  exists ndz,
    ndz_reloc_get_seq (2 ^ 64 - 1) (ndz_reloc_init 0 (2 ^ 64 - 1) table5) calls
    = Some ndz
    /\ stored ndz = [reloc5; r7] /\ reloclo ndz = 5 /\ relochi ndz = 7.
Proof.
  intros r7 calls.
  assert (Hrun : exists ndz,
            ndz_reloc_get_seq (2 ^ 64 - 1)
              (ndz_reloc_init 0 (2 ^ 64 - 1) table5) calls = Some ndz
            /\ reloclo ndz = 5 /\ relochi ndz = 7).
  { eexists. split; [vm_compute; reflexivity|]. split; reflexivity. }
  destruct Hrun as (ndz & Hrun & Hlo & Hhi). exists ndz.
  destruct (ndz_reloc_get_keeps_order 0 (2 ^ 64 - 1) table5 ndz calls)
    as (Hst & _ & _).
  - repeat constructor; simpl; lia.
  - intros r Hr. simpl in Hr.
    apply elem_of_cons in Hr as [->|Hr]; [simpl; lia|].
    apply list_elem_of_singleton in Hr. subst. simpl. lia.
  - simpl. repeat constructor; lia.
  - exact Hrun.
  - repeat split; assumption.
Defined.

Lemma ndz_reloc_get_alloc_failure_witness :
  exists ndz',
    ndz_reloc_get (2 ^ 64 - 1) false (Some table5) (Some (chunk_0_10 1))
      (Some [reloc5]) = Ret (-1, Some ndz')
    /\ relocdata ndz' = None /\ relocentries ndz' = 0 /\ stored ndz' = []
    /\ reloclo ndz' = reloclo table5 /\ relochi ndz' = relochi table5.
Proof.
  apply (ndz_reloc_get_alloc_failure (2 ^ 64 - 1) table5 (chunk_0_10 1)
           [reloc5]).
  - reflexivity.
  - right. reflexivity.
  - vm_compute. discriminate.
Defined.

(** A count of -1 for a table of one record asks [realloc] for the size
    0: when that returns [NULL] the block may be gone already, and the
    call does not get to return. *)
Example ndz_reloc_get_zero_size :
  ndz_reloc_get (2 ^ 64 - 1) false (Some table5) (Some (chunk_0_10 (-1)))
    (Some [reloc5]) = Undefined.
Proof. reflexivity. Qed.

(** ** The magic check of imagedump *)

Lemma dumpchunk_accepted (s : dump_state) (hdr : blockhdr) (chunkno : Z)
    (checkindex : bool) :
  dumpchunk s hdr chunkno checkindex = 0 ->
  accepted_version (hdr_magic hdr) = true.
Proof.
  unfold dumpchunk, accepted_version. intros H.
  destruct (hdr_magic hdr =? COMPRESSED_V1) eqn:E1.
  { apply Z.eqb_eq in E1. rewrite E1. reflexivity. }
  destruct (hdr_magic hdr =? COMPRESSED_V2) eqn:E2.
  { apply Z.eqb_eq in E2. rewrite E2. reflexivity. }
  destruct (hdr_magic hdr =? COMPRESSED_V3) eqn:E3.
  { apply Z.eqb_eq in E3. rewrite E3. reflexivity. }
  destruct (hdr_magic hdr =? COMPRESSED_V5) eqn:E5.
  { apply Z.eqb_eq in E5. rewrite E5. reflexivity. }
  destruct (hdr_magic hdr =? COMPRESSED_V6) eqn:E6.
  { apply Z.eqb_eq in E6. rewrite E6. reflexivity. }
  simpl in H. discriminate.
Qed.

Lemma quickcheck_exit (s : dump_state) (f : image_file) (hdr : blockhdr) :
  quickcheck s <> 0 ->
  first_chunk_read s f hdr ->
  imagedump_main s 0 [f]
  = if (hdr_magic hdr <? COMPRESSED_MAGIC_BASE)
       || (COMPRESSED_MAGIC_CURRENT <? hdr_magic hdr) then 1 else 0.
Proof.
  intros Hq [Hio [rest Hch]].
  assert (Hqb : (quickcheck s =? 0) = false) by (apply Z.eqb_neq; exact Hq).
  unfold imagedump_main. simpl. rewrite Hqb. simpl.
  assert (Hopen : negb (f_isstdin f) && negb (f_open_ok f) = false).
  { destruct Hio as [->|(-> & _)]; [reflexivity|]. apply andb_false_r. }
  rewrite Hopen. unfold dumpfile.
  assert (Hstat : negb (f_isstdin f) && negb (f_fstat_ok f) = false).
  { destruct Hio as [->|(_ & -> & _)]; [reflexivity|]. apply andb_false_r. }
  rewrite Hstat, Hch. simpl.
  assert (Hseek : negb (f_isstdin f || negb (checksums s =? 0))
                  && negb (f_lseek_ok f 0) = false).
  { destruct Hio as [->|(_ & _ & [Hc| ->])]; [reflexivity| |apply andb_false_r].
    apply Z.eqb_neq in Hc. rewrite Hc. simpl. rewrite orb_true_r. reflexivity. }
  rewrite Hseek. unfold dumpfile_first. simpl. rewrite Hqb. simpl.
  destruct ((hdr_magic hdr <? COMPRESSED_MAGIC_BASE)
            || (COMPRESSED_MAGIC_CURRENT <? hdr_magic hdr)); reflexivity.
Qed.

(** C5, as amended: [dumpchunk] accepts a chunk only when its magic encodes
    version 1, 2, 3, 5 or 6, and refuses version 4.  In quickcheck mode,
    once the header of the first chunk is read, the exit status is 0 when
    the magic encodes version 1, 2, 3 or 5, and 1 when the magic is below
    [COMPRESSED_MAGIC_BASE] or above [COMPRESSED_MAGIC_CURRENT], which is
    version 5: version 6 is refused there. *)
Theorem imagedump_magic_check :
  (forall s hdr chunkno checkindex,
      dumpchunk s hdr chunkno checkindex = 0 ->
      accepted_version (hdr_magic hdr) = true)
  /\ (forall s hdr chunkno checkindex,
         hdr_magic hdr = COMPRESSED_V4 ->
         dumpchunk s hdr chunkno checkindex = 1)
  /\ (forall s f hdr,
         quickcheck s <> 0 ->
         first_chunk_read s f hdr ->
         (hdr_magic hdr ∈ [COMPRESSED_V1; COMPRESSED_V2; COMPRESSED_V3;
                            COMPRESSED_V5] ->
          imagedump_main s 0 [f] = 0)
         /\ (hdr_magic hdr < COMPRESSED_MAGIC_BASE
             \/ COMPRESSED_MAGIC_CURRENT < hdr_magic hdr ->
             imagedump_main s 0 [f] = 1)).
Proof.
  split; [exact dumpchunk_accepted|]. split.
  - intros s hdr chunkno checkindex Hm. unfold dumpchunk. rewrite Hm.
    reflexivity.
  - intros s f hdr Hq Hrd. rewrite (quickcheck_exit s f hdr Hq Hrd). split.
    + intros Hm. repeat (apply elem_of_cons in Hm as [->|Hm]; [reflexivity|]).
      by apply elem_of_nil in Hm.
    + intros [Hlo|Hhi].
      * apply Z.ltb_lt in Hlo. rewrite Hlo. reflexivity.
      * apply Z.ltb_lt in Hhi. rewrite Hhi, orb_true_r. reflexivity.
Qed.

(** C5, as stated, fails: a first chunk of version 6 gives exit status 1
    in quickcheck mode. *)
Lemma quickcheck_v6_counterexample :
  ~ quickcheck_as_specified quick_state (file_of_magic COMPRESSED_V6)
      (header_of_magic COMPRESSED_V6).
Proof.
  unfold quickcheck_as_specified. intros [_ H].
  specialize (H eq_refl). vm_compute in H. discriminate.
Qed.

(** Version 4 passes the quick check, though [dumpchunk] refuses it. *)
Example quickcheck_v4 :
  imagedump_main quick_state 0 [file_of_magic COMPRESSED_V4] = 0
  /\ dumpchunk quick_state (header_of_magic COMPRESSED_V4) 0 true = 1.
Proof. split; reflexivity. Qed.

Lemma imagedump_magic_check_witness :
  accepted_version COMPRESSED_V5 = true
  /\ dumpchunk quick_state (header_of_magic COMPRESSED_V4) 0 true = 1
  /\ imagedump_main quick_state 0 [file_of_magic COMPRESSED_V5] = 0
  /\ imagedump_main quick_state 0 [file_of_magic COMPRESSED_V6] = 1.
Proof.
  destruct imagedump_magic_check as (Ha & Hb & Hc).
  split; [|split; [|split]].
  - apply (Ha quick_state (header_of_magic COMPRESSED_V5) 0 true). reflexivity.
  - apply Hb. reflexivity.
  - apply (Hc quick_state (file_of_magic COMPRESSED_V5)
             (header_of_magic COMPRESSED_V5)).
    + discriminate.
    + split; [right; repeat split; right; reflexivity|eexists; reflexivity].
    + repeat constructor.
  - apply (Hc quick_state (file_of_magic COMPRESSED_V6)
             (header_of_magic COMPRESSED_V6)).
    + discriminate.
    + split; [right; repeat split; right; reflexivity|eexists; reflexivity].
    + right. vm_compute. reflexivity.
Defined.

(** ** Writing the signature *)

Section WriteFacts.
Context {K : imagehash_h} {F : Type}.
Implicit Types (st : hm_state F) (W : write_env).

Lemma sub_poffset_loop_Ret blksize off regs : forall regs',
  sub_poffset_loop blksize off regs = Ret regs' ->
  regs' = relative off <$> regs /\ Forall (fun r => off <= hr_start r) regs.
Proof.
  induction regs as [|r regs IH]; intros regs' H; simpl in H.
  - inversion H. split; [reflexivity|constructor].
  - apply bind_Ret in H as [[] [_ H]].
    apply bind_Ret in H as [[] [Ha H]]. apply assert_Ret, Z.leb_le in Ha.
    apply bind_Ret in H as [rest [Hrest H]]. inversion H; subst.
    destruct (IH _ Hrest) as [-> Hall]. split; [reflexivity|].
    constructor; assumption.
Qed.

Lemma narrow_loop_Some regs :
  forallb (fun r => hr_start r <=? UINT32_MAX) regs = true ->
  exists regs32, narrow_loop regs = Some regs32
                 /\ hr_start <$> regs32 = (fun r => u32 (hr_start r)) <$> regs.
Proof.
  induction regs as [|r regs IH]; simpl; intros H.
  - eexists. split; reflexivity.
  - apply andb_true_iff in H as [Hr H]. destruct (IH H) as (regs32 & -> & Hs).
    apply Z.leb_le in Hr.
    destruct (Z.ltb_spec UINT32_MAX (hr_start r)); [lia|].
    simpl. eexists. split; [reflexivity|]. simpl. f_equal. exact Hs.
Qed.

Lemma narrow_loop_None regs :
  forallb (fun r => hr_start r <=? UINT32_MAX) regs = false ->
  narrow_loop regs = None.
Proof.
  induction regs as [|r regs IH]; simpl; intros H; [discriminate|].
  apply andb_false_iff in H as [Hr|H].
  - apply Z.leb_gt in Hr.
    destruct (Z.ltb_spec UINT32_MAX (hr_start r)); [reflexivity|lia].
  - rewrite (IH H). destruct (UINT32_MAX <? hr_start r); reflexivity.
Qed.

Lemma forallb_relative off regs :
  forallb (fun r => hr_start r <=? UINT32_MAX) (relative off <$> regs)
  = forallb (fun r => u64 (hr_start r - off) <=? UINT32_MAX) regs.
Proof.
  induction regs as [|r regs IH]; simpl; [reflexivity|]. f_equal. exact IH.
Qed.

(** The conversion step, case by case. *)
Lemma convert_spec W ivers hi0 st off :
  let hi := {| hi_version := hi_version hi0; hi_hashtype := hi_hashtype hi0;
               hi_blksize := hi_blksize hi0;
               hi_regions := relative off <$> hi_regions hi0 |} in
  forall out wide st1,
    poffset st = off ->
    convert W ivers hi st = (out, wide, st1) ->
    wide = negb (narrows W st ivers hi0)
    /\ hi_version out = (if wide then hi_version hi0 else HASH_VERSION_2)
    /\ (wide = true -> out = hi /\ nhinfo st1 = nhinfo st)
    /\ (wide = false ->
        nhinfo st1 = NhLive32 out
        /\ hr_start <$> hi_regions out
           = (fun r => u32 (u64 (hr_start r - poffset st))) <$> hi_regions hi0)
    /\ exists evs, trace st1 = trace st ++ evs
                   /\ writes evs = []
                   /\ existsb is_convert_warning evs
                      = (ivers <? COMPRESSED_V5) && wide.
Proof.
  intros hi out wide st1 <-. unfold convert, narrows. simpl.
  rewrite <- forallb_relative.
  destruct (ivers <? COMPRESSED_V5); simpl.
  2:{ intros H; inversion H; subst. repeat split; try done.
      exists []. by rewrite app_nil_r. }
  destruct (hi_hashtype hi0 =? HASH_TYPE_SHA256); simpl.
  { intros H; inversion H; subst. repeat split; try done.
    exists [EvStderr MsgIncompatibleHashType]. done. }
  destruct (w_cvt_ok W); simpl.
  2:{ intros H; inversion H; subst. repeat split; try done.
      exists [EvStderr MsgCannotConvert]. done. }
  destruct (forallb (fun r => hr_start r <=? UINT32_MAX)
              (relative (poffset st) <$> hi_regions hi0)) eqn:Hfit.
  - destruct (narrow_loop_Some _ Hfit) as (regs32 & -> & Hs).
    intros H; inversion H; subst. repeat split; try done.
    + simpl. rewrite Hs, <- list_fmap_compose. reflexivity.
    + exists [EvFreeNhinfo]. done.
  - rewrite (narrow_loop_None _ Hfit).
    intros H; inversion H; subst. repeat split; try done.
    exists [EvStderr MsgStartTooBig]. done.
Qed.

(** The call up to the conversion: what a call that reaches the [write]
    looks like. *)
Lemma hashmap_write_hashfile_Ret W st fname iname ivers hi0 rv st' :
  nhinfo st = NhLive hi0 ->
  hashmap_write_hashfile W st fname iname ivers = Ret (rv, st') ->
  let hi := {| hi_version := hi_version hi0; hi_hashtype := hi_hashtype hi0;
               hi_blksize := hi_blksize hi0;
               hi_regions := relative (poffset st) <$> hi_regions hi0 |} in
  Forall (fun r => poffset st <= hr_start r) (hi_regions hi0)
  /\ ((~ sig_opened W fname iname /\ rv = -1 /\ nhinfo st' = NhLive hi)
      \/ (sig_opened W fname iname
          /\ exists st0 out wide st1 path evs,
               nhinfo st0 = NhLive hi /\ poffset st0 = poffset st
               /\ (exists evs0, trace st0 = trace st ++ evs0
                                /\ writes evs0 = []
                                /\ existsb is_convert_warning evs0 = false)
               /\ convert W ivers hi st0 = (out, wide, st1)
               /\ trace st' = trace st1 ++ EvWrite path wide out :: evs
               /\ writes evs = []
               /\ existsb is_convert_warning evs = false
               /\ nhinfo st' = nhinfo st1)).
Proof.
  intros Hnh H hi. unfold hashmap_write_hashfile in H.
  apply bind_Ret in H as [[] [_ H]]. rewrite Hnh in H.
  apply bind_Ret in H as [regs [Hregs H]].
  apply sub_poffset_loop_Ret in Hregs as [-> Hall]. split; [exact Hall|].
  fold hi in H. unfold sig_opened.
  destruct (w_name_ok W); simpl in H.
  2:{ inversion H; subst. left. split; [|done]. intros [? _]. discriminate. }
  assert (Htail : forall st0 path out wide st1,
             convert W ivers hi st0 = (out, wide, st1) ->
             (let st2 := emit (EvWrite path wide out) st1 in
              if negb (w_write_ok W)
              then Ret (-1, emit (EvStderr MsgIncompleteWrite) st2)
              else Ret (0, emit (EvStderr MsgWritten)
                             (if negb (bool_decide (iname = "-"%string))
                                 && negb (w_stat_ok W && w_utimes_ok W)
                              then emit (EvStderr MsgMtimeWarning) st2
                              else st2))) = Ret (rv, st') ->
             exists evs, trace st' = trace st1 ++ EvWrite path wide out :: evs
                         /\ writes evs = []
                         /\ existsb is_convert_warning evs = false
                         /\ nhinfo st' = nhinfo st1).
  { intros st0 path out wide st1 _ Hw. simpl in Hw.
    destruct (w_write_ok W); simpl in Hw.
    - destruct (negb (bool_decide (iname = "-"%string))
                && negb (w_stat_ok W && w_utimes_ok W));
        inversion Hw; subst; simpl; rewrite <- ?app_assoc; simpl;
        eexists; (split; [reflexivity|]); done.
    - inversion Hw; subst; simpl; rewrite <- ?app_assoc; simpl.
      eexists; (split; [reflexivity|]); done. }
  destruct (w_open_ok W (sig_name fname iname)) eqn:Ho1.
  - right. split; [auto|].
    destruct (convert W ivers hi (set_nhinfo (NhLive hi) st))
      as [[out wide] st1] eqn:Hc.
    destruct (Htail _ (sig_name fname iname) _ _ _ Hc H) as (evs & He).
    exists (set_nhinfo (NhLive hi) st), out, wide, st1, (sig_name fname iname), evs.
    split; [reflexivity|]. split; [reflexivity|].
    split; [exists []; by rewrite app_nil_r|]. split; [exact Hc|exact He].
  - destruct (w_tmpname_ok W); simpl in H.
    2:{ inversion H; subst. left. split; [|done].
        intros [_ [?|[? _]]]; discriminate. }
    destruct (w_open_ok W SigTmpPid) eqn:Ho2.
    2:{ inversion H; subst. left. split; [|done].
        intros [_ [?|[_ ?]]]; discriminate. }
    right. split; [auto|].
    destruct (convert W ivers hi (emit (EvStderr MsgPerror)
                                    (set_nhinfo (NhLive hi) st)))
      as [[out wide] st1] eqn:Hc.
    destruct (Htail _ SigTmpPid _ _ _ Hc H) as (evs & He).
    exists (emit (EvStderr MsgPerror) (set_nhinfo (NhLive hi) st)),
      out, wide, st1, SigTmpPid, evs.
    split; [reflexivity|]. split; [reflexivity|].
    split; [exists [EvStderr MsgPerror]; done|]. split; [exact Hc|exact He].
Qed.

Lemma writes_app (a b : list event) : writes (a ++ b) = writes a ++ writes b.
Proof. unfold writes. apply omap_app. Qed.

Lemma sub_poffset_loop_total blksize off regs :
  Forall (fun r => hr_size r <= blksize /\ off <= hr_start r) regs ->
  sub_poffset_loop blksize off regs = Ret (relative off <$> regs).
Proof.
  induction 1 as [|r regs [Hs Ho] _ IH]; simpl; [reflexivity|].
  apply Z.leb_le in Hs. apply Z.leb_le in Ho. rewrite Hs, Ho. simpl.
  rewrite IH. reflexivity.
Qed.

Lemma hashmap_write_hashfile_total W st fname iname ivers hi0 :
  nhinfo st = NhLive hi0 ->
  write_pre st hi0 ->
  exists rv st', hashmap_write_hashfile W st fname iname ivers = Ret (rv, st').
Proof.
  intros Hnh [Hoff Hall]. unfold hashmap_write_hashfile.
  apply Z.eqb_neq in Hoff. rewrite Hoff, Hnh. simpl.
  rewrite (sub_poffset_loop_total _ _ _ Hall). simpl.
  destruct (w_name_ok W); simpl; [|eauto].
  destruct (w_open_ok W (sig_name fname iname)).
  - destruct (convert W ivers _ _) as [[out wide] st1].
    destruct (w_write_ok W); simpl; eauto.
  - destruct (w_tmpname_ok W); simpl; [|eauto].
    destruct (w_open_ok W SigTmpPid); [|eauto].
    destruct (convert W ivers _ _) as [[out wide] st1].
    destruct (w_write_ok W); simpl; eauto.
Qed.

(** C6: when the signature file is opened, [hashmap_write_hashfile] writes
    one signature.  It is the version-2 one, with 32-bit records, exactly
    when the image version is below [COMPRESSED_V5], the hash type is not
    SHA256, every start, taken relative to the partition, fits in 32 bits,
    and the conversion buffer is allocated; otherwise it is the signature
    in memory, with 64-bit records and its version 3.  A warning about the
    conversion is printed exactly when the image version is below
    [COMPRESSED_V5] and the version-3 signature is written. *)
Theorem hashmap_write_hashfile_version W st (fname iname : string) (ivers : Z)
    (hi0 : hashinfo) :
  nhinfo st = NhLive hi0 ->
  hi_version hi0 = HASH_VERSION_3 ->
  write_pre st hi0 ->
  sig_opened W fname iname ->
  exists rv st' evs out,
    hashmap_write_hashfile W st fname iname ivers = Ret (rv, st')
    /\ trace st' = trace st ++ evs
    /\ writes evs = [(negb (narrows W st ivers hi0), out)]
    /\ hi_version out = (if narrows W st ivers hi0
                         then HASH_VERSION_2 else HASH_VERSION_3)
    /\ existsb is_convert_warning evs
       = (ivers <? COMPRESSED_V5) && negb (narrows W st ivers hi0).
Proof.
  intros Hnh Hv Hpre Hop.
  destruct (hashmap_write_hashfile_total W st fname iname ivers hi0 Hnh Hpre)
    as (rv & st' & Hcall).
  destruct (hashmap_write_hashfile_Ret _ _ _ _ _ _ _ _ Hnh Hcall)
    as [_ [[Hno _]|[_ Hyes]]]; [contradiction|].
  destruct Hyes as (st0 & out & wide & st1 & path & evs & Hnh0 & Hoff0
                    & (evs0 & Ht0 & Hw0 & Hc0) & Hconv & Ht & Hw & Hc & _).
  apply convert_spec in Hconv
    as (Hwide & Hver & _ & _ & (evs1 & Ht1 & Hw1 & Hc1)); [|exact Hoff0].
  assert (Hn : narrows W st0 ivers hi0 = narrows W st ivers hi0).
  { unfold narrows. rewrite Hoff0. reflexivity. }
  rewrite Hn in Hwide.
  exists rv, st', (evs0 ++ evs1 ++ EvWrite path wide out :: evs), out.
  split; [exact Hcall|]. split; [|split; [|split]].
  - rewrite Ht, Ht1, Ht0, <- !app_assoc. reflexivity.
  - rewrite !writes_app, Hw0, Hw1. simpl.
    change (writes (EvWrite path wide out :: evs))
      with ((wide, out) :: writes evs).
    rewrite Hw, Hwide. reflexivity.
  - rewrite Hver, Hwide. destruct (narrows W st ivers hi0); simpl; congruence.
  - rewrite !existsb_app, Hc0, Hc1. simpl. rewrite Hc, Hwide.
    rewrite orb_false_r. reflexivity.
Qed.


End WriteFacts.

(** *** Concrete inputs *)


Lemma state_15_pre :
  write_pre state_15 (sample_hashinfo 2 [sample_region 15 8 (replicate 32 7)]).
Proof.
  split; [vm_compute; discriminate|].
  repeat constructor; simpl; lia.
Qed.


Lemma hashmap_write_hashfile_version_witness :
  exists rv st' evs out,
    hashmap_write_hashfile (K := sample_imagehash) write_all_ok state_15
      EmptyString "img" COMPRESSED_V3 = Ret (rv, st')
    /\ trace st' = trace state_15 ++ evs
    /\ writes evs = [(false, out)]
    /\ hi_version out = 2
    /\ existsb is_convert_warning evs = false.
Proof.
  apply (hashmap_write_hashfile_version (K := sample_imagehash) write_all_ok
           state_15 EmptyString "img" COMPRESSED_V3
           (sample_hashinfo 2 [sample_region 15 8 (replicate 32 7)])).
  - reflexivity.
  - reflexivity.
  - exact state_15_pre.
  - split; [reflexivity|left; reflexivity].
Defined.

(** ** Hash entries for a range *)

Lemma pieces_from_tiles n : forall blk start size offset,
  0 < blk -> 0 <= offset < blk -> 0 <= size -> (Z.to_nat size <= n)%nat ->
  tiles start (pieces_from n blk start size offset) (start + size).
Proof.
  induction n as [|n IH]; intros blk start size offset Hb Ho Hs Hn; simpl.
  - destruct (Z.leb_spec size 0); simpl; lia.
  - destruct (Z.leb_spec size 0); simpl; [lia|].
    split; [reflexivity|]. split; [lia|].
    replace (start + size)
      with (start + Z.min (blk - offset) size
            + (size - Z.min (blk - offset) size)) by lia.
    apply IH; lia.
Qed.

Lemma pieces_from_nonempty n blk start size offset :
  pieces_from n blk start size offset <> [] -> 0 < size.
Proof.
  destruct n; simpl; destruct (Z.leb_spec size 0); try congruence; lia.
Qed.

Lemma pieces_from_sizes n : forall blk start size offset,
  0 < blk -> 0 <= offset < blk ->
  match pieces_from n blk start size offset with
  | [] => True
  | (s, h) :: rest =>
      s = start /\ h = Z.min (blk - offset) size
      /\ (rest <> [] -> blk - offset < size)
      /\ Forall (fun p => p.2 = blk) (removelast rest)
      /\ Forall (fun p => 0 < p.2 <= blk) rest
  end.
Proof.
  induction n as [|n IH]; intros blk start size offset Hb Ho; simpl.
  - destruct (size <=? 0); exact I.
  - destruct (Z.leb_spec size 0); [exact I|].
    split; [reflexivity|]. split; [reflexivity|].
    specialize (IH blk (start + Z.min (blk - offset) size)
                  (size - Z.min (blk - offset) size) 0 Hb ltac:(lia)).
    pose proof (pieces_from_nonempty n blk
                  (start + Z.min (blk - offset) size)
                  (size - Z.min (blk - offset) size) 0) as Hne.
    destruct (pieces_from n blk _ _ 0) as [|[s1 h1] rest1];
      [split; [congruence|split; constructor]|].
    specialize (Hne ltac:(discriminate)).
    destruct IH as (_ & Hh & Hfull & Hmid & Hall).
    split; [lia|]. split.
    + destruct rest1 as [|p rest1]; [constructor|].
      change (removelast ((s1, h1) :: p :: rest1))
        with ((s1, h1) :: removelast (p :: rest1)).
      constructor; [|exact Hmid]. simpl.
      specialize (Hfull ltac:(discriminate)). lia.
    + constructor; [simpl; lia|exact Hall].
Qed.

Section HashmapFacts.
Context {K : imagehash_h} {F : Type}.
Implicit Types (st : hm_state F) (E : delta_env F).

Lemma same_walk_refl st : same_walk st st.
Proof. by repeat split. Qed.

Lemma same_walk_trans st1 st2 st3 :
  same_walk st1 st2 -> same_walk st2 st3 -> same_walk st1 st3.
Proof.
  unfold same_walk. intros H1 H2. destruct_and!. repeat split; congruence.
Qed.

Lemma hash_range_Ret E st start size hash rv st' hash' :
  hash_range E st start size hash = Ret (rv, st', hash') ->
  same_walk st st' /\ nhinfo st' = nhinfo st
  /\ ((rv = 0 /\ exists fx, st' = set_fixups fx st) \/ rv = -1).
Proof.
  unfold hash_range. intros H.
  repeat (apply bind_Ret in H as [[] [_ H]]).
  destruct (e_read E _ _) as [data|], (hashfunc st) as [f|];
    try (inversion H; subst; split; [by repeat split|]; split; [done|];
         by right).
  destruct (e_hasfixup E _ _ _).
  - destruct (e_applyfixups E _ _ _ _) as [fx d1]. inversion H; subst.
    split; [by repeat split|]. split; [done|]. left. eauto.
  - inversion H; subst. split; [by repeat split|]. split; [done|]. left. eauto.
Qed.

Lemma addhash_Ret E st start size hash rv st' :
  addhash E st start size hash = Ret (rv, st') ->
  same_walk st st' /\ fixups st' = fixups st
  /\ ((rv = 0
       /\ exists hi, nhinfo st' = NhLive hi
          /\ hi_regions hi
             = regions_of (nhinfo st)
               ++ [{| hr_start := start; hr_size := size; hr_chunkno := 0;
                      hr_hash := take (Z.to_nat HASH_MAXSIZE) hash |}])
      \/ (rv = -1 /\ nhinfo st' = nhinfo st)).
Proof.
  unfold addhash. intros H.
  destruct (nhinfo st) as [|hi|hi|] eqn:Hnh; simpl in H; try discriminate.
  - (* NULL *)
    destruct (e_alloc E (nalloc st)); simpl in H.
    + destruct (e_alloc E (S (nalloc st))); simpl in H; inversion H; subst.
      * split; [by repeat split|]. split; [done|]. left. split; [done|].
        eexists. split; reflexivity.
      * split; [by repeat split|]. split; [done|]. right. done.
    + destruct (e_alloc E (S (nalloc st))); simpl in H; [discriminate|].
      inversion H; subst. split; [by repeat split|]. split; [done|].
      right. done.
  - destruct (hi_nregions hi `mod` REGPERBLK =? 0); simpl in H.
    + destruct (e_alloc E (nalloc st)); simpl in H; inversion H; subst.
      * split; [by repeat split|]. split; [done|]. left. split; [done|].
        eexists. split; reflexivity.
      * split; [by repeat split|]. split; [done|]. right. done.
    + inversion H; subst. split; [by repeat split|]. split; [done|].
      left. split; [done|]. eexists. split; reflexivity.
Qed.

Lemma u32_small x : 0 <= x < 2 ^ 32 -> u32 x = x.
Proof. intros H. unfold u32. by apply Z.mod_small. Qed.

Lemma u64_small x : 0 <= x < 2 ^ 64 -> u64 x = x.
Proof. intros H. unfold u64. by apply Z.mod_small. Qed.

(** The size of the piece one turn of the loop of [add_to_hashmap] takes. *)
Lemma hsize_min (blk rsize offset : Z) :
  0 < blk < 2 ^ 32 -> 0 <= offset < blk ->
  (if negb (offset =? 0)
   then let hsize := u32 (blk - offset) in
        if rsize <? hsize then rsize else hsize
   else if blk <? rsize then blk else rsize)
  = Z.min (blk - offset) rsize.
Proof.
  intros Hb Ho. destruct (Z.eqb_spec offset 0) as [->|Hne]; simpl.
  - rewrite Z.sub_0_r. destruct (Z.ltb_spec blk rsize); lia.
  - rewrite u32_small by lia.
    destruct (Z.ltb_spec rsize (blk - offset)); lia.
Qed.

Lemma add_to_hashmap_loop_Ret E fuel : forall st rstart rsize offset rhash rv st',
  0 < hashblksize st < 2 ^ 32 -> 0 <= offset < hashblksize st ->
  0 <= rsize < 2 ^ 32 -> 0 <= rstart -> rstart + rsize < 2 ^ 64 ->
  add_to_hashmap_loop fuel E st rstart rsize offset rhash = Ret (rv, st') ->
  same_walk st st' /\ (rv = 0 \/ rv = -1)
  /\ (rhash <> None -> fixups st' = fixups st)
  /\ exists new,
       regions_of (nhinfo st') = regions_of (nhinfo st) ++ new
       /\ (new = [] -> nhinfo st' = nhinfo st)
       /\ (rv = 0 ->
           piece_of <$> new
           = pieces_from fuel (hashblksize st) rstart rsize offset)
       /\ (forall h, rhash = Some h ->
             Forall (fun r => hr_hash r = take (Z.to_nat HASH_MAXSIZE) h) new).
Proof.
  induction fuel as [|fuel IH];
    intros st rstart rsize offset rhash rv st' Hb Ho Hs Hr Hsum H; simpl in H.
  { destruct (Z.leb_spec rsize 0); [|discriminate]. inversion H; subst.
    split; [apply same_walk_refl|]. split; [by left|]. split; [done|].
    exists []. rewrite app_nil_r. simpl.
    destruct (Z.leb_spec rsize 0); [|lia]. by repeat split. }
  destruct (Z.leb_spec rsize 0) as [Hz|Hpos].
  { inversion H; subst.
    split; [apply same_walk_refl|]. split; [by left|]. split; [done|].
    exists []. rewrite app_nil_r. simpl.
    destruct (Z.leb_spec rsize 0); [|lia]. by repeat split. }
  rewrite (hsize_min _ _ _ Hb Ho) in H.
  set (h := Z.min (hashblksize st - offset) rsize) in *.
  assert (Hh : 0 < h <= rsize) by (unfold h; lia).
  apply bind_Ret in H as [[[rv1 st1] hash] [Hhash H]].
  assert (H1 : same_walk st st1 /\ nhinfo st1 = nhinfo st
               /\ (rv1 = 0 \/ rv1 = -1)
               /\ (rhash <> None -> fixups st1 = fixups st)).
  { destruct rhash as [h0|].
    - inversion Hhash; subst. split; [apply same_walk_refl|]. by repeat split; auto.
    - apply hash_range_Ret in Hhash as (Hw & Hn & Hrv).
      split; [exact Hw|]. split; [exact Hn|]. split; [|done].
      destruct Hrv as [[-> _]| ->]; auto. }
  destruct H1 as (Hw1 & Hn1 & Hrv1 & Hfx1).
  destruct (Z.eqb_spec rv1 0) as [->|Hne]; simpl in H.
  2:{ inversion H; subst. split.
      { unfold same_walk in *. simpl. exact Hw1. }
      split; [by right|]. split; [exact Hfx1|].
      exists []. rewrite app_nil_r. simpl. rewrite Hn1.
      repeat split; try done; intros; constructor. }
  apply bind_Ret in H as [[rv2 st2] [Hadd H]].
  apply addhash_Ret in Hadd as (Hw2 & Hfx2 & Hadd).
  destruct Hadd as [(-> & hi & Hn2 & Hregs)|(-> & Hn2)]; simpl in H.
  2:{ inversion H; subst. split.
      { apply (same_walk_trans _ _ _ Hw1). exact Hw2. }
      split; [by right|]. split.
      { intros Hrh. simpl. rewrite Hfx2. auto. }
      exists []. rewrite app_nil_r. simpl. rewrite Hn2, Hn1.
      repeat split; try done; intros; constructor. }
  assert (Hblk : hashblksize st2 = hashblksize st).
  { destruct Hw1 as [E1 _], Hw2 as [E2 _]. congruence. }
  rewrite u64_small, u32_small in H by lia.
  apply IH in H; try (rewrite ?Hblk; lia).
  destruct H as (Hw3 & Hrv & Hfx3 & new & Hnew & _ & Hp & Hhs).
  split; [exact (same_walk_trans _ _ _ (same_walk_trans _ _ _ Hw1 Hw2) Hw3)|].
  split; [exact Hrv|].
  split; [intros Hrh; rewrite Hfx3, Hfx2 by exact Hrh; auto|].
  eexists (_ :: new). rewrite Hnew, Hn2. simpl. rewrite Hregs, Hn1.
  rewrite <- app_assoc. split; [reflexivity|]. split; [discriminate|]. split.
  - intros Hz. specialize (Hp Hz). rewrite Hblk in Hp.
    destruct (Z.leb_spec rsize 0); [lia|].
    unfold piece_of at 1. simpl. f_equal. exact Hp.
  - intros h0 Hh0. constructor; [|by apply Hhs]. simpl.
    rewrite Hh0 in Hhash. inversion Hhash. reflexivity.
Qed.

Lemma hash_range_NoFuel E st start size hash :
  hash_range E st start size hash <> NoFuel.
Proof.
  intros H. unfold hash_range in H. skip_asserts H.
  destruct (e_read E _ _), (hashfunc st); try discriminate.
  destruct (e_hasfixup E _ _ _); [|discriminate].
  destruct (e_applyfixups E _ _ _ _); discriminate.
Qed.

Lemma addhash_NoFuel E st start size hash :
  addhash E st start size hash <> NoFuel.
Proof.
  intros H. unfold addhash in H.
  destruct (nhinfo st); simpl in H; try discriminate.
  - destruct (e_alloc E (nalloc st)); simpl in H;
      destruct (e_alloc E (S (nalloc st))); discriminate.
  - destruct (_ =? 0); simpl in H; [|discriminate].
    destruct (e_alloc E (nalloc st)); discriminate.
Qed.

Lemma add_to_hashmap_loop_fuel E fuel : forall st rstart rsize offset rhash,
  0 < hashblksize st < 2 ^ 32 -> 0 <= offset < hashblksize st ->
  0 <= rsize < 2 ^ 32 -> (Z.to_nat rsize <= fuel)%nat ->
  add_to_hashmap_loop fuel E st rstart rsize offset rhash <> NoFuel.
Proof.
  induction fuel as [|fuel IH];
    intros st rstart rsize offset rhash Hb Ho Hs Hf; simpl.
  { destruct (Z.leb_spec rsize 0); [discriminate|lia]. }
  destruct (Z.leb_spec rsize 0) as [|Hpos]; [discriminate|].
  rewrite (hsize_min _ _ _ Hb Ho).
  set (h := Z.min (hashblksize st - offset) rsize).
  assert (Hh : 0 < h <= rsize) by (unfold h; lia).
  intros Hnf. apply bind_NoFuel in Hnf as [H|[[[rv1 st1] hash] [Hhash H]]].
  { destruct rhash; [discriminate|]. exact (hash_range_NoFuel _ _ _ _ _ H). }
  assert (Hw1 : hashblksize st1 = hashblksize st).
  { destruct rhash.
    - inversion Hhash; subst. reflexivity.
    - apply hash_range_Ret in Hhash as ([Hw _] & _). exact Hw. }
  destruct (negb (rv1 =? 0)); [discriminate|].
  apply bind_NoFuel in H as [H|[[rv2 st2] [Hadd H]]].
  { exact (addhash_NoFuel _ _ _ _ _ H). }
  apply addhash_Ret in Hadd as ([Hw2 _] & _).
  destruct (negb (rv2 =? 0)); [discriminate|].
  revert H. apply IH.
  - rewrite Hw2, Hw1. lia.
  - rewrite Hw2, Hw1. lia.
  - unfold u32. apply Z.mod_pos_bound. lia.
  - rewrite u32_small by lia. lia.
Qed.

(** C3: with no hash given, [add_to_hashmap] never runs out of turns, and
    when it returns 0 the entries it has added to the signature are the
    pieces of the range cut at the multiples of [hashblksize] counted from
    the partition base: with
    [offset = (rstart - poffset) mod hashblksize], the first piece has size
    [min (hashblksize - offset) rsize], every piece between the first and
    the last has size [hashblksize], the last is what remains, and the
    pieces follow one another from [rstart] to [rstart + rsize]. *)
Theorem add_to_hashmap_pieces E st (rstart rsize : Z) :
  0 < hashblksize st < 2 ^ 32 ->
  0 <= poffset st <= rstart ->
  0 <= rsize < 2 ^ 32 ->
  rstart + rsize < 2 ^ 64 ->
  add_to_hashmap E st rstart rsize None <> NoFuel
  /\ forall st',
       add_to_hashmap E st rstart rsize None = Ret (0, st') ->
       let offset := (rstart - poffset st) `mod` hashblksize st in
       exists new,
         regions_of (nhinfo st') = regions_of (nhinfo st) ++ new
         /\ piece_of <$> new
            = hash_pieces (hashblksize st) (poffset st) rstart rsize
         /\ tiles rstart (piece_of <$> new) (rstart + rsize)
         /\ match piece_of <$> new with
            | [] => rsize = 0
            | (s, h) :: rest =>
                s = rstart /\ h = Z.min (hashblksize st - offset) rsize
                /\ Forall (fun p => p.2 = hashblksize st) (removelast rest)
                /\ Forall (fun p => 0 < p.2 <= hashblksize st) rest
            end.
Proof.
  intros Hb Hoff Hs Hsum.
  assert (Hmod : 0 <= (rstart - poffset st) `mod` hashblksize st
                 < hashblksize st) by (apply Z.mod_pos_bound; lia).
  assert (Hcall : add_to_hashmap E st rstart rsize None
                  = (_ ← assert (negb (poffset st =? 2 ^ 64 - 1));
                     add_to_hashmap_loop (Z.to_nat rsize) E st rstart rsize
                       ((rstart - poffset st) `mod` hashblksize st) None)).
  { unfold add_to_hashmap. rewrite (u64_small rstart), (u32_small rsize) by lia.
    destruct (Z.eqb_spec (hashblksize st) 0); [lia|].
    rewrite (u64_small (rstart - _)) by lia. rewrite u32_small by lia.
    reflexivity. }
  rewrite Hcall. split.
  { intros H. skip_asserts H. revert H.
    apply add_to_hashmap_loop_fuel; lia. }
  intros st' H offset. apply bind_Ret in H as [[] [_ H]].
  apply add_to_hashmap_loop_Ret in H
    as (_ & _ & _ & new & Hnew & _ & Hp & _); try lia.
  specialize (Hp eq_refl). exists new. split; [exact Hnew|].
  split; [exact Hp|]. rewrite Hp. split.
  - apply pieces_from_tiles; lia.
  - pose proof (pieces_from_sizes (Z.to_nat rsize) (hashblksize st) rstart
                  rsize offset ltac:(lia) Hmod) as Hsz.
    fold offset.
    destruct (pieces_from _ _ _ _ _) as [|[s h] rest] eqn:Epieces.
    + destruct (Z.to_nat rsize) eqn:En; simpl in Epieces;
        destruct (Z.leb_spec rsize 0); try discriminate; lia.
    + destruct Hsz as (? & ? & _ & ? & ?). by repeat split.
Qed.

End HashmapFacts.

(** ** Range lists in the heap *)

Lemma rseg_app h O1 : forall p O2 q,
  rseg h p (O1 ++ O2) q <-> exists m, rseg h p O1 m /\ rseg h m O2 q.
Proof.
  induction O1 as [|[[a s] n] O1 IH]; intros p O2 q; simpl.
  - split; [intros H; eauto|intros (m & -> & H); exact H].
  - split.
    + intros (-> & nx & Ha & H). apply IH in H as (m & H1 & H2).
      exists m. split; [|exact H2]. split; [reflexivity|]. eauto.
    + intros (m & (-> & nx & Ha & H1) & H2). split; [reflexivity|].
      exists nx. split; [exact Ha|]. apply IH. eauto.
Qed.

Lemma rseg_insert_ne h a nd O : forall p q,
  a ∉ addrs O -> rseg h p O q -> rseg (<[a := nd]> h) p O q.
Proof.
  induction O as [|[[b s] n] O IH]; intros p q Hn H; simpl in *; [exact H|].
  destruct H as (-> & nx & Hb & H). split; [reflexivity|].
  apply not_elem_of_cons in Hn as [Hab Hn].
  exists nx. split; [by rewrite lookup_insert_ne|]. by apply IH.
Qed.

Lemma rseg_delete_ne h a O : forall p q,
  a ∉ addrs O -> rseg h p O q -> rseg (delete a h) p O q.
Proof.
  induction O as [|[[b s] n] O IH]; intros p q Hn H; simpl in *; [exact H|].
  destruct H as (-> & nx & Hb & H). split; [reflexivity|].
  apply not_elem_of_cons in Hn as [Hab Hn].
  exists nx. split; [by rewrite lookup_delete_ne|]. by apply IH.
Qed.

Lemma rseg_agree h h' O : forall p q,
  (forall l nd, h !! l = Some nd -> h' !! l = Some nd) ->
  rseg h p O q -> rseg h' p O q.
Proof.
  induction O as [|[[b s] n] O IH]; intros p q Hsub H; simpl in *; [exact H|].
  destruct H as (-> & nx & Hb & H). split; [reflexivity|].
  exists nx. split; [by apply Hsub|]. by apply IH.
Qed.

Lemma rseg_addrs_dom h O : forall p q a,
  rseg h p O q -> a ∈ addrs O -> is_Some (h !! a).
Proof.
  induction O as [|[[b s] n] O IH]; intros p q a H Ha; simpl in *.
  - by apply elem_of_nil in Ha.
  - destruct H as (-> & nx & Hb & H).
    apply elem_of_cons in Ha as [->|Ha]; [eauto|]. eapply IH; eauto.
Qed.

Lemma cov_nil x : ~ cov [] x.
Proof. intros (p & Hp & _). by apply elem_of_nil in Hp. Qed.

Lemma cov_cons s n l x : cov ((s, n) :: l) x <-> s <= x < s + n \/ cov l x.
Proof.
  unfold cov. split.
  - intros (p & Hp & Hx). apply elem_of_cons in Hp as [->|Hp]; [by left|].
    right. eauto.
  - intros [Hx|(p & Hp & Hx)].
    + exists (s, n). split; [left|exact Hx].
    + exists p. split; [by right|exact Hx].
Qed.

Lemma cov_app l1 l2 x : cov (l1 ++ l2) x <-> cov l1 x \/ cov l2 x.
Proof.
  unfold cov. split.
  - intros (p & Hp & Hx). apply elem_of_app in Hp as [Hp|Hp]; eauto.
  - intros [(p & Hp & Hx)|(p & Hp & Hx)]; exists p;
      (split; [apply elem_of_app; auto|exact Hx]).
Qed.

Lemma vals_app O1 O2 : vals (O1 ++ O2) = vals O1 ++ vals O2.
Proof. unfold vals. apply fmap_app. Qed.

Lemma addrs_app O1 O2 : addrs (O1 ++ O2) = addrs O1 ++ addrs O2.
Proof. unfold addrs. apply fmap_app. Qed.

(** [freeranges] removes the nodes of a list. *)
Lemma freeranges_rlist O : forall h p,
  rlist h p O -> NoDup (addrs O) ->
  freeranges (S (size h)) h p = foldr delete h (rev (addrs O)).
Proof.
  unfold rlist.
  induction O as [|[[a s] n] O IH]; intros h p H Hnd; simpl in *.
  - subst. reflexivity.
  - destruct H as (-> & nx & Ha & H). rewrite Ha.
    apply NoDup_cons in Hnd as [Hna Hnd].
    rewrite foldr_app. simpl.
    assert (Hsz : size h = S (size (delete a h))).
    { rewrite map_size_delete, Ha. simpl.
      assert (size h <> 0%nat); [|lia].
      intros Hz. apply map_size_empty_inv in Hz. subst.
      by rewrite lookup_empty in Ha. }
    rewrite Hsz. apply IH; [|exact Hnd]. by apply rseg_delete_ne.
Qed.

Lemma lookup_foldr_delete (h : gmap positive range) (l : list positive) a :
  foldr delete h l !! a = if bool_decide (a ∈ l) then None else h !! a.
Proof.
  induction l as [|b l IH]; simpl.
  - reflexivity.
  - destruct (decide (b = a)) as [->|Hne].
    + rewrite lookup_delete_eq. rewrite bool_decide_eq_true_2 by set_solver.
      reflexivity.
    + rewrite lookup_delete_ne, IH by done.
      destruct (decide (a ∈ l)) as [Hin|Hin].
      * rewrite !bool_decide_eq_true_2 by set_solver. reflexivity.
      * rewrite !bool_decide_eq_false_2 by set_solver. reflexivity.
Qed.

Section WalkFacts.
Context {K : imagehash_h} {F : Type}.
Implicit Types (st : hm_state F) (E : delta_env F).
Variable h0 : gmap positive range.

Lemma same_cfg_refl st : same_cfg st st.
Proof. by repeat split. Qed.

Lemma same_cfg_trans st1 st2 st3 :
  same_cfg st1 st2 -> same_cfg st2 st3 -> same_cfg st1 st3.
Proof.
  unfold same_cfg. intros H1 H2. destruct_and!. repeat split; congruence.
Qed.

Lemma same_walk_cfg st st' : same_walk st st' -> same_cfg st st'.
Proof. unfold same_walk, same_cfg. intros H. destruct_and!. by repeat split. Qed.

Lemma out_inv_same_walk st st' O :
  same_walk st st' -> out_inv h0 st O -> out_inv h0 st' O.
Proof.
  unfold same_walk, out_inv. intros Hw H. destruct_and!.
  repeat match goal with H : _ st' = _ st |- _ => rewrite H end.
  by repeat split.
Qed.

Lemma dummy_ok_same_walk st st' :
  same_walk st st' -> dummy_ok st -> dummy_ok st'.
Proof.
  unfold same_walk, dummy_ok. intros Hw H. destruct_and!.
  repeat match goal with H : _ st' = _ st |- _ => rewrite H end. done.
Qed.

Lemma out_inv_tail_none st O :
  out_inv h0 st O -> range_tail st = None -> O = [].
Proof.
  intros (_ & Ht & _) Hn. rewrite Hn in Ht. symmetry in Ht.
  apply last_None in Ht. destruct O; [reflexivity|discriminate].
Qed.

Lemma out_inv_tail_some st O t :
  out_inv h0 st O -> range_tail st = Some t ->
  exists O1 s n,
    O = O1 ++ [(t, s, n)]
    /\ heap st !! t = Some {| rg_start := s; rg_size := n; rg_next := None |}
    /\ rseg (heap st) (rg_next (dummy_head st)) O1 (Some t)
    /\ t ∉ addrs O1.
Proof.
  intros (Hl & Ht & Hnd & _) Hs. rewrite Hs in Ht.
  destruct O as [|[[a s] n] O _] using rev_ind; [discriminate|].
  rewrite addrs_app in Ht, Hnd. simpl in Ht. rewrite last_snoc in Ht.
  inversion Ht; subst a. exists O, s, n. split; [reflexivity|].
  unfold rlist in Hl. apply rseg_app in Hl as (m & H1 & H2). simpl in H2.
  destruct H2 as (-> & nx & Hlk & <-).
  split; [exact Hlk|]. split; [exact H1|].
  apply NoDup_app in Hnd as (_ & Hdis & _). intros Hin.
  apply (Hdis _ Hin). simpl. left.
Qed.

Lemma wf32_app l1 l2 : wf32 (l1 ++ l2) <-> wf32 l1 /\ wf32 l2.
Proof. unfold wf32. apply Forall_app. Qed.

Lemma add_to_range_spec E st O start size rv st' :
  out_inv h0 st O ->
  add_to_range E st start size = Ret (rv, st') ->
  same_cfg st st' /\ nhinfo st' = nhinfo st /\ fixups st' = fixups st
  /\ ((rv = -1 /\ out_inv h0 st' O /\ dummy_head st' = dummy_head st)
      \/ (rv = 0
          /\ exists O',
               out_inv h0 st' O'
               /\ (dummy_ok st -> wf32 (vals O) ->
                   0 <= start -> 0 < size -> start + size < 2 ^ 32 ->
                   dummy_ok st' /\ wf32 (vals O')
                   /\ forall x, cov (vals O') x
                                <-> cov (vals O) x \/ start <= x < start + size))).
Proof.
  intros Hinv H. unfold add_to_range, tail_node, set_tail_node, alloc in H.
  simpl in H.
  pose proof Hinv as (Hl & Ht & Hnd & Hfresh & Hsub & Hdom).
  destruct (range_tail st) as [t|] eqn:Htail.
  - (* the tail is a node of the output list *)
    destruct (out_inv_tail_some _ _ _ Hinv Htail)
      as (O1 & s & n & -> & Hlk & Hseg & Hnt).
    rewrite Hlk in H. simpl in H.
    rewrite addrs_app in *. simpl in *.
    destruct (Z.eqb_spec (u32 (s + n)) (u32 start)) as [Heq|Hne].
    + (* coalesce *)
      inversion H; subst; clear H. simpl.
      split; [by repeat split|]. split; [done|]. split; [done|].
      right. split; [reflexivity|].
      exists (O1 ++ [(t, s, u32 (n + u32 size))]). split.
      * unfold out_inv, rlist. simpl. rewrite addrs_app. simpl.
        split; [|split; [by rewrite Htail|split; [exact Hnd|split;
                                                  [exact Hfresh|split]]]].
        -- apply rseg_app. exists (Some t). split.
           ++ by apply rseg_insert_ne.
           ++ simpl. split; [reflexivity|]. eexists. split; [|reflexivity].
              by rewrite lookup_insert_eq.
        -- intros l nd Hl0. destruct (decide (l = t)) as [->|Hlt].
           ++ rewrite (Hfresh t) in Hl0; [discriminate|].
              apply elem_of_app. right. left.
           ++ rewrite lookup_insert_ne by done. by apply Hsub.
        -- intros l Hl0. destruct (decide (l = t)) as [->|Hlt].
           ++ right. apply elem_of_app. right. left.
           ++ rewrite lookup_insert_ne in Hl0 by done. by apply Hdom.
      * intros Hd Hwf H0 Hsz Hsum. split; [exact Hd|].
        rewrite vals_app in Hwf. apply wf32_app in Hwf as [Hwf1 Hwf2].
        apply Forall_inv in Hwf2. simpl in Hwf2.
        rewrite (u32_small start), (u32_small (s + n)) in Heq by lia.
        rewrite (u32_small size), (u32_small (n + size)) by lia.
        split.
        -- rewrite vals_app. apply wf32_app. split; [exact Hwf1|].
           apply Forall_singleton. simpl. lia.
        -- intros x. rewrite !vals_app, !cov_app. simpl.
           rewrite !cov_cons. pose proof (cov_nil x). intuition lia.
    + (* a new node *)
      destruct (e_alloc E (nalloc st)) eqn:Hal; simpl in H.
      2:{ inversion H; subst; clear H. simpl.
          split; [by repeat split|]. split; [done|]. split; [done|].
          left. split; [reflexivity|]. split; [|reflexivity].
          unfold out_inv. simpl. rewrite Htail, addrs_app. by repeat split. }
      inversion H; subst; clear H. simpl.
      split; [by repeat split|]. split; [done|]. split; [done|].
      right. split; [reflexivity|].
      set (tmp := fresh (dom (heap st))).
      assert (Htmp : heap st !! tmp = None).
      { apply not_elem_of_dom. apply is_fresh. }
      assert (Htt : tmp <> t) by (intros ->; rewrite Hlk in Htmp; discriminate).
      assert (Hto : tmp ∉ addrs O1 ++ [t]).
      { intros Hin. destruct (rseg_addrs_dom _ _ _ _ tmp Hl) as [nd Hnd'].
        - by rewrite addrs_app.
        - rewrite Htmp in Hnd'. discriminate. }
      exists ((O1 ++ [(t, s, n)]) ++ [(tmp, u32 start, u32 size)]). split.
      * unfold out_inv, rlist. simpl. rewrite !addrs_app. simpl.
        split; [|split; [by rewrite last_snoc|split; [|split; [|split]]]].
        -- rewrite <- app_assoc. apply rseg_app. exists (Some t). split.
           ++ apply rseg_insert_ne; [exact Hnt|].
              apply rseg_insert_ne; [|exact Hseg].
              intros Hin. apply Hto. apply elem_of_app. by left.
           ++ simpl. split; [reflexivity|]. eexists. split.
              { by rewrite lookup_insert_eq. }
              split; [reflexivity|]. eexists. split; [|reflexivity].
              rewrite lookup_insert_ne by done. by rewrite lookup_insert_eq.
        -- apply NoDup_app. split; [exact Hnd|]. split.
           ++ intros a Ha Ha'. apply list_elem_of_singleton in Ha'. subst.
              by apply Hto.
           ++ apply NoDup_singleton.
        -- intros a Ha. apply elem_of_app in Ha as [Ha|Ha]; [by apply Hfresh|].
           apply list_elem_of_singleton in Ha. subst.
           destruct (h0 !! tmp) as [nd|] eqn:E0; [|reflexivity].
           apply Hsub in E0. rewrite Htmp in E0. discriminate.
        -- intros l nd Hl0. apply Hsub in Hl0 as Hl1.
           rewrite !lookup_insert_ne; [exact Hl1| |].
           ++ intros <-. rewrite Htmp in Hl1. discriminate.
           ++ intros <-. rewrite (Hfresh t) in Hl0; [discriminate|].
              apply elem_of_app. right. left.
        -- intros l Hl0. destruct (decide (l = t)) as [->|Hlt].
           { right. apply elem_of_app. left. apply elem_of_app. right. left. }
           rewrite lookup_insert_ne in Hl0 by done.
           destruct (decide (l = tmp)) as [->|Hltmp].
           { right. apply elem_of_app. right. left. }
           rewrite lookup_insert_ne in Hl0 by done.
           destruct (Hdom _ Hl0) as [?|Hin]; [by left|].
           right. apply elem_of_app. by left.
      * intros Hd Hwf H0 Hsz Hsum. split; [exact Hd|].
        rewrite (u32_small start), (u32_small size) by lia. split.
        -- rewrite vals_app. apply wf32_app. split; [exact Hwf|].
           apply Forall_singleton. simpl. lia.
        -- intros x. rewrite (vals_app (_ ++ _)), cov_app. simpl.
           rewrite cov_cons. pose proof (cov_nil x). intuition lia.
  - (* the tail is dummy_head *)
    pose proof (out_inv_tail_none _ _ Hinv Htail) as ->. simpl in *.
    destruct (Z.eqb_spec (u32 (rg_start (dummy_head st) + rg_size (dummy_head st)))
                (u32 start)) as [Heq|Hne].
    + inversion H; subst; clear H. simpl.
      split; [by repeat split|]. split; [done|]. split; [done|].
      right. split; [reflexivity|]. exists []. split.
      * unfold out_inv. simpl. rewrite Htail. by repeat split.
      * intros [Hd1 Hd2] _ H0 Hsz Hsum. exfalso.
        rewrite Hd1, Hd2 in Heq.
        rewrite (u32_small start), u32_small in Heq by lia. lia.
    + destruct (e_alloc E (nalloc st)) eqn:Hal; simpl in H.
      2:{ inversion H; subst; clear H. simpl.
          split; [by repeat split|]. split; [done|]. split; [done|].
          left. split; [reflexivity|]. split; [|reflexivity].
          unfold out_inv. simpl. rewrite Htail. by repeat split. }
      inversion H; subst; clear H. simpl.
      split; [by repeat split|]. split; [done|]. split; [done|].
      right. split; [reflexivity|].
      set (tmp := fresh (dom (heap st))).
      assert (Htmp : heap st !! tmp = None).
      { apply not_elem_of_dom. apply is_fresh. }
      exists [(tmp, u32 start, u32 size)]. split.
      * unfold out_inv, rlist. simpl.
        split; [|split; [reflexivity|split; [apply NoDup_singleton|split;
                                                                   [|split]]]].
        -- split; [reflexivity|]. eexists. split; [|reflexivity].
           by rewrite lookup_insert_eq.
        -- intros a Ha. apply list_elem_of_singleton in Ha. subst.
           destruct (h0 !! tmp) as [nd|] eqn:E0; [|reflexivity].
           apply Hsub in E0. rewrite Htmp in E0. discriminate.
        -- intros l nd Hl0. apply Hsub in Hl0 as Hl1.
           rewrite lookup_insert_ne; [exact Hl1|].
           intros <-. rewrite Htmp in Hl1. discriminate.
        -- intros l Hl0. destruct (decide (l = tmp)) as [->|Hltmp].
           { right. left. }
           rewrite lookup_insert_ne in Hl0 by done.
           destruct (Hdom _ Hl0) as [?|Hin]; [by left|].
           by apply elem_of_nil in Hin.
      * intros [Hd1 Hd2] _ H0 Hsz Hsum. split; [split; simpl; assumption|].
        rewrite (u32_small start), (u32_small size) by lia. split.
        -- apply Forall_singleton. simpl. lia.
        -- intros x. simpl. rewrite cov_cons. pose proof (cov_nil x).
           intuition lia.
Qed.

Lemma add_to_hashmap_loop_same_walk E fuel : forall st rstart rsize offset rhash rv st',
  add_to_hashmap_loop fuel E st rstart rsize offset rhash = Ret (rv, st') ->
  same_walk st st' /\ (rv = 0 \/ rv = -1).
Proof.
  induction fuel as [|fuel IH]; intros st rstart rsize offset rhash rv st' H;
    simpl in H.
  { destruct (rsize <=? 0); [|discriminate]. inversion H; subst.
    split; [apply same_walk_refl|by left]. }
  destruct (rsize <=? 0).
  { inversion H; subst. split; [apply same_walk_refl|by left]. }
  apply bind_Ret in H as [[[rv1 st1] hash] [Hhash H]].
  assert (Hw1 : same_walk st st1).
  { destruct rhash.
    - inversion Hhash; subst. apply same_walk_refl.
    - by apply hash_range_Ret in Hhash as (Hw & _). }
  destruct (negb (rv1 =? 0)).
  { inversion H; subst. split; [exact Hw1|by right]. }
  apply bind_Ret in H as [[rv2 st2] [Hadd H]].
  apply addhash_Ret in Hadd as (Hw2 & _).
  destruct (negb (rv2 =? 0)).
  { inversion H; subst. split; [|by right].
    exact (same_walk_trans _ _ _ Hw1 Hw2). }
  apply IH in H as [Hw3 Hrv]. split; [|exact Hrv].
  exact (same_walk_trans _ _ _ (same_walk_trans _ _ _ Hw1 Hw2) Hw3).
Qed.

Lemma add_to_hashmap_same_walk E st rstart rsize rhash rv st' :
  add_to_hashmap E st rstart rsize rhash = Ret (rv, st') ->
  same_walk st st' /\ (rv = 0 \/ rv = -1).
Proof.
  unfold add_to_hashmap. intros H. apply bind_Ret in H as [[] [_ H]].
  destruct (hashblksize st =? 0); [discriminate|].
  by apply add_to_hashmap_loop_same_walk in H.
Qed.

Lemma add_new_spec E st (newhashfile : bool) O start size rv st' :
  out_inv h0 st O ->
  add_new E st newhashfile start size = Ret (rv, st') ->
  same_cfg st st' /\ (rv = 0 \/ rv = -1)
  /\ exists O', out_inv h0 st' O' /\ (rv = 0 -> emitted st O st' O' start size).
Proof.
  intros Hinv H. unfold add_new in H.
  apply bind_Ret in H as [[rv1 st1] [Hadd H]].
  apply (add_to_range_spec _ _ _ _ _ _ _ Hinv) in Hadd
    as (Hc1 & _ & _ & Hadd).
  destruct Hadd as [(-> & Hinv1 & _)|(-> & O1 & Hinv1 & Hem)]; simpl in H.
  { inversion H; subst. split; [exact Hc1|]. split; [by right|].
    exists O. split; [exact Hinv1|discriminate]. }
  destruct newhashfile.
  - apply bind_Ret in H as [[rv2 st2] [Hh H]].
    apply add_to_hashmap_same_walk in Hh as [Hw Hrv]. inversion H; subst.
    split; [exact (same_cfg_trans _ _ _ Hc1 (same_walk_cfg _ _ Hw))|].
    split; [destruct Hrv as [-> | ->]; auto|].
    exists O1. split; [exact (out_inv_same_walk _ _ _ Hw Hinv1)|].
    intros _ Hd Hwf H0 Hsz Hsum.
    destruct (Hem Hd Hwf H0 Hsz Hsum) as (Hd1 & Hwf1 & Hcov).
    split; [exact (dummy_ok_same_walk _ _ Hw Hd1)|]. by split.
  - inversion H; subst. split; [exact Hc1|]. split; [by left|].
    exists O1. split; [exact Hinv1|]. intros _. exact Hem.
Qed.

Lemma adv_refl m O R : adv m O R O R.
Proof. unfold adv. by repeat split; auto. Qed.

Lemma adv_trans m O R O1 R1 O2 R2 :
  adv m O R O1 R1 -> adv m O1 R1 O2 R2 -> adv m O R O2 R2.
Proof.
  intros (A1 & A2 & A3 & A4 & A5) (B1 & B2 & B3 & B4 & B5). repeat split.
  - auto.
  - intros x Hx. destruct (A2 x Hx) as [?|[?|Hr]]; auto.
  - intros x Hx. destruct (B3 x Hx) as [?|?]; auto.
  - auto.
  - lia.
Qed.

Lemma COPYRANGE_spec st O p Lr :
  out_inv h0 st O -> rlist h0 p Lr ->
  exists dr, COPYRANGE st p = Ret dr /\ cur_inv h0 dr (vals Lr).
Proof.
  intros (_ & _ & _ & _ & Hsub & _) Hl. unfold COPYRANGE, rlist in *.
  destruct Lr as [|[[a s] n] Lr]; simpl in Hl.
  - subst. exists None. split; reflexivity.
  - destruct Hl as (-> & nx & Ha & Hl). rewrite (Hsub _ _ Ha).
    eexists. split; [reflexivity|]. simpl. eauto.
Qed.

Lemma assert_size_Ret dr R u :
  assert_size dr = Ret u -> cur_inv h0 dr R ->
  match dr with Some d => 0 < rg_size d | None => True end.
Proof.
  unfold assert_size. intros H _. apply assert_Ret in H.
  destruct dr; [by apply Z.ltb_lt|exact I].
Qed.

Lemma wf32_cons s n l :
  wf32 ((s, n) :: l) <-> (0 <= s /\ 0 < n /\ s + n < 2 ^ 32) /\ wf32 l.
Proof. unfold wf32. rewrite Forall_cons. reflexivity. Qed.

Lemma drain_loop_spec E (newhashfile : bool) hreg m fuel :
  forall st drange O rv st' drange',
    out_inv h0 st O ->
    drain_loop fuel E newhashfile hreg st drange = Ret (rv, st', drange') ->
    same_cfg st st' /\ (rv = 0 \/ rv = -1)
    /\ exists O',
         out_inv h0 st' O'
         /\ forall R,
              walk_ok h0 st O drange R -> rv = 0 ->
              exists R',
                walk_ok h0 st' O' drange' R'
                /\ adv m (vals O) R (vals O') R'
                /\ match drange' with
                   | Some d => hr_start hreg < rg_start d + rg_size d
                   | None => True
                   end.
Proof.
  induction fuel as [|fuel IH]; intros st drange O rv st' drange' Hinv H;
    simpl in H.
  - destruct drange as [d|].
    + destruct (Z.leb_spec (u32 (rg_start d + rg_size d)) (hr_start hreg));
        [discriminate|].
      inversion H; subst. split; [apply same_cfg_refl|]. split; [by left|].
      exists O. split; [exact Hinv|]. intros R Hok _. exists R.
      split; [exact Hok|]. split; [apply adv_refl|].
      destruct Hok as (_ & _ & Hwf & (Lr & -> & _)).
      apply wf32_cons in Hwf as [Hd _]. simpl in Hd.
      rewrite u32_small in * by lia. lia.
    + inversion H; subst. split; [apply same_cfg_refl|]. split; [by left|].
      exists O. split; [exact Hinv|]. intros R Hok _. exists R.
      split; [exact Hok|]. split; [apply adv_refl|exact I].
  - destruct drange as [d|].
    2:{ inversion H; subst. split; [apply same_cfg_refl|]. split; [by left|].
        exists O. split; [exact Hinv|]. intros R Hok _. exists R.
        split; [exact Hok|]. split; [apply adv_refl|exact I]. }
    destruct (Z.leb_spec (u32 (rg_start d + rg_size d)) (hr_start hreg))
      as [Hle|Hgt].
    2:{ inversion H; subst. split; [apply same_cfg_refl|]. split; [by left|].
        exists O. split; [exact Hinv|]. intros R Hok _. exists R.
        split; [exact Hok|]. split; [apply adv_refl|].
        destruct Hok as (_ & _ & Hwf & (Lr & -> & _)).
        apply wf32_cons in Hwf as [Hd _]. simpl in Hd.
        rewrite u32_small in * by lia. lia. }
    apply bind_Ret in H as [[rv1 st1] [Hnew H]].
    apply (add_new_spec _ _ _ _ _ _ _ _ Hinv) in Hnew
      as (Hc1 & Hrv1 & O1 & Hinv1 & Hem).
    destruct (Z.eqb_spec rv1 0) as [->|Hne]; simpl in H.
    2:{ inversion H; subst. split; [exact Hc1|].
        split; [destruct Hrv1; [contradiction|by right]|].
        exists O1. split; [exact Hinv1|]. intros R _ Hz. subst; lia. }
    apply bind_Ret in H as [dr1 [Hcp H]].
    apply bind_Ret in H as [[] [Hsz H]].
    apply (IH _ _ _ _ _ _ Hinv1) in H as (Hc2 & Hrv & O2 & Hinv2 & HB).
    split; [exact (same_cfg_trans _ _ _ Hc1 Hc2)|]. split; [exact Hrv|].
    exists O2. split; [exact Hinv2|].
    intros R (Hd & HwfO & HwfR & (Lr & -> & Hl)) Hz.
    apply wf32_cons in HwfR as [Hdb HwfR]. simpl in Hdb.
    destruct (Hem eq_refl Hd HwfO ltac:(lia) ltac:(lia) ltac:(lia))
      as (Hd1 & HwfO1 & Hcov1).
    destruct (COPYRANGE_spec _ _ _ _ Hinv1 Hl) as (dr & Hcp' & Hcur).
    rewrite Hcp in Hcp'. inversion Hcp'; subst dr.
    destruct (HB (vals Lr) (conj Hd1 (conj HwfO1 (conj HwfR Hcur))) Hz)
      as (R' & Hok' & Hadv & Hd').
    exists R'. split; [exact Hok'|]. split; [|exact Hd'].
    eapply adv_trans; [|exact Hadv].
    repeat split.
    + intros x Hx. apply Hcov1. by left.
    + intros x Hx. apply cov_cons in Hx as [Hx|Hx].
      * left. apply Hcov1. by right.
      * right. by right.
    + intros x Hx. apply Hcov1 in Hx as [Hx|Hx]; [by left|].
      right. apply cov_cons. by left.
    + intros x Hx. apply cov_cons. by right.
    + simpl; lia.
Qed.

Lemma add_covered_spec E st (newhashfile : bool) changed O start size rv st' :
  out_inv h0 st O ->
  add_covered E st newhashfile changed start size = Ret (rv, st') ->
  same_cfg st st' /\ (rv = 0 \/ rv = -1)
  /\ exists O',
       out_inv h0 st' O'
       /\ (rv = 0 ->
           (changed <> 0 -> emitted st O st' O' start size)
           /\ (changed = 0 -> st' = st /\ O' = O)).
Proof.
  intros Hinv H. unfold add_covered in H.
  destruct (Z.eqb_spec changed 0) as [Hc|Hc]; simpl in H.
  { inversion H; subst. split; [apply same_cfg_refl|]. split; [by left|].
    exists O. split; [exact Hinv|]. intros _. split; [done|auto]. }
  apply bind_Ret in H as [[rv1 st1] [Hadd H]].
  apply (add_to_range_spec _ _ _ _ _ _ _ Hinv) in Hadd
    as (Hc1 & _ & _ & Hadd).
  destruct Hadd as [(-> & Hinv1 & _)|(-> & O1 & Hinv1 & Hem)]; simpl in H.
  { inversion H; subst. split; [exact Hc1|]. split; [by right|].
    exists O. split; [exact Hinv1|discriminate]. }
  destruct ((1 <? changed) && newhashfile).
  - apply bind_Ret in H as [[rv2 st2] [Hh H]].
    apply add_to_hashmap_same_walk in Hh as [Hw Hrv]. inversion H; subst.
    split; [exact (same_cfg_trans _ _ _ Hc1 (same_walk_cfg _ _ Hw))|].
    split; [destruct Hrv as [-> | ->]; auto|].
    exists O1. split; [exact (out_inv_same_walk _ _ _ Hw Hinv1)|].
    intros _. split; [|done]. intros _ Hd Hwf H0 Hsz Hsum.
    destruct (Hem Hd Hwf H0 Hsz Hsum) as (Hd1 & Hwf1 & Hcov).
    split; [exact (dummy_ok_same_walk _ _ Hw Hd1)|]. by split.
  - inversion H; subst. split; [exact Hc1|]. split; [by left|].
    exists O1. split; [exact Hinv1|]. intros _. split; [|done].
    intros _. exact Hem.
Qed.

Lemma covered_loop_spec E (newhashfile : bool) hreg changed m fuel :
  forall st drange O rv st' drange',
    out_inv h0 st O ->
    covered_loop fuel E newhashfile hreg changed st drange
    = Ret (rv, st', drange') ->
    same_cfg st st' /\ (rv = 0 \/ rv = -1)
    /\ exists O',
         out_inv h0 st' O'
         /\ forall R,
              walk_ok h0 st O drange R ->
              0 <= hr_start hreg -> 0 <= hr_size hreg ->
              hr_start hreg + hr_size hreg < 2 ^ 32 ->
              (changed = 0 ->
               forall x, hr_start hreg <= x < hr_start hreg + hr_size hreg ->
                         m x) ->
              rv = 0 ->
              exists R',
                walk_ok h0 st' O' drange' R' /\ adv m (vals O) R (vals O') R'.
Proof.
  induction fuel as [|fuel IH]; intros st drange O rv st' drange' Hinv H;
    simpl in H.
  - destruct drange as [d|].
    + destruct (rg_start d <? u64 (hr_start hreg + hr_size hreg));
        [discriminate|].
      inversion H; subst. split; [apply same_cfg_refl|]. split; [by left|].
      exists O. split; [exact Hinv|]. intros R Hok _ _ _ _ _. exists R.
      split; [exact Hok|apply adv_refl].
    + inversion H; subst. split; [apply same_cfg_refl|]. split; [by left|].
      exists O. split; [exact Hinv|]. intros R Hok _ _ _ _ _. exists R.
      split; [exact Hok|apply adv_refl].
  - destruct drange as [d|].
    2:{ inversion H; subst. split; [apply same_cfg_refl|]. split; [by left|].
        exists O. split; [exact Hinv|]. intros R Hok _ _ _ _ _. exists R.
        split; [exact Hok|apply adv_refl]. }
    destruct (Z.ltb_spec (rg_start d) (u64 (hr_start hreg + hr_size hreg)))
      as [Hlt|Hge].
    2:{ inversion H; subst. split; [apply same_cfg_refl|]. split; [by left|].
        exists O. split; [exact Hinv|]. intros R Hok _ _ _ _ _. exists R.
        split; [exact Hok|apply adv_refl]. }
    destruct (Z.ltb_spec
                (u32 (u32 (hr_start hreg) + hr_size hreg))
                (u32 (u32 (rg_start d) + rg_size d))) as [Hsplit|Hnosplit].
    + (* the range crosses the end of the hash region *)
      apply bind_Ret in H as [[] [Ha1 H]]. apply assert_Ret, Z.leb_le in Ha1.
      apply bind_Ret in H as [[] [_ H]].
      apply bind_Ret in H as [[rv1 st1] [Hcov H]].
      apply (add_covered_spec _ _ _ _ _ _ _ _ _ Hinv) in Hcov
        as (Hc1 & Hrv1 & O1 & Hinv1 & Hem).
      destruct (Z.eqb_spec rv1 0) as [->|Hne]; simpl in H.
      2:{ inversion H; subst. split; [exact Hc1|].
          split; [destruct Hrv1; [contradiction|by right]|].
          exists O1. split; [exact Hinv1|]. intros; lia. }
      assert (Hrec : exists dd, covered_loop fuel E newhashfile hreg changed st1 dd
                                = Ret (rv, st', drange')
                     /\ (u32 (rg_start d) <> u32 (u32 (hr_start hreg) + hr_size hreg)
                         -> dd = Some {| rg_start := u32 (u32 (hr_start hreg)
                                                          + hr_size hreg);
                                         rg_size := u32 (u32 (u32 (rg_start d)
                                                              + rg_size d)
                                                         - u32 (u32 (hr_start hreg)
                                                                + hr_size hreg));
                                         rg_next := rg_next d |})).
      { simpl in H. destruct (Z.eqb_spec (u32 (rg_start d))
                                (u32 (u32 (hr_start hreg) + hr_size hreg))).
        - apply bind_Ret in H as [dr1 [_ H]].
          apply bind_Ret in H as [[] [_ H]]. exists dr1. split; [exact H|done].
        - eexists. split; [exact H|done]. }
      destruct Hrec as (dd & Hrec & Hdd).
      apply (IH _ _ _ _ _ _ Hinv1) in Hrec as (Hc2 & Hrv & O2 & Hinv2 & HB).
      split; [exact (same_cfg_trans _ _ _ Hc1 Hc2)|]. split; [exact Hrv|].
      exists O2. split; [exact Hinv2|].
      intros R (Hd & HwfO & HwfR & (Lr & -> & Hl)) Hhs Hhn Hhe Hm Hz.
      apply wf32_cons in HwfR as [Hdb HwfR]. simpl in Hdb.
      rewrite (u64_small (hr_start hreg + hr_size hreg)) in Hlt by lia.
      rewrite (u32_small (hr_start hreg)) in * by lia.
      rewrite (u32_small (rg_start d)) in * by lia.
      rewrite (u32_small (hr_start hreg + hr_size hreg)) in * by lia.
      rewrite (u32_small (rg_start d + rg_size d)) in * by lia.
      rewrite (u32_small (rg_start d + rg_size d
                          - (hr_start hreg + hr_size hreg))) in * by lia.
      specialize (Hdd ltac:(lia)). subst dd.
      destruct (Hem eq_refl) as [Hem1 Hem0].
      assert (Hstep : dummy_ok st1 /\ wf32 (vals O1)
                      /\ adv m (vals O)
                           ((rg_start d, rg_size d) :: vals Lr) (vals O1)
                           ((hr_start hreg + hr_size hreg,
                             rg_start d + rg_size d
                             - (hr_start hreg + hr_size hreg)) :: vals Lr)).
      { destruct (Z.eq_dec changed 0) as [Hc0|Hc0].
        - destruct (Hem0 Hc0) as [-> ->]. split; [exact Hd|].
          split; [exact HwfO|]. repeat split; auto; try (simpl; lia).
          + intros x Hx. apply cov_cons in Hx as [Hx|Hx].
            * destruct (Z.lt_ge_cases x (hr_start hreg + hr_size hreg)).
              -- right. left. apply Hm; [exact Hc0|lia].
              -- right. right. apply cov_cons. left. lia.
            * right. right. apply cov_cons. by right.
          + intros x Hx. apply cov_cons in Hx as [Hx|Hx]; apply cov_cons;
              [left; lia|by right].
        - destruct (Hem1 Hc0 Hd HwfO ltac:(lia) ltac:(lia) ltac:(lia))
            as (Hd1 & HwfO1 & Hcv).
          split; [exact Hd1|]. split; [exact HwfO1|]. repeat split.
          + intros x Hx. apply Hcv. by left.
          + intros x Hx. apply cov_cons in Hx as [Hx|Hx].
            * destruct (Z.lt_ge_cases x (hr_start hreg + hr_size hreg)).
              -- left. apply Hcv. right. lia.
              -- right. right. apply cov_cons. left. lia.
            * right. right. apply cov_cons. by right.
          + intros x Hx. apply Hcv in Hx as [Hx|Hx]; [by left|].
            right. apply cov_cons. left. lia.
          + intros x Hx. apply cov_cons in Hx as [Hx|Hx]; apply cov_cons;
              [left; lia|by right].
          + simpl; lia. }
      destruct Hstep as (Hd1 & HwfO1 & Hadv1).
      destruct (HB ((hr_start hreg + hr_size hreg,
                     rg_start d + rg_size d - (hr_start hreg + hr_size hreg))
                    :: vals Lr)) as (R' & Hok' & Hadv2); try assumption.
      { split; [exact Hd1|]. split; [exact HwfO1|]. split.
        - apply wf32_cons. split; [simpl; lia|exact HwfR].
        - simpl. exists Lr. split; [reflexivity|exact Hl]. }
      exists R'. split; [exact Hok'|]. exact (adv_trans _ _ _ _ _ _ _ Hadv1 Hadv2).
    + (* the range ends inside the hash region *)
      apply bind_Ret in H as [[] [Ha1 H]]. apply assert_Ret, Z.leb_le in Ha1.
      apply bind_Ret in H as [[] [Ha2 H]]. apply assert_Ret, Z.leb_le in Ha2.
      apply bind_Ret in H as [[rv1 st1] [Hcov H]].
      apply (add_covered_spec _ _ _ _ _ _ _ _ _ Hinv) in Hcov
        as (Hc1 & Hrv1 & O1 & Hinv1 & Hem).
      destruct (Z.eqb_spec rv1 0) as [->|Hne]; simpl in H.
      2:{ inversion H; subst. split; [exact Hc1|].
          split; [destruct Hrv1; [contradiction|by right]|].
          exists O1. split; [exact Hinv1|]. intros; lia. }
      assert (Hrec : exists dd, covered_loop fuel E newhashfile hreg changed st1 dd
                                = Ret (rv, st', drange')
                     /\ (u32 (rg_start d) = rg_start d ->
                         COPYRANGE st1 (rg_next d) = Ret dd
                         /\ assert_size dd = Ret tt)).
      { destruct (Z.eqb_spec (u32 (rg_start d)) (rg_start d)) as [He|He].
        - apply bind_Ret in H as [dr1 [Hcp H]].
          apply bind_Ret in H as [[] [Hsz H]]. exists dr1. by repeat split.
        - eexists. split; [exact H|]. intros; contradiction. }
      destruct Hrec as (dd & Hrec & Hdd).
      apply (IH _ _ _ _ _ _ Hinv1) in Hrec as (Hc2 & Hrv & O2 & Hinv2 & HB).
      split; [exact (same_cfg_trans _ _ _ Hc1 Hc2)|]. split; [exact Hrv|].
      exists O2. split; [exact Hinv2|].
      intros R (Hd & HwfO & HwfR & (Lr & -> & Hl)) Hhs Hhn Hhe Hm Hz.
      apply wf32_cons in HwfR as [Hdb HwfR]. simpl in Hdb.
      rewrite (u64_small (hr_start hreg + hr_size hreg)) in Hlt by lia.
      rewrite (u32_small (hr_start hreg)) in * by lia.
      rewrite (u32_small (rg_start d)) in * by lia.
      rewrite (u32_small (hr_start hreg + hr_size hreg)) in * by lia.
      rewrite (u32_small (rg_start d + rg_size d)) in * by lia.
      destruct (Hdd eq_refl) as [Hcp Hsz].
      destruct (COPYRANGE_spec _ _ _ _ Hinv1 Hl) as (dr & Hcp' & Hcur).
      rewrite Hcp in Hcp'. inversion Hcp'; subst dr.
      destruct (Hem eq_refl) as [Hem1 Hem0].
      assert (Hstep : dummy_ok st1 /\ wf32 (vals O1)
                      /\ adv m (vals O)
                           ((rg_start d, rg_size d) :: vals Lr) (vals O1)
                           (vals Lr)).
      { destruct (Z.eq_dec changed 0) as [Hc0|Hc0].
        - destruct (Hem0 Hc0) as [-> ->]. split; [exact Hd|].
          split; [exact HwfO|]. repeat split; auto; try (simpl; lia).
          + intros x Hx. apply cov_cons in Hx as [Hx|Hx].
            * right. left. apply Hm; [exact Hc0|lia].
            * right. by right.
          + intros x Hx. apply cov_cons. by right.
        - replace (rg_start d + rg_size d - rg_start d) with (rg_size d)
            in Hem1 by lia.
          destruct (Hem1 Hc0 Hd HwfO ltac:(lia) ltac:(lia) ltac:(lia))
            as (Hd1 & HwfO1 & Hcv).
          split; [exact Hd1|]. split; [exact HwfO1|]. repeat split.
          + intros x Hx. apply Hcv. by left.
          + intros x Hx. apply cov_cons in Hx as [Hx|Hx].
            * left. apply Hcv. by right.
            * right. by right.
          + intros x Hx. apply Hcv in Hx as [Hx|Hx]; [by left|].
            right. apply cov_cons. by left.
          + intros x Hx. apply cov_cons. by right.
          + simpl; lia. }
      destruct Hstep as (Hd1 & HwfO1 & Hadv1).
      destruct (HB (vals Lr)) as (R' & Hok' & Hadv2); try assumption.
      { exact (conj Hd1 (conj HwfO1 (conj HwfR Hcur))). }
      exists R'. split; [exact Hok'|]. exact (adv_trans _ _ _ _ _ _ _ Hadv1 Hadv2).
Qed.

Lemma trailing_loop_spec E (newhashfile : bool) (at_ereg : bool) m fuel :
  forall st drange O rv st',
    out_inv h0 st O ->
    trailing_loop fuel E newhashfile at_ereg st drange = Ret (rv, st') ->
    same_cfg st st' /\ (rv = 0 \/ rv = -1)
    /\ exists O',
         out_inv h0 st' O'
         /\ forall R,
              walk_ok h0 st O drange R -> rv = 0 ->
              dummy_ok st' /\ wf32 (vals O') /\ adv m (vals O) R (vals O') [].
Proof.
  induction fuel as [|fuel IH]; intros st drange O rv st' Hinv H; simpl in H.
  - destruct drange as [d|]; [discriminate|]. inversion H; subst.
    split; [apply same_cfg_refl|]. split; [by left|].
    exists O. split; [exact Hinv|]. intros R (Hd & Hwf & _ & ->) _.
    split; [exact Hd|]. split; [exact Hwf|apply adv_refl].
  - destruct drange as [d|].
    2:{ inversion H; subst.
        split; [apply same_cfg_refl|]. split; [by left|].
        exists O. split; [exact Hinv|]. intros R (Hd & Hwf & _ & ->) _.
        split; [exact Hd|]. split; [exact Hwf|apply adv_refl]. }
    apply bind_Ret in H as [[] [_ H]].
    apply bind_Ret in H as [[rv1 st1] [Hnew H]].
    apply (add_new_spec _ _ _ _ _ _ _ _ Hinv) in Hnew
      as (Hc1 & Hrv1 & O1 & Hinv1 & Hem).
    destruct (Z.eqb_spec rv1 0) as [->|Hne]; simpl in H.
    2:{ inversion H; subst. split; [exact Hc1|].
        split; [destruct Hrv1; [contradiction|by right]|].
        exists O1. split; [exact Hinv1|]. intros; lia. }
    apply bind_Ret in H as [dr1 [Hcp H]].
    apply bind_Ret in H as [[] [Hsz H]].
    apply (IH _ _ _ _ _ Hinv1) in H as (Hc2 & Hrv & O2 & Hinv2 & HB).
    split; [exact (same_cfg_trans _ _ _ Hc1 Hc2)|]. split; [exact Hrv|].
    exists O2. split; [exact Hinv2|].
    intros R (Hd & HwfO & HwfR & (Lr & -> & Hl)) Hz.
    apply wf32_cons in HwfR as [Hdb HwfR]. simpl in Hdb.
    destruct (Hem eq_refl Hd HwfO ltac:(lia) ltac:(lia) ltac:(lia))
      as (Hd1 & HwfO1 & Hcov1).
    destruct (COPYRANGE_spec _ _ _ _ Hinv1 Hl) as (dr & Hcp' & Hcur).
    rewrite Hcp in Hcp'. inversion Hcp'; subst dr.
    destruct (HB (vals Lr) (conj Hd1 (conj HwfO1 (conj HwfR Hcur))) Hz)
      as (Hd2 & HwfO2 & Hadv).
    split; [exact Hd2|]. split; [exact HwfO2|].
    eapply adv_trans; [|exact Hadv].
    repeat split.
    + intros x Hx. apply Hcov1. by left.
    + intros x Hx. apply cov_cons in Hx as [Hx|Hx].
      * left. apply Hcov1. by right.
      * right. by right.
    + intros x Hx. apply Hcov1 in Hx as [Hx|Hx]; [by left|].
      right. apply cov_cons. by left.
    + intros x Hx. apply cov_cons. by right.
    + simpl; lia.
Qed.

Lemma hash_and_cmp_spec E st hreg hash c st' hash' :
  hash_and_cmp E st hreg hash = Ret (c, st', hash') ->
  same_walk st st' /\ nhinfo st' = nhinfo st
  /\ (c = -1 \/ c = 1
      \/ (c = 0
          /\ (e_hasfixup E (fixups st) (hr_start hreg) (hr_size hreg) = false ->
              fixups st' = fixups st
              /\ exists f, hashfunc st = Some f
                           /\ hash_matches E f (hashlen st) hreg))).
Proof.
  unfold hash_and_cmp. intros H.
  do 3 (apply bind_Ret in H as [[] [_ H]]).
  apply bind_Ret in H as [[[rv st1] hash1] [Hr H]].
  pose proof (hash_range_Ret _ _ _ _ _ _ _ _ Hr) as (Hw & Hn & _).
  destruct (Z.eqb_spec rv 0) as [->|Hne]; simpl in H.
  2:{ inversion H; subst. split; [exact Hw|]. split; [exact Hn|]. by left. }
  inversion H; subst; clear H.
  split; [exact Hw|]. split; [exact Hn|].
  destruct (memcmp_ne (hr_hash hreg) hash' (hashlen st')) eqn:Hcmp;
    [right; by left|].
  right. right. split; [reflexivity|]. intros Hfix.
  unfold hash_range in Hr.
  do 4 (apply bind_Ret in Hr as [[] [_ Hr]]).
  destruct (e_read E _ _) as [data|] eqn:Hrd; [|discriminate].
  destruct (hashfunc st) as [f|] eqn:Hf; [|discriminate].
  rewrite Hfix in Hr. inversion Hr; subst; clear Hr. simpl in *.
  split; [reflexivity|]. exists f. split; [reflexivity|].
  exists data, hash. split; [exact Hrd|exact Hcmp].
Qed.

Lemma decide_changed_spec E (newhashfile : bool) hreg st d hash c st' hash' :
  decide_changed E newhashfile hreg st d hash = Ret (c, st', hash') ->
  same_walk st st'
  /\ forall c0, c = Some c0 ->
       c0 = 0 ->
       exists f, hashfunc st = Some f /\ hash_matches E f (hashlen st) hreg.
Proof.
  unfold decide_changed. intros H.
  destruct (negb (hash_free st =? 0) || _).
  2:{ inversion H; subst. split; [apply same_walk_refl|].
      intros c0 Hc Hz. inversion Hc. lia. }
  destruct (e_hasfixup E _ _ _) eqn:Hfix.
  { inversion H; subst. split; [apply same_walk_refl|].
    intros c0 Hc Hz. inversion Hc. lia. }
  apply bind_Ret in H as [[[ch st1] hash1] [Hcmp H]].
  apply hash_and_cmp_spec in Hcmp as (Hw1 & _ & Hch).
  destruct (Z.ltb_spec ch 0) as [Hneg|Hpos].
  { inversion H; subst. split; [exact Hw1|]. intros c0 Hc. discriminate. }
  assert (Hm : ch = 0 ->
               exists f, hashfunc st = Some f
                         /\ hash_matches E f (hashlen st) hreg).
  { intros ->. destruct Hch as [?|[?|[_ Hch]]]; try lia.
    by destruct (Hch Hfix) as [_ ?]. }
  destruct newhashfile.
  - apply bind_Ret in H as [[rv st2] [Hadd H]].
    apply add_to_hashmap_same_walk in Hadd as [Hw2 _].
    inversion H; subst. split; [exact (same_walk_trans _ _ _ Hw1 Hw2)|].
    intros c0 Hc Hz. destruct (rv =? 0); inversion Hc; subst. by apply Hm.
  - inversion H; subst. split; [exact Hw1|].
    intros c0 Hc Hz. inversion Hc; subst. by apply Hm.
Qed.

Lemma covers_matches_cfg E st st' m hreg :
  same_cfg st st' -> covers_matches E st m hreg -> covers_matches E st' m hreg.
Proof.
  unfold same_cfg, covers_matches. intros Hc H f Hf Hm.
  destruct Hc as (_ & Hl & Hfn & _). rewrite Hl in Hm. rewrite Hfn in Hf.
  by apply (H f).
Qed.

(** The head split of the walk. *)
Lemma head_split_spec E (newhashfile : bool) hreg m st d O rv st' d' :
  out_inv h0 st O ->
  (if rg_start d <? hr_start hreg then
     let before := u32 (hr_start hreg - rg_start d) in
     '(rv, st2) ← add_new E st newhashfile (rg_start d) before;
     Ret (rv, st2,
          if rv =? 0 then
            {| rg_start := u32 (rg_start d + before);
               rg_size := u32 (rg_size d - before);
               rg_next := rg_next d |}
          else d)
   else Ret (0, st, d)) = Ret (rv, st', d') ->
  same_cfg st st' /\ (rv = 0 \/ rv = -1)
  /\ exists O',
       out_inv h0 st' O'
       /\ forall R,
            walk_ok h0 st O (Some d) R -> hreg_ok hreg ->
            hr_start hreg < rg_start d + rg_size d ->
            rv = 0 ->
            exists R',
              walk_ok h0 st' O' (Some d') R' /\ adv m (vals O) R (vals O') R'
              /\ hr_start hreg <= rg_start d'.
Proof.
  intros Hinv H.
  destruct (Z.ltb_spec (rg_start d) (hr_start hreg)) as [Hlt|Hge].
  2:{ inversion H; subst. split; [apply same_cfg_refl|]. split; [by left|].
      exists O. split; [exact Hinv|]. intros R Hok _ _ _. exists R.
      split; [exact Hok|]. split; [apply adv_refl|lia]. }
  simpl in H. apply bind_Ret in H as [[rv1 st1] [Hnew H]].
  inversion H; subst; clear H.
  apply (add_new_spec _ _ _ _ _ _ _ _ Hinv) in Hnew
    as (Hc1 & Hrv1 & O1 & Hinv1 & Hem).
  split; [exact Hc1|]. split; [exact Hrv1|].
  exists O1. split; [exact Hinv1|].
  intros R (Hd & HwfO & HwfR & (Lr & -> & Hl)) (Hhs & Hhn & Hhe) Hov ->.
  apply wf32_cons in HwfR as [Hdb HwfR]. simpl in Hdb. simpl.
  rewrite (u32_small (hr_start hreg - rg_start d)) in * by lia.
  rewrite (u32_small (rg_start d + _)), (u32_small (rg_size d - _)) by lia.
  destruct (Hem eq_refl Hd HwfO ltac:(lia) ltac:(lia) ltac:(lia))
    as (Hd1 & HwfO1 & Hcov1).
  exists ((rg_start d + (hr_start hreg - rg_start d),
           rg_size d - (hr_start hreg - rg_start d)) :: vals Lr).
  split; [|split].
  - split; [exact Hd1|]. split; [exact HwfO1|]. split.
    + apply wf32_cons. split; [simpl; lia|exact HwfR].
    + simpl. exists Lr. split; [reflexivity|exact Hl].
  - repeat split.
    + intros x Hx. apply Hcov1. by left.
    + intros x Hx. apply cov_cons in Hx as [Hx|Hx].
      * destruct (Z.lt_ge_cases x (hr_start hreg)).
        -- left. apply Hcov1. right. lia.
        -- right. right. apply cov_cons. left. lia.
      * right. right. apply cov_cons. by right.
    + intros x Hx. apply Hcov1 in Hx as [Hx|Hx]; [by left|].
      right. apply cov_cons. left. lia.
    + intros x Hx. apply cov_cons in Hx as [Hx|Hx]; apply cov_cons;
        [left; lia|by right].
    + simpl; lia.
  - simpl. lia.
Qed.

Lemma delta_step_spec E (newhashfile : bool) hreg m fuel st drange hash O
    fl st' drange' hash' :
  out_inv h0 st O ->
  delta_step fuel E newhashfile hreg st drange hash
  = Ret (fl, st', drange', hash') ->
  same_cfg st st'
  /\ exists O',
       out_inv h0 st' O'
       /\ (fl = Break -> drange' = None)
       /\ forall R,
            walk_ok h0 st O drange R -> hreg_ok hreg ->
            covers_matches E st m hreg -> fl <> Error ->
            exists R',
              walk_ok h0 st' O' drange' R' /\ adv m (vals O) R (vals O') R'.
Proof.
  intros Hinv H. unfold delta_step in H.
  apply bind_Ret in H as [[] [_ H]].
  apply bind_Ret in H as [[[rv1 st1] drange1] [Hdrain H]].
  apply (drain_loop_spec _ _ _ m _ _ _ _ _ _ _ Hinv) in Hdrain
    as (Hc1 & Hrv1 & O1 & Hinv1 & HB1).
  destruct (Z.eqb_spec rv1 0) as [->|Hne1]; simpl in H.
  2:{ inversion H; subst. split; [exact Hc1|]. exists O1.
      split; [exact Hinv1|]. split; [discriminate|]. intros; contradiction. }
  destruct drange1 as [d|].
  2:{ inversion H; subst. split; [exact Hc1|]. exists O1.
      split; [exact Hinv1|]. split; [reflexivity|].
      intros R Hok _ _ _. destruct (HB1 R Hok eq_refl) as (R' & ? & ? & _).
      eauto. }
  apply bind_Ret in H as [[] [_ H]].
  destruct (Z.leb_spec (u64 (hr_start hreg + hr_size hreg)) (rg_start d))
    as [Hskip|Hover].
  { inversion H; subst. split; [exact Hc1|]. exists O1.
    split; [exact Hinv1|]. split; [discriminate|].
    intros R Hok _ _ _. destruct (HB1 R Hok eq_refl) as (R' & ? & ? & _).
    eauto. }
  do 2 (apply bind_Ret in H as [[] [_ H]]).
  apply bind_Ret in H as [[[rv2 st2] d2] [Hhead H]].
  apply (head_split_spec _ _ _ m _ _ _ _ _ _ Hinv1) in Hhead
    as (Hc2 & Hrv2 & O2 & Hinv2 & HB2).
  destruct (Z.eqb_spec rv2 0) as [->|Hne2]; simpl in H.
  2:{ inversion H; subst. split; [exact (same_cfg_trans _ _ _ Hc1 Hc2)|].
      exists O2. split; [exact Hinv2|]. split; [discriminate|].
      intros; contradiction. }
  apply bind_Ret in H as [[[c st3] hash3] [Hdec H]].
  apply decide_changed_spec in Hdec as (Hw3 & Hm3).
  pose proof (out_inv_same_walk _ _ _ Hw3 Hinv2) as Hinv3.
  pose proof (same_cfg_trans _ _ _ (same_cfg_trans _ _ _ Hc1 Hc2)
                (same_walk_cfg _ _ Hw3)) as Hc3.
  destruct c as [c|].
  2:{ inversion H; subst. split; [exact Hc3|]. exists O2.
      split; [exact Hinv3|]. split; [discriminate|]. intros; contradiction. }
  apply bind_Ret in H as [[] [_ H]].
  apply bind_Ret in H as [[[rv4 st4] drange4] [Hcov H]].
  apply (covered_loop_spec _ _ _ _ m _ _ _ _ _ _ _ Hinv3) in Hcov
    as (Hc4 & Hrv4 & O4 & Hinv4 & HB4).
  pose proof (same_cfg_trans _ _ _ Hc3 Hc4) as Hc5.
  assert (HB : forall R,
             walk_ok h0 st O drange R -> hreg_ok hreg ->
             covers_matches E st m hreg -> rv4 = 0 ->
             exists R', walk_ok h0 st4 O4 drange4 R'
                        /\ adv m (vals O) R (vals O4) R').
  { intros R Hok Hh Hcm Hz.
    destruct (HB1 R Hok eq_refl) as (R1 & Hok1 & Hadv1 & Hd1).
    destruct (HB2 R1 Hok1 Hh Hd1 eq_refl) as (R2 & Hok2 & Hadv2 & Hd2).
    assert (Hok3 : walk_ok h0 st3 O2 (Some d2) R2).
    { destruct Hok2 as (? & ? & ? & ?).
      split; [exact (dummy_ok_same_walk _ _ Hw3 ltac:(assumption))|].
      by repeat split. }
    destruct Hh as (Hh1 & Hh2 & Hh3).
    destruct (HB4 R2 Hok3 Hh1 Hh2 Hh3) as (R4 & Hok4 & Hadv4); [|exact Hz|].
    - intros Hc0 x Hx. destruct (Hm3 c eq_refl Hc0) as (f & Hf & Hmatch).
      pose proof (same_cfg_trans _ _ _ Hc1 Hc2) as Hc12.
      apply (covers_matches_cfg _ _ _ _ _ Hc12 Hcm f Hf Hmatch x Hx).
    - exists R4. split; [exact Hok4|].
      exact (adv_trans _ _ _ _ _ _ _
               (adv_trans _ _ _ _ _ _ _ Hadv1 Hadv2) Hadv4). }
  destruct (Z.eqb_spec rv4 0) as [->|Hne4]; simpl in H.
  2:{ inversion H; subst. split; [exact Hc5|]. exists O4.
      split; [exact Hinv4|]. split; [discriminate|]. intros; contradiction. }
  destruct drange4 as [d4|].
  - apply bind_Ret in H as [[] [_ H]]. inversion H; subst.
    split; [exact Hc5|]. exists O4. split; [exact Hinv4|].
    split; [discriminate|]. intros R Hok Hh Hcm _. by apply HB.
  - inversion H; subst. split; [exact Hc5|]. exists O4.
    split; [exact Hinv4|]. split; [reflexivity|].
    intros R Hok Hh Hcm _. by apply HB.
Qed.

Lemma hreg_loop_spec E (newhashfile : bool) m fuel hregs :
  forall st drange hash O rv at_ereg st' drange',
    out_inv h0 st O ->
    hreg_loop fuel E newhashfile hregs st drange hash
    = Ret (rv, at_ereg, st', drange') ->
    same_cfg st st' /\ (rv = 0 \/ rv = -1)
    /\ exists O',
         out_inv h0 st' O'
         /\ (rv = 0 -> at_ereg = false -> drange' = None)
         /\ forall R,
              walk_ok h0 st O drange R -> Forall hreg_ok hregs ->
              Forall (covers_matches E st m) hregs -> rv = 0 ->
              exists R',
                walk_ok h0 st' O' drange' R' /\ adv m (vals O) R (vals O') R'.
Proof.
  induction hregs as [|hreg hregs IH];
    intros st drange hash O rv at_ereg st' drange' Hinv H; simpl in H.
  { inversion H; subst. split; [apply same_cfg_refl|]. split; [by left|].
    exists O. split; [exact Hinv|]. split; [discriminate|].
    intros R Hok _ _ _. exists R. split; [exact Hok|apply adv_refl]. }
  apply bind_Ret in H as [[[[fl st1] drange1] hash1] [Hstep H]].
  apply (delta_step_spec _ _ _ m _ _ _ _ _ _ _ _ _ Hinv) in Hstep
    as (Hc1 & O1 & Hinv1 & Hbrk & HB1).
  destruct fl.
  - apply (IH _ _ _ _ _ _ _ _ Hinv1) in H as (Hc2 & Hrv & O2 & Hinv2 & Hat & HB2).
    split; [exact (same_cfg_trans _ _ _ Hc1 Hc2)|]. split; [exact Hrv|].
    exists O2. split; [exact Hinv2|]. split; [exact Hat|].
    intros R Hok Hh Hcm Hz.
    apply Forall_cons in Hh as [Hh Hhs]. apply Forall_cons in Hcm as [Hcm Hcms].
    destruct (HB1 R Hok Hh Hcm ltac:(discriminate)) as (R1 & Hok1 & Hadv1).
    destruct (HB2 R1 Hok1 Hhs) as (R2 & Hok2 & Hadv2); [|exact Hz|].
    + eapply Forall_impl; [exact Hcms|]. intros hr.
      apply covers_matches_cfg. exact Hc1.
    + exists R2. split; [exact Hok2|].
      exact (adv_trans _ _ _ _ _ _ _ Hadv1 Hadv2).
  - inversion H; subst. split; [exact Hc1|]. split; [by left|].
    exists O1. split; [exact Hinv1|]. split; [intros _ _; by apply Hbrk|].
    intros R Hok Hh Hcm _.
    apply Forall_cons in Hh as [Hh Hhs]. apply Forall_cons in Hcm as [Hcm Hcms].
    by apply (HB1 R Hok Hh Hcm).
  - inversion H; subst. split; [exact Hc1|]. split; [by right|].
    exists O1. split; [exact Hinv1|]. split; [discriminate|]. intros; lia.
Qed.

(** ** The walk does not run out of turns *)

Lemma blk_ok_cfg st st' : same_cfg st st' -> blk_ok st -> blk_ok st'.
Proof. unfold blk_ok. intros (Hb & _) H. by rewrite Hb. Qed.

Lemma add_to_hashmap_NoFuel E st rstart rsize rhash :
  blk_ok st -> add_to_hashmap E st rstart rsize rhash <> NoFuel.
Proof.
  unfold blk_ok. intros Hb H. unfold add_to_hashmap in H. skip_asserts H.
  destruct (Z.eqb_spec (hashblksize st) 0) as [|Hne]; [discriminate|].
  revert H.
  assert (Hm : 0 <= u64 (u64 rstart - poffset st) `mod` hashblksize st
               < hashblksize st) by (apply Z.mod_pos_bound; lia).
  apply add_to_hashmap_loop_fuel.
  - lia.
  - rewrite u32_small by lia. exact Hm.
  - unfold u32. apply Z.mod_pos_bound. lia.
  - lia.
Qed.

Lemma add_to_range_NoFuel E st start size :
  add_to_range E st start size <> NoFuel.
Proof.
  unfold add_to_range, alloc. destruct (tail_node st); [|discriminate].
  destruct (_ =? _); [discriminate|]. simpl.
  destruct (e_alloc E (nalloc st)); discriminate.
Qed.

Lemma add_new_NoFuel E st (newhashfile : bool) O start size :
  out_inv h0 st O -> blk_ok st ->
  add_new E st newhashfile start size <> NoFuel.
Proof.
  intros Hinv Hb H. unfold add_new in H.
  apply bind_NoFuel in H as [H|[[rv1 st1] [Hadd H]]].
  { exact (add_to_range_NoFuel _ _ _ _ H). }
  apply (add_to_range_spec _ _ _ _ _ _ _ Hinv) in Hadd as (Hc1 & _).
  destruct (rv1 <? 0); [discriminate|].
  destruct newhashfile; [|discriminate].
  apply bind_NoFuel in H as [H|[[rv2 st2] [_ H]]]; [|discriminate].
  exact (add_to_hashmap_NoFuel _ _ _ _ _ (blk_ok_cfg _ _ Hc1 Hb) H).
Qed.

Lemma add_covered_NoFuel E st (newhashfile : bool) changed O start size :
  out_inv h0 st O -> blk_ok st ->
  add_covered E st newhashfile changed start size <> NoFuel.
Proof.
  intros Hinv Hb H. unfold add_covered in H.
  destruct (negb (changed =? 0)); [|discriminate].
  apply bind_NoFuel in H as [H|[[rv1 st1] [Hadd H]]].
  { exact (add_to_range_NoFuel _ _ _ _ H). }
  apply (add_to_range_spec _ _ _ _ _ _ _ Hinv) in Hadd as (Hc1 & _).
  destruct (rv1 <? 0); [discriminate|].
  destruct ((1 <? changed) && newhashfile); [|discriminate].
  apply bind_NoFuel in H as [H|[[rv2 st2] [_ H]]]; [|discriminate].
  exact (add_to_hashmap_NoFuel _ _ _ _ _ (blk_ok_cfg _ _ Hc1 Hb) H).
Qed.

Lemma decide_changed_NoFuel E (newhashfile : bool) hreg st d hash :
  blk_ok st -> decide_changed E newhashfile hreg st d hash <> NoFuel.
Proof.
  intros Hb H. unfold decide_changed in H.
  destruct (negb (hash_free st =? 0) || _); [|discriminate].
  destruct (e_hasfixup E _ _ _); [discriminate|].
  apply bind_NoFuel in H as [H|[[[ch st1] hash1] [Hcmp H]]].
  { unfold hash_and_cmp in H. skip_asserts H.
    apply bind_NoFuel in H as [H|[[[rv st1] hash1] [_ H]]].
    - exact (hash_range_NoFuel _ _ _ _ _ H).
    - destruct (negb (rv =? 0)); discriminate. }
  apply hash_and_cmp_spec in Hcmp as (Hw & _).
  destruct (ch <? 0); [discriminate|].
  destruct newhashfile; [|discriminate].
  apply bind_NoFuel in H as [H|[[rv2 st2] [_ H]]]; [|discriminate].
  exact (add_to_hashmap_NoFuel _ _ _ _ _
           (blk_ok_cfg _ _ (same_walk_cfg _ _ Hw) Hb) H).
Qed.

Lemma COPYRANGE_NoFuel st p : COPYRANGE st p <> NoFuel.
Proof.
  unfold COPYRANGE. destruct p; [|discriminate].
  destruct (heap st !! _); discriminate.
Qed.

Lemma cur_inv_length d R : cur_inv h0 (Some d) R -> (0 < length R)%nat.
Proof. intros (Lr & -> & _). simpl. lia. Qed.

Lemma drain_loop_fuel E (newhashfile : bool) hreg fuel :
  forall st drange O R,
    out_inv h0 st O -> cur_inv h0 drange R -> blk_ok st ->
    (length R <= fuel)%nat ->
    drain_loop fuel E newhashfile hreg st drange <> NoFuel.
Proof.
  induction fuel as [|fuel IH]; intros st drange O R Hinv Hcur Hb Hlen H;
    simpl in H.
  - destruct drange as [d|]; [|discriminate].
    apply cur_inv_length in Hcur. lia.
  - destruct drange as [d|]; [|discriminate].
    destruct (_ <=? _); [|discriminate].
    apply bind_NoFuel in H as [H|[[rv1 st1] [Hnew H]]].
    { exact (add_new_NoFuel _ _ _ _ _ _ Hinv Hb H). }
    apply (add_new_spec _ _ _ _ _ _ _ _ Hinv) in Hnew
      as (Hc1 & _ & O1 & Hinv1 & _).
    destruct (negb (rv1 =? 0)); [discriminate|].
    destruct Hcur as (Lr & -> & Hl).
    destruct (COPYRANGE_spec _ _ _ _ Hinv1 Hl) as (dr & Hcp & Hcur).
    rewrite Hcp in H. simpl in H. skip_asserts H. revert H.
    apply (IH _ _ O1 (vals Lr)); try assumption.
    + exact (blk_ok_cfg _ _ Hc1 Hb).
    + simpl in Hlen. lia.
Qed.

Lemma trailing_loop_fuel E (newhashfile : bool) (at_ereg : bool) fuel :
  forall st drange O R,
    out_inv h0 st O -> cur_inv h0 drange R -> blk_ok st ->
    (length R <= fuel)%nat ->
    trailing_loop fuel E newhashfile at_ereg st drange <> NoFuel.
Proof.
  induction fuel as [|fuel IH]; intros st drange O R Hinv Hcur Hb Hlen H;
    simpl in H.
  - destruct drange as [d|]; [|discriminate].
    apply cur_inv_length in Hcur. lia.
  - destruct drange as [d|]; [|discriminate].
    skip_asserts H.
    apply bind_NoFuel in H as [H|[[rv1 st1] [Hnew H]]].
    { exact (add_new_NoFuel _ _ _ _ _ _ Hinv Hb H). }
    apply (add_new_spec _ _ _ _ _ _ _ _ Hinv) in Hnew
      as (Hc1 & _ & O1 & Hinv1 & _).
    destruct (negb (rv1 =? 0)); [discriminate|].
    destruct Hcur as (Lr & -> & Hl).
    destruct (COPYRANGE_spec _ _ _ _ Hinv1 Hl) as (dr & Hcp & Hcur).
    rewrite Hcp in H. simpl in H. skip_asserts H. revert H.
    apply (IH _ _ O1 (vals Lr)); try assumption.
    + exact (blk_ok_cfg _ _ Hc1 Hb).
    + simpl in Hlen. lia.
Qed.

(** A range that is cut at the end of the hash region ends the second
    [while] at the next test, so a turn for every range is enough. *)
Lemma covered_loop_fuel E (newhashfile : bool) hreg fuel :
  forall changed st drange O R,
    out_inv h0 st O -> cur_inv h0 drange R -> wf32 R -> blk_ok st ->
    hreg_ok hreg ->
    (length R <= fuel)%nat
    \/ (exists d, drange = Some d
                  /\ hr_start hreg + hr_size hreg <= rg_start d) ->
    covered_loop fuel E newhashfile hreg changed st drange <> NoFuel.
Proof.
  induction fuel as [|fuel IH];
    intros changed st drange O R Hinv Hcur Hwf Hb Hh Hlen H; simpl in H.
  - destruct drange as [d|]; [|discriminate].
    rewrite u64_small in H by (unfold hreg_ok in Hh; lia).
    destruct (Z.ltb_spec (rg_start d) (hr_start hreg + hr_size hreg));
      [|discriminate].
    destruct Hlen as [Hlen|(d' & Hd' & Hge)].
    + apply cur_inv_length in Hcur. lia.
    + inversion Hd'; subst. lia.
  - destruct drange as [d|]; [|discriminate].
    rewrite u64_small in H by (unfold hreg_ok in Hh; lia).
    destruct (Z.ltb_spec (rg_start d) (hr_start hreg + hr_size hreg))
      as [Hlt|]; [|discriminate].
    destruct Hlen as [Hlen|(d' & Hd' & Hge)];
      [|inversion Hd'; subst; lia].
    destruct Hcur as (Lr & -> & Hl).
    apply wf32_cons in Hwf as [Hdb Hwf]. simpl in Hdb.
    destruct Hh as (Hh1 & Hh2 & Hh3).
    rewrite (u32_small (hr_start hreg)) in H by lia.
    rewrite (u32_small (rg_start d)) in H by lia.
    rewrite (u32_small (hr_start hreg + hr_size hreg)) in H by lia.
    rewrite (u32_small (rg_start d + rg_size d)) in H by lia.
    destruct (Z.ltb_spec (hr_start hreg + hr_size hreg)
                (rg_start d + rg_size d)) as [Hsplit|Hin].
    + (* the range is cut *)
      skip_asserts H.
      apply bind_NoFuel in H as [H|[[rv1 st1] [Hadd H]]].
      { exact (add_covered_NoFuel _ _ _ _ _ _ _ Hinv Hb H). }
      apply (add_covered_spec _ _ _ _ _ _ _ _ _ Hinv) in Hadd
        as (Hc1 & _ & O1 & Hinv1 & _).
      destruct (negb (rv1 =? 0)); [discriminate|]. simpl in H.
      destruct (Z.eqb_spec (rg_start d) (hr_start hreg + hr_size hreg));
        [lia|].
      revert H.
      apply (IH _ _ _ O1
               ((hr_start hreg + hr_size hreg,
                 u32 (rg_start d + rg_size d
                      - (hr_start hreg + hr_size hreg))) :: vals Lr));
        try assumption.
      * simpl. exists Lr. split; [reflexivity|exact Hl].
      * apply wf32_cons. split; [|exact Hwf]. simpl.
        rewrite u32_small by lia. lia.
      * exact (blk_ok_cfg _ _ Hc1 Hb).
      * by repeat split.
      * right. eexists. split; [reflexivity|]. simpl. lia.
    + (* the range ends in the hash region *)
      skip_asserts H.
      apply bind_NoFuel in H as [H|[[rv1 st1] [Hadd H]]].
      { exact (add_covered_NoFuel _ _ _ _ _ _ _ Hinv Hb H). }
      apply (add_covered_spec _ _ _ _ _ _ _ _ _ Hinv) in Hadd
        as (Hc1 & _ & O1 & Hinv1 & _).
      destruct (negb (rv1 =? 0)); [discriminate|].
      rewrite Z.eqb_refl in H.
      destruct (COPYRANGE_spec _ _ _ _ Hinv1 Hl) as (dr & Hcp & Hcur).
      rewrite Hcp in H. simpl in H. skip_asserts H. revert H.
      apply (IH _ _ _ O1 (vals Lr)); try assumption.
      * exact (blk_ok_cfg _ _ Hc1 Hb).
      * by repeat split.
      * left. simpl in Hlen. lia.
Qed.

Lemma delta_step_fuel E (newhashfile : bool) hreg fuel st drange hash O R :
  out_inv h0 st O -> walk_ok h0 st O drange R -> blk_ok st -> hreg_ok hreg ->
  (length R <= fuel)%nat ->
  delta_step fuel E newhashfile hreg st drange hash <> NoFuel.
Proof.
  intros Hinv Hok Hb Hh Hlen H. unfold delta_step in H. skip_asserts H.
  apply bind_NoFuel in H as [H|[[[rv1 st1] drange1] [Hdrain H]]].
  { destruct Hok as (_ & _ & _ & Hcur).
    exact (drain_loop_fuel _ _ _ _ _ _ _ _ Hinv Hcur Hb Hlen H). }
  apply (drain_loop_spec _ _ _ (fun _ => True) _ _ _ _ _ _ _ Hinv) in Hdrain
    as (Hc1 & _ & O1 & Hinv1 & HB1).
  destruct (Z.eqb_spec rv1 0) as [->|]; simpl in H; [|discriminate].
  destruct drange1 as [d|]; [|discriminate].
  destruct (HB1 R Hok eq_refl) as (R1 & Hok1 & (_ & _ & _ & _ & Hlen1) & Hd1).
  skip_asserts H.
  destruct (_ <=? _); [discriminate|].
  skip_asserts H.
  apply bind_NoFuel in H as [H|[[[rv2 st2] d2] [Hhead H]]].
  { destruct (rg_start d <? hr_start hreg); [|discriminate]. simpl in H.
    apply bind_NoFuel in H as [H|[[rv st2] [_ H]]]; [|discriminate].
    exact (add_new_NoFuel _ _ _ _ _ _ Hinv1 (blk_ok_cfg _ _ Hc1 Hb) H). }
  apply (head_split_spec _ _ _ (fun _ => True) _ _ _ _ _ _ Hinv1) in Hhead
    as (Hc2 & _ & O2 & Hinv2 & HB2).
  pose proof (blk_ok_cfg _ _ Hc2 (blk_ok_cfg _ _ Hc1 Hb)) as Hb2.
  destruct (Z.eqb_spec rv2 0) as [->|]; simpl in H; [|discriminate].
  destruct (HB2 R1 Hok1 Hh Hd1 eq_refl)
    as (R2 & Hok2 & (_ & _ & _ & _ & Hlen2) & _).
  apply bind_NoFuel in H as [H|[[[c st3] hash3] [Hdec H]]].
  { exact (decide_changed_NoFuel _ _ _ _ _ _ Hb2 H). }
  apply decide_changed_spec in Hdec as (Hw3 & _).
  destruct c as [c|]; [|discriminate].
  skip_asserts H.
  apply bind_NoFuel in H as [H|[[[rv4 st4] drange4] [_ H]]].
  { destruct Hok2 as (_ & _ & Hwf2 & Hcur2). revert H.
    apply (covered_loop_fuel _ _ _ _ _ _ _ O2 R2); try assumption.
    - exact (out_inv_same_walk _ _ _ Hw3 Hinv2).
    - exact (blk_ok_cfg _ _ (same_walk_cfg _ _ Hw3) Hb2).
    - left. lia. }
  destruct (negb (rv4 =? 0)); [discriminate|].
  destruct drange4; [|discriminate]. skip_asserts H. discriminate.
Qed.

Lemma hreg_loop_fuel E (newhashfile : bool) fuel hregs :
  forall st drange hash O R,
    out_inv h0 st O -> walk_ok h0 st O drange R -> blk_ok st ->
    Forall hreg_ok hregs -> (length R <= fuel)%nat ->
    hreg_loop fuel E newhashfile hregs st drange hash <> NoFuel.
Proof.
  induction hregs as [|hreg hregs IH];
    intros st drange hash O R Hinv Hok Hb Hregs Hlen H; simpl in H;
    [discriminate|].
  apply Forall_cons in Hregs as [Hh Hregs].
  apply bind_NoFuel in H as [H|[[[[fl st1] drange1] hash1] [Hstep H]]].
  { exact (delta_step_fuel _ _ _ _ _ _ _ _ _ Hinv Hok Hb Hh Hlen H). }
  apply (delta_step_spec _ _ _ (fun _ => True) _ _ _ _ _ _ _ _ _ Hinv)
    in Hstep as (Hc1 & O1 & Hinv1 & _ & HB).
  destruct fl; try discriminate.
  destruct (HB R Hok Hh) as (R1 & Hok1 & (_ & _ & _ & _ & Hlen1));
    [by intros ? ? ? ? ?|discriminate|].
  revert H. apply (IH _ _ _ O1 R1); try assumption.
  - exact (blk_ok_cfg _ _ Hc1 Hb).
  - lia.
Qed.

End WalkFacts.

(** ** The delta *)

Section DeltaFacts.
Context {K : imagehash_h} {F : Type}.
Implicit Types (st : hm_state F) (E : delta_env F).

Lemma readhashinfo_heap E st src rv st' hi :
  readhashinfo E st src = Ret (rv, st', hi) -> heap st' = heap st.
Proof.
  unfold readhashinfo. intros H. apply bind_Ret in H as [[] [_ H]].
  destruct src as [|magic_ok hi0 regions_ok]; [by inversion H|].
  destruct (negb magic_ok || _); [by inversion H|].
  unfold alloc in H.
  destruct ((hi_version hi0 =? HASH_VERSION_1)
            || (hi_version hi0 =? HASH_VERSION_2)); simpl in H.
  - destruct (e_alloc E (nalloc st)); simpl in H; [|by inversion H].
    destruct (e_alloc E (S (nalloc st))); simpl in H; [|by inversion H].
    destruct regions_ok; simpl in H; [|by inversion H].
    apply bind_Ret in H as [regs [_ H]].
    destruct (e_alloc E (S (S (nalloc st)))); simpl in H; by inversion H.
  - destruct (e_alloc E (nalloc st)); simpl in H; [|by inversion H].
    destruct regions_ok; simpl in H; [|by inversion H].
    apply bind_Ret in H as [regs [_ H]].
    destruct (e_alloc E (S (nalloc st))); simpl in H; by inversion H.
Qed.

Lemma delta_hinfo_heap E st hfile rv st' hi :
  delta_hinfo E st hfile = Ret (rv, st', hi) -> heap st' = heap st.
Proof.
  unfold delta_hinfo. intros H. destruct hfile as [src|].
  - apply bind_Ret in H as [[[rv1 st1] hi1] [Hr H]].
    apply readhashinfo_heap in Hr.
    destruct (rv1 <? 0); inversion H; subst; exact Hr.
  - unfold alloc in H. destruct (e_alloc E (nalloc st)); simpl in H;
      [|discriminate].
    destruct (e_alloc E (S (nalloc st))); simpl in H; by inversion H.
Qed.

Lemma out_inv_init st :
  rg_next (dummy_head st) = None -> range_tail st = None ->
  out_inv (heap st) st [].
Proof.
  intros Hn Ht. unfold out_inv, rlist. simpl. rewrite Hn, Ht.
  repeat split; auto using NoDup_nil_2.
  intros a Ha. by apply elem_of_nil in Ha.
Qed.

Lemma walk_start_inv E st f len (newhashfile : bool) :
  out_inv (heap st) (walk_start E st f len newhashfile) []
  /\ dummy_ok (walk_start E st f len newhashfile)
  /\ hashfunc (walk_start E st f len newhashfile) = Some f
  /\ hashlen (walk_start E st f len newhashfile) = len
  /\ heap (walk_start E st f len newhashfile) = heap st.
Proof.
  unfold walk_start. destruct newhashfile; simpl.
  - split; [|by repeat split].
    unfold out_inv, rlist. simpl. repeat split; auto using NoDup_nil_2.
    intros a Ha. by apply elem_of_nil in Ha.
  - split; [|by repeat split].
    unfold out_inv, rlist. simpl. repeat split; auto using NoDup_nil_2.
    intros a Ha. by apply elem_of_nil in Ha.
Qed.

(** The walk of [hashmap_compute_delta], from the state [walk_start] on. *)
Lemma compute_delta_unfold fuel E st curranges hfile infd ssect
    (newhashfile : bool) rv1 st1 hinfo :
  curranges <> None ->
  delta_hinfo E (set_imagefd_poffset infd (u64 ssect) st) hfile
  = Ret (rv1, st1, Some hinfo) ->
  hashmap_compute_delta fuel E st curranges hfile infd ssect newhashfile
  = (let st2 := walk_start E st1 (select_hash (hi_hashtype hinfo)).2
                  (select_hash (hi_hashtype hinfo)).1 newhashfile in
     drange ← COPYRANGE st2 curranges;
     '(rv, at_ereg, st3, drange) ←
       hreg_loop fuel E newhashfile (hi_regions hinfo) st2 drange (e_uninit E);
     if negb (rv =? 0)
     then st4 ← delta_error E newhashfile st3; Ret (-1, st4, None)
     else
       _ ← assert (bool_decide (drange = None) || at_ereg);
       '(rv, st4) ← trailing_loop fuel E newhashfile at_ereg st3 drange;
       if negb (rv =? 0)
       then st5 ← delta_error E newhashfile st4; Ret (-1, st5, None)
       else
         let nranges := rg_next (dummy_head st4) in
         st5 ← (if newhashfile then finish_nhinfo E hinfo st4 else Ret st4);
         let st6 := if newhashfile
                    then emit (EvRestorefixups 1)
                           (set_fixups (e_restorefixups E (fixups st5) 1) st5)
                    else st5 in
         Ret (0, st6, Some nranges)).
Proof.
  intros Hcur Hh. unfold hashmap_compute_delta.
  rewrite bool_decide_eq_true_2 by exact Hcur. simpl.
  rewrite Hh. simpl. unfold walk_start.
  destruct (select_hash (hi_hashtype hinfo)) as [len f]. simpl.
  destruct newhashfile; reflexivity.
Qed.

Lemma delta_error_spec h0 E (newhashfile : bool) st O st' :
  out_inv h0 st O ->
  delta_error E newhashfile st = Ret st' ->
  heap st' = h0
  /\ trace st' = trace st ++ cleanup_events newhashfile st
  /\ (nhinfo st' = NhNull \/ nhinfo st' = NhFreed)
  /\ fixups st' = (if newhashfile then e_restorefixups E (fixups st) 0
                   else fixups st).
Proof.
  intros (Hl & _ & Hnd & Hfresh & Hsub & Hdom) H. unfold delta_error in H.
  assert (Hheap : freeranges (S (size (heap st))) (heap st)
                    (rg_next (dummy_head st)) = h0).
  { rewrite (freeranges_rlist O _ _ Hl Hnd). apply map_eq. intros l.
    rewrite lookup_foldr_delete. case_bool_decide as Hin.
    - symmetry. apply Hfresh.
      apply list_elem_of_In. apply in_rev. by apply list_elem_of_In.
    - destruct (h0 !! l) as [nd|] eqn:E0; [by apply Hsub|].
      destruct (heap st !! l) as [nd|] eqn:E1; [|reflexivity].
      destruct (Hdom l ltac:(eauto)) as [[? Hs]|Hin'].
      + rewrite E0 in Hs. discriminate.
      + exfalso. apply Hin.
        apply list_elem_of_In. rewrite <- in_rev.
        by apply list_elem_of_In. }
  unfold cleanup_events.
  destruct newhashfile; simpl in H;
    destruct (nhinfo st) eqn:Hn; simpl in H; inversion H; subst; simpl;
    rewrite ?Hheap, <- ?app_assoc; simpl; by repeat split; auto.
Qed.

(** ** The walk writes only to its own output *)

Lemma quiet_refl st : quiet st st.
Proof. split; [reflexivity|]. exists []. simpl. by rewrite app_nil_r. Qed.

Lemma quiet_trans st1 st2 st3 : quiet st1 st2 -> quiet st2 st3 -> quiet st1 st3.
Proof.
  intros [Hb1 [m1 Ht1]] [Hb2 [m2 Ht2]]. split; [congruence|].
  exists (m1 ++ m2). rewrite Ht2, Ht1, fmap_app. by rewrite app_assoc.
Qed.

Lemma quiet_fields st st' :
  hinfo_buf st' = hinfo_buf st -> trace st' = trace st -> quiet st st'.
Proof.
  intros Hb Ht. split; [exact Hb|]. exists []. simpl.
  by rewrite app_nil_r.
Qed.

Lemma quiet_emit st st' m :
  hinfo_buf st' = hinfo_buf st -> trace st' = trace st ->
  quiet st (emit (EvStderr m) st').
Proof.
  intros Hb Ht. split; [exact Hb|]. exists [m]. simpl. by rewrite Ht.
Qed.

Ltac quiet_now :=
  first [ by apply quiet_refl
        | by apply quiet_fields
        | by apply quiet_emit ].

Lemma hash_range_quiet E st start size hash rv st' hash' :
  hash_range E st start size hash = Ret (rv, st', hash') -> quiet st st'.
Proof.
  unfold hash_range. intros H.
  do 4 apply bind_Ret in H as [[] [_ H]].
  destruct (e_read E _ _) as [data|], (hashfunc st) as [f|];
    try (inversion H; subst; quiet_now).
  destruct (e_hasfixup E _ _ _).
  - destruct (e_applyfixups E _ _ _ _) as [fx d1]. inversion H; subst.
    quiet_now.
  - inversion H; subst. quiet_now.
Qed.

Lemma hash_and_cmp_quiet E st hreg hash rv st' hash' :
  hash_and_cmp E st hreg hash = Ret (rv, st', hash') -> quiet st st'.
Proof.
  unfold hash_and_cmp. intros H.
  do 3 apply bind_Ret in H as [[] [_ H]].
  apply bind_Ret in H as [[[rv1 st1] hash1] [Hr H]].
  apply hash_range_quiet in Hr.
  destruct (negb (rv1 =? 0)); by inversion H; subst.
Qed.

Lemma addhash_quiet E st start size hash rv st' :
  addhash E st start size hash = Ret (rv, st') -> quiet st st'.
Proof.
  unfold addhash. intros H.
  destruct (nhinfo st) as [|hi|hi|] eqn:Hnh; simpl in H; try discriminate.
  - destruct (e_alloc E (nalloc st)); simpl in H.
    + destruct (e_alloc E (S (nalloc st))); simpl in H; inversion H; subst;
        quiet_now.
    + destruct (e_alloc E (S (nalloc st))); simpl in H; [discriminate|].
      inversion H; subst. quiet_now.
  - destruct (hi_nregions hi `mod` REGPERBLK =? 0); simpl in H.
    + destruct (e_alloc E (nalloc st)); simpl in H; inversion H; subst;
        quiet_now.
    + inversion H; subst. quiet_now.
Qed.

Lemma add_to_hashmap_loop_quiet E fuel :
  forall st rstart rsize offset rhash rv st',
    add_to_hashmap_loop fuel E st rstart rsize offset rhash = Ret (rv, st') ->
    quiet st st'.
Proof.
  induction fuel as [|fuel IH]; intros st rstart rsize offset rhash rv st' H;
    simpl in H.
  { destruct (rsize <=? 0); [|discriminate]. inversion H; subst.
    apply quiet_refl. }
  destruct (rsize <=? 0).
  { inversion H; subst. apply quiet_refl. }
  apply bind_Ret in H as [[[rv1 st1] hash] [Hhash H]].
  assert (Hq1 : quiet st st1).
  { destruct rhash.
    - inversion Hhash; subst. apply quiet_refl.
    - by apply hash_range_quiet in Hhash. }
  destruct (negb (rv1 =? 0)).
  { inversion H; subst. apply (quiet_trans _ _ _ Hq1). quiet_now. }
  apply bind_Ret in H as [[rv2 st2] [Hadd H]].
  apply addhash_quiet in Hadd.
  pose proof (quiet_trans _ _ _ Hq1 Hadd) as Hq2.
  destruct (negb (rv2 =? 0)).
  { inversion H; subst. apply (quiet_trans _ _ _ Hq2). quiet_now. }
  apply IH in H. exact (quiet_trans _ _ _ Hq2 H).
Qed.

Lemma add_to_hashmap_quiet E st rstart rsize rhash rv st' :
  add_to_hashmap E st rstart rsize rhash = Ret (rv, st') -> quiet st st'.
Proof.
  unfold add_to_hashmap. intros H. apply bind_Ret in H as [[] [_ H]].
  destruct (hashblksize st =? 0); [discriminate|].
  by apply add_to_hashmap_loop_quiet in H.
Qed.

Lemma add_to_range_quiet E st start size rv st' :
  add_to_range E st start size = Ret (rv, st') -> quiet st st'.
Proof.
  unfold add_to_range, tail_node, set_tail_node. intros H.
  destruct (range_tail st) as [t|] eqn:Ht.
  - destruct (heap st !! t) as [tail|]; [|discriminate].
    destruct (_ =? _).
    + inversion H; subst. quiet_now.
    + unfold alloc in H. simpl in H.
      destruct (e_alloc E (nalloc st)); simpl in H.
      * rewrite Ht in H. inversion H; subst. quiet_now.
      * inversion H; subst. quiet_now.
  - destruct (_ =? _).
    + inversion H; subst. quiet_now.
    + unfold alloc in H. simpl in H.
      destruct (e_alloc E (nalloc st)); simpl in H.
      * rewrite Ht in H. inversion H; subst. quiet_now.
      * inversion H; subst. quiet_now.
Qed.

Lemma add_new_quiet E st (newhashfile : bool) start size rv st' :
  add_new E st newhashfile start size = Ret (rv, st') -> quiet st st'.
Proof.
  unfold add_new. intros H.
  apply bind_Ret in H as [[rv1 st1] [Hadd H]].
  apply add_to_range_quiet in Hadd.
  destruct (rv1 <? 0); [by inversion H; subst|].
  destruct newhashfile; [|by inversion H; subst].
  apply bind_Ret in H as [[rv2 st2] [Hmap H]].
  apply add_to_hashmap_quiet in Hmap. inversion H; subst.
  exact (quiet_trans _ _ _ Hadd Hmap).
Qed.

Lemma add_covered_quiet E st (newhashfile : bool) changed start size rv st' :
  add_covered E st newhashfile changed start size = Ret (rv, st') ->
  quiet st st'.
Proof.
  unfold add_covered. intros H.
  destruct (negb (changed =? 0)); [|inversion H; subst; apply quiet_refl].
  apply bind_Ret in H as [[rv1 st1] [Hadd H]].
  apply add_to_range_quiet in Hadd.
  destruct (rv1 <? 0); [by inversion H; subst|].
  destruct ((1 <? changed) && newhashfile); [|by inversion H; subst].
  apply bind_Ret in H as [[rv2 st2] [Hmap H]].
  apply add_to_hashmap_quiet in Hmap. inversion H; subst.
  exact (quiet_trans _ _ _ Hadd Hmap).
Qed.

Lemma drain_loop_quiet E (newhashfile : bool) hreg fuel :
  forall st drange rv st' drange',
    drain_loop fuel E newhashfile hreg st drange = Ret (rv, st', drange') ->
    quiet st st'.
Proof.
  induction fuel as [|fuel IH]; intros st drange rv st' drange' H;
    destruct drange as [d|]; simpl in H;
    try (inversion H; subst; apply quiet_refl).
  - destruct (_ <=? _); [discriminate|]. inversion H; subst.
    apply quiet_refl.
  - destruct (_ <=? _); [|inversion H; subst; apply quiet_refl].
    apply bind_Ret in H as [[rv1 st1] [Hadd H]].
    apply add_new_quiet in Hadd.
    destruct (negb (rv1 =? 0)); [by inversion H; subst|].
    apply bind_Ret in H as [drange1 [_ H]].
    apply bind_Ret in H as [[] [_ H]].
    apply IH in H. exact (quiet_trans _ _ _ Hadd H).
Qed.

Lemma covered_loop_quiet E (newhashfile : bool) hreg changed fuel :
  forall st drange rv st' drange',
    covered_loop fuel E newhashfile hreg changed st drange
    = Ret (rv, st', drange') ->
    quiet st st'.
Proof.
  induction fuel as [|fuel IH]; intros st drange rv st' drange' H;
    destruct drange as [d|]; simpl in H;
    try (inversion H; subst; apply quiet_refl).
  - destruct (_ <? _); [discriminate|]. inversion H; subst.
    apply quiet_refl.
  - destruct (rg_start d <? _); [|inversion H; subst; apply quiet_refl].
    destruct (_ <? _); simpl in H.
    + apply bind_Ret in H as [[] [_ H]]. apply bind_Ret in H as [[] [_ H]].
      apply bind_Ret in H as [[rv1 st1] [Hadd H]].
      apply add_covered_quiet in Hadd.
      destruct (negb (rv1 =? 0)); [by inversion H; subst|].
      destruct (_ =? _).
      * apply bind_Ret in H as [drange1 [_ H]].
        apply bind_Ret in H as [[] [_ H]].
        apply IH in H. exact (quiet_trans _ _ _ Hadd H).
      * apply IH in H. exact (quiet_trans _ _ _ Hadd H).
    + apply bind_Ret in H as [[] [_ H]]. apply bind_Ret in H as [[] [_ H]].
      apply bind_Ret in H as [[rv1 st1] [Hadd H]].
      apply add_covered_quiet in Hadd.
      destruct (negb (rv1 =? 0)); [by inversion H; subst|].
      destruct (_ =? _).
      * apply bind_Ret in H as [drange1 [_ H]].
        apply bind_Ret in H as [[] [_ H]].
        apply IH in H. exact (quiet_trans _ _ _ Hadd H).
      * apply IH in H. exact (quiet_trans _ _ _ Hadd H).
Qed.

Lemma decide_changed_quiet E (newhashfile : bool) hreg st d hash c st' hash' :
  decide_changed E newhashfile hreg st d hash = Ret (c, st', hash') ->
  quiet st st'.
Proof.
  unfold decide_changed. intros H.
  destruct (_ || _); [|inversion H; subst; apply quiet_refl].
  destruct (e_hasfixup E _ _ _); [inversion H; subst; apply quiet_refl|].
  apply bind_Ret in H as [[[ch st1] hash1] [Hcmp H]].
  apply hash_and_cmp_quiet in Hcmp.
  destruct (ch <? 0); [by inversion H; subst|].
  destruct newhashfile; [|by inversion H; subst].
  apply bind_Ret in H as [[rv2 st2] [Hmap H]].
  apply add_to_hashmap_quiet in Hmap. inversion H; subst.
  exact (quiet_trans _ _ _ Hcmp Hmap).
Qed.

Lemma delta_step_quiet fuel E (newhashfile : bool) hreg st drange hash
    fl st' drange' hash' :
  delta_step fuel E newhashfile hreg st drange hash
  = Ret (fl, st', drange', hash') ->
  quiet st st'.
Proof.
  unfold delta_step. intros H.
  apply bind_Ret in H as [[] [_ H]].
  apply bind_Ret in H as [[[rv1 st1] drange1] [Hdrain H]].
  apply drain_loop_quiet in Hdrain.
  destruct (negb (rv1 =? 0)); [by inversion H; subst|].
  destruct drange1 as [d|]; [|by inversion H; subst].
  apply bind_Ret in H as [[] [_ H]].
  destruct (_ <=? _); [by inversion H; subst|].
  apply bind_Ret in H as [[] [_ H]]. apply bind_Ret in H as [[] [_ H]].
  apply bind_Ret in H as [[[rv2 st2] d2] [Hbefore H]].
  assert (Hq2 : quiet st st2).
  { apply (quiet_trans _ _ _ Hdrain).
    destruct (rg_start d <? hr_start hreg).
    - apply bind_Ret in Hbefore as [[rv3 st3] [Hadd Hbefore]].
      apply add_new_quiet in Hadd. by inversion Hbefore; subst.
    - inversion Hbefore; subst. apply quiet_refl. }
  destruct (negb (rv2 =? 0)); [by inversion H; subst|].
  apply bind_Ret in H as [[[ch st3] hash3] [Hdec H]].
  apply decide_changed_quiet in Hdec.
  pose proof (quiet_trans _ _ _ Hq2 Hdec) as Hq3.
  destruct ch as [ch|]; [|by inversion H; subst].
  apply bind_Ret in H as [[] [_ H]].
  apply bind_Ret in H as [[[rv4 st4] drange4] [Hcov H]].
  apply covered_loop_quiet in Hcov.
  pose proof (quiet_trans _ _ _ Hq3 Hcov) as Hq4.
  destruct (negb (rv4 =? 0)); [by inversion H; subst|].
  destruct drange4 as [d4|]; [|by inversion H; subst].
  apply bind_Ret in H as [[] [_ H]]. by inversion H; subst.
Qed.

Lemma hreg_loop_quiet fuel E (newhashfile : bool) hregs :
  forall st drange hash rv at_ereg st' drange',
    hreg_loop fuel E newhashfile hregs st drange hash
    = Ret (rv, at_ereg, st', drange') ->
    quiet st st'.
Proof.
  induction hregs as [|hreg rest IH];
    intros st drange hash rv at_ereg st' drange' H; simpl in H.
  { inversion H; subst. apply quiet_refl. }
  apply bind_Ret in H as [[[[fl st1] drange1] hash1] [Hstep H]].
  apply delta_step_quiet in Hstep.
  destruct fl; [|by inversion H; subst..].
  apply IH in H. exact (quiet_trans _ _ _ Hstep H).
Qed.

Lemma trailing_loop_quiet E (newhashfile : bool) (at_ereg : bool) fuel :
  forall st drange rv st',
    trailing_loop fuel E newhashfile at_ereg st drange = Ret (rv, st') ->
    quiet st st'.
Proof.
  induction fuel as [|fuel IH]; intros st drange rv st' H;
    destruct drange as [d|]; simpl in H;
    try (inversion H; subst; apply quiet_refl); try discriminate.
  apply bind_Ret in H as [[] [_ H]].
  apply bind_Ret in H as [[rv1 st1] [Hadd H]].
  apply add_new_quiet in Hadd.
  destruct (negb (rv1 =? 0)); [by inversion H; subst|].
  apply bind_Ret in H as [drange1 [_ H]].
  apply bind_Ret in H as [[] [_ H]].
  apply IH in H. exact (quiet_trans _ _ _ Hadd H).
Qed.

(** What the code after the label [error] adds to the trace. *)
Lemma delta_error_events E (newhashfile : bool) st st' :
  delta_error E newhashfile st = Ret st' ->
  hinfo_buf st' = hinfo_buf st
  /\ trace st'
     = trace st
       ++ (if newhashfile then [EvRestorefixups 0] else [])
       ++ (if nh_freed (nhinfo st') then [EvFreeNhinfo] else [])
       ++ [EvFreeranges (rg_next (dummy_head st))].
Proof.
  unfold delta_error. intros H.
  destruct newhashfile; simpl in H;
    destruct (nhinfo st) eqn:Hn; simpl in H; inversion H; subst; simpl;
    rewrite ?Hn, <- ?app_assoc; by split.
Qed.

(** The block of the original signature holds what [delta_hinfo] hands
    back. *)
Lemma delta_hinfo_buf E st hfile rv st' hinfo :
  delta_hinfo E st hfile = Ret (rv, st', Some hinfo) ->
  hinfo_buf st' = Some hinfo.
Proof.
  unfold delta_hinfo. intros H. destruct hfile as [src|].
  - apply bind_Ret in H as [[[rv1 st1] hi1] [Hread H]].
    destruct (rv1 <? 0); [discriminate|]. inversion H; subst. clear H.
    unfold readhashinfo in Hread.
    apply bind_Ret in Hread as [[] [_ H]].
    destruct src as [|magic_ok hi regions_ok]; [discriminate|].
    destruct (_ || _); [discriminate|].
    destruct (_ || _); unfold alloc in H; simpl in H.
    + destruct (e_alloc E (nalloc st)); simpl in H; [|discriminate].
      destruct (e_alloc E (S (nalloc st))); simpl in H; [|discriminate].
      destruct regions_ok; simpl in H; [|discriminate].
      apply bind_Ret in H as [regs1 [_ H]].
      destruct (e_alloc E _); simpl in H; [|discriminate].
      by inversion H; subst.
    + destruct (e_alloc E (nalloc st)); simpl in H; [|discriminate].
      destruct regions_ok; simpl in H; [|discriminate].
      apply bind_Ret in H as [regs1 [_ H]].
      destruct (e_alloc E _); simpl in H; [|discriminate].
      by inversion H; subst.
  - unfold alloc in H. simpl in H.
    destruct (e_alloc E (nalloc st)); simpl in H; [|discriminate].
    destruct (e_alloc E (S (nalloc st))); simpl in H; [|discriminate].
    by inversion H; subst.
Qed.

Lemma finish_quiet E (newhashfile : bool) hinfo st4 st5 :
  (if newhashfile then finish_nhinfo E hinfo st4 else Ret st4) = Ret st5 ->
  hinfo_buf st5 = hinfo_buf st4.
Proof.
  intros Hfin. destruct newhashfile; [|by inversion Hfin].
  unfold finish_nhinfo in Hfin.
  apply bind_Ret in Hfin as [[cur st6] [Hcur Hfin]]. inversion Hfin; subst.
  simpl. destruct (nhinfo st4); simpl in Hcur; try discriminate.
  - unfold alloc in Hcur. simpl in Hcur.
    apply bind_Ret in Hcur as [[] [_ Hcur]]. by inversion Hcur.
  - by inversion Hcur.
Qed.

Lemma walk_start_events E st f len (newhashfile : bool) :
  hinfo_buf (walk_start E st f len newhashfile) = hinfo_buf st
  /\ trace (walk_start E st f len newhashfile)
     = trace st ++ (if newhashfile then [EvSavefixups] else []).
Proof.
  unfold walk_start. destruct newhashfile; simpl; [by split|].
  by rewrite app_nil_r.
Qed.

(** The trace of a walk that fails in the state [st3], which it reached
    from the state [st1] in which the signature had been read. *)
Lemma failure_trace E st1 f len (newhashfile : bool) st3 st' :
  quiet (walk_start E st1 f len newhashfile) st3 ->
  delta_error E newhashfile st3 = Ret st' ->
  hinfo_buf st' = hinfo_buf st1
  /\ exists msgs out,
       trace st'
       = trace st1
         ++ failure_events newhashfile msgs (nh_freed (nhinfo st')) out.
Proof.
  intros [Hb [msgs Ht]] Herr.
  destruct (walk_start_events E st1 f len newhashfile) as [Hb0 Ht0].
  apply delta_error_events in Herr as [Hb1 Ht1].
  split; [congruence|].
  exists msgs, (rg_next (dummy_head st3)).
  rewrite Ht1, Ht, Ht0. unfold failure_events.
  by rewrite <- !app_assoc.
Qed.

(** C4, as amended: [hashmap_compute_delta] returns 0 or -1 and never
    changes a node of the caller's range list; once the signature was
    read, the block [hinfo] points to holds the same signature, regions
    included, when the call returns, whether it fails or succeeds.  When
    the call returns -1 nothing is assigned to [*nranges] and the heap is
    the caller's again (the partial output list is freed).  When the failure
    comes after the signature was read, that is, in the walk, [nhinfo] is
    [NULL] or freed, and all that was done since, besides messages to
    [stderr], is: [savefixups] at the start if a new signature was
    requested, and at the end [restorefixups(0)] if a new signature was
    requested and not otherwise, [free(nhinfo)] exactly when [nhinfo] was
    not [NULL], and [freeranges] of the output list. *)
Theorem hashmap_compute_delta_failure fuel E st curranges hfile infd ssect
    (newhashfile : bool) rv st' nr :
  hashmap_compute_delta fuel E st curranges hfile infd ssect newhashfile
  = Ret (rv, st', nr) ->
  (forall l nd, heap st !! l = Some nd -> heap st' !! l = Some nd)
  /\ (rv = 0 \/ rv = -1)
  /\ (forall rv1 st1 hinfo,
        delta_hinfo E (set_imagefd_poffset infd (u64 ssect) st) hfile
        = Ret (rv1, st1, Some hinfo) ->
        hinfo_buf st' = Some hinfo)
  /\ (rv = -1 ->
      nr = None /\ heap st' = heap st
      /\ forall rv1 st1 hinfo,
           delta_hinfo E (set_imagefd_poffset infd (u64 ssect) st) hfile
           = Ret (rv1, st1, Some hinfo) ->
           (nhinfo st' = NhNull \/ nhinfo st' = NhFreed)
           /\ exists msgs out,
                trace st'
                = trace st1
                  ++ failure_events newhashfile msgs (nh_freed (nhinfo st'))
                       out).
Proof.
  intros H.
  destruct curranges as [c|].
  2:{ unfold hashmap_compute_delta in H. simpl in H. discriminate. }
  destruct (delta_hinfo E (set_imagefd_poffset infd (u64 ssect) st) hfile)
    as [[[rv1 st1] [hinfo|]]| | |] eqn:Hh.
  2:{ unfold hashmap_compute_delta in H. simpl in H. rewrite Hh in H.
      simpl in H. inversion H; subst. apply delta_hinfo_heap in Hh.
      simpl in Hh. rewrite Hh. split; [auto|]. split; [by right|].
      split; [intros; discriminate|].
      intros _. split; [reflexivity|]. split; [reflexivity|].
      intros; discriminate. }
  2-4: unfold hashmap_compute_delta in H; simpl in H; rewrite Hh in H;
       discriminate.
  assert (Hc : Some c <> None) by discriminate.
  rewrite (compute_delta_unfold fuel E st (Some c) hfile infd ssect
             newhashfile rv1 st1 hinfo Hc Hh) in H.
  pose proof (delta_hinfo_heap _ _ _ _ _ _ Hh) as Hheap1. simpl in Hheap1.
  pose proof (delta_hinfo_buf _ _ _ _ _ _ Hh) as Hbuf1.
  destruct (walk_start_inv E st1 (select_hash (hi_hashtype hinfo)).2
              (select_hash (hi_hashtype hinfo)).1 newhashfile)
    as (Hinv & _ & _ & _ & _).
  destruct (walk_start_events E st1 (select_hash (hi_hashtype hinfo)).2
              (select_hash (hi_hashtype hinfo)).1 newhashfile) as [Hbuf2 _].
  rewrite Hheap1 in Hinv.
  set (st2 := walk_start E st1 _ _ newhashfile) in *. simpl in H.
  apply bind_Ret in H as [drange [_ H]].
  apply bind_Ret in H as [[[[rv2 at_ereg] st3] drange3] [Hloop H]].
  pose proof (hreg_loop_quiet _ _ _ _ _ _ _ _ _ _ _ Hloop) as Hq3.
  apply (hreg_loop_spec _ _ _ (fun _ => True) _ _ _ _ _ _ _ _ _ _ Hinv)
    in Hloop as (_ & _ & O3 & Hinv3 & _).
  destruct (negb (rv2 =? 0)).
  { apply bind_Ret in H as [st4 [Herr H]]. inversion H; subst.
    destruct (delta_error_spec _ _ _ _ _ _ Hinv3 Herr) as (Hhp & _ & Hnh & _).
    destruct (failure_trace _ _ _ _ _ _ _ Hq3 Herr) as [Hb Htr].
    split; [by rewrite Hhp|]. split; [by right|].
    split; [intros ? ? ? [= _ <- <-]; congruence|]. intros _.
    split; [reflexivity|]. split; [exact Hhp|].
    intros ? ? ? [= _ <- <-]. split; [exact Hnh|exact Htr]. }
  apply bind_Ret in H as [[] [_ H]].
  apply bind_Ret in H as [[rv4 st4] [Htrail H]].
  pose proof (quiet_trans _ _ _ Hq3 (trailing_loop_quiet _ _ _ _ _ _ _ _ Htrail))
    as Hq4.
  apply (trailing_loop_spec _ _ _ _ (fun _ => True) _ _ _ _ _ _ Hinv3)
    in Htrail as (_ & _ & O4 & Hinv4 & _).
  destruct (negb (rv4 =? 0)).
  { apply bind_Ret in H as [st5 [Herr H]]. inversion H; subst.
    destruct (delta_error_spec _ _ _ _ _ _ Hinv4 Herr) as (Hhp & _ & Hnh & _).
    destruct (failure_trace _ _ _ _ _ _ _ Hq4 Herr) as [Hb Htr].
    split; [by rewrite Hhp|]. split; [by right|].
    split; [intros ? ? ? [= _ <- <-]; congruence|]. intros _.
    split; [reflexivity|]. split; [exact Hhp|].
    intros ? ? ? [= _ <- <-]. split; [exact Hnh|exact Htr]. }
  apply bind_Ret in H as [st5 [Hfin H]]. inversion H; subst; clear H.
  pose proof (finish_quiet _ _ _ _ _ Hfin) as Hb5.
  assert (Hh5 : heap st5 = heap st4).
  { destruct newhashfile; [|by inversion Hfin].
    unfold finish_nhinfo in Hfin.
    apply bind_Ret in Hfin as [[cur st6] [Hcur Hfin]]. inversion Hfin; subst.
    simpl. destruct (nhinfo st4); simpl in Hcur; try discriminate.
    - unfold alloc in Hcur. simpl in Hcur.
      apply bind_Ret in Hcur as [[] [_ Hcur]]. by inversion Hcur.
    - by inversion Hcur. }
  split; [|split; [by left|split; [|discriminate]]].
  - intros l nd Hl. destruct Hinv4 as (_ & _ & _ & _ & Hsub & _).
    destruct newhashfile; simpl; rewrite Hh5; by apply Hsub.
  - intros ? ? ? [= _ <- <-]. destruct Hq4 as [Hb4 _].
    destruct newhashfile; simpl; congruence.
Qed.

Lemma finish_heap E (newhashfile : bool) hinfo st4 st5 :
  (if newhashfile then finish_nhinfo E hinfo st4 else Ret st4) = Ret st5 ->
  heap st5 = heap st4.
Proof.
  intros Hfin. destruct newhashfile; [|by inversion Hfin].
  unfold finish_nhinfo in Hfin.
  apply bind_Ret in Hfin as [[cur st6] [Hcur Hfin]]. inversion Hfin; subst.
  simpl. destruct (nhinfo st4); simpl in Hcur; try discriminate.
  - unfold alloc in Hcur. simpl in Hcur.
    apply bind_Ret in Hcur as [[] [_ Hcur]]. by inversion Hcur.
  - by inversion Hcur.
Qed.

Lemma compute_delta_coverage fuel E st curranges L hfile infd ssect
    (newhashfile : bool) rv1 st1 hinfo st' nranges :
  rlist (heap st) curranges L ->
  wf32 (vals L) ->
  delta_hinfo E (set_imagefd_poffset infd (u64 ssect) st) hfile
  = Ret (rv1, st1, Some hinfo) ->
  Forall hreg_ok (hi_regions hinfo) ->
  hashmap_compute_delta fuel E st curranges hfile infd ssect newhashfile
  = Ret (0, st', Some nranges) ->
  exists N,
    rlist (heap st') nranges N
    /\ (forall x, cov (vals L) x ->
                  cov (vals N) x \/ matched_sector E hinfo x)
    /\ (forall x, cov (vals N) x -> cov (vals L) x).
Proof.
  intros HL HwfL Hh Hregs H.
  assert (Hc : curranges <> None).
  { intros ->. unfold hashmap_compute_delta in H. simpl in H. discriminate. }
  rewrite (compute_delta_unfold fuel E st curranges hfile infd ssect
             newhashfile rv1 st1 hinfo Hc Hh) in H.
  pose proof (delta_hinfo_heap _ _ _ _ _ _ Hh) as Hheap1. simpl in Hheap1.
  destruct (walk_start_inv E st1 (select_hash (hi_hashtype hinfo)).2
              (select_hash (hi_hashtype hinfo)).1 newhashfile)
    as (Hinv & Hd & Hf & Hlen & _).
  rewrite Hheap1 in Hinv.
  set (st2 := walk_start E st1 _ _ newhashfile) in *. simpl in H.
  destruct (COPYRANGE_spec _ _ _ _ _ Hinv HL) as (dr & Hcopy & Hcur).
  rewrite Hcopy in H. simpl in H.
  apply bind_Ret in H as [[[[rv2 at_ereg] st3] drange3] [Hloop H]].
  apply (hreg_loop_spec _ _ _ (matched_sector E hinfo) _ _ _ _ _ _ _ _ _ _ Hinv)
    in Hloop as (_ & _ & O3 & Hinv3 & _ & Hadv3).
  destruct (Z.eqb_spec rv2 0) as [->|Hne]; simpl in H.
  2:{ apply bind_Ret in H as [st4 [_ H]]. inversion H. }
  destruct (Hadv3 (vals L)) as (R3 & Hok3 & Ha3); [| exact Hregs | | reflexivity |].
  { unfold walk_ok. split; [exact Hd|]. split; [constructor|]. by split. }
  { apply Forall_forall. intros hreg Hin f Hfn Hm x Hx.
    exists hreg. split; [exact Hin|]. split; [|exact Hx].
    rewrite Hf in Hfn. inversion Hfn; subst. by rewrite <- Hlen. }
  apply bind_Ret in H as [[] [_ H]].
  apply bind_Ret in H as [[rv4 st4] [Htrail H]].
  apply (trailing_loop_spec _ _ _ _ (matched_sector E hinfo) _ _ _ _ _ _ Hinv3)
    in Htrail as (_ & _ & O4 & Hinv4 & Hadv4).
  destruct (Z.eqb_spec rv4 0) as [->|Hne]; simpl in H.
  2:{ apply bind_Ret in H as [st5 [_ H]]. inversion H. }
  destruct (Hadv4 R3 Hok3 eq_refl) as (_ & _ & Ha4).
  apply bind_Ret in H as [st5 [Hfin H]]. inversion H; subst; clear H.
  apply finish_heap in Hfin.
  pose proof (adv_trans _ _ _ _ _ _ _ Ha3 Ha4) as (_ & Hfw & Hbw & _).
  exists O4. split.
  { destruct Hinv4 as (Hl4 & _).
    destruct newhashfile; simpl; rewrite Hfin; exact Hl4. }
  split.
  - intros x Hx. destruct (Hfw x Hx) as [?|[?|Hn]]; [by left|by right|].
    by apply cov_nil in Hn.
  - intros x Hx. destruct (Hbw x Hx) as [Hn|?]; [|done].
    by apply cov_nil in Hn.
Qed.

Lemma delta_error_NoFuel E (newhashfile : bool) st :
  delta_error E newhashfile st <> NoFuel.
Proof.
  unfold delta_error.
  destruct newhashfile; simpl; destruct (nhinfo st); discriminate.
Qed.

Lemma finish_NoFuel E (newhashfile : bool) hinfo st :
  (if newhashfile then finish_nhinfo E hinfo st else Ret st) <> NoFuel.
Proof.
  destruct newhashfile; [|discriminate]. unfold finish_nhinfo, alloc.
  destruct (nhinfo st); simpl; try discriminate.
  destruct (e_alloc E (nalloc st)); discriminate.
Qed.

(** A turn for every range of [curranges] is enough for each loop of the
    walk. *)
Lemma compute_delta_fuel fuel E st curranges L hfile infd ssect
    (newhashfile : bool) rv1 st1 hinfo :
  rlist (heap st) curranges L ->
  wf32 (vals L) ->
  delta_hinfo E (set_imagefd_poffset infd (u64 ssect) st) hfile
  = Ret (rv1, st1, Some hinfo) ->
  Forall hreg_ok (hi_regions hinfo) ->
  blk_ok st1 ->
  (length L <= fuel)%nat ->
  hashmap_compute_delta fuel E st curranges hfile infd ssect newhashfile
  <> NoFuel.
Proof.
  intros HL HwfL Hh Hregs Hb Hlen H.
  assert (Hc : curranges <> None).
  { intros ->. unfold hashmap_compute_delta in H. simpl in H. discriminate. }
  rewrite (compute_delta_unfold fuel E st curranges hfile infd ssect
             newhashfile rv1 st1 hinfo Hc Hh) in H.
  pose proof (delta_hinfo_heap _ _ _ _ _ _ Hh) as Hheap1. simpl in Hheap1.
  destruct (walk_start_inv E st1 (select_hash (hi_hashtype hinfo)).2
              (select_hash (hi_hashtype hinfo)).1 newhashfile)
    as (Hinv & Hd & _).
  rewrite Hheap1 in Hinv.
  assert (Hb2 : blk_ok (walk_start E st1 (select_hash (hi_hashtype hinfo)).2
                          (select_hash (hi_hashtype hinfo)).1 newhashfile)).
  { unfold blk_ok, walk_start. destruct newhashfile; exact Hb. }
  set (st2 := walk_start E st1 _ _ newhashfile) in *. simpl in H.
  destruct (COPYRANGE_spec _ _ _ _ _ Hinv HL) as (dr & Hcopy & Hcur).
  rewrite Hcopy in H. simpl in H.
  assert (Hok : walk_ok (heap st) st2 [] dr (vals L)).
  { unfold walk_ok. split; [exact Hd|]. split; [constructor|]. by split. }
  assert (HlenL : (length (vals L) <= fuel)%nat).
  { unfold vals. by rewrite length_fmap. }
  apply bind_NoFuel in H as [H|[[[[rv2 at_ereg] st3] drange3] [Hloop H]]].
  { exact (hreg_loop_fuel _ _ _ _ _ _ _ _ _ _ Hinv Hok Hb2 Hregs HlenL H). }
  apply (hreg_loop_spec _ _ _ (fun _ => True) _ _ _ _ _ _ _ _ _ _ Hinv)
    in Hloop as (Hc3 & _ & O3 & Hinv3 & _ & Hadv3).
  destruct (Z.eqb_spec rv2 0) as [->|Hne]; simpl in H.
  2:{ apply bind_NoFuel in H as [H|[st4 [_ H]]]; [|discriminate].
      exact (delta_error_NoFuel _ _ _ H). }
  destruct (Hadv3 (vals L) Hok Hregs)
    as (R3 & (_ & _ & _ & Hcur3) & (_ & _ & _ & _ & Hlen3));
    [|reflexivity|].
  { apply Forall_forall. by intros ? ? ? ? ? ? ?. }
  skip_asserts H.
  apply bind_NoFuel in H as [H|[[rv4 st4] [_ H]]].
  { revert H. apply (trailing_loop_fuel (heap st) _ _ _ _ _ _ O3 R3); try assumption.
    - exact (blk_ok_cfg _ _ Hc3 Hb2).
    - lia. }
  destruct (negb (rv4 =? 0)).
  { apply bind_NoFuel in H as [H|[st5 [_ H]]]; [|discriminate].
    exact (delta_error_NoFuel _ _ _ H). }
  apply bind_NoFuel in H as [H|[st5 [_ H]]]; [|discriminate].
  exact (finish_NoFuel _ _ _ _ H).
Qed.

(** C1, as amended: on the range list [curranges] with the signature
    [hinfo] (its regions ending below 2^32, the ranges not empty and ending
    below 2^32), with a turn of each loop for every range,
    [hashmap_compute_delta] does not run out of turns, and when it succeeds
    every sector of
    [curranges] is in the returned list [nranges] or in a hash region whose
    recomputed hash equals the stored one, and every sector of [nranges] is
    a sector of [curranges]. *)
Theorem hashmap_compute_delta_coverage fuel E st curranges L hfile infd ssect
    (newhashfile : bool) rv1 st1 hinfo :
  rlist (heap st) curranges L ->
  wf32 (vals L) ->
  delta_hinfo E (set_imagefd_poffset infd (u64 ssect) st) hfile
  = Ret (rv1, st1, Some hinfo) ->
  Forall hreg_ok (hi_regions hinfo) ->
  blk_ok st1 ->
  (length L <= fuel)%nat ->
  hashmap_compute_delta fuel E st curranges hfile infd ssect newhashfile
  <> NoFuel
  /\ forall st' nranges,
       hashmap_compute_delta fuel E st curranges hfile infd ssect newhashfile
       = Ret (0, st', Some nranges) ->
       exists N,
         rlist (heap st') nranges N
         /\ (forall x, cov (vals L) x ->
                       cov (vals N) x \/ matched_sector E hinfo x)
         /\ (forall x, cov (vals N) x -> cov (vals L) x).
Proof.
  intros HL HwfL Hh Hregs Hb Hlen. split.
  - exact (compute_delta_fuel _ _ _ _ _ _ _ _ _ _ _ _
             HL HwfL Hh Hregs Hb Hlen).
  - intros st' nranges H.
    exact (compute_delta_coverage _ _ _ _ _ _ _ _ _ _ _ _ _ _
             HL HwfL Hh Hregs H).
Qed.

End DeltaFacts.

(** ** Concrete inputs for [hashmap_compute_delta] *)

Lemma ranges_0_3_6_4_rlist :
  rlist (heap (initial_state heap_0_3_6_4)) (Some 1%positive) ranges_0_3_6_4.
Proof.
  split; [reflexivity|]. exists (Some 2%positive). split; [reflexivity|].
  split; [reflexivity|]. exists None. split; reflexivity.
Qed.

Lemma ranges_0_3_6_4_wf32 : wf32 (vals ranges_0_3_6_4).
Proof. repeat constructor; simpl; lia. Qed.

Lemma one_region_matches (start size : Z) :
  0 <= size ->
  hash_matches (sample_env 100) SHA256 32
    (sample_region start size (replicate 32 (size * 512 mod 251))).
Proof.
  intros Hs. exists (replicate (Z.to_nat (size * 512)) 1), [].
  split; [reflexivity|].
  assert (Hsum : forall n, foldr Z.add 0 (replicate n 1) = Z.of_nat n).
  { induction n as [|n IH]; simpl; [reflexivity|]. rewrite IH. lia. }
  assert (Hd : e_digest (sample_env 100) SHA256
                 (replicate (Z.to_nat (size * 512)) 1)
               = replicate 32 (size * 512 mod 251)).
  { unfold sample_env, sample_digest. simpl e_digest.
    rewrite Hsum, Z2Nat.id by lia. reflexivity. }
  rewrite Hd. unfold memcmp_ne.
  apply negb_false_iff, bool_decide_eq_true. reflexivity.
Qed.

(** The ranges [0,3) and [6,10) against a signature whose region [0,10)
    still has its hash: nothing is returned, and sector 4, which the region
    covers, is not a sector of [curranges]. *)
Lemma hashmap_compute_delta_union_counterexample :
  ~ delta_union_as_specified (K := sample_imagehash) 10 (sample_env 100)
      (initial_state heap_0_3_6_4) (Some 1%positive) ranges_0_3_6_4
      (Some (SigContents true (one_region 0 10) true)) 3 0 true.
Proof.
  intros H.
  assert (Hh : exists st1,
             delta_hinfo (K := sample_imagehash) (sample_env 100)
               (set_imagefd_poffset 3 (u64 0) (initial_state heap_0_3_6_4))
               (Some (SigContents true (one_region 0 10) true))
             = Ret (0, st1, Some (one_region 0 10))).
  { eexists. vm_compute. reflexivity. }
  assert (Hcall : exists st',
             hashmap_compute_delta (K := sample_imagehash) 10 (sample_env 100)
               (initial_state heap_0_3_6_4) (Some 1%positive)
               (Some (SigContents true (one_region 0 10) true)) 3 0 true
             = Ret (0, st', Some None)).
  { eexists. vm_compute. reflexivity. }
  destruct Hh as [st1 Hh]. destruct Hcall as [st' Hcall].
  specialize (H 0 st1 (one_region 0 10) st' None [] Hh Hcall eq_refl 4).
  destruct (proj2 H) as (p & Hin & Hx).
  { right. eexists. split; [by apply list_elem_of_here|].
    split; [apply (one_region_matches 0 10); lia|]. simpl. lia. }
  unfold ranges_0_3_6_4, vals in Hin. simpl in Hin.
  apply elem_of_cons in Hin as [->|Hin]; [simpl in Hx; lia|].
  apply elem_of_cons in Hin as [->|Hin]; [simpl in Hx; lia|].
  by apply elem_of_nil in Hin.
Qed.

(** The ranges [0,3) and [6,10) against [two_regions]: the first range is
    in a region that still has its hash, the second is returned. *)
Lemma hashmap_compute_delta_coverage_witness :
  exists st' nranges,
    hashmap_compute_delta (K := sample_imagehash) 10 (sample_env 100)
      (initial_state heap_0_3_6_4) (Some 1%positive)
      (Some (SigContents true two_regions true)) 3 0 true
    = Ret (0, st', Some nranges)
    /\ exists N,
         rlist (heap st') nranges N
         /\ (forall x, cov (vals ranges_0_3_6_4) x ->
               cov (vals N) x
               \/ matched_sector (K := sample_imagehash) (sample_env 100)
                    two_regions x)
         /\ (forall x, cov (vals N) x -> cov (vals ranges_0_3_6_4) x).
Proof.
  assert (Hcall : exists st' nranges,
             hashmap_compute_delta (K := sample_imagehash) 10 (sample_env 100)
               (initial_state heap_0_3_6_4) (Some 1%positive)
               (Some (SigContents true two_regions true)) 3 0 true
             = Ret (0, st', Some nranges)).
  { eexists. eexists. vm_compute. reflexivity. }
  assert (Hh : exists st1,
             delta_hinfo (K := sample_imagehash) (sample_env 100)
               (set_imagefd_poffset 3 (u64 0) (initial_state heap_0_3_6_4))
               (Some (SigContents true two_regions true))
             = Ret (0, st1, Some two_regions)
             /\ blk_ok st1).
  { eexists. split; [vm_compute; reflexivity|]. unfold blk_ok. simpl. lia. }
  destruct Hcall as (st' & nranges & Hcall). destruct Hh as (st1 & Hh & Hb).
  exists st', nranges. split; [exact Hcall|].
  destruct (hashmap_compute_delta_coverage (K := sample_imagehash) 10
              (sample_env 100) (initial_state heap_0_3_6_4) (Some 1%positive)
              ranges_0_3_6_4 (Some (SigContents true two_regions true)) 3 0
              true 0 st1 two_regions
              ranges_0_3_6_4_rlist ranges_0_3_6_4_wf32 Hh) as [_ H].
  - repeat constructor; simpl; lia.
  - exact Hb.
  - simpl. lia.
  - exact (H st' nranges Hcall).
Defined.

(** The range [100,400) with the partition at sector 10 and hash blocks of
    128 sectors: the first multiple of 128 past the offset 90 is 38
    sectors away. *)
Lemma add_to_hashmap_pieces_witness :
  exists st',
    add_to_hashmap (K := sample_imagehash) (sample_env 100)
      (sample_state 10 128 NhNull ∅) 100 300 None = Ret (0, st')
    /\ piece_of <$> regions_of (nhinfo st')
       = [(100, 38); (138, 128); (266, 128); (394, 6)].
Proof.
  assert (Hcall : exists st',
             add_to_hashmap (K := sample_imagehash) (sample_env 100)
               (sample_state 10 128 NhNull ∅) 100 300 None = Ret (0, st')).
  { eexists. vm_compute. reflexivity. }
  destruct Hcall as [st' Hcall]. exists st'. split; [exact Hcall|].
  destruct (add_to_hashmap_pieces (K := sample_imagehash) (sample_env 100)
              (sample_state 10 128 NhNull ∅) 100 300) as [_ H];
    [simpl; lia ..|].
  destruct (H st' Hcall) as (new & Hnew & Hp & _).
  simpl in Hnew. rewrite Hnew, Hp. reflexivity.
Defined.

(** Without a signature and without a new one to write, the third
    allocation, that of the first output node, fails: the call returns -1
    and [restorefixups] has not run. *)
Lemma hashmap_compute_delta_restore_counterexample :
  ~ error_restores_fixups (K := sample_imagehash) 10 (sample_env 2)
      (initial_state heap_100_100) (Some 1%positive) None 3 0 false.
Proof.
  intros H.
  assert (Hh : exists st1 hinfo,
             delta_hinfo (K := sample_imagehash) (sample_env 2)
               (set_imagefd_poffset 3 (u64 0) (initial_state heap_100_100))
               None
             = Ret (0, st1, Some hinfo)).
  { eexists. eexists. vm_compute. reflexivity. }
  assert (Hcall : exists st',
             hashmap_compute_delta (K := sample_imagehash) 10 (sample_env 2)
               (initial_state heap_100_100) (Some 1%positive) None 3 0 false
             = Ret (-1, st', None)
             /\ trace st' = [EvStderr MsgAddToRangeMalloc; EvFreeranges None]).
  { eexists. split; vm_compute; reflexivity. }
  destruct Hh as (st1 & hinfo & Hh). destruct Hcall as (st' & Hcall & Htr).
  specialize (H 0 st1 hinfo st' None Hh Hcall). rewrite Htr in H.
  apply elem_of_cons in H as [H|H]; [discriminate|].
  apply elem_of_cons in H as [H|H]; [discriminate|].
  by apply elem_of_nil in H.
Qed.

(** With a new signature to write, the third allocation succeeds and the
    fourth, that of the new signature, fails: the node just added is
    freed, [restorefixups(0)] has run, and the signature made up for the
    walk is as it was. *)
Lemma hashmap_compute_delta_failure_witness :
  exists (st' st1 : hm_state unit) hinfo,
    hashmap_compute_delta (K := sample_imagehash) 10 (sample_env 3)
      (initial_state heap_100_100) (Some 1%positive) None 3 0 true
    = Ret (-1, st', None)
    /\ heap st' = heap_100_100
    /\ hinfo_buf st' = Some hinfo
    /\ (nhinfo st' = NhNull \/ nhinfo st' = NhFreed)
    /\ exists msgs out,
         trace st'
         = trace st1 ++ failure_events true msgs (nh_freed (nhinfo st')) out.
Proof.
  assert (Hh : exists st1 hinfo,
             delta_hinfo (K := sample_imagehash) (sample_env 3)
               (set_imagefd_poffset 3 (u64 0) (initial_state heap_100_100))
               None
             = Ret (0, st1, Some hinfo)).
  { eexists. eexists. vm_compute. reflexivity. }
  assert (Hcall : exists st',
             hashmap_compute_delta (K := sample_imagehash) 10 (sample_env 3)
               (initial_state heap_100_100) (Some 1%positive) None 3 0 true
             = Ret (-1, st', None)).
  { eexists. vm_compute. reflexivity. }
  destruct Hh as (st1 & hinfo & Hh). destruct Hcall as (st' & Hcall).
  exists st', st1, hinfo. split; [exact Hcall|].
  destruct (hashmap_compute_delta_failure (K := sample_imagehash) 10
              (sample_env 3) (initial_state heap_100_100) (Some 1%positive)
              None 3 0 true (-1) st' None Hcall) as (_ & _ & Hbuf & Herr).
  destruct (Herr eq_refl) as (_ & Hheap & Hclean).
  split; [exact Hheap|]. split; [exact (Hbuf 0 st1 hinfo Hh)|].
  exact (Hclean 0 st1 hinfo Hh).
Defined.

(** The traces of the two calls: without a new signature to write the
    failed allocation is reported and the output list is freed; with one,
    [savefixups] comes first and [restorefixups(0)] after the message. *)
Example hashmap_compute_delta_failure_traces :
  (exists st',
     hashmap_compute_delta (K := sample_imagehash) 10 (sample_env 2)
       (initial_state heap_100_100) (Some 1%positive) None 3 0 false
     = Ret (-1, st', None)
     /\ trace st'
        = failure_events false [MsgAddToRangeMalloc] false None)
  /\ (exists st' out,
        hashmap_compute_delta (K := sample_imagehash) 10 (sample_env 3)
          (initial_state heap_100_100) (Some 1%positive) None 3 0 true
        = Ret (-1, st', None)
        /\ trace st'
           = failure_events true [MsgOutOfMemoryHashMap] false out).
Proof.
  split.
  - eexists. split; vm_compute; reflexivity.
  - eexists. eexists. split; vm_compute; reflexivity.
Qed.

(** C2 at a region that is not cut at the hash blocks: the region
    [100,200) of the signature still has its hash, hash blocks are 128
    sectors long, and a new signature is asked for.  The range is not
    returned, but the new signature gets two entries, [100,128) and
    [128,200), each with the hash of the whole region. *)
Example hashmap_compute_delta_unchanged_split :
  exists st',
    hashmap_compute_delta (K := sample_imagehash) 10 (sample_env 100)
      (initial_state heap_100_100) (Some 1%positive)
      (Some (SigContents true (one_region 100 100) true)) 3 0 true
    = Ret (0, st', Some None)
    /\ regions_of (nhinfo st')
       = [sample_region 100 28 (replicate 32 (100 * 512 mod 251));
          sample_region 128 72 (replicate 32 (100 * 512 mod 251))].
Proof. eexists. split; vm_compute; reflexivity. Qed.

(* ===================================================================== *)
(** * Part III.  More of the code                                         *)
(* ===================================================================== *)

(** ** Counting and copying relocations *)

Lemma stored_table_ok ndz d :
  table_ok ndz -> relocdata ndz = Some d ->
  stored ndz = d /\ Z.to_nat (relocentries ndz) = length d.
Proof.
  unfold table_ok, stored. intros Hok Hd. rewrite Hd in *.
  rewrite Hok, Nat2Z.id. split; [apply firstn_all|reflexivity].
Qed.

Lemma stored_nil ndz : table_ok ndz -> relocentries ndz = 0 -> stored ndz = [].
Proof.
  unfold table_ok, stored. intros Hok Hz.
  destruct (relocdata ndz); [|reflexivity]. by rewrite Hz.
Qed.

Lemma filter_cons_bool {A} (f : A -> bool) (x : A) (l : list A) :
  filter (fun r => f r = true) (x :: l)
  = if f x then x :: filter (fun r => f r = true) l
    else filter (fun r => f r = true) l.
Proof.
  rewrite filter_cons. destruct (f x); case_decide; congruence.
Qed.

Lemma filter_ext_in {A} (P Q : A -> Prop) `{forall x, Decision (P x)}
    `{forall x, Decision (Q x)} (l : list A) :
  (forall x, x ∈ l -> P x <-> Q x) -> filter P l = filter Q l.
Proof.
  induction l as [|a l IH]; intros Hl; [reflexivity|].
  rewrite !filter_cons, IH by (intros; apply Hl; set_solver).
  assert (Ha : P a <-> Q a) by (apply Hl; set_solver).
  destruct (decide (P a)), (decide (Q a)); tauto.
Qed.

(** The scan when no record lies past [eaddr]: it visits them all. *)
Lemma reloc_inrange_loop_all l : forall sectsz addr eaddr c,
  (forall r, r ∈ l -> u64 (r_sectoff r + r_size r) <= sectsz) ->
  (forall r, r ∈ l -> r_sector r <= eaddr) ->
  reloc_inrange_loop (length l) l sectsz addr eaddr c
  = Ret (c + Z.of_nat (length (filter (fun r => in_range addr eaddr r = true) l))).
Proof.
  induction l as [|r l IH]; intros sectsz addr eaddr c Hsz Hle; simpl.
  - f_equal. lia.
  - assert (Hr : (u64 (r_sectoff r + r_size r) <=? sectsz) = true).
    { apply Z.leb_le, Hsz. set_solver. }
    rewrite Hr. simpl.
    assert (Hs : (eaddr <? r_sector r) = false).
    { apply Z.ltb_ge, Hle. set_solver. }
    rewrite Hs, IH by (intros; (apply Hsz || apply Hle); set_solver).
    rewrite filter_cons_bool.
    change (in_range addr eaddr r)
      with ((addr <=? r_sector r) && (r_sector r <=? eaddr)).
    destruct ((addr <=? r_sector r) && (r_sector r <=? eaddr)); simpl;
      f_equal; lia.
Qed.

(** The scan of records in ascending order: it stops at the first one past
    [eaddr], and no later one is in the range. *)
Lemma reloc_inrange_loop_sorted l : forall sectsz addr eaddr c,
  (forall r, r ∈ l -> u64 (r_sectoff r + r_size r) <= sectsz) ->
  StronglySorted Z.le (r_sector <$> l) ->
  reloc_inrange_loop (length l) l sectsz addr eaddr c
  = Ret (c + Z.of_nat (length (filter (fun r => in_range addr eaddr r = true) l))).
Proof.
  induction l as [|r l IH]; intros sectsz addr eaddr c Hsz Hsort; simpl.
  - f_equal. lia.
  - assert (Hr : (u64 (r_sectoff r + r_size r) <=? sectsz) = true).
    { apply Z.leb_le, Hsz. set_solver. }
    rewrite Hr. simpl. rewrite fmap_cons in Hsort.
    apply StronglySorted_inv in Hsort as [Hsort Hall].
    rewrite filter_cons_bool.
    change (in_range addr eaddr r)
      with ((addr <=? r_sector r) && (r_sector r <=? eaddr)).
    destruct (Z.ltb_spec eaddr (r_sector r)) as [Hpast|Hin].
    + assert (Hnone : filter (fun r0 => in_range addr eaddr r0 = true) l = []).
      { apply filter_none. intros x Hx Hin. unfold in_range in Hin.
        apply andb_true_iff in Hin as [_ Hin]. apply Z.leb_le in Hin.
        rewrite Forall_forall in Hall.
        assert (r_sector r <= r_sector x); [|lia].
        apply Hall. apply list_elem_of_fmap. eauto. }
      rewrite Hnone.
      destruct (addr <=? r_sector r); simpl;
        destruct (Z.leb_spec (r_sector r) eaddr); simpl; try lia;
        f_equal; lia.
    + rewrite IH by (try assumption; intros; apply Hsz; set_solver).
      destruct ((addr <=? r_sector r) && (r_sector r <=? eaddr)); simpl;
        f_equal; lia.
Qed.

Lemma ndz_reloc_inrange_counts_aux (ndz : ndz_file) (addr size : Z) :
  table_ok ndz ->
  (forall r, r ∈ stored ndz -> reloclo ndz <= r_sector r <= relochi ndz) ->
  (forall r, r ∈ stored ndz -> u64 (r_sectoff r + r_size r) <= sectsize ndz) ->
  StronglySorted Z.le (r_sector <$> stored ndz) ->
  0 <= addr -> 0 < size -> addr + size <= 2 ^ 64 ->
  ndz_reloc_inrange (Some ndz) addr size
  = Ret (Z.of_nat (length (filter (fun r => in_range addr (addr + size - 1) r
                                            = true) (stored ndz)))).
Proof.
  intros Hok Hbr Hsz Hsort Ha Hs Hsum. unfold ndz_reloc_inrange.
  destruct (Z.eqb_spec size 0) as [|_]; [lia|].
  unfold u64. rewrite Z.mod_small by lia.
  set (eaddr := addr + size - 1).
  destruct ((relocentries ndz =? 0) || (relochi ndz <? addr)
            || (eaddr <? reloclo ndz)) eqn:Hq.
  - rewrite filter_none; [reflexivity|].
    intros r Hr Hin. specialize (Hbr r Hr). unfold in_range in Hin.
    apply andb_true_iff in Hin as [H1 H2].
    apply Z.leb_le in H1. apply Z.leb_le in H2.
    apply orb_true_iff in Hq as [Hq|Hq];
      [apply orb_true_iff in Hq as [Hq|Hq]|].
    + apply Z.eqb_eq in Hq. rewrite (stored_nil _ Hok Hq) in Hr. set_solver.
    + apply Z.ltb_lt in Hq. lia.
    + apply Z.ltb_lt in Hq. lia.
  - destruct (relocdata ndz) as [d|] eqn:Hd.
    + destruct (stored_table_ok _ _ Hok Hd) as [Hst Hn].
      rewrite Hst in *. rewrite Hn.
      rewrite reloc_inrange_loop_sorted by assumption. reflexivity.
    + unfold table_ok in Hok. rewrite Hd in Hok. rewrite Hok in Hq.
      simpl in Hq. discriminate.
Qed.

(** On a well-formed table whose records are in ascending sector order and
    between its bounds, [ndz_reloc_inrange] with a size that is not 0
    returns the number of stored records whose sector is in
    [[addr, addr + size - 1]]. *)
Theorem ndz_reloc_inrange_counts (ndz : ndz_file) (addr size : Z) :
  table_ok ndz ->
  (forall r, r ∈ stored ndz -> reloclo ndz <= r_sector r <= relochi ndz) ->
  (forall r, r ∈ stored ndz -> u64 (r_sectoff r + r_size r) <= sectsize ndz) ->
  StronglySorted Z.le (r_sector <$> stored ndz) ->
  0 <= addr -> 0 < size -> addr + size <= 2 ^ 64 ->
  ndz_reloc_inrange (Some ndz) addr size
  = Ret (Z.of_nat (length (filter (fun r => in_range addr (addr + size - 1) r
                                            = true) (stored ndz)))).
Proof. apply ndz_reloc_inrange_counts_aux. Qed.

Lemma ndz_reloc_inrange_counts_witness :
  ndz_reloc_inrange (Some table_5_7_20) 6 10 = Ret 1.
Proof.
  apply (ndz_reloc_inrange_counts table_5_7_20 6 10).
  - reflexivity.
  - intros r Hr. vm_compute in Hr.
    repeat (apply elem_of_cons in Hr as [->|Hr]; [simpl; lia|]).
    by apply elem_of_nil in Hr.
  - intros r Hr. vm_compute in Hr.
    repeat (apply elem_of_cons in Hr as [->|Hr]; [vm_compute; discriminate|]).
    by apply elem_of_nil in Hr.
  - simpl. repeat constructor; simpl; lia.
  - lia.
  - lia.
  - lia.
Defined.

(** With size 0 [ndz_reloc_inrange] counts to the end: on a well-formed
    table whose records are between its bounds it returns the number of
    stored records whose sector is [addr] or more, in whatever order they
    are stored. *)
Theorem ndz_reloc_inrange_to_end (ndz : ndz_file) (addr : Z) :
  table_ok ndz ->
  (forall r, r ∈ stored ndz -> reloclo ndz <= r_sector r <= relochi ndz) ->
  (forall r, r ∈ stored ndz -> u64 (r_sectoff r + r_size r) <= sectsize ndz) ->
  ndz_reloc_inrange (Some ndz) addr 0
  = Ret (Z.of_nat (length (filter (fun r => addr <= r_sector r) (stored ndz)))).
Proof.
  intros Hok Hbr Hsz. unfold ndz_reloc_inrange. simpl.
  set (eaddr := if addr <? relochi ndz then relochi ndz else addr).
  assert (He : relochi ndz <= eaddr /\ addr <= eaddr).
  { unfold eaddr. destruct (Z.ltb_spec addr (relochi ndz)); lia. }
  assert (Hfil : filter (fun r => in_range addr eaddr r = true) (stored ndz)
                 = filter (fun r => addr <= r_sector r) (stored ndz)).
  { apply filter_ext_in. intros r Hr.
    specialize (Hbr r Hr). unfold in_range.
    rewrite andb_true_iff, !Z.leb_le. lia. }
  destruct ((relocentries ndz =? 0) || (relochi ndz <? addr)
            || (eaddr <? reloclo ndz)) eqn:Hq.
  - rewrite filter_none; [reflexivity|].
    intros r Hr Hin. specialize (Hbr r Hr).
    apply orb_true_iff in Hq as [Hq|Hq];
      [apply orb_true_iff in Hq as [Hq|Hq]|].
    + apply Z.eqb_eq in Hq. rewrite (stored_nil _ Hok Hq) in Hr. set_solver.
    + apply Z.ltb_lt in Hq. lia.
    + apply Z.ltb_lt in Hq. lia.
  - destruct (relocdata ndz) as [d|] eqn:Hd.
    + destruct (stored_table_ok _ _ Hok Hd) as [Hst Hn].
      rewrite Hst in *. rewrite Hn.
      rewrite reloc_inrange_loop_all.
      * rewrite Hfil. reflexivity.
      * exact Hsz.
      * intros r Hr. specialize (Hbr r Hr). lia.
    + unfold table_ok in Hok. rewrite Hd in Hok. rewrite Hok in Hq.
      simpl in Hq. discriminate.
Qed.

Lemma ndz_reloc_inrange_to_end_witness :
  ndz_reloc_inrange (Some table_5_7_20) 6 0 = Ret 2.
Proof.
  apply (ndz_reloc_inrange_to_end table_5_7_20 6).
  - reflexivity.
  - intros r Hr. vm_compute in Hr.
    repeat (apply elem_of_cons in Hr as [->|Hr]; [simpl; lia|]).
    by apply elem_of_nil in Hr.
  - intros r Hr. vm_compute in Hr.
    repeat (apply elem_of_cons in Hr as [->|Hr]; [vm_compute; discriminate|]).
    by apply elem_of_nil in Hr.
Defined.

(** What [ndz_reloc_put] writes, for the other proofs of this part. *)
Lemma ndz_reloc_put_filter (ndz : ndz_file) (hdr : blockhdr)
    (buf : list blockreloc) :
  table_ok ndz ->
  (forall r, r ∈ stored ndz -> reloclo ndz <= r_sector r <= relochi ndz) ->
  (forall r, r ∈ stored ndz -> u64 (r_sectoff r + r_size r) <= sectsize ndz) ->
  ndz_reloc_put (Some ndz) (Some hdr) (Some buf)
  = Ret (0, Some (store_relocs
                    (filter (fun r => in_chunk hdr r = true) (stored ndz)) buf)).
Proof.
  intros Hok Hbr Hsz. unfold ndz_reloc_put.
  destruct ((relocentries ndz =? 0) || (relochi ndz <? hdr_firstsect hdr)
            || (hdr_lastsect hdr <=? reloclo ndz)) eqn:Hq.
  - rewrite filter_none.
    { unfold store_relocs. simpl. by rewrite drop_0. }
    intros r Hr Hin. specialize (Hbr r Hr). unfold in_chunk in Hin.
    apply andb_true_iff in Hin as [H1 H2].
    apply Z.leb_le in H1. apply Z.ltb_lt in H2.
    apply orb_true_iff in Hq as [Hq|Hq];
      [apply orb_true_iff in Hq as [Hq|Hq]|].
    + apply Z.eqb_eq in Hq. rewrite (stored_nil _ Hok Hq) in Hr. set_solver.
    + apply Z.ltb_lt in Hq. lia.
    + apply Z.leb_le in Hq. lia.
  - destruct (relocdata ndz) as [d|] eqn:Hd.
    + destruct (stored_table_ok _ _ Hok Hd) as [Hst Hn].
      rewrite Hst in *. rewrite Hn, reloc_put_loop_Ret.
      * rewrite firstn_all. reflexivity.
      * lia.
      * rewrite firstn_all. exact Hsz.
    + unfold table_ok in Hok. rewrite Hd in Hok. rewrite Hok in Hq.
      simpl in Hq. discriminate.
Qed.

(** [ndz_reloc_inrange] tells beforehand how many records
    [ndz_reloc_put] writes: on a well-formed table in ascending sector
    order, for a chunk that is not empty, the count it returns for
    [firstsect] and [lastsect - firstsect] is the number of records
    [ndz_reloc_put] copies to the chunk's buffer. *)
Theorem ndz_reloc_inrange_put (ndz : ndz_file) (hdr : blockhdr)
    (buf : list blockreloc) :
  table_ok ndz ->
  (forall r, r ∈ stored ndz -> reloclo ndz <= r_sector r <= relochi ndz) ->
  (forall r, r ∈ stored ndz -> u64 (r_sectoff r + r_size r) <= sectsize ndz) ->
  StronglySorted Z.le (r_sector <$> stored ndz) ->
  0 <= hdr_firstsect hdr < hdr_lastsect hdr ->
  hdr_lastsect hdr < 2 ^ 32 ->
  exists out,
    ndz_reloc_put (Some ndz) (Some hdr) (Some buf)
    = Ret (0, Some (store_relocs out buf))
    /\ ndz_reloc_inrange (Some ndz) (hdr_firstsect hdr)
         (hdr_lastsect hdr - hdr_firstsect hdr)
       = Ret (Z.of_nat (length out)).
Proof.
  intros Hok Hbr Hsz Hsort Hfl Hl32.
  exists (filter (fun r => in_chunk hdr r = true) (stored ndz)).
  split; [by apply ndz_reloc_put_filter|].
  rewrite ndz_reloc_inrange_counts_aux; try assumption; try lia.
  do 3 f_equal. apply filter_ext_in. intros r _.
  unfold in_chunk, in_range.
  rewrite !andb_true_iff, !Z.leb_le, Z.ltb_lt. lia.
Qed.

Lemma table_5_7_20_ok :
  table_ok table_5_7_20
  /\ (forall r, r ∈ stored table_5_7_20 ->
                reloclo table_5_7_20 <= r_sector r <= relochi table_5_7_20)
  /\ (forall r, r ∈ stored table_5_7_20 ->
                u64 (r_sectoff r + r_size r) <= sectsize table_5_7_20)
  /\ StronglySorted Z.le (r_sector <$> stored table_5_7_20).
Proof.
  split; [reflexivity|]. split; [|split].
  - intros r Hr. vm_compute in Hr.
    repeat (apply elem_of_cons in Hr as [->|Hr]; [simpl; lia|]).
    by apply elem_of_nil in Hr.
  - intros r Hr. vm_compute in Hr.
    repeat (apply elem_of_cons in Hr as [->|Hr]; [vm_compute; discriminate|]).
    by apply elem_of_nil in Hr.
  - simpl. repeat constructor; simpl; lia.
Qed.

Lemma ndz_reloc_inrange_put_witness :
  exists out,
    ndz_reloc_put (Some table_5_7_20) (Some (chunk_0_10 0)) (Some [])
    = Ret (0, Some (store_relocs out []))
    /\ ndz_reloc_inrange (Some table_5_7_20) 0 (10 - 0)
       = Ret (Z.of_nat (length out)).
Proof.
  destruct table_5_7_20_ok as (H1 & H2 & H3 & H4).
  apply (ndz_reloc_inrange_put table_5_7_20 (chunk_0_10 0) [] H1 H2 H3 H4).
  - simpl. lia.
  - simpl. lia.
Defined.

Section RelocRoundTrip.
Variables NDZ_LOADDR NDZ_HIADDR : Z.

(** What goes in comes out: after successful calls of [ndz_reloc_get] on an
    initialised table (counts not negative, sectors between the
    sentinels, every record within a sector), [ndz_reloc_put] copies to a
    chunk's buffer exactly the records, of all those the calls supplied,
    whose sector is in the chunk's range, in the order they were
    supplied. *)
Theorem ndz_reloc_get_put (ndz0 ndz : ndz_file)
    (calls : list (bool * blockhdr * list blockreloc)) (hdr : blockhdr)
    (buf : list blockreloc) :
  Forall (fun c => 0 <= hdr_reloccount (c.1.2)) calls ->
  (forall r, r ∈ concat (supplied <$> calls) ->
             NDZ_LOADDR <= r_sector r <= NDZ_HIADDR
             /\ u64 (r_sectoff r + r_size r) <= sectsize ndz0) ->
  ndz_reloc_get_seq NDZ_HIADDR (ndz_reloc_init NDZ_LOADDR NDZ_HIADDR ndz0)
    calls = Some ndz ->
  ndz_reloc_put (Some ndz) (Some hdr) (Some buf)
  = Ret (0, Some (store_relocs
                    (filter (fun r => in_chunk hdr r = true)
                       (concat (supplied <$> calls))) buf)).
Proof.
  intros Hcnt Hin H.
  destruct (ndz_reloc_get_seq_inv NDZ_LOADDR NDZ_HIADDR calls _ [] ndz
              (table_inv_init NDZ_LOADDR NDZ_HIADDR ndz0) Hcnt
              (fun r Hr => proj1 (Hin r Hr)) H) as (Hst & Hok & Hb).
  simpl in Hst, Hb.
  assert (Hsect : sectsize ndz = sectsize ndz0).
  { clear Hst Hok Hb Hin Hcnt.
    assert (Hgen : forall cs n n', ndz_reloc_get_seq NDZ_HIADDR n cs = Some n' ->
                                   sectsize n' = sectsize n).
    { induction cs as [|[[ok h] b] cs IH]; intros n n' Hs;
        cbn [ndz_reloc_get_seq] in Hs.
      - by inversion Hs.
      - destruct (ndz_reloc_get NDZ_HIADDR ok (Some n) (Some h) (Some b))
          as [[rv [n1|]]| | |] eqn:Hg; try discriminate;
          destruct rv; try discriminate.
        rewrite (IH _ _ Hs). unfold ndz_reloc_get in Hg.
        destruct (_ || _); [by inversion Hg|].
        apply bind_Ret in Hg as [[] [_ Hg]].
        destruct (negb ok).
        { destruct (relocdata n); [|discriminate].
          destruct (_ =? 0); discriminate. }
        destruct (_ || _); [discriminate|].
        apply bind_Ret in Hg as [[[lo hi] data] [_ Hg]]. by inversion Hg. }
    exact (Hgen _ _ _ H). }
  rewrite <- Hst. apply ndz_reloc_put_filter.
  - exact Hok.
  - intros r Hr. destruct (stored ndz) as [|r0 l] eqn:Hs; [set_solver|].
    destruct Hb as [_ Hb]. destruct (Hb ltac:(rewrite <- Hst; discriminate))
      as [[_ Hmin] [_ Hmax]].
    rewrite <- Hst in Hmin, Hmax. split; [by apply Hmin|by apply Hmax].
  - intros r Hr. rewrite Hsect. apply Hin. by rewrite <- Hst.
Qed.

End RelocRoundTrip.

Lemma ndz_reloc_get_put_witness :
  let calls := [(true, chunk_of 0 10 1, [reloc_at 5]);
                (true, chunk_of 10 30 1, [reloc_at 20])] in
  exists ndz,
    ndz_reloc_get_seq (2 ^ 64 - 1) (ndz_reloc_init 0 (2 ^ 64 - 1) empty_table)
      calls = Some ndz
    /\ ndz_reloc_put (Some ndz) (Some (chunk_of 10 30 0)) (Some [])
       = Ret (0, Some [reloc_at 20]).
Proof.
  intros calls.
  assert (Hrun : exists ndz,
            ndz_reloc_get_seq (2 ^ 64 - 1)
              (ndz_reloc_init 0 (2 ^ 64 - 1) empty_table) calls = Some ndz).
  { eexists. vm_compute. reflexivity. }
  destruct Hrun as (ndz & Hrun). exists ndz. split; [exact Hrun|].
  apply (ndz_reloc_get_put 0 (2 ^ 64 - 1) empty_table ndz calls
           (chunk_of 10 30 0) []).
  - repeat constructor; simpl; lia.
  - intros r Hr. vm_compute in Hr.
    repeat (apply elem_of_cons in Hr as [->|Hr];
            [split; [simpl; lia|vm_compute; discriminate]|]).
    by apply elem_of_nil in Hr.
  - exact Hrun.
Defined.

(** A copy serves as the original: copied into a table that holds no
    records and has the same width and sector size, a well-formed table that
    is not empty gives a table with the same records and bounds, from which
    [ndz_reloc_put] writes what it writes from the original. *)
Theorem ndz_reloc_copy_put recast (f t : ndz_file) :
  table_ok f -> relocentries f <> 0 -> relocentries t <= 0 ->
  reloc32 t = reloc32 f -> sectsize t = sectsize f ->
  exists t',
    ndz_reloc_copy recast true (Some f) (Some t) = Ret (0, Some t')
    /\ stored t' = stored f
    /\ reloclo t' = reloclo f /\ relochi t' = relochi f
    /\ forall hdr buf,
         ndz_reloc_put (Some t') hdr buf = ndz_reloc_put (Some f) hdr buf.
Proof.
  intros Hok Hne Ht Hw Hs. unfold ndz_reloc_copy.
  destruct (Z.ltb_spec 0 (relocentries t)); [lia|].
  destruct (Z.eqb_spec (relocentries f) 0); [contradiction|]. simpl.
  unfold table_ok in Hok. destruct (relocdata f) as [d|] eqn:Hd;
    [|contradiction].
  assert (Hneg : (relocentries f <? 0) = false) by (apply Z.ltb_ge; lia).
  assert (Hlen : (Z.of_nat (length d) <? relocentries f) = false)
    by (apply Z.ltb_ge; lia).
  rewrite Hneg, Hlen. simpl. rewrite Hw, eqb_reflx.
  rewrite Hok, Nat2Z.id, firstn_all. eexists. split; [reflexivity|].
  unfold stored. simpl. rewrite Hd, Hok, !Nat2Z.id, !firstn_all.
  split; [reflexivity|]. split; [reflexivity|]. split; [reflexivity|].
  intros hdr buf. unfold ndz_reloc_put. simpl. rewrite ?Hd, ?Hs, ?Hok.
  reflexivity.
Qed.

Lemma ndz_reloc_copy_put_witness :
  exists t',
    ndz_reloc_copy (fun _ _ l => l) true (Some table_5_7_20) (Some empty_table)
    = Ret (0, Some t')
    /\ stored t' = stored table_5_7_20
    /\ reloclo t' = 5 /\ relochi t' = 20
    /\ forall hdr buf,
         ndz_reloc_put (Some t') hdr buf
         = ndz_reloc_put (Some table_5_7_20) hdr buf.
Proof.
  apply (ndz_reloc_copy_put (fun _ _ l => l) table_5_7_20 empty_table).
  - reflexivity.
  - simpl. lia.
  - simpl. lia.
  - reflexivity.
  - reflexivity.
Defined.

(** ** The statistics of imagedump *)

Lemma u32_idem x : u32 (u32 x) = u32 x.
Proof. unfold u32. apply Z.mod_mod. lia. Qed.

Lemma u32_add_l x y : u32 (u32 x + y) = u32 (x + y).
Proof. unfold u32. apply Zplus_mod_idemp_l. Qed.

Lemma u32_add_r x y : u32 (x + u32 y) = u32 (x + y).
Proof. unfold u32. apply Zplus_mod_idemp_r. Qed.

Lemma sum_list_app l1 l2 : sum_list (l1 ++ l2) = sum_list l1 + sum_list l2.
Proof. induction l1 as [|a l1 IH]; simpl; [reflexivity|]. rewrite IH. lia. Qed.

Lemma sum_list_alter (f : Z -> Z) (i : nat) (l : list Z) (v : Z) :
  l !! i = Some v -> sum_list (alter f i l) = sum_list l + (f v - v).
Proof.
  revert i. induction l as [|a l IH]; intros [|i] Hi; try discriminate.
  - inversion Hi; subst.
    change (sum_list (alter f 0%nat (v :: l))) with (f v + sum_list l).
    change (sum_list (v :: l)) with (v + sum_list l). lia.
  - change (sum_list (alter f (S i) (a :: l)))
      with (a + sum_list (alter f i l)).
    rewrite (IH i Hi). change (sum_list (a :: l)) with (a + sum_list l). lia.
Qed.

Lemma adist_index_lt count : (adist_index count < 8)%nat.
Proof. unfold adist_index. repeat case_match; lia. Qed.

Lemma add_alloc_hist count st : hist_ok st -> hist_ok (add_alloc count st).
Proof.
  intros [Hlen Hsum]. split; simpl.
  - by rewrite length_alter.
  - destruct (lookup_lt_is_Some_2 (adist st) (adist_index count)) as [v Hv].
    { rewrite Hlen. apply adist_index_lt. }
    rewrite (sum_list_alter _ _ _ _ Hv), <- Hsum.
    replace (sum_list (adist st) + (u32 (v + 1) - v))
      with (u32 (v + 1) + (sum_list (adist st) - v)) by lia.
    rewrite u32_add_l, u32_add_l. f_equal. lia.
Qed.

(** What one turn of the region loop does to the counters of the allocated
    ranges. *)
Lemma region_step_alloc magic0 is32 first last regioncount i reg st :
  let st' := region_step magic0 is32 first last regioncount i reg st in
  aranges st' = u32 (aranges st + 1)
  /\ sectinuse st' = u32 (sectinuse st + u32 (REG_SIZE is32 reg))
  /\ (hist_ok st -> hist_ok st').
Proof.
  unfold region_step.
  repeat match goal with
         | |- context [if ?b then _ else _] => destruct b
         end; simpl; (split; [reflexivity|split; [reflexivity|]]);
    intros H; apply (add_alloc_hist _ _ H).
Qed.

Lemma region_loop_alloc magic0 is32 first last regioncount n :
  forall regs i st st',
    region_loop n magic0 is32 first last regioncount regs i st = Ret st' ->
    (n <= length regs)%nat
    /\ u32 (aranges st') = u32 (aranges st + Z.of_nat n)
    /\ u32 (sectinuse st')
       = u32 (sectinuse st + sum_list (region_sizes is32 (take n regs)))
    /\ (hist_ok st -> hist_ok st')
    /\ (u32 (sectinuse st) = sectinuse st -> u32 (sectinuse st') = sectinuse st').
Proof.
  induction n as [|n IH]; intros regs i st st' H; simpl in H.
  - inversion H; subst. split; [lia|]. rewrite take_0. simpl.
    rewrite !Z.add_0_r. auto.
  - destruct regs as [|reg rest]; [discriminate|].
    apply IH in H as (Hlen & Har & Hsec & Hh & Hn).
    destruct (region_step_alloc magic0 is32 first last regioncount i reg st)
      as (Har1 & Hsec1 & Hh1).
    split; [simpl; lia|]. split; [|split; [|split]];
      [| | |intros _; apply Hn; rewrite Hsec1; apply u32_idem].
    + rewrite Har, Har1, u32_add_l. f_equal. lia.
    + rewrite Hsec, Hsec1, u32_add_l. rewrite firstn_cons.
      change (region_sizes is32 (reg :: take n rest))
        with (u32 (REG_SIZE is32 reg) :: region_sizes is32 (take n rest)).
      change (sum_list (u32 (REG_SIZE is32 reg)
                        :: region_sizes is32 (take n rest)))
        with (u32 (REG_SIZE is32 reg)
              + sum_list (region_sizes is32 (take n rest))).
      f_equal. lia.
    + auto.
Qed.

Lemma reloc_stats_loop_alloc is32 n : forall rs st st',
  reloc_stats_loop n is32 rs st = Ret st' ->
  aranges st' = aranges st /\ sectinuse st' = sectinuse st
  /\ sectfree st' = sectfree st /\ adist st' = adist st.
Proof.
  induction n as [|n IH]; intros rs st st' H; simpl in H.
  - by inversion H.
  - destruct rs as [|r rest]; [discriminate|]. by apply IH in H.
Qed.

Lemma dumpchunk_stats_alloc s c st st' :
  dumpchunk_stats s (c_hdr c) (c_regions c) (c_relocs c) st = Ret st' ->
  u32 (aranges st') = u32 (aranges st + Z.of_nat (length (visited c)))
  /\ u32 (sectinuse st')
     = u32 (sectinuse st + sum_list (region_sizes (chunk_is32 c) (visited c)))
  /\ (hist_ok st -> hist_ok st')
  /\ (u32 (sectinuse st) = sectinuse st -> u32 (sectinuse st') = sectinuse st').
Proof.
  unfold dumpchunk_stats, visited, chunk_is32. intros H.
  destruct (if (hdr_magic (c_hdr c) =? COMPRESSED_V2)
               || (hdr_magic (c_hdr c) =? COMPRESSED_V3)
            then _ else _) as [first last].
  apply bind_Ret in H as [st1 [Hloop H]].
  apply region_loop_alloc in Hloop as (Hlen & Har & Hsec & Hh & Hn).
  simpl in Har, Hsec, Hn. rewrite length_take, Nat.min_l by exact Hlen.
  assert (Hst : aranges st' = aranges st1 /\ sectinuse st' = sectinuse st1
                /\ adist st' = adist st1).
  { destruct (hdr_magic (c_hdr c) =? COMPRESSED_V1).
    - by inversion H.
    - apply reloc_stats_loop_alloc in H as (? & ? & _ & ?). auto. }
  destruct Hst as (Ha & Hs & Hd). rewrite Ha, Hs.
  split; [exact Har|]. split; [exact Hsec|]. split; [|exact Hn].
  intros Hok. unfold hist_ok. rewrite Hd, Ha. by apply Hh.
Qed.

Lemma dumpchunks_stats_alloc s chunks : forall st st',
  dumpchunks_stats s chunks st = Ret st' ->
  u32 (aranges st') = u32 (aranges st + regions_visited chunks)
  /\ u32 (sectinuse st') = u32 (sectinuse st + sectors_visited chunks)
  /\ (hist_ok st -> hist_ok st')
  /\ (u32 (sectinuse st) = sectinuse st -> u32 (sectinuse st') = sectinuse st').
Proof.
  unfold regions_visited, sectors_visited.
  induction chunks as [|c chunks IH]; intros st st' H; simpl in H.
  - inversion H; subst. simpl. rewrite !Z.add_0_r. auto.
  - apply bind_Ret in H as [st1 [Hc H]].
    apply dumpchunk_stats_alloc in Hc as (Ha1 & Hs1 & Hh1 & Hn1).
    apply IH in H as (Ha & Hs & Hh & Hn).
    rewrite !fmap_cons.
    change (sum_list (?x :: ?l)) with (x + sum_list l).
    split; [|split; [|split]]; [| | |auto].
    + rewrite Ha, <- u32_add_l, Ha1, u32_add_l. f_equal. lia.
    + rewrite Hs, <- u32_add_l, Hs1, u32_add_l. f_equal. lia.
    + auto.
Qed.

Lemma hist_ok_u32 st : hist_ok st -> u32 (aranges st) = aranges st.
Proof. intros [_ <-]. apply u32_idem. Qed.

(** Every allocated range goes to one bucket: whatever chunks [dumpchunk]
    has counted since [dumpfile] reset the counters, the eight buckets of
    the size distribution add up to [aranges] (as 32-bit numbers). *)
Theorem dumpchunks_stats_histogram (s : dump_state) (chunks : list chunk)
    (st' : dump_stats) :
  dumpchunks_stats s chunks initial_stats = Ret st' ->
  length (adist st') = 8%nat /\ u32 (sum_list (adist st')) = aranges st'.
Proof.
  intros H. apply dumpchunks_stats_alloc in H as (_ & _ & Hh & _).
  apply Hh. split; reflexivity.
Qed.

(** The totals of the report: after the chunks counted since [dumpfile]
    reset the counters, [aranges] is the number of region descriptors
    visited and [sectinuse] the sum of their sizes, both cut to 32 bits. *)
Theorem dumpchunks_stats_totals (s : dump_state) (chunks : list chunk)
    (st' : dump_stats) :
  dumpchunks_stats s chunks initial_stats = Ret st' ->
  aranges st' = u32 (regions_visited chunks)
  /\ sectinuse st' = u32 (sectors_visited chunks).
Proof.
  intros H.
  apply dumpchunks_stats_alloc in H as (Ha & Hs & Hh & Hn).
  assert (Hok : hist_ok st') by (apply Hh; split; reflexivity).
  rewrite (hist_ok_u32 _ Hok) in Ha. rewrite Hn in Hs by reflexivity.
  simpl in Ha, Hs. auto.
Qed.

Lemma REG_nonneg is32 reg :
  0 <= REG_START is32 reg < 2 ^ 64 /\ 0 <= REG_SIZE is32 reg < 2 ^ 64.
Proof.
  unfold REG_START, REG_SIZE, u32, u64.
  destruct is32; split;
    match goal with
    | |- _ <= ?x mod ?m < _ =>
        pose proof (Z.mod_pos_bound x m ltac:(lia)); lia
    end.
Qed.

Ltac bool_to_prop :=
  repeat match goal with
         | H : (_ <? _) = true |- _ => apply Z.ltb_lt in H
         | H : (_ <? _) = false |- _ => apply Z.ltb_ge in H
         | H : (_ =? _) = true |- _ => apply Z.eqb_eq in H
         | H : (_ =? _) = false |- _ => apply Z.eqb_neq in H
         end.

Lemma u32_add_cong x y g : u32 x = u32 y -> u32 (x + g) = u32 (y + g).
Proof. intros H. by rewrite <- u32_add_l, H, u32_add_l. Qed.

(** [sectinuse += rsize] in 32 bits. *)
Lemma u32_alloc_account a f r x :
  u32 (a + f) = u32 x -> u32 (u32 (a + u32 r) + f) = u32 (x + r).
Proof.
  intros H. rewrite u32_add_l.
  replace (a + u32 r + f) with (a + f + u32 r) by lia.
  rewrite u32_add_r. by apply u32_add_cong.
Qed.

(** [sectfree += count] when [count] is not 0, for a [count] that is the
    32-bit value of the gap [g]. *)
Lemma add_free_account (count g : Z) (st : dump_stats) :
  count = u32 g ->
  let st' := if 0 <? count then add_free count st else st in
  sectinuse st' = sectinuse st /\ nextsector st' = nextsector st
  /\ u32 (sectinuse st' + sectfree st')
     = u32 (sectinuse st + sectfree st + g).
Proof.
  intros ->. simpl. destruct (Z.ltb_spec 0 (u32 g)) as [Hpos|Hz]; simpl.
  - split; [reflexivity|]. split; [reflexivity|].
    rewrite u32_add_r, Z.add_assoc, u32_add_r. reflexivity.
  - split; [reflexivity|]. split; [reflexivity|].
    assert (Hg : u32 g = 0).
    { unfold u32 in *. pose proof (Z.mod_pos_bound g (2 ^ 32) ltac:(lia)).
      lia. }
    rewrite <- (u32_add_r (_ + _) g), Hg. f_equal. lia.
Qed.

(** One turn of the region loop for a region past [prev]: the sectors
    from [prev] to the end of the region (to [last], for the last region)
    are counted once, as free or as allocated. *)
Lemma region_step_account magic0 is32 first last regioncount i reg st prev :
  COMPRESSED_V1 < magic0 -> 0 <= i < regioncount ->
  (i = 0 -> prev = first) -> (0 < i -> nextsector st = prev) ->
  0 <= first <= prev -> prev <= REG_START is32 reg ->
  REG_START is32 reg + REG_SIZE is32 reg <= last ->
  last < 2 ^ 64 ->
  let st' := region_step magic0 is32 first last regioncount i reg st in
  let upto := if i =? regioncount - 1 then last
              else REG_START is32 reg + REG_SIZE is32 reg in
  nextsector st' = REG_START is32 reg + REG_SIZE is32 reg
  /\ u32 (sectinuse st' + sectfree st')
     = u32 (sectinuse st + sectfree st + (upto - prev)).
Proof.
  intros Hm Hi Hi0 Hin Hf Hp He Hl64.
  destruct (REG_nonneg is32 reg) as [Hs Hz].
  set (rstart := REG_START is32 reg) in *.
  set (rsize := REG_SIZE is32 reg) in *.
  unfold region_step. fold rstart. fold rsize.
  apply Z.ltb_lt in Hm. rewrite Hm.
  assert (Hu64 : u64 (rstart + rsize) = rstart + rsize).
  { unfold u64. apply Z.mod_small. lia. }
  rewrite Hu64.
  assert (Hlast : (last <? rstart + rsize) = false) by (apply Z.ltb_ge; lia).
  rewrite Hlast.
  set (count0 := if i =? 0
                 then if rstart <? first then 0 else u32 (rstart - first)
                 else u32 (rstart - nextsector st)).
  assert (Hc0 : count0 = u32 (rstart - prev)).
  { unfold count0. destruct (Z.eqb_spec i 0) as [Hz0|Hnz].
    - rewrite (Hi0 Hz0) in *.
      replace (rstart <? first) with false
        by (symmetry; apply Z.ltb_ge; lia).
      reflexivity.
    - by rewrite (Hin ltac:(lia)). }
  destruct (i =? regioncount - 1) eqn:Hlasti.
  - destruct (add_free_account count0 (rstart - prev) st Hc0)
      as (Hu1 & Hn1 & Ha1).
    set (st1 := if 0 <? count0 then add_free count0 st else st) in *.
    set (st2 := set_sectors _ _ _ st1).
    destruct (add_free_account (u32 (last - (rstart + rsize)))
                (last - (rstart + rsize)) st2 eq_refl) as (Hu2 & Hn2 & Ha2).
    set (st3 := if 0 <? u32 _ then add_free _ st2 else st2) in *.
    simpl. split; [reflexivity|].
    change (sectinuse st2) with (sectinuse st1) in Ha2.
    change (sectfree st2) with (sectfree st1) in Ha2.
    rewrite (u32_alloc_account _ _ rsize
               (sectinuse st + sectfree st + (rstart - prev)
                + (last - (rstart + rsize)))).
    + f_equal. lia.
    + rewrite Ha2. by apply u32_add_cong.
  - set (st2 := set_sectors _ _ _ st).
    destruct (add_free_account count0 (rstart - prev) st2 Hc0)
      as (Hu1 & Hn1 & Ha1).
    set (st3 := if 0 <? count0 then add_free count0 st2 else st2) in *.
    simpl. split; [reflexivity|].
    change (sectinuse st2) with (sectinuse st) in Ha1.
    change (sectfree st2) with (sectfree st) in Ha1.
    rewrite (u32_alloc_account _ _ rsize
               (sectinuse st + sectfree st + (rstart - prev))).
    + f_equal. lia.
    + exact Ha1.
Qed.

Lemma ascending_le is32 regs : forall prev last,
  ascending is32 prev regs last -> prev <= last.
Proof.
  induction regs as [|reg regs IH]; intros prev last H; simpl in H.
  - exact H.
  - destruct H as [Hp H]. apply IH in H.
    destruct (REG_nonneg is32 reg) as [_ Hz]. lia.
Qed.

Lemma region_loop_account magic0 is32 first last regioncount regs :
  forall i st st' prev,
    COMPRESSED_V1 < magic0 -> 0 <= i ->
    regioncount = i + Z.of_nat (length regs) -> regs <> [] ->
    (i = 0 -> prev = first) -> (0 < i -> nextsector st = prev) ->
    0 <= first <= prev -> ascending is32 prev regs last ->
    last < 2 ^ 64 ->
    region_loop (length regs) magic0 is32 first last regioncount regs i st
    = Ret st' ->
    u32 (sectinuse st' + sectfree st')
    = u32 (sectinuse st + sectfree st + (last - prev)).
Proof.
  induction regs as [|reg regs IH];
    intros i st st' prev Hm Hi Hcnt Hne Hi0 Hin Hf Hasc Hl64 H;
    [contradiction|].
  simpl in H, Hasc. destruct Hasc as [Hp Hasc].
  pose proof (ascending_le _ _ _ _ Hasc) as Hend.
  destruct (region_step_account magic0 is32 first last regioncount i reg st
              prev Hm) as [Hnext Hacc]; try assumption.
  { simpl in Hcnt. lia. }
  destruct regs as [|reg2 regs].
  - simpl in H. inversion H; subst st'. rewrite Hacc.
    simpl in Hcnt. replace (i =? regioncount - 1) with true
      by (symmetry; apply Z.eqb_eq; lia).
    reflexivity.
  - apply (IH (i + 1) _ _ (REG_START is32 reg + REG_SIZE is32 reg)) in H;
      try assumption; try lia.
    + rewrite H, <- u32_add_l, Hacc, u32_add_l.
      replace (i =? regioncount - 1) with false
        by (symmetry; apply Z.eqb_neq; simpl in Hcnt; lia).
      f_equal. lia.
    + simpl in *. lia.
    + discriminate.
    + destruct (REG_nonneg is32 reg) as [_ Hz]. lia.
Qed.

(** The sectors of a chunk are counted once.  Take a chunk of a version
    after V1 that has at least one region (for a chunk without regions the
    loop does not run and nothing is counted), whose [regioncount] is the
    number of its regions, and whose regions follow one another without
    overlap inside the sectors [first] to [last - 1] that the header
    gives, [first] and [last] being 64-bit unsigned numbers.  Then
    [dumpchunk] adds to [sectinuse] and [sectfree] together [last - first],
    in the 32-bit arithmetic of these counters. *)
Theorem dumpchunk_stats_accounting (s : dump_state) (c : chunk)
    (st st' : dump_stats) :
  COMPRESSED_V1 < hdr_magic (c_hdr c) ->
  hdr_regioncount (c_hdr c) = Z.of_nat (length (c_regions c)) ->
  c_regions c <> [] ->
  0 <= (chunk_range (c_hdr c)).1 ->
  ascending (chunk_is32 c) (chunk_range (c_hdr c)).1 (c_regions c)
    (chunk_range (c_hdr c)).2 ->
  (chunk_range (c_hdr c)).2 < 2 ^ 64 ->
  dumpchunk_stats s (c_hdr c) (c_regions c) (c_relocs c) st = Ret st' ->
  u32 (sectinuse st' + sectfree st')
  = u32 (sectinuse st + sectfree st
         + ((chunk_range (c_hdr c)).2 - (chunk_range (c_hdr c)).1)).
Proof.
  unfold dumpchunk_stats, chunk_range, chunk_is32.
  intros Hm Hcnt Hne Hf Hasc Hl64 H.
  destruct (if (hdr_magic (c_hdr c) =? COMPRESSED_V2)
               || (hdr_magic (c_hdr c) =? COMPRESSED_V3)
            then _ else _) as [first last].
  simpl in *. apply bind_Ret in H as [st1 [Hloop H]].
  rewrite Hcnt, Nat2Z.id in Hloop.
  apply (region_loop_account _ _ _ _ _ _ _ _ _ first) in Hloop;
    try assumption; try lia.
  simpl in Hloop.
  assert (Hst : sectinuse st' = sectinuse st1 /\ sectfree st' = sectfree st1).
  { destruct (hdr_magic (c_hdr c) =? COMPRESSED_V1).
    - by inversion H.
    - apply reloc_stats_loop_alloc in H as (_ & ? & ? & _). auto. }
  destruct Hst as [-> ->]. exact Hloop.
Qed.

Lemma sample_chunk_stats :
  exists st',
    dumpchunks_stats plain_state [sample_chunk] initial_stats = Ret st'
    /\ dumpchunk_stats plain_state (c_hdr sample_chunk)
         (c_regions sample_chunk) (c_relocs sample_chunk) initial_stats
       = Ret st'
    /\ aranges st' = 2 /\ sectinuse st' = 40 /\ sectfree st' = 60
    /\ adist st' = [0; 1; 1; 0; 0; 0; 0; 0].
Proof. eexists. repeat split; vm_compute; reflexivity. Qed.

Lemma dumpchunks_stats_histogram_witness :
  exists st',
    dumpchunks_stats plain_state [sample_chunk] initial_stats = Ret st'
    /\ length (adist st') = 8%nat /\ u32 (sum_list (adist st')) = aranges st'.
Proof.
  destruct sample_chunk_stats as (st' & H & _). exists st'.
  split; [exact H|].
  exact (dumpchunks_stats_histogram plain_state [sample_chunk] st' H).
Defined.

Lemma dumpchunks_stats_totals_witness :
  exists st',
    dumpchunks_stats plain_state [sample_chunk] initial_stats = Ret st'
    /\ aranges st' = u32 (regions_visited [sample_chunk])
    /\ sectinuse st' = u32 (sectors_visited [sample_chunk]).
Proof.
  destruct sample_chunk_stats as (st' & H & _). exists st'.
  split; [exact H|].
  exact (dumpchunks_stats_totals plain_state [sample_chunk] st' H).
Defined.

Lemma dumpchunk_stats_accounting_witness :
  exists st',
    dumpchunk_stats plain_state (c_hdr sample_chunk) (c_regions sample_chunk)
      (c_relocs sample_chunk) initial_stats = Ret st'
    /\ u32 (sectinuse st' + sectfree st') = u32 (0 + 0 + (200 - 100)).
Proof.
  destruct sample_chunk_stats as (st' & _ & H & _). exists st'.
  split; [exact H|].
  apply (dumpchunk_stats_accounting plain_state sample_chunk initial_stats st').
  - vm_compute. reflexivity.
  - reflexivity.
  - discriminate.
  - simpl. lia.
  - vm_compute. repeat split; discriminate.
  - simpl. lia.
  - exact H.
Defined.

(** A chunk without regions: the sectors 100 to 199 that its header gives
    are not counted. *)
Example dumpchunk_stats_no_region :
  exists st',
    dumpchunk_stats plain_state
      {| hdr_magic := COMPRESSED_V2; hdr_size := 0; hdr_blockindex := 0;
         hdr_blocktotal := 1; hdr_regionsize := DEFAULTREGIONSIZE;
         hdr_regioncount := 0; hdr_firstsect := 100; hdr_lastsect := 200;
         hdr_reloccount := 0; hdr_firstsect64 := 0; hdr_lastsect64 := 0;
         hdr_imageid := []; hdr_enc_cipher := 0; hdr_csum_type := 0 |}
      [] [] initial_stats = Ret st'
    /\ sectinuse st' = 0 /\ sectfree st' = 0.
Proof. eexists. repeat split; vm_compute; reflexivity. Qed.

(** ** The files imagedump accepts *)

Lemma dumpchunk_zero (s : dump_state) (hdr : blockhdr) (chunkno : Z)
    (checkindex : bool) :
  dumpchunk s hdr chunkno checkindex = 0 ->
  (checkindex = true -> hdr_blockindex hdr = chunkno)
  /\ (chunkcount s <> 0 -> u64 (hdr_blocktotal hdr) = chunkcount s)
  /\ hdr_size hdr <= u32 (CHUNKSIZE - hdr_regionsize hdr)
  /\ (0 < chunkno -> hdr_magic hdr = COMPRESSED_V5 ->
      imageid_differs (imageid s) (hdr_imageid hdr) = false).
Proof.
  unfold dumpchunk. intros H.
  match type of H with
  | (if negb ?ok then _ else _) = _ => destruct ok eqn:Hok
  end; simpl in H; [|discriminate].
  destruct (checkindex && negb (hdr_blockindex hdr =? chunkno)) eqn:Hidx;
    [discriminate|].
  destruct (negb (chunkcount s =? 0)
            && negb (u64 (hdr_blocktotal hdr) =? chunkcount s)) eqn:Hcnt;
    [discriminate|].
  destruct (Z.ltb_spec (u32 (CHUNKSIZE - hdr_regionsize hdr)) (hdr_size hdr));
    [discriminate|].
  split; [|split; [|split]].
  - intros ->. simpl in Hidx. apply negb_false_iff, Z.eqb_eq in Hidx.
    exact Hidx.
  - intros Hne. apply Z.eqb_neq in Hne. rewrite Hne in Hcnt. simpl in Hcnt.
    apply negb_false_iff, Z.eqb_eq in Hcnt. exact Hcnt.
  - lia.
  - intros Hpos Hv5. rewrite Hv5 in Hok. simpl in Hok.
    apply Z.ltb_lt in Hpos. rewrite Hpos in Hok. simpl in Hok.
    apply negb_true_iff in Hok. exact Hok.
Qed.

(** The chunks after the first, of a file that is not the standard
    input. *)
Lemma dumpfile_loop_tail (f : image_file) : forall chunks s chunkno checkindex
    filesize s',
  f_isstdin f = false -> 1 <= chunkno ->
  dumpfile_loop f s chunks chunkno checkindex filesize = (0, s') ->
  s' = s /\ f_end f = EndOfFile
  /\ forall i hdr, chunks !! i = Some hdr ->
                   dumpchunk s hdr (chunkno + Z.of_nat i) checkindex = 0.
Proof.
  intros chunks.
  induction chunks as [|hdr rest IH];
    intros s chunkno checkindex filesize s' Hstd Hno H; simpl in H.
  - destruct (negb _ && negb _); [discriminate|].
    destruct (f_end f); [|discriminate]. inversion H; subst.
    split; [reflexivity|]. split; [reflexivity|]. intros i hdr Hi.
    by rewrite lookup_nil in Hi.
  - destruct (negb _ && negb _); [discriminate|].
    destruct (Z.eqb_spec chunkno 0) as [|_]; [lia|].
    rewrite Hstd in H. simpl in H.
    assert (Hfirst : (if (chunkno =? 1) && (ignorev1 s =? 0)
                      then inr (s, checkindex, filesize)
                      else inr (s, checkindex, filesize))
                     = (inr (s, checkindex, filesize)
                        : Z + (dump_state * bool * Z))).
    { destruct ((chunkno =? 1) && (ignorev1 s =? 0)); reflexivity. }
    rewrite Hfirst in H.
    destruct (Z.eqb_spec (dumpchunk s hdr chunkno checkindex) 0) as [Hz|];
      simpl in H; [|discriminate].
    apply IH in H as (-> & Hend & Hrest); [|exact Hstd|lia].
    split; [reflexivity|]. split; [exact Hend|].
    intros [|i] h Hi; simpl in Hi.
    + inversion Hi; subst. by rewrite Z.add_0_r.
    + replace (chunkno + Z.of_nat (S i)) with (chunkno + 1 + Z.of_nat i)
        by lia.
      by apply Hrest.
Qed.

(** The first chunk, without [-q] and [-i], when its header gives a chunk
    count that is not 0. *)
Lemma dumpfile_first_inr (s s1 : dump_state) (isstdin checkindex : bool)
    (filesize filesize1 : Z) (hdr : blockhdr) :
  quickcheck s = 0 -> ignorev1 s = 0 -> u64 (hdr_blocktotal hdr) <> 0 ->
  dumpfile_first s isstdin filesize hdr = inr (s1, checkindex, filesize1) ->
  checkindex = true
  /\ hdr_magic hdr <= COMPRESSED_MAGIC_CURRENT
  /\ chunkcount s1 = u64 (hdr_blocktotal hdr)
  /\ (hdr_magic hdr = COMPRESSED_V5 -> imageid s1 = hdr_imageid hdr).
Proof.
  intros Hq Hi1 Htot H. unfold dumpfile_first in H.
  destruct ((magic (set_magic (hdr_magic hdr) s) <? COMPRESSED_MAGIC_BASE)
            || (COMPRESSED_MAGIC_CURRENT <? magic (set_magic (hdr_magic hdr) s)))
    eqn:Hrange; [discriminate|].
  apply orb_false_iff in Hrange as [_ Hcur]. apply Z.ltb_ge in Hcur.
  simpl in Hcur.
  apply Z.eqb_neq in Htot.
  destruct (negb (checksums (set_magic (hdr_magic hdr) s) =? 0)
            && (magic (set_magic (hdr_magic hdr) s) <? COMPRESSED_V6));
    simpl in H; rewrite Hq, Hi1 in H; simpl in H; rewrite Htot in H;
    simpl in H;
    destruct (negb (filesize / CHUNKSIZE =? u64 (hdr_blocktotal hdr)));
    simpl in H;
    destruct (COMPRESSED_V5 <=? hdr_magic hdr) eqn:E5; simpl in H;
    destruct (COMPRESSED_V6 <=? hdr_magic hdr) eqn:E6; simpl in H;
    inversion H; subst; simpl;
    (split; [reflexivity|]); (split; [exact Hcur|]);
    (split; [reflexivity|]); intros Hv; rewrite Hv in E5;
    try reflexivity; vm_compute in E5; discriminate.
Qed.

Lemma dumpfile_first_inl (s : dump_state) (isstdin : bool) (filesize : Z)
    (hdr : blockhdr) (r : Z) :
  quickcheck s = 0 -> dumpfile_first s isstdin filesize hdr = inl r -> r = 1.
Proof.
  intros Hq H. unfold dumpfile_first in H.
  destruct (_ || _); [by inversion H|].
  simpl in H. rewrite Hq in H. simpl in H.
  repeat match type of H with
         | context [if ?b then _ else _] => destruct b; simpl in H
         end; discriminate.
Qed.

Lemma dumpfile_loop_first (f : image_file) (s : dump_state) (hdr : blockhdr)
    (rest : list blockhdr) (checkindex : bool) (filesize : Z) :
  dumpfile_loop f s (hdr :: rest) 0 checkindex filesize
  = if negb (f_isstdin f || negb (checksums s =? 0))
       && negb (f_lseek_ok f 0)
    then (1, s)
    else
      match dumpfile_first s (f_isstdin f) filesize hdr with
      | inl r => (r, set_magic (hdr_magic hdr) s)
      | inr (s1, checkindex1, filesize1) =>
          if negb (dumpchunk s1 hdr 0 checkindex1 =? 0) then (1, s1)
          else dumpfile_loop f s1 rest 1 checkindex1 filesize1
      end.
Proof. reflexivity. Qed.

(** A regular file that [dumpfile] accepts has a consistent sequence of
    chunk headers: without [-q] and [-i], when the first header gives a
    chunk count that is not 0 and [dumpfile] returns 0, the magic of the
    first header is at most [COMPRESSED_MAGIC_CURRENT], the scan stopped
    because the first [read] at the start of a chunk returned 0 (the end of
    the input, not an error and not a short header), and every header read
    carries its own position as [blockindex], the [blocktotal] of the first
    header, and a [size] that fits beside its region area; if the first
    chunk is of version 5, so does every later version 5 chunk carry its
    image id.  Nothing is said of the bytes of a chunk after its header:
    a file that is cut inside its last chunk is accepted as well. *)
Theorem dumpfile_accepts (s s' : dump_state) (f : image_file)
    (hdr0 : blockhdr) (rest : list blockhdr) :
  f_isstdin f = false -> quickcheck s = 0 -> ignorev1 s = 0 ->
  f_chunks f = hdr0 :: rest -> u64 (hdr_blocktotal hdr0) <> 0 ->
  dumpfile s f = (0, s') ->
  f_end f = EndOfFile
  /\ hdr_magic hdr0 <= COMPRESSED_MAGIC_CURRENT
  /\ forall i hdr,
       f_chunks f !! i = Some hdr ->
       hdr_blockindex hdr = Z.of_nat i
       /\ u64 (hdr_blocktotal hdr) = u64 (hdr_blocktotal hdr0)
       /\ hdr_size hdr <= u32 (CHUNKSIZE - hdr_regionsize hdr)
       /\ ((0 < i)%nat -> hdr_magic hdr0 = COMPRESSED_V5 ->
           hdr_magic hdr = COMPRESSED_V5 ->
           imageid_differs (hdr_imageid hdr0) (hdr_imageid hdr) = false).
Proof.
  intros Hstd Hq Hi1 Hch Htot H. unfold dumpfile in H.
  rewrite Hch, dumpfile_loop_first, Hstd in H.
  destruct (negb false && negb (f_fstat_ok f)); [discriminate|].
  destruct (negb _ && negb _); [discriminate|].
  destruct (dumpfile_first s false (f_size f) hdr0)
    as [r|[[s1 ci] fs1]] eqn:Hfirst.
  { apply (dumpfile_first_inl _ _ _ _ _ Hq) in Hfirst. subst r.
    inversion H. }
  apply dumpfile_first_inr in Hfirst as (-> & Hcur & Hcc & Hid);
    try assumption.
  destruct (Z.eqb_spec (dumpchunk s1 hdr0 0 true) 0) as [Hz|];
    simpl in H; [|discriminate].
  apply dumpfile_loop_tail in H as (_ & Hend & Hrest); [|exact Hstd|lia].
  split; [exact Hend|]. split; [exact Hcur|].
  rewrite Hch. intros [|i] hdr Hl; simpl in Hl.
  - inversion Hl; subst hdr.
    apply dumpchunk_zero in Hz as (Hx & Hy & Hw & _).
    split; [by apply Hx|]. split; [reflexivity|]. split; [exact Hw|].
    intros; lia.
  - apply Hrest in Hl. apply dumpchunk_zero in Hl as (Hx & Hy & Hw & Hv).
    split; [rewrite (Hx eq_refl); lia|].
    split; [rewrite <- Hcc; apply Hy; by rewrite Hcc|].
    split; [exact Hw|].
    intros _ Hv0 Hv5. rewrite <- (Hid Hv0). apply Hv; [lia|exact Hv5].
Qed.

Lemma dumpfile_accepts_witness :
  exists s',
    dumpfile plain_state sample_file = (0, s')
    /\ forall i hdr,
         f_chunks sample_file !! i = Some hdr ->
         hdr_blockindex hdr = Z.of_nat i
         /\ u64 (hdr_blocktotal hdr) = u64 2
         /\ hdr_size hdr <= u32 (CHUNKSIZE - hdr_regionsize hdr).
Proof.
  assert (H : exists s', dumpfile plain_state sample_file = (0, s')).
  { eexists. vm_compute. reflexivity. }
  destruct H as [s' H]. exists s'. split; [exact H|].
  destruct (dumpfile_accepts plain_state s' sample_file (sample_header 0)
              [sample_header 1]) as (_ & _ & Hall); try reflexivity.
  - vm_compute. discriminate.
  - exact H.
  - intros i hdr Hi. destruct (Hall i hdr Hi) as (H1 & H2 & H3 & _).
    repeat split; assumption.
Defined.

Lemma dumpfile_loop_01 (f : image_file) : forall chunks s chunkno checkindex
    filesize,
  (dumpfile_loop f s chunks chunkno checkindex filesize).1 = 0
  \/ (dumpfile_loop f s chunks chunkno checkindex filesize).1 = 1.
Proof.
  intros chunks.
  induction chunks as [|hdr rest IH]; intros s chunkno checkindex filesize;
    simpl.
  - destruct (negb _ && negb _); [by right|].
    destruct (f_end f); auto.
  - destruct (negb _ && negb _); [by right|].
    match goal with
    | |- context [match ?first with inl _ => _ | inr _ => _ end] =>
        destruct first as [r|[[s1 ci] fs1]] eqn:Hfirst
    end.
    + simpl. destruct (chunkno =? 0); [|destruct (_ && _); discriminate].
      unfold dumpfile_first in Hfirst.
      destruct (_ || _); [inversion Hfirst; auto|].
      destruct (negb _); [inversion Hfirst; auto|].
      repeat match type of Hfirst with
             | context [if ?b then _ else _] => destruct b; simpl in Hfirst
             end; discriminate.
    + destruct (negb _); [by right|]. apply IH.
Qed.

Lemma dumpfile_01 (s : dump_state) (f : image_file) :
  (dumpfile s f).1 = 0 \/ (dumpfile s f).1 = 1.
Proof.
  unfold dumpfile. destruct (negb _ && negb _); [by right|].
  apply dumpfile_loop_01.
Qed.

Lemma main_loop_bounds : forall files s errors,
  errors <= main_loop s files errors <= errors + Z.of_nat (length files).
Proof.
  induction files as [|f rest IH]; intros s errors; simpl; [lia|].
  destruct (negb (f_isstdin f) && negb (f_open_ok f)).
  - specialize (IH s (errors + 1)). lia.
  - pose proof (dumpfile_01 s f) as H01.
    destruct (dumpfile s f) as [r s1]. simpl in H01.
    specialize (IH s1 (errors + r)). lia.
Qed.

Lemma main_loop_zero : forall files s,
  main_loop s files 0 = 0 ->
  Forall (fun f => f_isstdin f = true \/ f_open_ok f = true) files.
Proof.
  induction files as [|f rest IH]; intros s H; simpl in H; [constructor|].
  destruct (negb (f_isstdin f) && negb (f_open_ok f)) eqn:Hopen.
  - pose proof (main_loop_bounds rest s (0 + 1)). lia.
  - pose proof (dumpfile_01 s f) as H01.
    destruct (dumpfile s f) as [r s1]. simpl in H01.
    pose proof (main_loop_bounds rest s1 (0 + r)).
    assert (r = 0) by lia. subst r.
    constructor; [|exact (IH _ H)].
    destruct (f_isstdin f), (f_open_ok f); auto; discriminate.
Qed.

Lemma exit_status_mod (n : Z) : exit_status n = n mod 256.
Proof.
  unfold exit_status. change 0xff with (Z.ones 8).
  rewrite Z.land_ones by lia. reflexivity.
Qed.

Lemma exit_status_small (n : Z) : 0 <= n < 256 -> exit_status n = n.
Proof. intros H. rewrite exit_status_mod. by apply Z.mod_small. Qed.

(** The exit status is the low 8 bits of the count of the files that
    failed.  With fewer than 256 files named it is that count: it is never
    more than the number of files named (1 when none is), and a status of
    0 means that every file named was opened.  A file that cannot be opened
    does not keep the others from being read. *)
Theorem imagedump_main_status (s : dump_state) (version : Z)
    (files : list image_file) :
  0 <= imagedump_main s version files < 256
  /\ ((length files < 256)%nat ->
      imagedump_main s version files <= Z.max 1 (Z.of_nat (length files))
      /\ (version = 0 -> imagedump_main s version files = 0 ->
          files <> []
          /\ Forall (fun f => f_isstdin f = true \/ f_open_ok f = true)
               files)).
Proof.
  split.
  { unfold imagedump_main.
    repeat match goal with
           | |- context [if ?b then _ else _] => destruct b
           end; rewrite exit_status_mod; apply Z.mod_pos_bound; lia. }
  intros Hlen. pose proof (main_loop_bounds files s 0) as Hb.
  unfold imagedump_main. split.
  - destruct (negb (version =? 0)); [rewrite exit_status_small; lia|].
    case_bool_decide; [rewrite exit_status_small; lia|].
    destruct (negb _ && _); rewrite exit_status_small; lia.
  - intros -> H. simpl in H.
    case_bool_decide as Hnil; [rewrite exit_status_small in H; lia|].
    destruct (negb _ && _); [rewrite exit_status_small in H; lia|].
    rewrite exit_status_small in H by lia.
    split; [exact Hnil|]. exact (main_loop_zero _ _ H).
Qed.

Lemma imagedump_main_status_witness :
  imagedump_main plain_state 0 [sample_file] = 0
  /\ Forall (fun f => f_isstdin f = true \/ f_open_ok f = true) [sample_file].
Proof.
  assert (H : imagedump_main plain_state 0 [sample_file] = 0)
    by (vm_compute; reflexivity).
  split; [exact H|].
  assert (Hlen : (length [sample_file] < 256)%nat) by (simpl; lia).
  exact (proj2 (proj2 (proj2 (imagedump_main_status plain_state 0
                                [sample_file]) Hlen) eq_refl H)).
Defined.

(** A file that cannot be opened counts as one error, and the file after it
    is still read.  With 256 files that cannot be opened the count does not
    fit the exit status, which is 0. *)
Example imagedump_main_missing :
  imagedump_main plain_state 0 [missing_file; sample_file] = 1
  /\ imagedump_main plain_state 0 [missing_file; missing_file] = 2
  /\ imagedump_main plain_state 0 (replicate 256 missing_file) = 0.
Proof. repeat split; vm_compute; reflexivity. Qed.

(** ** [hashmap_update_chunk] *)

Section UpdateChunkFacts.
Context {F : Type}.
Implicit Types (st : hm_state F).
Variable HASH_CHUNKDOESSPAN : Z -> bool.
Variable HASH_CHUNKSETSPAN : Z -> Z.

Lemma update_chunk_loop_marks (ssect lsect chunkno : Z) :
  0 <= ssect -> 0 < lsect ->
  forall regs,
    Forall region32 regs ->
    StronglySorted (fun a b => hr_start a <= hr_start b) regs ->
    Forall (straddler_marked HASH_CHUNKDOESSPAN ssect lsect) regs ->
    update_chunk_loop HASH_CHUNKDOESSPAN HASH_CHUNKSETSPAN ssect (lsect - 1)
      chunkno regs
    = Ret (mark_chunk HASH_CHUNKSETSPAN ssect lsect chunkno <$> regs).
Proof.
  intros Hs Hl regs. induction regs as [|r regs IH]; intros Hw Hsort Hm.
  { reflexivity. }
  apply Forall_cons in Hw as [(H0 & Hsz & H32) Hw].
  apply StronglySorted_inv in Hsort as [Hsort Hle].
  apply Forall_cons in Hm as [Hr Hm].
  specialize (IH Hw Hsort Hm). simpl.
  rewrite (u32_small (hr_start r)) by lia.
  rewrite (u32_small (hr_start r + hr_size r - 1)) by lia.
  unfold mark_chunk at 1.
  destruct (Z.ltb_spec (hr_start r + hr_size r - 1) ssect) as [He|He].
  { rewrite IH. simpl.
    destruct (Z.leb_spec ssect (hr_start r)); [lia|]. reflexivity. }
  destruct (Z.ltb_spec (lsect - 1) (hr_start r)) as [Hb|Hb].
  { destruct (Z.ltb_spec (hr_start r) lsect); [lia|].
    rewrite andb_false_r. do 2 f_equal.
    clear IH Hw Hsort Hm. symmetry.
    induction regs as [|q regs IHq]; [reflexivity|].
    apply Forall_cons in Hle as [Hq Hle]. simpl. rewrite (IHq Hle).
    unfold mark_chunk.
    destruct (Z.ltb_spec (hr_start q) lsect); [lia|].
    rewrite andb_false_r. reflexivity. }
  destruct (Z.ltb_spec (hr_start r) ssect) as [Hlt|Hge].
  { unfold straddler_marked in Hr. rewrite Hr by lia. simpl. rewrite IH. simpl.
    destruct (Z.leb_spec ssect (hr_start r)); [lia|]. reflexivity. }
  rewrite IH. simpl.
  destruct (Z.leb_spec ssect (hr_start r)); [|lia].
  destruct (Z.ltb_spec (hr_start r) lsect); [|lia]. simpl.
  destruct (Z.leb_spec (hr_start r + hr_size r - 1) (lsect - 1)),
    (Z.leb_spec (hr_start r + hr_size r) lsect); try lia; reflexivity.
Qed.

(** With the regions of the new signature in ascending order, not empty
    and within 32 bits, and the regions that run into the chunk from before
    it marked as spanning, [hashmap_update_chunk] gives the chunk number to
    exactly the regions that start in [ssect, lsect), marks those of them
    that run past [lsect], and changes nothing else. *)
Theorem hashmap_update_chunk_marks st (hi : hashinfo) (ssect lsect chunkno : Z) :
  nhinfo st = NhLive hi ->
  0 <= chunkno ->
  0 <= ssect < 2 ^ 64 ->
  0 < lsect < 2 ^ 64 ->
  Forall region32 (hi_regions hi) ->
  StronglySorted (fun a b => hr_start a <= hr_start b) (hi_regions hi) ->
  Forall (straddler_marked HASH_CHUNKDOESSPAN ssect lsect) (hi_regions hi) ->
  hashmap_update_chunk HASH_CHUNKDOESSPAN HASH_CHUNKSETSPAN st ssect lsect
    chunkno
  = Ret (set_nhinfo
           (NhLive {| hi_version := hi_version hi;
                      hi_hashtype := hi_hashtype hi;
                      hi_blksize := hi_blksize hi;
                      hi_regions := mark_chunk HASH_CHUNKSETSPAN ssect lsect
                                      chunkno <$> hi_regions hi |}) st).
Proof.
  intros Hnh Hc Hs Hl Hw Hsort Hm. unfold hashmap_update_chunk.
  destruct (Z.leb_spec 0 chunkno); [|lia]. simpl. rewrite Hnh.
  rewrite (u64_small ssect), (u64_small lsect) by lia.
  rewrite (u64_small (lsect - 1)) by lia.
  rewrite update_chunk_loop_marks by (assumption || lia). reflexivity.
Qed.

End UpdateChunkFacts.

Lemma hashmap_update_chunk_marks_witness :
  hashmap_update_chunk sample_doesspan sample_setspan
    (sample_state 0 16 (NhLive {| hi_version := 3; hi_hashtype := 2;
                                  hi_blksize := 16;
                                  hi_regions := regions_10_14_40 |}) ∅)
    12 20 5
  = Ret (sample_state 0 16
           (NhLive {| hi_version := 3; hi_hashtype := 2; hi_blksize := 16;
                      hi_regions :=
                        [ set_chunkno (sample_setspan 4)
                            (sample_region 10 4 []);
                          set_chunkno 5 (sample_region 14 4 []);
                          set_chunkno (sample_setspan 5)
                            (sample_region 18 16 []);
                          sample_region 40 8 [] ] |}) ∅).
Proof.
  eapply eq_trans;
    [apply (hashmap_update_chunk_marks sample_doesspan sample_setspan
              (sample_state 0 16
                 (NhLive {| hi_version := 3; hi_hashtype := 2;
                            hi_blksize := 16;
                            hi_regions := regions_10_14_40 |}) ∅)
              {| hi_version := 3; hi_hashtype := 2; hi_blksize := 16;
                 hi_regions := regions_10_14_40 |} 12 20 5)
    |reflexivity]; try reflexivity; try lia.
  - repeat constructor; simpl; lia.
  - repeat constructor; simpl; lia.
  - repeat constructor; unfold straddler_marked; simpl; (reflexivity || lia).
Defined.

(** ** Writing a signature and reading it back *)

Section WriteReadFacts.
Context {K : imagehash_h} {F : Type}.
Implicit Types (st : hm_state F) (E : delta_env F).

Lemma hashregion_eta (r : hashregion) :
  {| hr_start := hr_start r; hr_size := hr_size r;
     hr_chunkno := hr_chunkno r; hr_hash := hr_hash r |} = r.
Proof. by destruct r. Qed.

Lemma add_poffset_loop_relative blksize off regs :
  0 <= off ->
  Forall (fun r => hr_size r <= blksize /\ off <= hr_start r < 2 ^ 64) regs ->
  add_poffset_loop blksize off (relative off <$> regs) = Ret regs.
Proof.
  intros Hoff. induction 1 as [|r regs (Hs & Hlo & Hhi) _ IH].
  { reflexivity. }
  simpl.
  change (list_fmap hashregion hashregion (relative off) regs)
    with (relative off <$> regs).
  destruct (Z.leb_spec (hr_size r) blksize); [|lia]. rewrite IH. simpl.
  rewrite (u64_small (hr_start r - off)) by lia.
  replace (hr_start r - off + off) with (hr_start r) by lia.
  rewrite u64_small by lia. by rewrite hashregion_eta.
Qed.

Lemma narrow_read_back blksize off :
  0 <= off ->
  forall regs regs32,
    Forall (fun r => hr_size r <= blksize /\ off <= hr_start r < 2 ^ 64) regs ->
    narrow_loop (relative off <$> regs) = Some regs32 ->
    add_poffset_loop blksize off (widen <$> regs32) = Ret (widen <$> regs).
Proof.
  intros Hoff regs. induction regs as [|r regs IH]; intros regs32 Hall H.
  { inversion H; subst. reflexivity. }
  apply Forall_cons in Hall as [(Hs & Hlo & Hhi) Hall].
  simpl in H. rewrite (u64_small (hr_start r - off)) in H by lia.
  destruct (Z.ltb_spec UINT32_MAX (hr_start r - off)) as [|Hfit];
    [discriminate|].
  change (list_fmap hashregion hashregion (relative off) regs)
    with (relative off <$> regs) in H.
  destruct (narrow_loop (relative off <$> regs)) as [rest|] eqn:Hrest;
    [|discriminate].
  simpl in H. inversion H; subst regs32. simpl.
  change (list_fmap hashregion hashregion widen rest) with (widen <$> rest).
  destruct (Z.leb_spec (hr_size r) blksize); [|lia].
  rewrite (IH rest Hall eq_refl). simpl. f_equal. f_equal.
  unfold widen. simpl. f_equal.
  - unfold UINT32_MAX in Hfit. rewrite u32_small by lia.
    replace (hr_start r - off + off) with (hr_start r) by lia.
    by rewrite u64_small by lia.
  - by rewrite take_take, Nat.min_id.
Qed.

Lemma sub_poffset_loop_asserts blksize off regs : forall regs',
  sub_poffset_loop blksize off regs = Ret regs' ->
  Forall (fun r => hr_size r <= blksize /\ off <= hr_start r) regs.
Proof.
  induction regs as [|r regs IH]; intros regs' H; [constructor|].
  simpl in H.
  apply bind_Ret in H as [[] [Ha H]]. apply assert_Ret in Ha.
  apply bind_Ret in H as [[] [Hb H]]. apply assert_Ret in Hb.
  apply bind_Ret in H as [rest [Hrest _]].
  constructor; [lia|]. exact (IH _ Hrest).
Qed.

(** What the conversion step hands to [write]. *)
Lemma convert_out (W : write_env) (ivers : Z) (hi : hashinfo) st0 out wide st1 :
  convert W ivers hi st0 = (out, wide, st1) ->
  writes (trace st1) = writes (trace st0)
  /\ ((wide = true /\ out = hi)
      \/ (wide = false
          /\ exists regs32,
               narrow_loop (hi_regions hi) = Some regs32
               /\ out = {| hi_version := HASH_VERSION_2;
                           hi_hashtype := hi_hashtype hi;
                           hi_blksize := hashblksize st0;
                           hi_regions := regs32 |})).
Proof.
  unfold convert.
  destruct (ivers <? COMPRESSED_V5); [|intros H; inversion H; subst; auto].
  destruct (hi_hashtype hi =? HASH_TYPE_SHA256).
  { intros H; inversion H; subst. simpl. rewrite writes_app, app_nil_r. auto. }
  destruct (w_cvt_ok W); simpl.
  2:{ intros H; inversion H; subst. simpl. rewrite writes_app, app_nil_r.
      auto. }
  destruct (narrow_loop (hi_regions hi)) as [regs32|].
  2:{ intros H; inversion H; subst. simpl. rewrite writes_app, app_nil_r.
      auto. }
  intros H; inversion H; subst. simpl. rewrite writes_app, app_nil_r.
  split; [reflexivity|]. right. split; [reflexivity|]. eauto.
Qed.

(** A call that returns 0 has written one signature. *)
Lemma hashmap_write_hashfile_written (W : write_env) st (fname iname : string)
    (ivers : Z) (hi0 : hashinfo) st' :
  nhinfo st = NhLive hi0 ->
  hashmap_write_hashfile W st fname iname ivers = Ret (0, st') ->
  poffset st <> 2 ^ 64 - 1
  /\ Forall (fun r => hr_size r <= hi_blksize hi0 /\ poffset st <= hr_start r)
       (hi_regions hi0)
  /\ exists wide out,
       writes (trace st') = writes (trace st) ++ [(wide, out)]
       /\ let hi := {| hi_version := hi_version hi0;
                       hi_hashtype := hi_hashtype hi0;
                       hi_blksize := hi_blksize hi0;
                       hi_regions := relative (poffset st)
                                       <$> hi_regions hi0 |} in
          (wide = true /\ out = hi)
          \/ (wide = false
              /\ exists regs32,
                   narrow_loop (hi_regions hi) = Some regs32
                   /\ out = {| hi_version := HASH_VERSION_2;
                               hi_hashtype := hi_hashtype hi0;
                               hi_blksize := hashblksize st;
                               hi_regions := regs32 |}).
Proof.
  intros Hnh H. unfold hashmap_write_hashfile in H.
  apply bind_Ret in H as [[] [Hne H]]. apply assert_Ret in Hne.
  apply negb_true_iff, Z.eqb_neq in Hne. split; [exact Hne|].
  rewrite Hnh in H. apply bind_Ret in H as [regs [Hregs H]].
  pose proof (sub_poffset_loop_asserts _ _ _ _ Hregs) as Hsz.
  apply sub_poffset_loop_Ret in Hregs as [-> _].
  split; [exact Hsz|].
  set (hi := {| hi_version := hi_version hi0; hi_hashtype := hi_hashtype hi0;
                hi_blksize := hi_blksize hi0;
                hi_regions := relative (poffset st) <$> hi_regions hi0 |})
    in *.
  assert (Htail : forall st0 path,
             writes (trace st0) = writes (trace st) ->
             hashblksize st0 = hashblksize st ->
             (let '(out, wide, st1) := convert W ivers hi st0 in
              let st2 := emit (EvWrite path wide out) st1 in
              if negb (w_write_ok W)
              then Ret (-1, emit (EvStderr MsgIncompleteWrite) st2)
              else Ret (0, emit (EvStderr MsgWritten)
                             (if negb (bool_decide (iname = "-"%string))
                                 && negb (w_stat_ok W && w_utimes_ok W)
                              then emit (EvStderr MsgMtimeWarning) st2
                              else st2))) = Ret (0, st') ->
             exists wide out,
               writes (trace st') = writes (trace st) ++ [(wide, out)]
               /\ ((wide = true /\ out = hi)
                   \/ (wide = false
                       /\ exists regs32,
                            narrow_loop (hi_regions hi) = Some regs32
                            /\ out = {| hi_version := HASH_VERSION_2;
                                        hi_hashtype := hi_hashtype hi0;
                                        hi_blksize := hashblksize st;
                                        hi_regions := regs32 |}))).
  { intros st0 path Htr Hb Hw.
    destruct (convert W ivers hi st0) as [[out wide] st1] eqn:Hc.
    apply convert_out in Hc as [Hw1 Hout]. rewrite Hb in Hout.
    exists wide, out. split; [|exact Hout].
    destruct (w_write_ok W); simpl in Hw; [|inversion Hw; lia].
    destruct (negb (bool_decide (iname = "-"%string))
              && negb (w_stat_ok W && w_utimes_ok W));
      inversion Hw; subst st'; simpl; rewrite !writes_app; simpl;
      rewrite ?app_nil_r, Hw1, Htr; reflexivity. }
  destruct (w_name_ok W); simpl in H; [|inversion H; lia].
  destruct (w_open_ok W (sig_name fname iname)).
  { exact (Htail (set_nhinfo (NhLive hi) st) (sig_name fname iname)
             eq_refl eq_refl H). }
  destruct (w_tmpname_ok W); simpl in H; [|inversion H; lia].
  destruct (w_open_ok W SigTmpPid); [|inversion H; lia].
  apply (Htail (emit (EvStderr MsgPerror) (set_nhinfo (NhLive hi) st))
           SigTmpPid); [|reflexivity|exact H].
  simpl. rewrite writes_app, app_nil_r. reflexivity.
Qed.

(** A signature of version 3 that [hashmap_write_hashfile] has written is
    read back by [readhashinfo], for the same partition, as the signature
    that was in memory before the write: the same regions with their
    absolute starts when the 64-bit records were written, and those regions
    with their hashes cut to the 32-bit record's length and padded with
    zeros when the file was written as version 2. *)
Theorem hashmap_write_read_round_trip (W : write_env) E st stR
    (fname iname : string) (ivers : Z) (hi0 : hashinfo) st' :
  versions_distinct ->
  nhinfo st = NhLive hi0 ->
  hi_version hi0 = HASH_VERSION_3 ->
  hi_blksize hi0 = hashblksize st ->
  0 <= poffset st ->
  Forall (fun r => hr_start r < 2 ^ 64) (hi_regions hi0) ->
  hashmap_write_hashfile W st fname iname ivers = Ret (0, st') ->
  poffset stR = poffset st ->
  (forall n, (n < nalloc stR + 3)%nat -> e_alloc E n = true) ->
  exists wide out stR' hi',
    writes (trace st') = writes (trace st) ++ [(wide, out)]
    /\ readhashinfo E stR (SigContents true out true)
       = Ret (0, stR', Some hi')
    /\ hi_regions hi'
       = (if wide then hi_regions hi0 else widen <$> hi_regions hi0)
    /\ hi_version hi' = (if wide then HASH_VERSION_3 else HASH_VERSION)
    /\ hi_hashtype hi' = hi_hashtype hi0
    /\ hi_blksize hi' = hashblksize st
    /\ hashblksize stR' = hashblksize st.
Proof.
  intros (H12 & H13 & H23) Hnh Hv Hblk Hoff Hhi Hcall HoffR Halloc.
  destruct (hashmap_write_hashfile_written _ _ _ _ _ _ _ Hnh Hcall)
    as (Hne & Hlo & wide & out & Hwr & Hout).
  exists wide, out.
  assert (Hsz : Forall (fun r => hr_size r <= hashblksize st
                                 /\ poffset st <= hr_start r < 2 ^ 64)
                  (hi_regions hi0)).
  { rewrite Hblk in Hlo. clear -Hlo Hhi.
    induction Hhi as [|r l Hr _ IH]; [constructor|].
    apply Forall_cons in Hlo as [[? ?] Hlo]. constructor; [lia|auto]. }
  assert (A0 : e_alloc E (nalloc stR) = true) by (apply Halloc; lia).
  assert (A1 : e_alloc E (S (nalloc stR)) = true) by (apply Halloc; lia).
  assert (A2 : e_alloc E (S (S (nalloc stR))) = true) by (apply Halloc; lia).
  assert (Hpo : negb (poffset stR =? 2 ^ 64 - 1) = true).
  { rewrite HoffR. by apply negb_true_iff, Z.eqb_neq. }
  unfold readhashinfo. rewrite Hpo. simpl.
  destruct Hout as [(-> & ->)|(-> & regs32 & Hn & ->)]; simpl.
  - rewrite Hv.
    rewrite (proj2 (Z.eqb_neq HASH_VERSION_3 HASH_VERSION_1)) by congruence.
    rewrite (proj2 (Z.eqb_neq HASH_VERSION_3 HASH_VERSION_2)) by congruence.
    rewrite Z.eqb_refl. simpl. unfold alloc. simpl. rewrite A0. simpl.
    rewrite HoffR, Hblk, (add_poffset_loop_relative _ _ _ Hoff Hsz). simpl.
    rewrite A1. simpl. rewrite Hv, Hblk in Hwr.
    eexists _, _. split; [exact Hwr|].
    split; [reflexivity|]. by repeat split.
  - rewrite (proj2 (Z.eqb_neq HASH_VERSION_2 HASH_VERSION_1)) by congruence.
    rewrite Z.eqb_refl. simpl. unfold alloc. simpl. rewrite A0. simpl.
    rewrite A1. simpl.
    rewrite HoffR, (narrow_read_back _ _ Hoff _ _ Hsz Hn). simpl.
    rewrite A2. simpl. eexists _, _. split; [exact Hwr|].
    split; [reflexivity|]. by repeat split.
Qed.

End WriteReadFacts.

Lemma hashmap_write_read_round_trip_witness :
  exists wide out stR' hi',
    writes (trace written_15) = writes (trace state_15) ++ [(wide, out)]
    /\ readhashinfo (K := sample_imagehash) (sample_env 3)
         (sample_state 10 0 NhNull ∅) (SigContents true out true)
       = Ret (0, stR', Some hi')
    /\ hi_regions hi'
       = (if wide then [sample_region 15 8 (replicate 32 7)]
          else widen (K := sample_imagehash)
                 <$> [sample_region 15 8 (replicate 32 7)])
    /\ hi_version hi' = (if wide then 3 else 3)
    /\ hi_hashtype hi' = 2
    /\ hi_blksize hi' = 128
    /\ hashblksize stR' = 128.
Proof.
  apply (hashmap_write_read_round_trip (K := sample_imagehash) write_all_ok
           (sample_env 3) state_15 (sample_state 10 0 NhNull ∅)
           "" "image.ndz" COMPRESSED_V2
           (sample_hashinfo 2 [sample_region 15 8 (replicate 32 7)])
           written_15).
  - repeat split; discriminate.
  - reflexivity.
  - reflexivity.
  - reflexivity.
  - simpl. lia.
  - repeat constructor.
  - reflexivity.
  - reflexivity.
  - intros n Hn. simpl in *. apply bool_decide_eq_true. lia.
Defined.

(** ** A first signature: [hashmap_compute_delta] without a signature file *)

Section NewSignatureFacts.
Context {K : imagehash_h} {F : Type}.
Implicit Types (st : hm_state F) (E : delta_env F).

Lemma add_to_range_nhinfo E st start size rv st' :
  add_to_range E st start size = Ret (rv, st') ->
  nhinfo st' = nhinfo st.
Proof.
  unfold add_to_range, tail_node, set_tail_node, alloc. simpl.
  destruct (range_tail st) as [t|].
  - destruct (heap st !! t) as [tail|]; [|discriminate].
    destruct (_ =? _); [by intros H; inversion H|]. simpl.
    destruct (e_alloc E (nalloc st)); simpl; by intros H; inversion H.
  - destruct (_ =? _); [by intros H; inversion H|]. simpl.
    destruct (e_alloc E (nalloc st)); simpl; by intros H; inversion H.
Qed.

Lemma add_to_hashmap_regions E st rstart rsize rv st' :
  0 < hashblksize st < 2 ^ 32 ->
  0 <= poffset st <= rstart ->
  0 <= rsize < 2 ^ 32 ->
  rstart + rsize < 2 ^ 64 ->
  add_to_hashmap E st rstart rsize None = Ret (rv, st') ->
  exists new,
    regions_of (nhinfo st') = regions_of (nhinfo st) ++ new
    /\ (rv = 0 ->
        piece_of <$> new
        = hash_pieces (hashblksize st) (poffset st) rstart rsize).
Proof.
  intros Hb Hoff Hs Hsum H.
  assert (Hmod : 0 <= (rstart - poffset st) `mod` hashblksize st
                 < hashblksize st) by (apply Z.mod_pos_bound; lia).
  unfold add_to_hashmap in H.
  rewrite (u64_small rstart), (u32_small rsize) in H by lia.
  destruct (Z.eqb_spec (hashblksize st) 0); [lia|].
  rewrite (u64_small (rstart - _)) in H by lia.
  rewrite u32_small in H by lia.
  apply bind_Ret in H as [[] [_ H]].
  apply add_to_hashmap_loop_Ret in H
    as (_ & _ & _ & new & Hnew & _ & Hp & _); try lia.
  exists new. split; [exact Hnew|exact Hp].
Qed.

Lemma add_new_regions E h0 st O start size st' :
  out_inv h0 st O ->
  0 < hashblksize st < 2 ^ 32 ->
  0 <= poffset st <= start ->
  0 <= size < 2 ^ 32 ->
  start + size < 2 ^ 64 ->
  add_new E st true start size = Ret (0, st') ->
  piece_of <$> regions_of (nhinfo st')
  = (piece_of <$> regions_of (nhinfo st))
    ++ hash_pieces (hashblksize st) (poffset st) start size.
Proof.
  intros Hinv Hb Hoff Hs Hsum H. unfold add_new in H.
  apply bind_Ret in H as [[rv1 st1] [Hadd H]].
  pose proof (add_to_range_nhinfo _ _ _ _ _ _ Hadd) as Hnh.
  apply (add_to_range_spec _ _ _ _ _ _ _ _ Hinv) in Hadd
    as ((Hblk & _ & _ & _ & Hpo & _) & _).
  destruct (rv1 <? 0); [inversion H; lia|].
  apply bind_Ret in H as [[rv2 st2] [Hh H]].
  apply add_to_hashmap_regions in Hh as (new & Hnew & Hp);
    try (rewrite ?Hblk, ?Hpo; lia).
  destruct (Z.eqb_spec rv2 0) as [->|]; inversion H; subst.
  rewrite Hnew, fmap_app, Hnh, (Hp eq_refl), Hblk, Hpo. reflexivity.
Qed.

Lemma trailing_loop_regions E h0 (at_ereg : bool) fuel :
  forall st drange O R st',
    out_inv h0 st O -> cur_inv h0 drange R -> wf32 R ->
    0 < hashblksize st < 2 ^ 32 -> 0 <= poffset st ->
    Forall (fun p => poffset st <= p.1) R ->
    trailing_loop fuel E true at_ereg st drange = Ret (0, st') ->
    piece_of <$> regions_of (nhinfo st')
    = (piece_of <$> regions_of (nhinfo st))
      ++ signature_pieces (hashblksize st) (poffset st) R.
Proof.
  induction fuel as [|fuel IH];
    intros st drange O R st' Hinv Hcur Hwf Hb Hoff Hlo H; simpl in H.
  - destruct drange as [d|]; [discriminate|]. inversion H; subst.
    simpl in Hcur. subst R. unfold signature_pieces. simpl.
    by rewrite app_nil_r.
  - destruct drange as [d|].
    2:{ inversion H; subst. simpl in Hcur. subst R.
        unfold signature_pieces. simpl. by rewrite app_nil_r. }
    destruct Hcur as (Lr & -> & Hl).
    apply wf32_cons in Hwf as [Hd Hwf]. simpl in Hd.
    apply Forall_cons in Hlo as [Hlo0 Hlo]. simpl in Hlo0.
    apply bind_Ret in H as [[] [_ H]].
    apply bind_Ret in H as [[rv1 st1] [Hnew H]].
    pose proof Hnew as Hnew0.
    apply (add_new_spec _ _ _ _ _ _ _ _ _ Hinv) in Hnew
      as ((Hblk & _ & _ & _ & Hpo & _) & Hrv1 & O1 & Hinv1 & _).
    destruct (Z.eqb_spec rv1 0) as [->|Hne]; simpl in H.
    2:{ inversion H; lia. }
    apply (add_new_regions _ _ _ _ _ _ _ Hinv) in Hnew0; try lia.
    apply bind_Ret in H as [dr1 [Hcp H]].
    apply bind_Ret in H as [[] [_ H]].
    destruct (COPYRANGE_spec _ _ _ _ _ Hinv1 Hl) as (dr & Hcp' & Hcur1).
    rewrite Hcp in Hcp'. inversion Hcp'; subst dr.
    apply (IH _ _ _ _ _ Hinv1 Hcur1 Hwf) in H;
      try (rewrite ?Hblk, ?Hpo; (lia || assumption)).
    rewrite H, Hnew0, Hblk, Hpo, <- app_assoc. reflexivity.
Qed.

Lemma first_signature_aux fuel E st curranges L
    (infd ssect : Z) :
  rlist (heap st) curranges L ->
  wf32 (vals L) ->
  0 <= ssect < 2 ^ 64 ->
  Forall (fun p => ssect <= p.1) (vals L) ->
  0 < bytestosec HASHBLK_SIZE < 2 ^ 32 ->
  (length L <= fuel)%nat ->
  hashmap_compute_delta fuel E st curranges None infd ssect true <> NoFuel
  /\ forall st' nranges,
       hashmap_compute_delta fuel E st curranges None infd ssect true
       = Ret (0, st', Some nranges) ->
       exists hi N,
         nhinfo st' = NhLive hi
         /\ hi_version hi = HASH_VERSION
         /\ hi_hashtype hi = (if HASH_VERSION_3 <=? HASH_VERSION
                              then HASH_TYPE_SHA256 else HASH_TYPE_SHA1)
         /\ hi_blksize hi = (if HASH_VERSION =? HASH_VERSION_1
                             then HASHBLK_SIZE else bytestosec HASHBLK_SIZE)
         /\ piece_of <$> hi_regions hi
            = (piece_of <$> regions_of (nhinfo st))
              ++ signature_pieces (bytestosec HASHBLK_SIZE) ssect (vals L)
         /\ rlist (heap st') nranges N
         /\ (forall x, cov (vals N) x <-> cov (vals L) x)
         /\ poffset st' = ssect
         /\ hashblksize st' = bytestosec HASHBLK_SIZE.
Proof.
  intros HL HwfL Hss Hlo Hblk Hlen.
  destruct (decide (curranges = None)) as [->|Hc].
  { split; [discriminate|]. intros st' nranges H. discriminate. }
  set (st0 := set_imagefd_poffset infd (u64 ssect) st).
  set (hinfo := {| hi_version := HASH_VERSION;
                   hi_hashtype := if HASH_VERSION_3 <=? HASH_VERSION
                                  then HASH_TYPE_SHA256 else HASH_TYPE_SHA1;
                   hi_blksize := bytestosec HASHBLK_SIZE;
                   hi_regions := [] |}).
  destruct (e_alloc E (nalloc st)) eqn:A0.
  2:{ assert (Hu : hashmap_compute_delta fuel E st curranges None infd ssect
                     true = Undefined).
      { unfold hashmap_compute_delta, delta_hinfo, alloc.
        rewrite bool_decide_eq_true_2 by exact Hc. simpl.
        rewrite A0. reflexivity. }
      rewrite Hu. split; [discriminate|]. intros st' nranges H. discriminate. }
  destruct (e_alloc E (S (nalloc st))) eqn:A1.
  2:{ assert (Hu : exists st1,
                 hashmap_compute_delta fuel E st curranges None infd ssect true
                 = Ret (-1, st1, None)).
      { unfold hashmap_compute_delta, delta_hinfo, alloc.
        rewrite bool_decide_eq_true_2 by exact Hc. simpl.
        rewrite A0. simpl. rewrite A1. simpl. eauto. }
      destruct Hu as [st1 Hu]. rewrite Hu. split; [discriminate|].
      intros st' nranges H. discriminate. }
  assert (Hh : exists st1,
             delta_hinfo E st0 None = Ret (0, st1, Some hinfo)
             /\ hashblksize st1 = bytestosec HASHBLK_SIZE
             /\ poffset st1 = ssect /\ nhinfo st1 = nhinfo st).
  { unfold delta_hinfo, alloc. simpl. rewrite A0. simpl. rewrite A1. simpl.
    eexists. split; [reflexivity|]. simpl.
    rewrite u64_small by lia. by repeat split. }
  destruct Hh as (st1 & Hh & Hb1 & Hp1 & Hn1).
  assert (Hregs : Forall hreg_ok (hi_regions hinfo)) by constructor.
  split.
  { apply (compute_delta_fuel _ _ _ _ L _ _ _ _ _ _ _ HL HwfL Hh Hregs);
      [|exact Hlen].
    unfold blk_ok. rewrite Hb1. lia. }
  intros st' nranges H.
  destruct (compute_delta_coverage _ _ _ _ _ _ _ _ _ _ _ _ _ _
              HL HwfL Hh Hregs H) as (N & HN & Hcov1 & Hcov2).
  rewrite (compute_delta_unfold fuel E st curranges None infd ssect true
             0 st1 hinfo Hc Hh) in H.
  pose proof (delta_hinfo_heap _ _ _ _ _ _ Hh) as Hheap1. simpl in Hheap1.
  destruct (walk_start_inv E st1 (select_hash (hi_hashtype hinfo)).2
              (select_hash (hi_hashtype hinfo)).1 true)
    as (Hinv & Hd & _).
  rewrite Hheap1 in Hinv.
  set (st2 := walk_start E st1 _ _ true) in *.
  assert (Hb2 : hashblksize st2 = bytestosec HASHBLK_SIZE) by exact Hb1.
  assert (Hp2 : poffset st2 = ssect) by exact Hp1.
  assert (Hn2 : nhinfo st2 = nhinfo st) by exact Hn1.
  simpl in H.
  destruct (COPYRANGE_spec _ _ _ _ _ Hinv HL) as (dr & Hcopy & Hcur).
  rewrite Hcopy in H. simpl in H.
  apply bind_Ret in H as [[] [_ H]].
  apply bind_Ret in H as [[rv4 st4] [Htrail H]].
  destruct (Z.eqb_spec rv4 0) as [->|Hne]; simpl in H.
  2:{ apply bind_Ret in H as [st5 [_ H]]. inversion H. }
  pose proof Htrail as Htrail0.
  apply (trailing_loop_spec _ _ _ _ (fun _ => True) _ _ _ _ _ _ Hinv)
    in Htrail0 as ((Hb4 & _ & _ & _ & Hp4 & _) & _).
  apply (trailing_loop_regions _ _ _ _ _ _ _ _ _ Hinv Hcur HwfL) in Htrail;
    try (rewrite ?Hb2, ?Hp2; (lia || assumption)).
  rewrite Hb2, Hp2, Hn2 in Htrail.
  apply bind_Ret in H as [st5 [Hfin H]]. inversion H; subst st' nranges.
  unfold finish_nhinfo in Hfin.
  apply bind_Ret in Hfin as [[cur st6] [Hcr Hfin]]. inversion Hfin; subst st5.
  eexists _, N. split; [reflexivity|]. simpl.
  split; [reflexivity|]. split; [reflexivity|]. split; [reflexivity|].
  split.
  - rewrite <- Htrail.
    destruct (nhinfo st4) as [|hi4|hi4|]; simpl in Hcr; try discriminate.
    + unfold alloc in Hcr. simpl in Hcr.
      apply bind_Ret in Hcr as [[] [_ Hcr]]. by inversion Hcr.
    + by inversion Hcr.
  - split; [exact HN|]. split.
    + intros x. split; [apply Hcov2|].
      intros Hx. destruct (Hcov1 x Hx) as [?|(hreg & Hin & _)]; [done|].
      by apply elem_of_nil in Hin.
    + assert (Hst6 : poffset st6 = poffset st4
                     /\ hashblksize st6 = hashblksize st4).
      { destruct (nhinfo st4) as [|hi4|hi4|]; simpl in Hcr; try discriminate.
        - unfold alloc in Hcr. simpl in Hcr.
          apply bind_Ret in Hcr as [[] [_ Hcr]]. by inversion Hcr.
        - by inversion Hcr. }
      destruct Hst6 as [-> ->]. rewrite Hp4, Hb4. by split.
Qed.


(** The first signature of an image.  The call is made without a
    signature file and with a new signature asked for; [curranges] is a
    list of ranges that are not empty, end below 2^32 (a range that ends at
    2^32 or beyond is left out: [add_to_range] would take a range that
    starts at sector 2^32 - 1 for a continuation of [dummy_head]), and
    start at or after [ssect], a 64-bit number; the default hash block is
    between 1 and 2^32 - 1 sectors long; and the loops get one turn for
    every range.  Then [hashmap_compute_delta] does not run out of turns,
    and when it returns 0 the new signature has the current version and the
    default block size, its regions are the allocated ranges, in order, cut
    at the multiples of the block size counted from [ssect] (after the
    regions that were there before the call), and the returned list covers
    the sectors of the allocated ranges and no others. *)
Theorem hashmap_compute_delta_first_signature fuel E st curranges L
    (infd ssect : Z) :
  rlist (heap st) curranges L ->
  wf32 (vals L) ->
  0 <= ssect < 2 ^ 64 ->
  Forall (fun p => ssect <= p.1) (vals L) ->
  0 < bytestosec HASHBLK_SIZE < 2 ^ 32 ->
  (length L <= fuel)%nat ->
  hashmap_compute_delta fuel E st curranges None infd ssect true <> NoFuel
  /\ forall st' nranges,
       hashmap_compute_delta fuel E st curranges None infd ssect true
       = Ret (0, st', Some nranges) ->
       exists hi N,
         nhinfo st' = NhLive hi
         /\ hi_version hi = HASH_VERSION
         /\ hi_hashtype hi = (if HASH_VERSION_3 <=? HASH_VERSION
                              then HASH_TYPE_SHA256 else HASH_TYPE_SHA1)
         /\ hi_blksize hi = (if HASH_VERSION =? HASH_VERSION_1
                             then HASHBLK_SIZE else bytestosec HASHBLK_SIZE)
         /\ piece_of <$> hi_regions hi
            = (piece_of <$> regions_of (nhinfo st))
              ++ signature_pieces (bytestosec HASHBLK_SIZE) ssect (vals L)
         /\ rlist (heap st') nranges N
         /\ forall x, cov (vals N) x <-> cov (vals L) x.
Proof.
  intros HL HwfL Hss Hlo Hblk Hlen.
  destruct (first_signature_aux fuel E st curranges L infd ssect
              HL HwfL Hss Hlo Hblk Hlen) as [Hnf H].
  split; [exact Hnf|]. intros st' nranges Hcall.
  destruct (H st' nranges Hcall)
    as (hi & N & Hnh & Hv & Ht & Hb & Hp & HN & Hcov & _).
  exists hi, N. repeat (split; [assumption|]). exact Hcov.
Qed.

End NewSignatureFacts.

(** The ranges [100,200) and [300,320) of a partition at sector 10, with
    blocks of 128 sectors: the first range is cut at sector 138. *)
Lemma hashmap_compute_delta_first_signature_witness :
  exists st' nranges,
    hashmap_compute_delta (K := sample_imagehash) 10 (sample_env 100)
      (initial_state heap_100_300) (Some 1%positive) None 3 10 true
    = Ret (0, st', Some nranges)
    /\ exists hi N,
         nhinfo st' = NhLive hi
         /\ hi_version hi = 3
         /\ hi_hashtype hi = 3
         /\ hi_blksize hi = 128
         /\ piece_of <$> hi_regions hi = [(100, 38); (138, 62); (300, 20)]
         /\ rlist (heap st') nranges N
         /\ forall x, cov (vals N) x <-> cov (vals ranges_100_300) x.
Proof.
  assert (Hcall : exists st' nranges,
             hashmap_compute_delta (K := sample_imagehash) 10 (sample_env 100)
               (initial_state heap_100_300) (Some 1%positive) None 3 10 true
             = Ret (0, st', Some nranges)).
  { eexists. eexists. vm_compute. reflexivity. }
  destruct Hcall as (st' & nranges & Hcall).
  exists st', nranges. split; [exact Hcall|].
  destruct (hashmap_compute_delta_first_signature (K := sample_imagehash) 10
              (sample_env 100) (initial_state heap_100_300) (Some 1%positive)
              ranges_100_300 3 10) as [_ H].
  - split; [reflexivity|]. exists (Some 2%positive). split; [reflexivity|].
    split; [reflexivity|]. exists None. split; reflexivity.
  - repeat constructor; simpl; lia.
  - lia.
  - repeat constructor; simpl; lia.
  - vm_compute. split; reflexivity.
  - simpl. lia.
  - exact (H st' nranges Hcall).
Defined.

(** The one range [2^32 - 1, 2^32), which ends at 2^32: [add_to_range]
    takes it for a continuation of [dummy_head], and the list returned is
    empty. *)
Example hashmap_compute_delta_last_sector :
  exists st',
    hashmap_compute_delta (K := sample_imagehash) 10 (sample_env 100)
      (initial_state (<[1%positive := range_node (2 ^ 32 - 1) 1 None]> ∅))
      (Some 1%positive) None 3 0 true
    = Ret (0, st', Some None).
Proof. eexists. vm_compute. reflexivity. Qed.

(** ** Writing the first signature *)

Section FirstSignatureWritten.
Context {K : imagehash_h} {F : Type}.
Implicit Types (st : hm_state F) (E : delta_env F).

Lemma pieces_from_bounds n : forall blk start size offset,
  0 < blk -> 0 <= offset < blk ->
  Forall (fun p => start <= p.1 /\ 0 < p.2 <= blk)
    (pieces_from n blk start size offset).
Proof.
  induction n as [|n IH]; intros blk start size offset Hb Ho; simpl.
  - destruct (size <=? 0); constructor.
  - destruct (Z.leb_spec size 0); [constructor|].
    constructor; [simpl; lia|].
    eapply Forall_impl; [apply IH; lia|]. simpl. intros p ?. lia.
Qed.

Lemma signature_pieces_bounds blk ssect R :
  0 < blk -> Forall (fun p => ssect <= p.1) R ->
  Forall (fun p => ssect <= p.1 /\ 0 < p.2 <= blk)
    (signature_pieces blk ssect R).
Proof.
  intros Hb HR. unfold signature_pieces.
  induction HR as [|p R Hp _ IH]; simpl; [constructor|].
  apply Forall_app. split; [|exact IH].
  eapply Forall_impl;
    [apply pieces_from_bounds; [lia|apply Z.mod_pos_bound; lia]|].
  simpl. intros q ?. lia.
Qed.

Lemma bytestosec_le b : 0 < bytestosec b -> bytestosec b <= b.
Proof.
  unfold bytestosec, SECSIZE. intros H.
  assert (0 <= b).
  { destruct (Z_lt_le_dec b 0) as [Hn|]; [|lia].
    pose proof (Z.div_lt_upper_bound b 512 0 ltac:(lia) ltac:(lia)). lia. }
  apply Z.div_le_upper_bound; lia.
Qed.

(** With its assertions met, [hashmap_write_hashfile] returns, and it
    returns 0 when the file is opened and written. *)
Lemma hashmap_write_hashfile_runs (W : write_env) st (fname iname : string)
    (ivers : Z) (hi0 : hashinfo) :
  nhinfo st = NhLive hi0 ->
  write_pre st hi0 ->
  exists rv st',
    hashmap_write_hashfile W st fname iname ivers = Ret (rv, st')
    /\ (sig_opened W fname iname -> w_write_ok W = true -> rv = 0).
Proof.
  intros Hnh [Hoff Hall]. unfold hashmap_write_hashfile, sig_opened.
  apply Z.eqb_neq in Hoff. rewrite Hoff, Hnh. simpl.
  rewrite (sub_poffset_loop_total _ _ _ Hall). simpl.
  destruct (w_name_ok W); simpl.
  2:{ eexists _, _. split; [reflexivity|]. intros [? _]. discriminate. }
  destruct (w_open_ok W (sig_name fname iname)).
  - destruct (convert W ivers _ _) as [[out wide] st1].
    destruct (w_write_ok W); simpl; eexists _, _;
      (split; [reflexivity|]); [reflexivity|discriminate].
  - destruct (w_tmpname_ok W); simpl.
    2:{ eexists _, _. split; [reflexivity|].
        intros [_ [?|[? _]]]; discriminate. }
    destruct (w_open_ok W SigTmpPid).
    2:{ eexists _, _. split; [reflexivity|].
        intros [_ [?|[_ ?]]]; discriminate. }
    destruct (convert W ivers _ _) as [[out wide] st1].
    destruct (w_write_ok W); simpl; eexists _, _;
      (split; [reflexivity|]); [reflexivity|discriminate].
Qed.

(** The signature that [hashmap_compute_delta] builds when there was none
    meets the assertions of [hashmap_write_hashfile]: the call that writes
    it returns, and returns 0 when the file is opened and written. *)
Theorem hashmap_first_signature_written fuel E (W : write_env) st curranges L
    (infd ssect : Z) st' nranges (fname iname : string) (ivers : Z) :
  rlist (heap st) curranges L ->
  wf32 (vals L) ->
  0 <= ssect < 2 ^ 64 - 1 ->
  Forall (fun p => ssect <= p.1) (vals L) ->
  0 < bytestosec HASHBLK_SIZE < 2 ^ 32 ->
  (length L <= fuel)%nat ->
  nhinfo st = NhNull ->
  hashmap_compute_delta fuel E st curranges None infd ssect true
  = Ret (0, st', Some nranges) ->
  exists rv st'',
    hashmap_write_hashfile W st' fname iname ivers = Ret (rv, st'')
    /\ (sig_opened W fname iname -> w_write_ok W = true -> rv = 0).
Proof.
  intros HL HwfL Hss Hlo Hblk Hlen Hnull Hcall.
  destruct (first_signature_aux fuel E st curranges L infd ssect
              HL HwfL ltac:(lia) Hlo Hblk Hlen) as [_ H].
  destruct (H st' nranges Hcall)
    as (hi & N & Hnh & _ & _ & Hb & Hp & _ & _ & Hpo & _).
  apply (hashmap_write_hashfile_runs W st' fname iname ivers hi Hnh).
  split; [rewrite Hpo; lia|].
  rewrite Hnull in Hp. simpl in Hp.
  pose proof (signature_pieces_bounds _ _ _ (proj1 Hblk) Hlo) as Hbd.
  rewrite <- Hp in Hbd. apply Forall_fmap in Hbd.
  eapply Forall_impl; [exact Hbd|]. simpl. intros r [Hr1 Hr2].
  rewrite Hpo. split; [|exact Hr1].
  pose proof (bytestosec_le _ (proj1 Hblk)).
  rewrite Hb. destruct (_ =? _); lia.
Qed.

End FirstSignatureWritten.

Lemma hashmap_first_signature_written_witness :
  exists rv st'',
    hashmap_write_hashfile (K := sample_imagehash) write_all_ok
      first_signature_run.1 "" "image.ndz" COMPRESSED_V5
    = Ret (rv, st'')
    /\ (sig_opened write_all_ok "" "image.ndz" ->
        w_write_ok write_all_ok = true -> rv = 0).
Proof.
  apply (hashmap_first_signature_written (K := sample_imagehash) 10
           (sample_env 100) write_all_ok (initial_state heap_100_300)
           (Some 1%positive) ranges_100_300 3 10
           first_signature_run.1 first_signature_run.2).
  - split; [reflexivity|]. exists (Some 2%positive). split; [reflexivity|].
    split; [reflexivity|]. exists None. split; reflexivity.
  - repeat constructor; simpl; lia.
  - lia.
  - repeat constructor; simpl; lia.
  - vm_compute. split; reflexivity.
  - simpl. lia.
  - reflexivity.
  - vm_compute. reflexivity.
Defined.

(** ** [add_to_hashmap] and the assertions of [hash_range] *)

Section AddToHashmapRuns.
Context {K : imagehash_h} {F : Type}.
Implicit Types (st : hm_state F) (E : delta_env F).

Lemma hash_range_runs E st start size hash :
  0 <= imagefd st -> hashfunc st <> None -> hashlen st <> 0 ->
  size <= hashblksize st ->
  exists rv st' hash',
    hash_range E st start size hash = Ret (rv, st', hash')
    /\ (rv = 0 \/ rv = -1)
    /\ (rv = -1 -> e_read E (sectobytes start) (sectobytes size) = None).
Proof.
  intros Hfd Hf Hl Hs. unfold hash_range.
  destruct (Z.leb_spec 0 (imagefd st)); [|lia]. simpl.
  rewrite bool_decide_eq_true_2 by exact Hf. simpl.
  destruct (Z.eqb_spec (hashlen st) 0); [contradiction|]. simpl.
  destruct (Z.leb_spec size (hashblksize st)); [|lia]. simpl.
  destruct (hashfunc st) as [f|]; [|contradiction].
  destruct (e_read E _ _) as [data|].
  - destruct (e_hasfixup E _ _ _).
    + destruct (e_applyfixups E _ _ _ _) as [fx d1].
      eexists _, _, _. split; [reflexivity|]. split; [by left|discriminate].
    + eexists _, _, _. split; [reflexivity|]. split; [by left|discriminate].
  - eexists _, _, _. split; [reflexivity|]. split; [by right|done].
Qed.

Lemma addhash_runs E st start size hash :
  (forall n, e_alloc E n = true) ->
  nhinfo st = NhNull \/ (exists hi, nhinfo st = NhLive hi) ->
  exists st' hi',
    addhash E st start size hash = Ret (0, st') /\ nhinfo st' = NhLive hi'.
Proof.
  intros Ha Hnh. unfold addhash, alloc.
  destruct Hnh as [->|[hi ->]]; simpl.
  - rewrite Ha. simpl. rewrite Ha. simpl.
    eexists _, _. split; reflexivity.
  - destruct (_ =? 0); simpl.
    + rewrite Ha. simpl. eexists _, _. split; reflexivity.
    + eexists _, _. split; reflexivity.
Qed.

Lemma add_to_hashmap_loop_runs E fuel :
  (forall n, e_alloc E n = true) ->
  forall st rstart rsize offset rhash,
    hashing_ready st -> 0 <= offset < hashblksize st ->
    0 <= rsize < 2 ^ 32 -> (Z.to_nat rsize <= fuel)%nat ->
    exists rv st',
      add_to_hashmap_loop fuel E st rstart rsize offset rhash = Ret (rv, st')
      /\ (rv = 0 \/ rv = -1)
      /\ (rv = -1 -> rhash = None /\ exists a n, e_read E a n = None).
Proof.
  intros Ha. induction fuel as [|fuel IH];
    intros st rstart rsize offset rhash Hr Ho Hs Hf; simpl.
  { destruct (Z.leb_spec rsize 0); [|lia].
    eexists _, _. split; [reflexivity|]. split; [by left|lia]. }
  destruct (Z.leb_spec rsize 0) as [|Hpos].
  { eexists _, _. split; [reflexivity|]. split; [by left|lia]. }
  destruct Hr as (Hb & Hpo & Hfd & Hfn & Hl & Hnh).
  rewrite (hsize_min _ _ _ Hb Ho).
  set (h := Z.min (hashblksize st - offset) rsize).
  assert (Hh : 0 < h <= rsize) by (unfold h; lia).
  assert (Hhb : h <= hashblksize st) by (unfold h; lia).
  assert (Hstep : exists rv1 st1 hash1,
             match rhash with
             | None => hash_range E st rstart h (e_uninit E)
             | Some h0 => Ret (0, st, h0)
             end = Ret (rv1, st1, hash1)
             /\ (rv1 = 0 \/ rv1 = -1)
             /\ (rv1 = -1 -> rhash = None /\ exists a n, e_read E a n = None)
             /\ same_walk st st1 /\ nhinfo st1 = nhinfo st).
  { destruct rhash as [h0|].
    - eexists _, _, _. split; [reflexivity|]. split; [by left|].
      split; [lia|]. split; [apply same_walk_refl|reflexivity].
    - destruct (hash_range_runs E st rstart h (e_uninit E) Hfd Hfn Hl Hhb)
        as (rv1 & st1 & hash1 & Hc & Hrv & Hfail).
      exists rv1, st1, hash1. split; [exact Hc|]. split; [exact Hrv|].
      apply hash_range_Ret in Hc as (Hw & Hn & _).
      split; [|by split]. intros Hm. split; [reflexivity|]. eauto. }
  destruct Hstep as (rv1 & st1 & hash1 & -> & Hrv1 & Hfail1 & Hw1 & Hn1).
  simpl.
  destruct (Z.eqb_spec rv1 0) as [->|Hne]; simpl.
  2:{ eexists _, _. split; [reflexivity|]. split; [by right|].
      intros _. apply Hfail1. lia. }
  rewrite <- Hn1 in Hnh.
  destruct (addhash_runs E st1 rstart h hash1 Ha Hnh) as (st2 & hi2 & Hadd & Hn2).
  rewrite Hadd. simpl.
  apply addhash_Ret in Hadd as (Hw2 & _).
  pose proof (same_walk_trans _ _ _ Hw1 Hw2) as (Hb2 & Hl2 & Hf2 & Hfd2 & Hpo2 & _).
  apply IH.
  - unfold hashing_ready. rewrite Hb2, Hl2, Hf2, Hfd2, Hpo2.
    repeat (split; [assumption|]). right. eauto.
  - rewrite Hb2. lia.
  - unfold u32. apply Z.mod_pos_bound. lia.
  - rewrite u32_small by lia. lia.
Qed.

(** In a state where the image is open and the hash function chosen, and
    with memory to be had, [add_to_hashmap] returns 0 or -1: it asks
    [hash_range] only for ranges within one hash block, so that the
    assertion there holds, and it returns -1 only when no hash was given
    and a read of the disk fails. *)
Theorem add_to_hashmap_returns E st (rstart rsize : Z)
    (rhash : option (list Z)) :
  hashing_ready st ->
  (forall n, e_alloc E n = true) ->
  exists rv st',
    add_to_hashmap E st rstart rsize rhash = Ret (rv, st')
    /\ (rv = 0 \/ rv = -1)
    /\ (rv = -1 -> rhash = None /\ exists a n, e_read E a n = None).
Proof.
  intros Hr Ha. pose proof Hr as (Hb & Hpo & _).
  unfold add_to_hashmap.
  destruct (Z.eqb_spec (poffset st) (2 ^ 64 - 1)); [contradiction|]. simpl.
  destruct (Z.eqb_spec (hashblksize st) 0); [lia|].
  assert (Hm : 0 <= u64 (u64 rstart - poffset st) `mod` hashblksize st
               < hashblksize st) by (apply Z.mod_pos_bound; lia).
  apply add_to_hashmap_loop_runs; try assumption.
  - rewrite u32_small by lia. exact Hm.
  - unfold u32. apply Z.mod_pos_bound. lia.
  - lia.
Qed.

End AddToHashmapRuns.

Lemma add_to_hashmap_returns_witness :
  exists rv st',
    add_to_hashmap (K := sample_imagehash) sample_env_mem
      (set_hashfunc 20 (Some SHA1) (sample_state 10 128 NhNull ∅)) 100 300 None
    = Ret (rv, st')
    /\ (rv = 0 \/ rv = -1)
    /\ (rv = -1 ->
        @None (list Z) = None
        /\ exists a n, e_read sample_env_mem a n = None).
Proof.
  apply (add_to_hashmap_returns (K := sample_imagehash) sample_env_mem
           (set_hashfunc 20 (Some SHA1) (sample_state 10 128 NhNull ∅))
           100 300 None).
  - unfold hashing_ready. simpl. repeat split; try lia; try discriminate.
    by left.
  - reflexivity.
Defined.

(** ** event.c: the connection to the event server *)

Section EventFacts.
Variable lib_ok : nat -> bool.
Variable BUFSIZ : nat.
Variable BOSSNODE : string.

Lemma count_calls_snoc (f : ev_call -> bool) (l : list ev_call) (c : ev_call) :
  count_calls f (l ++ [c])
  = (count_calls f l + (if f c then 1 else 0))%nat.
Proof.
  unfold count_calls. rewrite filter_app, length_app. f_equal.
  rewrite filter_cons_bool. destruct (f c); reflexivity.
Qed.

Ltac ev_counts :=
  unfold ev_balanced in *; simpl in *; rewrite ?count_calls_snoc; simpl;
  repeat split; lia.

Lemma EventDeinit_balanced (st : ev_state) :
  ev_balanced st -> ev_balanced (EventDeinit st).
Proof.
  intros Hb. unfold EventDeinit. destruct st as [[h|] [t|] es n cs];
    simpl; try exact Hb; ev_counts.
Qed.

Lemma EventReinit_balanced (st : ev_state) :
  ev_balanced st ->
  ev_balanced (EventReinit lib_ok st).2
  /\ ((EventReinit lib_ok st).1 = 0 ->
      is_Some (ehandle (EventReinit lib_ok st).2)).
Proof.
  intros Hb. unfold EventReinit, ev_try.
  destruct st as [[h|] t [srv|] n cs]; simpl;
    try (split; [exact Hb|]; (eauto || discriminate)).
  destruct (lib_ok n); simpl.
  2:{ split; [|discriminate]. destruct t; ev_counts. }
  destruct (lib_ok (S n)); simpl.
  - split; [|eauto]. destruct t; ev_counts.
  - split; [|discriminate]. unfold EventDeinit. simpl.
    destruct t; ev_counts.
Qed.

Lemma EventInit_balanced (server : option string) (st : ev_state) :
  ev_balanced st -> ev_balanced (EventInit lib_ok BUFSIZ server st).2.
Proof.
  intros Hb. unfold EventInit. destruct server as [server|].
  - unfold ev_try, set_eserver. simpl.
    apply EventReinit_balanced. exact Hb.
  - destruct st as [[h|] [t|] es n cs]; ev_counts.
Qed.

Lemma EventSendClientReport_balanced (node image : option string)
    (tstamp seq : Z) (summary : option ClientSummary) (st : ev_state) :
  ev_balanced st ->
  exists rv st',
    EventSendClientReport lib_ok BOSSNODE node image tstamp seq summary st
    = Ret (rv, st')
    /\ ev_balanced st'.
Proof.
  intros Hb. unfold EventSendClientReport.
  assert (Hre : exists rv st0,
             match ehandle st with
             | Some _ => (0, st)
             | None => EventReinit lib_ok st
             end = (rv, st0)
             /\ ev_balanced st0 /\ (rv = 0 -> is_Some (ehandle st0))).
  { destruct (ehandle st) as [h|] eqn:He.
    - exists 0, st. split; [reflexivity|]. split; [exact Hb|].
      intros _. rewrite He. eauto.
    - destruct (EventReinit_balanced st Hb) as [Hb1 Hh1].
      destruct (EventReinit lib_ok st) as [rv st0].
      exists rv, st0. by split. }
  destruct Hre as (rv & st0 & -> & Hb0 & Hh0).
  destruct (Z.eqb_spec rv 0) as [->|Hne]; simpl; [|eauto].
  destruct (Hh0 eq_refl) as [h He]. clear Hh0 Hb st.
  destruct st0 as [eh [t|] es n cs]; simpl in He; subst eh; simpl.
  2:{ destruct Hb0 as [Hheld _]. simpl in Hheld. discriminate. }
  unfold ev_try. simpl.
  destruct (lib_ok n); simpl.
  2:{ eexists _, _. split; [reflexivity|]. ev_counts. }
  destruct summary as [s|]; simpl; destruct (lib_ok (S n)); simpl;
    eexists _, _; (split; [reflexivity|]); unfold EventDeinit; simpl;
    ev_counts.
Qed.

Lemma ev_run_balanced (cs : list ev_api) : forall st,
  ev_balanced st ->
  exists st', ev_run lib_ok BUFSIZ BOSSNODE cs st = Ret st' /\ ev_balanced st'.
Proof.
  induction cs as [|c cs IH]; intros st Hb; simpl; [eauto|].
  destruct c as [server| |node image tstamp seq summary]; simpl.
  - apply IH. by apply EventInit_balanced.
  - apply IH. by apply EventDeinit_balanced.
  - destruct (EventSendClientReport_balanced node image tstamp seq summary
                st Hb) as (rv & st1 & -> & Hb1).
    simpl. by apply IH.
Qed.

Lemma ev_initial_balanced : ev_balanced ev_initial.
Proof. by repeat split. Qed.

(** Whatever the library answers, no sequence of calls of [EventInit],
    [EventDeinit] and [EventSendClientReport] from the start of the
    program uses the address tuple or the handle while it is [NULL]: every
    call returns, and between calls the tuple is allocated exactly when
    the program is registered. *)
Theorem event_calls_return (cs : list ev_api) :
  exists st',
    ev_run lib_ok BUFSIZ BOSSNODE cs ev_initial = Ret st'
    /\ (is_Some (tuple st') <-> is_Some (ehandle st')).
Proof.
  destruct (ev_run_balanced cs ev_initial ev_initial_balanced)
    as (st' & Hrun & Hheld & _).
  exists st'. split; [exact Hrun|].
  destruct (tuple st'), (ehandle st'); simpl in Hheld; try discriminate;
    split; intros [? ?]; eauto; discriminate.
Qed.

(** After any sequence of calls from the start of the program, the
    handles registered and not unregistered, and the tuples allocated and
    not freed, are the ones the static variables point to (one of each, or
    none), and every notification that was allocated has been freed. *)
Theorem event_calls_balanced (cs : list ev_api) (st' : ev_state) :
  ev_run lib_ok BUFSIZ BOSSNODE cs ev_initial = Ret st' ->
  count_calls is_register_ok (calls st')
  = (count_calls is_unregister (calls st') + held (ehandle st'))%nat
  /\ count_calls is_tuple_alloc_ok (calls st')
     = (count_calls is_tuple_free (calls st') + held (tuple st'))%nat
  /\ count_calls is_notification_alloc_ok (calls st')
     = count_calls is_notification_free (calls st').
Proof.
  intros Hrun.
  destruct (ev_run_balanced cs ev_initial ev_initial_balanced)
    as (st1 & Hrun1 & _ & Hb).
  rewrite Hrun in Hrun1. inversion Hrun1; subst st1. exact Hb.
Qed.

End EventFacts.

Lemma event_calls_balanced_witness :
  let st' := match ev_run lib_flaky 1024 "boss" sample_calls ev_initial with
             | Ret st' => st'
             | _ => ev_initial
             end in
  count_calls is_register_ok (calls st')
  = (count_calls is_unregister (calls st') + held (ehandle st'))%nat
  /\ count_calls is_tuple_alloc_ok (calls st')
     = (count_calls is_tuple_free (calls st') + held (tuple st'))%nat
  /\ count_calls is_notification_alloc_ok (calls st')
     = count_calls is_notification_free (calls st').
Proof.
  apply (event_calls_balanced lib_flaky 1024 "boss" sample_calls).
  vm_compute. reflexivity.
Defined.

(** ** [hashmap_update_chunk], chunk after chunk *)

Section UpdateChunksFacts.
Context {F : Type}.
Implicit Types (st : hm_state F).
Variable HASH_CHUNKDOESSPAN : Z -> bool.
Variable HASH_CHUNKSETSPAN : Z -> Z.

(** What the two macros of [imagehash.h] are for. *)
Hypothesis doesspan_setspan :
  forall c, HASH_CHUNKDOESSPAN (HASH_CHUNKSETSPAN c) = true.

Lemma mark_chunk_start ssect lsect c r :
  hr_start (mark_chunk HASH_CHUNKSETSPAN ssect lsect c r) = hr_start r
  /\ hr_size (mark_chunk HASH_CHUNKSETSPAN ssect lsect c r) = hr_size r.
Proof. unfold mark_chunk. by destruct (_ && _). Qed.

Lemma mark_chunk_region32 ssect lsect c regs :
  Forall region32 regs ->
  Forall region32 (mark_chunk HASH_CHUNKSETSPAN ssect lsect c <$> regs).
Proof.
  intros H. apply Forall_fmap. eapply Forall_impl; [exact H|].
  intros r Hr. unfold region32, compose.
  destruct (mark_chunk_start ssect lsect c r) as [-> ->]. exact Hr.
Qed.

Lemma mark_chunk_sorted ssect lsect c regs :
  StronglySorted (fun a b => hr_start a <= hr_start b) regs ->
  StronglySorted (fun a b => hr_start a <= hr_start b)
    (mark_chunk HASH_CHUNKSETSPAN ssect lsect c <$> regs).
Proof.
  induction 1 as [|r regs Hs IH Hle]; simpl; constructor; [exact IH|].
  apply Forall_fmap. eapply Forall_impl; [exact Hle|].
  intros q Hq. unfold compose.
  destruct (mark_chunk_start ssect lsect c r) as [-> _].
  destruct (mark_chunk_start ssect lsect c q) as [-> _]. exact Hq.
Qed.

Lemma mark_chunk_span_marked ssect lsect c regs :
  ssect < lsect ->
  Forall (span_marked HASH_CHUNKDOESSPAN ssect) regs ->
  Forall (span_marked HASH_CHUNKDOESSPAN lsect)
    (mark_chunk HASH_CHUNKSETSPAN ssect lsect c <$> regs).
Proof.
  intros Hlt H. apply Forall_fmap. eapply Forall_impl; [exact H|].
  intros r Hr. unfold span_marked, compose in *.
  destruct (mark_chunk_start ssect lsect c r) as [-> ->].
  intros Hs He. unfold mark_chunk.
  destruct (Z.leb_spec ssect (hr_start r)) as [Hge|Hbefore]; simpl.
  - destruct (Z.ltb_spec (hr_start r) lsect); [|lia].
    destruct (Z.leb_spec (hr_start r + hr_size r) lsect); [lia|].
    simpl. apply doesspan_setspan.
  - apply Hr; lia.
Qed.

Lemma update_chunks_marks (calls : list (Z * Z)) : forall st hi ssect,
  nhinfo st = NhLive hi ->
  0 <= ssect ->
  calls_ok ssect calls ->
  Forall region32 (hi_regions hi) ->
  StronglySorted (fun a b => hr_start a <= hr_start b) (hi_regions hi) ->
  Forall (span_marked HASH_CHUNKDOESSPAN ssect) (hi_regions hi) ->
  update_chunks HASH_CHUNKDOESSPAN HASH_CHUNKSETSPAN st ssect calls
  = Ret (set_nhinfo
           (NhLive {| hi_version := hi_version hi;
                      hi_hashtype := hi_hashtype hi;
                      hi_blksize := hi_blksize hi;
                      hi_regions := mark_chunks HASH_CHUNKSETSPAN ssect calls
                                      <$> hi_regions hi |}) st).
Proof.
  induction calls as [|[lsect c] calls IH];
    intros st hi ssect Hnh Hs Hok Hw Hsort Hm; simpl.
  { rewrite list_fmap_id. destruct st, hi. simpl in Hnh. subst.
    reflexivity. }
  destruct Hok as (Hl & Hc & Hok).
  unfold hashmap_update_chunk.
  destruct (Z.leb_spec 0 c); [|lia]. simpl. rewrite Hnh.
  rewrite (u64_small ssect), (u64_small lsect) by lia.
  rewrite (u64_small (lsect - 1)) by lia.
  rewrite update_chunk_loop_marks; try (assumption || lia).
  2:{ eapply Forall_impl; [exact Hm|]. intros r Hr.
      unfold straddler_marked, span_marked in *. intros; apply Hr; lia. }
  simpl.
  rewrite (IH _ {| hi_version := hi_version hi; hi_hashtype := hi_hashtype hi;
                   hi_blksize := hi_blksize hi;
                   hi_regions := mark_chunk HASH_CHUNKSETSPAN ssect lsect c
                                   <$> hi_regions hi |} lsect);
    try reflexivity; try lia; try assumption; simpl.
  - rewrite <- list_fmap_compose. reflexivity.
  - by apply mark_chunk_region32.
  - by apply mark_chunk_sorted.
  - apply mark_chunk_span_marked; [lia|exact Hm].
Qed.

(** Called for sector ranges that follow one another from [ssect], on a
    signature whose regions are in ascending order, not empty, within 32
    bits and all at or after [ssect], [hashmap_update_chunk] never fails
    its assertion: a region that runs into a range from the one before was
    marked as spanning by the call for that one.  In the end every region
    that starts in one of the ranges has that range's chunk number, marked
    when the region runs past the range. *)
Theorem hashmap_update_chunk_consecutive st (hi : hashinfo) (ssect : Z)
    (calls : list (Z * Z)) :
  nhinfo st = NhLive hi ->
  0 <= ssect ->
  calls_ok ssect calls ->
  Forall region32 (hi_regions hi) ->
  StronglySorted (fun a b => hr_start a <= hr_start b) (hi_regions hi) ->
  Forall (fun r => ssect <= hr_start r) (hi_regions hi) ->
  update_chunks HASH_CHUNKDOESSPAN HASH_CHUNKSETSPAN st ssect calls
  = Ret (set_nhinfo
           (NhLive {| hi_version := hi_version hi;
                      hi_hashtype := hi_hashtype hi;
                      hi_blksize := hi_blksize hi;
                      hi_regions := mark_chunks HASH_CHUNKSETSPAN ssect calls
                                      <$> hi_regions hi |}) st).
Proof.
  intros Hnh Hs Hok Hw Hsort Hlo.
  apply update_chunks_marks; try assumption.
  eapply Forall_impl; [exact Hlo|]. intros r Hr. unfold span_marked.
  simpl in Hr. intros ? ?. exfalso. lia.
Qed.

End UpdateChunksFacts.

Lemma sample_doesspan_setspan (c : Z) :
  sample_doesspan (sample_setspan c) = true.
Proof.
  unfold sample_doesspan, sample_setspan.
  rewrite Z.lor_spec, (Z.pow2_bits_true 31) by lia. apply orb_true_r.
Qed.

(** Chunks [10, 16), [16, 32) and [32, 64), numbered 0, 1 and 2. *)
Lemma hashmap_update_chunk_consecutive_witness :
  update_chunks sample_doesspan sample_setspan
    (sample_state 0 16 (NhLive {| hi_version := 3; hi_hashtype := 2;
                                  hi_blksize := 16;
                                  hi_regions := regions_fresh |}) ∅)
    10 [(16, 0); (32, 1); (64, 2)]
  = Ret (sample_state 0 16
           (NhLive {| hi_version := 3; hi_hashtype := 2; hi_blksize := 16;
                      hi_regions :=
                        [ sample_region 10 4 [];
                          set_chunkno (sample_setspan 0)
                            (sample_region 14 4 []);
                          set_chunkno (sample_setspan 1)
                            (sample_region 18 16 []);
                          set_chunkno 2 (sample_region 40 8 []) ] |}) ∅).
Proof.
  eapply eq_trans;
    [apply (hashmap_update_chunk_consecutive sample_doesspan sample_setspan
              sample_doesspan_setspan
              (sample_state 0 16
                 (NhLive {| hi_version := 3; hi_hashtype := 2;
                            hi_blksize := 16;
                            hi_regions := regions_fresh |}) ∅)
              {| hi_version := 3; hi_hashtype := 2; hi_blksize := 16;
                 hi_regions := regions_fresh |}
              10 [(16, 0); (32, 1); (64, 2)])
    |reflexivity]; try reflexivity; try lia.
  - simpl. lia.
  - repeat constructor; simpl; lia.
  - repeat constructor; simpl; lia.
  - repeat constructor; simpl; lia.
Defined.

(** ** imagedump.c: the hash in hexadecimal *)

Lemma hex_NoDup : NoDup hex.
Proof.
  unfold hex. simpl.
  repeat (constructor;
          [rewrite ?elem_of_cons, elem_of_nil; intuition discriminate|]).
  constructor.
Qed.

Lemma hex_at_Ret (d : Z) :
  0 <= d < 16 -> exists c, hex_at d = Ret c /\ hex !! Z.to_nat d = Some c.
Proof.
  intros Hd. unfold hex_at.
  destruct (hex !! Z.to_nat d) as [c|] eqn:Hc.
  - destruct (Z.leb_spec 0 d); [eauto|lia].
  - apply lookup_ge_None in Hc. simpl in Hc. lia.
Qed.

Lemma byte_digits (b : Z) :
  is_byte b ->
  0 <= Z.shiftr b 4 < 16 /\ 0 <= Z.land b 0xf < 16
  /\ b = 16 * Z.shiftr b 4 + Z.land b 0xf.
Proof.
  intros [H0 H1]. rewrite Z.shiftr_div_pow2 by lia.
  change 0xf with (Z.ones 4). rewrite Z.land_ones by lia.
  change (2 ^ 4) with 16.
  pose proof (Z.div_mod b 16 ltac:(lia)).
  pose proof (Z.mod_pos_bound b 16 ltac:(lia)).
  assert (0 <= b / 16) by (apply Z.div_pos; lia).
  assert (b / 16 < 16) by (apply Z.div_lt_upper_bound; lia).
  lia.
Qed.

Lemma spewhash_loop_digits (n : nat) : forall i h1 h2,
  0 <= i -> i + Z.of_nat n <= 16 ->
  Forall is_byte h1 -> Forall is_byte h2 ->
  (n <= length h1)%nat -> (n <= length h2)%nat ->
  exists s1 s2,
    spewhash_loop n i h1 = Ret s1 /\ spewhash_loop n i h2 = Ret s2
    /\ length s1 = (2 * n)%nat
    /\ (s1 = s2 -> take n h1 = take n h2).
Proof.
  induction n as [|n IH]; intros i h1 h2 Hi Hn Hb1 Hb2 Hl1 Hl2; simpl.
  { destruct (Z.ltb_spec 16 i); [lia|]. exists [], []. by repeat split. }
  destruct h1 as [|b1 h1]; [simpl in Hl1; lia|].
  destruct h2 as [|b2 h2]; [simpl in Hl2; lia|].
  apply Forall_cons in Hb1 as [Hb1 Hr1]. apply Forall_cons in Hb2 as [Hb2 Hr2].
  simpl in Hl1, Hl2.
  destruct (Z.leb_spec 16 i); [lia|].
  destruct (byte_digits b1 Hb1) as (Hh1 & Hlo1 & E1).
  destruct (byte_digits b2 Hb2) as (Hh2 & Hlo2 & E2).
  destruct (hex_at_Ret _ Hh1) as (c1 & -> & Hc1).
  destruct (hex_at_Ret _ Hlo1) as (d1 & -> & Hd1).
  destruct (hex_at_Ret _ Hh2) as (c2 & -> & Hc2).
  destruct (hex_at_Ret _ Hlo2) as (d2 & -> & Hd2).
  destruct (IH (i + 1) h1 h2) as (s1 & s2 & -> & -> & Hlen & Hinj);
    try assumption; try lia.
  simpl. eexists _, _. split; [reflexivity|]. split; [reflexivity|].
  split; [simpl; lia|].
  intros Heq. inversion Heq; subst c2 d2 s2.
  pose proof (NoDup_lookup _ _ _ _ hex_NoDup Hc1 Hc2).
  pose proof (NoDup_lookup _ _ _ _ hex_NoDup Hd1 Hd2).
  f_equal; [lia|]. by apply Hinj.
Qed.

(** [spewhash] loses nothing: for hashes of at most 16 bytes, as
    [dumpchunkhash] prints them, it stays inside its buffer and returns
    two digits for every byte, and two hashes that print the same are the
    same in their first [hlen] bytes. *)
Theorem spewhash_injective (h1 h2 : list Z) (hlen : Z) :
  0 <= hlen <= 16 ->
  Forall is_byte h1 -> Forall is_byte h2 ->
  hlen <= Z.of_nat (length h1) -> hlen <= Z.of_nat (length h2) ->
  exists s1 s2,
    spewhash h1 hlen = Ret s1 /\ spewhash h2 hlen = Ret s2
    /\ Z.of_nat (length s1) = 2 * hlen
    /\ (s1 = s2 -> take (Z.to_nat hlen) h1 = take (Z.to_nat hlen) h2).
Proof.
  intros Hl Hb1 Hb2 Hl1 Hl2. unfold spewhash.
  destruct (spewhash_loop_digits (Z.to_nat hlen) 0 h1 h2)
    as (s1 & s2 & E1 & E2 & Hlen & Hinj); try assumption; try lia.
  exists s1, s2. repeat split; try assumption. lia.
Qed.

Lemma spewhash_injective_witness :
  exists s1 s2,
    spewhash sample_md5 16 = Ret s1 /\ spewhash (rev sample_md5) 16 = Ret s2
    /\ Z.of_nat (length s1) = 2 * 16
    /\ (s1 = s2 -> take (Z.to_nat 16) sample_md5
                   = take (Z.to_nat 16) (rev sample_md5)).
Proof.
  apply (spewhash_injective sample_md5 (rev sample_md5) 16).
  - lia.
  - repeat constructor; unfold is_byte; lia.
  - simpl. repeat constructor; unfold is_byte; lia.
  - simpl. lia.
  - simpl. lia.
Defined.
